(** * DMM-GAPBS: a shallow embedding of the distributed graph kernels

    The development follows the sources of the repository:
    - [sliding_queue.h]: [SlidingQueue] and [QueueBuffer];
    - [bfs.cc]: the direction-optimizing breadth-first search;
    - [builder.h]: [ParallelPrefixSum] and [SquishCSR];
    - [tc.cc]: [OrderedCount] and its verifier;
    - [sssp.cc]: [RelaxEdges], [Shmem_DeltaStep] and its verifier.

    Node identifiers, weights and counters are machine integers of the
    source and are modelled in [Z]; arrays are lists indexed from 0; a
    symmetric object is a list with one entry per rank (PE). *)

From stdpp Require Import base option list numbers sorting.
From Stdlib Require Import ZArith Lia.

Local Open Scope Z_scope.

(** * Machine integers *)

Module CInt.

(** [int] of the source is 32 bits wide, two's complement. *)
Definition int_max : Z := 2147483647.
Definition int_min : Z := -2147483648.

Definition wrap (z : Z) : Z := (z + 2 ^ 31) `mod` 2 ^ 32 - 2 ^ 31.

(** C division truncates toward zero and is undefined on a zero
    divisor. *)
Definition div (a b : Z) : option Z :=
  if decide (b = 0) then None else Some (a `quot` b).

Definition rem (a b : Z) : option Z :=
  if decide (b = 0) then None else Some (a `rem` b).

(** [long] is 64 bits wide, and [size_t] is 64 bits wide and
    unsigned. *)
Definition wrap_long (z : Z) : Z := (z + 2 ^ 63) `mod` 2 ^ 64 - 2 ^ 63.

Definition to_size_t (z : Z) : Z := z `mod` 2 ^ 64.

End CInt.

(** * Arrays

    A [pvector] or a raw array is a list; an access outside it is an
    error. Indices of the source are signed, so they are in [Z]. *)

Definition lookupZ {A} (l : list A) (i : Z) : option A :=
  if decide (0 ≤ i) then l !! Z.to_nat i else None.

Definition storeZ {A} (l : list A) (i : Z) (x : A) : option (list A) :=
  if decide (0 ≤ i < Z.of_nat (length l)) then Some (<[Z.to_nat i := x]> l)
  else None.

(** A loop over the elements of [l] that threads a state and stops at
    the first error. *)
Fixpoint foldM {A B} (f : A → B → option A) (a : A) (l : list B) : option A :=
  match l with
  | [] => Some a
  | x :: l' => a' ← f a x; foldM f a' l'
  end.

(** An allocation of [size] elements whose initial content is
    [fresh]. *)
Definition alloc {A} (fresh : list A) (size : Z) : option (list A) :=
  if decide (Z.of_nat (length fresh) = size) then Some fresh else None.

(** * Graphs *)

Module Graph.

(** Modelled from the spec: [CSRGraph], whose declaration ([graph.h])
    is not among the sources. The graph is held in CSR form, with an
    outgoing and an incoming half; [out_neigh(u)] and [in_neigh(u)]
    dereference through the owner of [u] and give the neighbour list
    of [u] whichever rank asks. The model keeps the two families of
    neighbour lists, indexed by global vertex id. For an undirected
    graph the incoming lists are the outgoing ones. *)
Record CSRGraph (DestID : Type) : Type := mkCSRGraph {
  directed : bool;
  out_neighbors : list (list DestID);
  in_neighbors : list (list DestID)
}.

Arguments mkCSRGraph {DestID}.
Arguments directed {DestID}.
Arguments out_neighbors {DestID}.
Arguments in_neighbors {DestID}.

Section Graph.

Context {DestID : Type}.

Definition num_nodes (g : CSRGraph DestID) : Z :=
  Z.of_nat (length (out_neighbors g)).

Definition out_neigh (g : CSRGraph DestID) (n : Z) : list DestID :=
  default [] (lookupZ (out_neighbors g) n).

Definition in_neigh (g : CSRGraph DestID) (n : Z) : list DestID :=
  default [] (lookupZ (in_neighbors g) n).

Definition out_degree (g : CSRGraph DestID) (n : Z) : Z :=
  Z.of_nat (length (out_neigh g n)).

Definition num_edges_directed (g : CSRGraph DestID) : Z :=
  Z.of_nat (length (concat (out_neighbors g))).

(** An undirected graph stores each edge in both directions. *)
Definition num_edges (g : CSRGraph DestID) : Z :=
  if directed g then num_edges_directed g
  else num_edges_directed g `quot` 2.

End Graph.

(** An undirected graph given by its adjacency lists. *)
Definition undirected {DestID} (adj : list (list DestID)) : CSRGraph DestID :=
  mkCSRGraph false adj adj.

End Graph.

(** * Bitmaps *)

Module Bitmap.

Definition kBitsPerWord : Z := 64.

(** Modelled from the spec: [Bitmap], whose declaration ([bitmap.h]) is
    not among the sources: an array of [⌈n / word_bits⌉] words of 64
    bits, a full local copy on every rank, with [set_bit],
    [set_bit_atomic], [get_bit], [reset] and [merge], a bitwise-OR
    all-reduce. A position outside the array reads as a clear bit and
    cannot be set. *)
Definition Bitmap : Type := list Z.

Definition word_offset (pos : Z) : Z := pos `div` kBitsPerWord.
Definition bit_offset (pos : Z) : Z := pos `mod` kBitsPerWord.

Definition create (size : Z) : Bitmap :=
  replicate (Z.to_nat ((size + kBitsPerWord - 1) `div` kBitsPerWord)) 0.

Definition reset (bm : Bitmap) : Bitmap := replicate (length bm) 0.

Definition get_bit (bm : Bitmap) (pos : Z) : bool :=
  Z.testbit (default 0 (lookupZ bm (word_offset pos))) (bit_offset pos).

Definition set_bit (bm : Bitmap) (pos : Z) : Bitmap :=
  match lookupZ bm (word_offset pos) with
  | Some word =>
      default bm
        (storeZ bm (word_offset pos)
           (Z.lor word (Z.shiftl 1 (bit_offset pos))))
  | None => bm
  end.

(** The compare-and-swap loop of [set_bit_atomic] ends with the bit
    set in the word. *)
Definition set_bit_atomic (bm : Bitmap) (pos : Z) : Bitmap := set_bit bm pos.

(** Bitwise OR of the copies of all ranks. *)
Definition or_words (a b : Bitmap) : Bitmap := zip_with Z.lor a b.

Definition merge (copies : list Bitmap) : Bitmap :=
  match copies with
  | [] => []
  | bm :: rest => foldl or_words bm rest
  end.

End Bitmap.

(** * The block partition used by the BFS kernel (bfs.cc)

    Every step of the BFS kernel recomputes the same bounds from
    [g.num_nodes()], [pe] and [npes]:
    [offset = num_nodes / npes], [lower_bound = offset * pe], and
    [upper_bound] is [num_nodes] on the last PE and
    [lower_bound + offset] elsewhere. *)

Module Bounds.

Definition offset (num_nodes npes : Z) : option Z :=
  CInt.wrap <$> CInt.div num_nodes npes.

Definition lower_bound (off pe : Z) : Z := CInt.wrap (off * pe).

Definition upper_bound (num_nodes npes off pe : Z) : Z :=
  if decide (pe = npes - 1) then CInt.wrap num_nodes
  else CInt.wrap (lower_bound off pe + off).

End Bounds.

(** ** The owner of a remote neighbour in [SHMEM_TDStep]

    bfs.cc, lines 151-157: the [else] branch taken for a neighbour [v]
    outside the local bounds. The result is the pair
    [(foreign_pe, local_v)]. *)

Definition TDStep_foreign (parent_offset npes v : Z) : option (Z * Z) :=
  foreign_pe ← CInt.div v parent_offset;
  let foreign_pe := CInt.wrap foreign_pe in
  if decide (npes ≤ foreign_pe) then
    let foreign_pe := npes - 1 in
    Some (foreign_pe, CInt.wrap (v - CInt.wrap (parent_offset * foreign_pe)))
  else
    local_v ← CInt.rem v parent_offset;
    Some (foreign_pe, CInt.wrap local_v).

(** [parent_offset] is computed at the head of [SHMEM_TDStep]
    (line 114) before the owner of any neighbour is looked up. *)
Definition TDStep_owner (num_nodes npes v : Z) : option (Z * Z) :=
  parent_offset ← Bounds.offset num_nodes npes;
  TDStep_foreign parent_offset npes v.


(** * The sliding queue and its per-rank buffer (sliding_queue.h)

    The queue is a symmetric object: every rank holds its own copy of
    the backing array [shared] and of the three cursors. A rank reaches
    the copy of another rank only through one-sided operations. The
    world of the queue is the list of these copies, indexed by rank,
    together with the global lock word [QLOCK]. [size_t] cursors are
    natural numbers. *)

Module Queue.

Section Queue.

Context {T : Type}.

Record SlidingQueue : Type := mkSlidingQueue {
  shared : list T;
  shared_in : nat;
  shared_out_start : nat;
  shared_out_end : nat
}.

(** The constructor allocates with [shmem_calloc], which fills the
    array with the zero value [z] of [T], and calls [reset]. *)
Definition new (z : T) (shared_size : nat) : SlidingQueue :=
  mkSlidingQueue (replicate shared_size z) 0 0 0.

Definition reset (q : SlidingQueue) : SlidingQueue :=
  mkSlidingQueue (shared q) 0 0 0.

(** [shared[shared_in++] = to_add]; a store past the end of the array
    is an error. *)
Definition push_back (q : SlidingQueue) (to_add : T) : option SlidingQueue :=
  if decide (shared_in q < length (shared q))%nat then
    Some (mkSlidingQueue (<[shared_in q := to_add]> (shared q))
            (S (shared_in q)) (shared_out_start q) (shared_out_end q))
  else None.

Definition empty (q : SlidingQueue) : bool :=
  bool_decide (shared_out_start q = shared_out_end q).

Definition slide_window (q : SlidingQueue) : SlidingQueue :=
  mkSlidingQueue (shared q) (shared_in q) (shared_out_end q) (shared_in q).

Definition size (q : SlidingQueue) : nat :=
  (shared_out_end q - shared_out_start q)%nat.

(** The elements between [begin()] and [end()]. *)
Definition window (q : SlidingQueue) : list T :=
  take (size q) (drop (shared_out_start q) (shared q)).

(** ** One-sided operations on the queue

    Every operation of [QueueBuffer::flush] that touches symmetric
    memory or the lock is recorded in a log, in program order. *)

Inductive event : Type :=
  | SetLock
  | FetchAddIn (target_pe : nat) (amount : nat) (fetched : nat)
  | StdCopy (owner_pe : nat) (offset : nat) (items : list T)
  | Put64 (target_pe : nat) (offset : nat) (items : list T)
  | PutIn (target_pe : nat) (value : nat)
  | ClearLock.

Record world : Type := mkWorld {
  queues : list SlidingQueue;
  QLOCK : bool;
  log : list event
}.

(** State and error monad over the world. *)
Definition shmem (A : Type) : Type := world → option (A * world).

Definition ret {A} (a : A) : shmem A := λ w, Some (a, w).

Definition bind {A B} (m : shmem A) (k : A → shmem B) : shmem B :=
  λ w, match m w with
       | Some (a, w') => k a w'
       | None => None
       end.

Definition emit (e : event) (w : world) : world :=
  mkWorld (queues w) (QLOCK w) (log w ++ [e]).

(** [shmem_set_lock] blocks while the lock is held; in a run where the
    holder never releases it the caller does not return. *)
Definition shmem_set_lock : shmem unit :=
  λ w, if QLOCK w then None
       else Some (tt, emit SetLock (mkWorld (queues w) true (log w))).

Definition shmem_clear_lock : shmem unit :=
  λ w, Some (tt, emit ClearLock (mkWorld (queues w) false (log w))).

(** [shmem_ulong_atomic_fetch_add(&(sq.shared_in), amount, target)]. *)
Definition fetch_add_shared_in (amount target : nat) : shmem nat :=
  λ w, match queues w !! target with
       | Some q =>
           let q' := mkSlidingQueue (shared q) (shared_in q + amount)
                       (shared_out_start q) (shared_out_end q) in
           Some (shared_in q,
                 emit (FetchAddIn target amount (shared_in q))
                   (mkWorld (<[target := q']> (queues w)) (QLOCK w) (log w)))
       | None => None
       end.

(** Storing [items] at [offset] of an array; a store that does not fit
    is an error. *)
Definition store (l : list T) (offset : nat) (items : list T) : option (list T) :=
  if decide (offset + length items ≤ length l)%nat then
    Some (take offset l ++ items ++ drop (offset + length items) l)
  else None.

Definition store_shared (e : event) (target offset : nat) (items : list T)
    : shmem unit :=
  λ w, match queues w !! target with
       | Some q =>
           match store (shared q) offset items with
           | Some a =>
               let q' := mkSlidingQueue a (shared_in q)
                           (shared_out_start q) (shared_out_end q) in
               Some (tt, emit e (mkWorld (<[target := q']> (queues w))
                                   (QLOCK w) (log w)))
           | None => None
           end
       | None => None
       end.

(** [std::copy(first, last, shared_queue + offset)] on the caller. *)
Definition std_copy (owner offset : nat) (items : list T) : shmem unit :=
  store_shared (StdCopy owner offset items) owner offset items.

(** [shmem_put64(shared_queue + offset, src, nelems, target)]. *)
Definition shmem_put64 (offset : nat) (items : list T) (target : nat)
    : shmem unit :=
  store_shared (Put64 target offset items) target offset items.

(** [shmem_ulong_put(&(sq.shared_in), &value, 1, target)]. *)
Definition shmem_ulong_put_shared_in (value target : nat) : shmem unit :=
  λ w, match queues w !! target with
       | Some q =>
           let q' := mkSlidingQueue (shared q) value
                       (shared_out_start q) (shared_out_end q) in
           Some (tt, emit (PutIn target value)
                       (mkWorld (<[target := q']> (queues w)) (QLOCK w) (log w)))
       | None => None
       end.

(** The copy of a rank after a [shmem_put64] of [buf] at [offset] and a
    [shmem_ulong_put] of [value] into its [shared_in]. *)
Definition put_result (offset value : nat) (buf : list T) (q : SlidingQueue)
    : SlidingQueue :=
  mkSlidingQueue
    (take offset (shared q) ++ buf ++ drop (offset + length buf) (shared q))
    value (shared_out_start q) (shared_out_end q).

(** [for (int i = 0; i < npes; i++) body(i)], written over the list of
    the ranks still to visit. *)
Fixpoint for_pes (pes : list nat) (body : nat → shmem unit) : shmem unit :=
  match pes with
  | [] => ret tt
  | i :: pes' => bind (body i) (λ _, for_pes pes' body)
  end.

(** ** QueueBuffer *)

Record QueueBuffer : Type := mkQueueBuffer {
  in_ : nat;
  local_queue : list T;
  local_size : nat;
  pe : nat;
  npes : nat
}.

(** [new T[local_size]] leaves the elements uninitialised: their
    values [fresh] are whatever the allocation holds. *)
Definition new_buffer (fresh : list T) (pe npes : nat) : QueueBuffer :=
  mkQueueBuffer 0 fresh (length fresh) pe npes.

Definition with_in (b : QueueBuffer) (n : nat) : QueueBuffer :=
  mkQueueBuffer n (local_queue b) (local_size b) (pe b) (npes b).

(** [QueueBuffer::flush], lines 111-125. *)
Definition flush (b : QueueBuffer) : shmem QueueBuffer :=
  bind shmem_set_lock (λ _,
  bind (fetch_add_shared_in (in_ b) (pe b)) (λ copy_start,
  let copy_end := (copy_start + local_size b)%nat in
  bind (std_copy (pe b) copy_start (take (in_ b) (local_queue b))) (λ _,
  bind (for_pes (seq 0 (npes b)) (λ i,
          if decide (i ≠ pe b) then
            bind (shmem_put64 copy_start
                    (take (local_size b) (local_queue b)) i) (λ _,
            shmem_ulong_put_shared_in copy_end i)
          else ret tt)) (λ _,
  let b' := with_in b 0 in
  bind shmem_clear_lock (λ _,
  ret b'))))).

(** [QueueBuffer::push_back], lines 105-109. *)
Definition buffer_push_back (b : QueueBuffer) (to_add : T) : shmem QueueBuffer :=
  bind (if decide (in_ b = local_size b) then flush b else ret b) (λ b,
  if decide (in_ b < length (local_queue b))%nat then
    ret (mkQueueBuffer (S (in_ b)) (<[in_ b := to_add]> (local_queue b))
           (local_size b) (pe b) (npes b))
  else λ _, None).

(** The items staged in a buffer. *)
Definition staged (b : QueueBuffer) : list T := take (in_ b) (local_queue b).

(** A buffer of rank 0 in a job of one rank, whose [local_size] slots
    are allocated and at least one. *)
Definition alone (b : QueueBuffer) : Prop :=
  pe b = 0%nat ∧ npes b = 1%nat
  ∧ length (local_queue b) = local_size b
  ∧ (0 < local_size b)%nat
  ∧ (in_ b ≤ local_size b)%nat.

(** A sequence of calls of [QueueBuffer::push_back]. *)
Fixpoint push_all (b : QueueBuffer) (xs : list T) : shmem QueueBuffer :=
  match xs with
  | [] => ret b
  | x :: xs' => bind (buffer_push_back b x) (λ b, push_all b xs')
  end.

(** The copy of a rank when [items] have been appended at its
    [shared_in]. *)
Definition appended (q : SlidingQueue) (items : list T) : SlidingQueue :=
  mkSlidingQueue
    (take (shared_in q) (shared q) ++ items
       ++ drop (shared_in q + length items) (shared q))
    (shared_in q + length items) (shared_out_start q) (shared_out_end q).

(** ** The flush protocol in the words of the specification

    (1) take the global queue lock, (2) [fetch_add] on rank 0's
    [shared_in] to reserve [[copy_start, copy_start + in)], (3) [put]
    the staged items into every rank's backing array at that offset and
    [put] the updated [shared_in] to every rank, (4) release the
    lock. *)
Definition flush_spec (b : QueueBuffer) : shmem QueueBuffer :=
  bind shmem_set_lock (λ _,
  bind (fetch_add_shared_in (in_ b) 0) (λ copy_start,
  bind (for_pes (seq 0 (npes b)) (λ i,
          bind (shmem_put64 copy_start (take (in_ b) (local_queue b)) i) (λ _,
          shmem_ulong_put_shared_in (copy_start + in_ b) i))) (λ _,
  bind shmem_clear_lock (λ _,
  ret (with_in b 0))))).

End Queue.

Arguments SlidingQueue : clear implicits.
Arguments QueueBuffer : clear implicits.
Arguments event : clear implicits.
Arguments world : clear implicits.
Arguments shmem : clear implicits.

End Queue.

(** * Partitions *)

Module Partition.

(** Modelled from the spec: [Partition], whose declaration is not among
    the sources. [Partition(n, N)] has
    [partition_width = ⌊n/N⌋],
    [max_width = n − (N−1)·partition_width],
    [start(p) = p·partition_width] and
    [end(p) = start(p) + partition_width] for [p < N−1], else [n]. *)
Record Partition : Type := mkPartition {
  N : Z;
  pe : Z;
  npes : Z;
  partition_width : Z;
  max_width : Z;
  start : Z;
  end_ : Z
}.

Definition make (n pe npes : Z) : option Partition :=
  partition_width ← CInt.div n npes;
  let start := pe * partition_width in
  Some (mkPartition n pe npes partition_width
          (n - (npes - 1) * partition_width) start
          (if decide (pe < npes - 1) then start + partition_width else n)).

(** Modelled from the spec: the helpers of [Partition],
    [owner(x) = min(⌊x/partition_width⌋, N−1)], called [recv] in the
    sources, and [local_pos(x) = x − owner(x)·partition_width]. *)
Definition recv (p : Partition) (x : Z) : option Z :=
  q ← CInt.div x (partition_width p);
  Some (Z.min q (npes p - 1)).

Definition local_pos (p : Partition) (x : Z) : option Z :=
  owner ← recv p x;
  Some (x - owner * partition_width p).

End Partition.

(** * The graph builder (builder.h) *)

Module Builder.

(** ** Prefix sums *)

(** The running totals [a, a + x0, a + x0 + x1, ...] before each
    element of a list. *)
Fixpoint running (a : Z) (xs : list Z) : list Z :=
  match xs with
  | [] => []
  | x :: xs' => a :: running (a + x) xs'
  end.

Definition total (xs : list Z) : Z := foldr Z.add 0 xs.

(** [PrefixSum], lines 122-132. *)
Definition PrefixSum (degrees : list Z) : list Z :=
  running 0 degrees ++ [total degrees].

Definition block_size : Z := 2 ^ 20.

(** The elements [degrees[lo], ..., degrees[hi - 1]]. *)
Definition block (degrees : list Z) (lo hi : Z) : list Z :=
  take (Z.to_nat (hi - lo)) (drop (Z.to_nat lo) degrees).

(** [ParallelPrefixSum], lines 134-164. *)
Definition ParallelPrefixSum (degrees : list Z) : list Z :=
  let size := Z.of_nat (length degrees) in
  let num_blocks := (size + block_size - 1) `div` block_size in
  let block_end b := Z.min ((b + 1) * block_size) size in
  let local_sums :=
    (λ b, total (block degrees (b * block_size) (block_end b)))
      <$> seqZ 0 num_blocks in
  let bulk_prefix := running 0 local_sums ++ [total local_sums] in
  concat ((λ b, running (default 0 (lookupZ bulk_prefix b))
                  (block degrees (b * block_size) (block_end b)))
            <$> seqZ 0 num_blocks)
  ++ [default 0 (lookupZ bulk_prefix num_blocks)].

(** ** Squishing *)

Section Squish.

(** [DestID_] is ordered by [operator<] and compared by [operator==];
    [le x y] stands for [!(y < x)], [node d] is the vertex that a
    destination designates and [zero] the value of a cleared
    element. *)
Context {DestID : Type} (le : relation DestID).
Context `{!∀ x y, Decision (le x y)} `{!EqDecision DestID}.
Context (node : DestID → Z) (zero : DestID).

(** [std::sort(first, last)]: the elements in ascending order. *)
Definition std_sort (l : list DestID) : list DestID := merge_sort le l.

(** [std::unique(first, last)]: the first element of every run of
    equal elements. *)
Fixpoint unique_from (x : DestID) (l : list DestID) : list DestID :=
  match l with
  | [] => [x]
  | y :: l' => if decide (x = y) then unique_from x l'
               else x :: unique_from y l'
  end.

Definition std_unique (l : list DestID) : list DestID :=
  match l with
  | [] => []
  | x :: l' => unique_from x l'
  end.

(** [std::remove(first, last, n)]: the elements that do not compare
    equal to the vertex [n]. *)
Definition std_remove (n : Z) (l : list DestID) : list DestID :=
  filter (λ d, node d ≠ n) l.

(** [std::unique] and [std::remove] work in place: the kept elements
    move to the front of the range and the elements behind the new
    logical end stay as they were. *)
Definition in_place (kept range : list DestID) : list DestID :=
  kept ++ drop (length kept) range.

(** The body of the first loop of [SquishCSR], lines 174-185, on the
    neighbour range of vertex [n]: the range afterwards and the
    distance [new_end - n_start]. *)
Definition squish_range (n : Z) (range : list DestID) : list DestID * Z :=
  let sorted := std_sort range in
  let uniq := std_unique sorted in
  let range := in_place uniq sorted in
  let kept := std_remove n uniq in
  (in_place kept range, Z.of_nat (length kept)).

(** The neighbour ranges that [SquishCSR] works on. *)
Definition side (g : Graph.CSRGraph DestID) (transpose : bool)
    : list (list DestID) :=
  if transpose then Graph.in_neighbors g else Graph.out_neighbors g.

(** The first loop, lines 173-186: the neighbour ranges and [diffs]
    afterwards. *)
Definition squish_ranges (vp : Partition.Partition)
    (ranges : list (list DestID)) (diffs : list Z)
    : option (list (list DestID) * list Z) :=
  foldM (λ '(ranges, diffs) n,
           indx ← Partition.local_pos vp n;
           range ← lookupZ ranges n;
           let '(range, diff) := squish_range n range in
           ranges ← storeZ ranges n range;
           diffs ← storeZ diffs indx diff;
           Some (ranges, diffs))
        (ranges, diffs)
        (seqZ (Partition.start vp) (Partition.end_ vp - Partition.start vp)).

(** Modelled from the spec: [GenIndex] ([graph.h] is not among the
    sources) builds the per-rank index from the offsets: entry [i]
    points at [neighs + offsets[i]]. The index is kept as the list of
    these offsets. A half of a CSR on one rank is its index and its
    [neighs] array; the neighbour list of the local vertex [i] lies
    between entries [i] and [i + 1] of the index. *)
Definition csr_neigh (index : list Z) (neighs : list DestID) (i : Z)
    : option (list DestID) :=
  first ← lookupZ index i;
  last ← lookupZ index (i + 1);
  if decide (0 ≤ first ∧ first ≤ last ∧ last ≤ Z.of_nat (length neighs))
  then Some (take (Z.to_nat (last - first)) (drop (Z.to_nat first) neighs))
  else None.

(** The second loop, lines 198-205: the squished ranges are copied to
    their offsets in [sq_neighs]. *)
Definition copy_ranges (vp : Partition.Partition)
    (ranges : list (list DestID)) (diffs sq_offsets : list Z)
    (sq_neighs : list DestID) : option (list DestID) :=
  foldM (λ sq_neighs n,
           indx ← Partition.local_pos vp n;
           range ← lookupZ ranges n;
           diff ← lookupZ diffs indx;
           offset ← lookupZ sq_offsets indx;
           if decide (0 ≤ diff ∧ 0 ≤ offset) then
             Queue.store sq_neighs (Z.to_nat offset)
               (take (Z.to_nat diff) range)
           else None)
        sq_neighs
        (seqZ (Partition.start vp) (Partition.end_ vp - Partition.start vp)).

(** What a rank holds after the first loop and the prefix sum. *)
Record squished : Type := mkSquished {
  sq_vp : Partition.Partition;
  sq_ranges : list (list DestID);
  sq_diffs : list Z;
  sq_offsets : list Z;
  sq_total : Z
}.

Definition squish_rank (g : Graph.CSRGraph DestID) (transpose : bool)
    (npes : Z) (fresh_diffs : list Z) (pe : Z) : option squished :=
  vp ← Partition.make (Graph.num_nodes g) pe npes;
  diffs ← alloc fresh_diffs (Partition.max_width vp);
  '(ranges, diffs) ← squish_ranges vp (side g transpose) diffs;
  let sq_offsets := ParallelPrefixSum diffs in
  total ← lookupZ sq_offsets (Partition.end_ vp - Partition.start vp);
  Some (mkSquished vp ranges diffs sq_offsets total).

(** [SquishCSR], lines 168-207, on a job of [npes] ranks: every rank
    squishes its ranges, [shmem_long_max_to_all] gives the largest
    total, every rank allocates [sq_neighs] of that size and copies.
    [shmem_calloc] of no element returns a null pointer, on which the
    job exits. The result is the index and the [neighs] array of every
    rank. *)
Definition SquishCSR (g : Graph.CSRGraph DestID) (transpose : bool)
    (npes : Z) (fresh_diffs : Z → list Z)
    : option (list (list Z * list DestID)) :=
  ranks ← mapM (λ pe, squish_rank g transpose npes (fresh_diffs pe) pe)
             (seqZ 0 npes);
  let max_neigh := foldr Z.max 0 (sq_total <$> ranks) in
  if decide (max_neigh ≤ 0) then None
  else
    mapM (λ r,
            sq_neighs ← copy_ranges (sq_vp r) (sq_ranges r) (sq_diffs r)
                          (sq_offsets r)
                          (replicate (Z.to_nat max_neigh) zero);
            Some (sq_offsets r, sq_neighs))
      ranks.

End Squish.

(** ** Building the CSR from the edge list

    An edge [EdgePair<NodeID_, DestID_>] is the pair of its source [u]
    and its destination [v]. The edge list is distributed: every rank
    holds a part of it. *)

(** [GetSource], lines 64-70, for an unweighted and for a weighted
    edge. *)
Definition GetSource (e : Z * Z) : Z := e.1.

Definition GetSource_weighted (e : Z * (Z * Z)) : Z * Z := (e.1, e.2.2).

(** [shmem_int_max_to_all] and the like: the largest of the values
    that the ranks contribute. *)
Definition max_to_all (xs : list Z) : option Z :=
  match xs with
  | [] => None
  | x :: xs' => Some (foldl Z.max x xs')
  end.

(** [shmem_int_atomic_inc(array + i, pe)] on a symmetric array of
    [int]. *)
Definition shmem_int_atomic_inc (arrays : list (list Z)) (i pe : Z)
    : option (list (list Z)) :=
  a ← lookupZ arrays pe;
  x ← lookupZ a i;
  a ← storeZ a i (CInt.wrap (x + 1));
  storeZ arrays pe a.

(** [shmem_long_atomic_fetch_inc(array + i, pe)] on a symmetric array
    of [long]: the value found, and the arrays afterwards. *)
Definition shmem_long_atomic_fetch_inc (arrays : list (list Z)) (i pe : Z)
    : option (Z * list (list Z)) :=
  a ← lookupZ arrays pe;
  x ← lookupZ a i;
  a ← storeZ a i (CInt.wrap_long (x + 1));
  arrays ← storeZ arrays pe a;
  Some (x, arrays).

(** A symmetric array of [len] elements on each of [npes] ranks,
    whose element [i] on rank [pe] is [f pe i]. *)
Definition symmetric_array {A} (npes len : Z) (M : list (list A))
    (f : Z → Z → A) : Prop :=
  Z.of_nat (length M) = npes
  ∧ ∀ pe, 0 ≤ pe < npes →
      ∃ a, lookupZ M pe = Some a ∧ Z.of_nat (length a) = len
           ∧ ∀ i, 0 ≤ i < len → lookupZ a i = Some (f pe i).

(** The rank that holds vertex [x], and the vertex that cell [i] of
    rank [pe] stands for. *)
Definition owner (n npes x : Z) : Z :=
  Z.min (x `div` (n `div` npes)) (npes - 1).

Definition vertex_at (n npes pe i : Z) : Z := pe * (n `div` npes) + i.

Section MakeCSR.

Context {DestID : Type} (node : DestID → Z) (zero : DestID).
Context (get_source : Z * DestID → DestID).

(** The loop of [FindMaxNodeID], lines 81-85, on the edge list of one
    rank; [max_seen] comes from [shmem_calloc] and starts at 0. *)
Definition local_max_seen (el : list (Z * DestID)) : Z :=
  foldl (λ max_seen e, Z.max (Z.max max_seen e.1) (node e.2)) 0 el.

(** [FindMaxNodeID], lines 72-89, on a job whose ranks hold the edge
    lists [els]. *)
Definition FindMaxNodeID (els : list (list (Z * DestID))) : option Z :=
  max_to_all (local_max_seen <$> els).

(** The body of the loop of [CountDegrees], lines 102-112, run by a
    rank whose partition is [vp], on the symmetric array [degrees]. *)
Definition count_edge (symmetrize transpose : bool)
    (vp : Partition.Partition) (degrees : list (list Z)) (e : Z * DestID)
    : option (list (list Z)) :=
  degrees ← (if symmetrize || (negb symmetrize && negb transpose) then
               receiver ← Partition.recv vp e.1;
               local_v ← Partition.local_pos vp e.1;
               shmem_int_atomic_inc degrees local_v receiver
             else Some degrees);
  if symmetrize || (negb symmetrize && transpose) then
    receiver ← Partition.recv vp (node e.2);
    local_v ← Partition.local_pos vp (node e.2);
    shmem_int_atomic_inc degrees local_v receiver
  else Some degrees.

(** [CountDegrees], lines 95-120, on a job of [npes] ranks over [n]
    vertices. Every rank allocates [max_width] counters, which start at
    0. The increments are atomic and commute; the ranks are run one
    after the other. The barrier that a rank passes after every 10000
    edges (lines 113-116) is not run: it keeps the ranks in step only
    when they pass it equally often. *)
Definition CountDegrees (symmetrize transpose : bool) (n npes : Z)
    (els : list (list (Z * DestID))) : option (list (list Z)) :=
  vp0 ← Partition.make n 0 npes;
  foldM (λ degrees pe,
           vp ← Partition.make n pe npes;
           el ← lookupZ els pe;
           foldM (count_edge symmetrize transpose vp) degrees el)
        (replicate (Z.to_nat npes)
           (replicate (Z.to_nat (Partition.max_width vp0)) 0))
        (seqZ 0 npes).

(** [shmem_putmem(neighs + i, &d, sizeof(DestID_), pe)]. *)
Definition shmem_putmem (neighs : list (list DestID)) (i : Z) (d : DestID)
    (pe : Z) : option (list (list DestID)) :=
  a ← lookupZ neighs pe;
  a ← storeZ a i d;
  storeZ neighs pe a.

(** The body of the last loop of [MakeCSR], lines 271-285: the cursor
    of the vertex is advanced on its owner and the neighbour is put
    where the cursor was. *)
Definition place_edge (symmetrize transpose : bool)
    (vp : Partition.Partition)
    (s : list (list Z) * list (list DestID)) (e : Z * DestID)
    : option (list (list Z) * list (list DestID)) :=
  let '(offsets, neighs) := s in
  '(offsets, neighs) ←
    (if symmetrize || (negb symmetrize && negb transpose) then
       receiver ← Partition.recv vp e.1;
       local_v ← Partition.local_pos vp e.1;
       '(neighbor, offsets) ←
         shmem_long_atomic_fetch_inc offsets local_v receiver;
       neighs ← shmem_putmem neighs neighbor e.2 receiver;
       Some (offsets, neighs)
     else Some (offsets, neighs));
  if symmetrize || (negb symmetrize && transpose) then
    receiver ← Partition.recv vp (node e.2);
    local_v ← Partition.local_pos vp (node e.2);
    '(neighbor, offsets) ←
      shmem_long_atomic_fetch_inc offsets local_v receiver;
    neighs ← shmem_putmem neighs neighbor (get_source e) receiver;
    Some (offsets, neighs)
  else Some (offsets, neighs).

(** [MakeCSR], lines 236-288, on a job of [npes] ranks: the degrees,
    their prefix sums, the largest total [maxn] of a rank (lines
    252-259), the allocation of [neighs], the index, and the loop that
    places the edges. [shmem_calloc] of no element returns a null
    pointer, on which the job exits. The index of a rank is the list of
    its offsets as [GenIndex] finds them, before the last loop moves
    them. The result is the index and the [neighs] array of every
    rank. *)
Definition MakeCSR (symmetrize transpose : bool) (n npes : Z)
    (els : list (list (Z * DestID))) : option (list (list Z * list DestID)) :=
  degrees ← CountDegrees symmetrize transpose n npes els;
  let offsets := ParallelPrefixSum <$> degrees in
  local_maxes ← mapM (λ pe,
                        vp ← Partition.make n pe npes;
                        sums ← lookupZ offsets pe;
                        lookupZ sums (Partition.end_ vp - Partition.start vp))
                   (seqZ 0 npes);
  let maxn := foldl Z.max (-1) local_maxes in
  if decide (maxn ≤ 0) then None
  else
    let neighs := replicate (Z.to_nat npes) (replicate (Z.to_nat maxn) zero) in
    '(_, neighs) ← foldM (λ s pe,
                            vp ← Partition.make n pe npes;
                            el ← lookupZ els pe;
                            foldM (place_edge symmetrize transpose vp) s el)
                      (offsets, neighs) (seqZ 0 npes);
    Some (zip offsets neighs).

(** The updates that an edge causes in [CountDegrees] and in the last
    loop of [MakeCSR], in program order: each is the vertex whose list
    grows and the neighbour that enters it. *)
Definition hits (symmetrize transpose : bool) (e : Z * DestID)
    : list (Z * DestID) :=
  (if symmetrize || (negb symmetrize && negb transpose)
   then [(e.1, e.2)] else [])
  ++ (if symmetrize || (negb symmetrize && transpose)
      then [(node e.2, get_source e)] else []).

(** The neighbours that the edge list gives vertex [x]: the
    destinations of the edges that leave it and, in the transposed or
    symmetrized half, the sources of the edges that reach it, in the
    order of the edge list. *)
Definition neighbours_of (symmetrize transpose : bool) (x : Z)
    (el : list (Z * DestID)) : list DestID :=
  snd <$> filter (λ h, h.1 = x) (el ≫= hits symmetrize transpose).

(** The number of updates among [hs] that reach cell [i] of rank
    [pe]. *)
Definition count_at (n npes : Z) (hs : list (Z * DestID)) (pe i : Z) : Z :=
  if decide (owner n npes (vertex_at n npes pe i) = pe)
  then Z.of_nat (length (filter (λ h, h.1 = vertex_at n npes pe i) hs))
  else 0.

(** Where the list of cell [i] starts in the [neighs] array of rank
    [pe], when [hs] are the updates of the whole job. *)
Definition offset_at (n npes : Z) (hs : list (Z * DestID)) (pe i : Z) : Z :=
  total (count_at n npes hs pe <$> seqZ 0 i).

(** The state of the last loop of [MakeCSR] when the updates [done]
    out of [hs] have been made: every cursor has moved by the number
    of updates of its cell, and these lie where the cursor passed. *)
Definition placed (n npes maxn : Z) (hs done : list (Z * DestID))
    (cursors : list (list Z)) (neighs : list (list DestID)) : Prop :=
  symmetric_array npes (n - (npes - 1) * (n `div` npes) + 1) cursors
    (λ pe i, offset_at n npes hs pe i + count_at n npes done pe i)
  ∧ Z.of_nat (length neighs) = npes
  ∧ (∀ pe a, lookupZ neighs pe = Some a → Z.of_nat (length a) = maxn)
  ∧ ∀ x (k : nat) h,
      0 ≤ x < n → filter (λ h, h.1 = x) done !! k = Some h →
      ∃ a, lookupZ neighs (owner n npes x) = Some a
           ∧ lookupZ a (offset_at n npes hs (owner n npes x)
                          (x - owner n npes x * (n `div` npes))
                        + Z.of_nat k) = Some h.2.

(** [MakeGraphFromEL], lines 290-312, on a job of [npes] ranks, for the
    builder of an unweighted graph: [NodeID_] and [DestID_] are the
    same type, [needs_weights_] is false and [InsertWeights] is not
    called. [num_nodes_] is -1 when the
    command line gave no number of vertices; it then becomes the
    largest id of the edge list plus one. The result is the number of
    vertices and the halves that the constructor of [CSRGraph] is
    called with: the outgoing half and, for a graph that is not
    symmetrized and is built with [invert], the incoming half. *)
Definition MakeGraphFromEL (symmetrize invert : bool) (num_nodes_ npes : Z)
    (els : list (list (Z * DestID)))
    : option (Z * list (list Z * list DestID)
              * option (list (list Z * list DestID))) :=
  num_nodes ← (if decide (num_nodes_ = -1)
               then max_seen ← FindMaxNodeID els;
                    Some (CInt.wrap (max_seen + 1))
               else Some num_nodes_);
  index_neighs ← MakeCSR symmetrize false num_nodes npes els;
  if negb symmetrize && invert then
    inv_index_neighs ← MakeCSR symmetrize true num_nodes npes els;
    Some (num_nodes, index_neighs, Some inv_index_neighs)
  else Some (num_nodes, index_neighs, None).

(** Modelled from the spec: the neighbour list of vertex [x] is read
    on the rank that owns [x], between the index entries of the local
    position of [x]. *)
Definition adjacency (n npes : Z) (ranks : list (list Z * list DestID))
    (x : Z) : option (list DestID) :=
  '(index, neighs) ← lookupZ ranks (owner n npes x);
  csr_neigh index neighs (x - owner n npes x * (n `div` npes)).

(** [v] is in the neighbour list of [u]. *)
Definition neighbour (n npes : Z) (ranks : list (list Z * list DestID))
    (u v : Z) : Prop :=
  ∃ l d, adjacency n npes ranks u = Some l ∧ d ∈ l ∧ node d = v.

End MakeCSR.

End Builder.

(** * Breadth-first search (bfs.cc)

    The parent array is a symmetric [pvector]: every rank holds a copy
    of [max_size] elements of which the first [end - start] are the
    parents of its own vertices. The functions below are the program
    of one rank [pe] of a job of [npes] ranks, run on the symmetric
    memory of all of them. *)

Module BFS.

Definition NodeID : Type := Z.
Definition Graph : Type := Graph.CSRGraph NodeID.

Record world : Type := mkWorld {
  parent : list (list NodeID);
  frontier : Queue.world NodeID;
  PLOCKS : list bool
}.

(** Running a queue operation on the frontier of the world. *)
Definition on_frontier {A} (m : Queue.shmem NodeID A) (w : world)
    : option (A * world) :=
  '(a, f) ← m (frontier w);
  Some (a, mkWorld (parent w) f (PLOCKS w)).

Definition with_parent (w : world) (pe : Z) (p : list NodeID) : option world :=
  ps ← storeZ (parent w) pe p;
  Some (mkWorld ps (frontier w) (PLOCKS w)).

(** ** One-sided operations on the parent array *)

(** [shmem_int_atomic_compare_swap(parent.begin() + i, cond, value, pe)]
    stores [value] when the element equals [cond] and returns the
    element found. *)
Definition shmem_int_atomic_compare_swap (w : world) (i cond value pe : Z)
    : option (Z * world) :=
  p ← lookupZ (parent w) pe;
  old ← lookupZ p i;
  p' ← (if decide (old = cond) then storeZ p i value else Some p);
  w' ← with_parent w pe p';
  Some (old, w').

(** [shmem_int_get(&x, parent.begin() + i, 1, pe)]. *)
Definition shmem_int_get (w : world) (i pe : Z) : option Z :=
  p ← lookupZ (parent w) pe;
  lookupZ p i.

(** [shmem_int_atomic_swap(parent.begin() + i, value, pe)]. *)
Definition shmem_int_atomic_swap (w : world) (i value pe : Z)
    : option (Z * world) :=
  p ← lookupZ (parent w) pe;
  old ← lookupZ p i;
  p' ← storeZ p i value;
  w' ← with_parent w pe p';
  Some (old, w').

(** [shmem_set_lock(PLOCKS + pe)] does not return while the lock is
    held. *)
Definition shmem_set_lock (w : world) (pe : Z) : option world :=
  held ← lookupZ (PLOCKS w) pe;
  if (held : bool) then None
  else locks ← storeZ (PLOCKS w) pe true;
       Some (mkWorld (parent w) (frontier w) locks).

Definition shmem_clear_lock (w : world) (pe : Z) : option world :=
  locks ← storeZ (PLOCKS w) pe false;
  Some (mkWorld (parent w) (frontier w) locks).

(** ** Bottom-up step *)

(** The scan of [in_neigh(u)] that stops at the first neighbour in the
    frontier bitmap. *)
Fixpoint first_in_front (front : Bitmap.Bitmap) (neighs : list NodeID)
    : option NodeID :=
  match neighs with
  | [] => None
  | v :: neighs' =>
      if Bitmap.get_bit front v then Some v else first_in_front front neighs'
  end.

(** [BUStep], lines 84-102; the result is
    [(awake_count, parent, next)]. *)
Definition BUStep (g : Graph) (parent : list NodeID)
    (front next : Bitmap.Bitmap) : option (Z * list NodeID * Bitmap.Bitmap) :=
  let next := Bitmap.reset next in
  foldM (λ '(awake_count, parent, next) u,
           pu ← lookupZ parent u;
           if decide (pu < 0) then
             match first_in_front front (Graph.in_neigh g u) with
             | Some v =>
                 parent ← storeZ parent u v;
                 Some (awake_count + 1, parent, Bitmap.set_bit next u)
             | None => Some (awake_count, parent, next)
             end
           else Some (awake_count, parent, next))
        (0, parent, next) (seqZ 0 (Graph.num_nodes g)).

(** [SHMEM_BUStep], lines 50-82. [awake_count] is a pointer into the
    symmetric heap of the rank, obtained from [shmem_malloc]; the heap
    is an array of [long long] cells and the pointer an index into
    it. The loop of a rank touches only its own copies, so the ranks
    are run one after the other up to [next.merge]. *)
Record bu_rank : Type := mkBuRank {
  bu_parent : list NodeID;
  bu_front : Bitmap.Bitmap;
  bu_next : Bitmap.Bitmap;
  bu_heap : list Z
}.

Definition SHMEM_BUStep_loop (g : Graph) (r : bu_rank) (pe npes : Z)
    (awake_count : Z) : option (list NodeID * Bitmap.Bitmap * Z) :=
  let next := Bitmap.reset (bu_next r) in
  parent_offset ← Bounds.offset (Graph.num_nodes g) npes;
  let lower_bound := Bounds.lower_bound parent_offset pe in
  let upper_bound :=
    Bounds.upper_bound (Graph.num_nodes g) npes parent_offset pe in
  foldM (λ '(parent, next, awake_count) u,
           pu ← lookupZ parent u;
           if decide (pu < 0) then
             match first_in_front (bu_front r) (Graph.in_neigh g u) with
             | Some v =>
                 parent ← storeZ parent u v;
                 (* awake_count++ on the pointer *)
                 Some (parent, Bitmap.set_bit next u, awake_count + 1)
             | None => Some (parent, next, awake_count)
             end
           else Some (parent, next, awake_count))
        (bu_parent r, next, awake_count)
        (seqZ lower_bound (upper_bound - lower_bound)).

(** The job: every rank runs the loop, the [next] bitmaps are merged,
    and [shmem_longlong_sum_to_all] adds up the cell that the pointer
    of each rank designates. The result gives, for every rank, the
    value returned and its copies after the step. *)
Definition SHMEM_BUStep (g : Graph) (ranks : list bu_rank) (awake_count : Z)
    : option (list (Z * bu_rank)) :=
  let npes := Z.of_nat (length ranks) in
  locals ← mapM (λ '(pe, r), SHMEM_BUStep_loop g r pe npes awake_count)
              (zip (seqZ 0 npes) ranks);
  let merged := Bitmap.merge ((λ l, l.1.2) <$> locals) in
  cells ← mapM (λ '(r, l), lookupZ (bu_heap r) l.2) (zip ranks locals);
  let total := foldr Z.add 0 cells in
  Some (zip_with (λ r l, (total,
                          mkBuRank l.1.1 (bu_front r) merged (bu_heap r)))
          ranks locals).

(** The vertices that a bottom-up step woke up on one rank: those
    whose parent was negative before and is not after. *)
Definition newly_visited (before after : list NodeID) : Z :=
  Z.of_nat (length (filter (λ p, p.1 < 0 ∧ 0 ≤ p.2) (zip before after))).

(** ** Top-down step *)

Record td_state : Type := mkTd {
  td_world : world;
  td_lqueue : Queue.QueueBuffer NodeID;
  td_local_scout : Z
}.

(** The body of the loop over [out_neigh(u)], lines 139-167. *)
Definition TDStep_visit (pe npes lower_bound upper_bound parent_offset : Z)
    (u : NodeID) (st : td_state) (v : NodeID) : option td_state :=
  if decide (lower_bound ≤ v ∧ v < upper_bound) then
    own ← lookupZ (parent (td_world st)) pe;
    curr_val ← lookupZ own (v - lower_bound);
    if decide (curr_val < 0) then
      '(found, w) ← shmem_int_atomic_compare_swap (td_world st)
                      (v - lower_bound) curr_val u pe;
      if decide (found ≠ 0) then
        '(lq, w) ← on_frontier (Queue.buffer_push_back (td_lqueue st) v) w;
        Some (mkTd w lq (CInt.wrap (td_local_scout st + - curr_val)))
      else Some (mkTd w (td_lqueue st) (td_local_scout st))
    else Some st
  else
    '(foreign_pe, local_v) ← TDStep_foreign parent_offset npes v;
    w ← shmem_set_lock (td_world st) foreign_pe;
    curr_val ← shmem_int_get w local_v foreign_pe;
    st' ← (if decide (curr_val < 0) then
             '(_, w) ← shmem_int_atomic_swap w local_v u foreign_pe;
             '(lq, w) ← on_frontier (Queue.buffer_push_back (td_lqueue st) v) w;
             Some (mkTd w lq (CInt.wrap (td_local_scout st + - curr_val)))
           else Some (mkTd w (td_lqueue st) (td_local_scout st)));
    w ← shmem_clear_lock (td_world st') foreign_pe;
    Some (mkTd w (td_lqueue st') (td_local_scout st')).

(** The default [given_size] of a [QueueBuffer]. *)
Definition kQueueBufferSize : Z := 16384.

(** [SHMEM_TDStep], lines 106-178. [fresh_queue] is the content of the
    allocation of the queue buffer and [fresh_scout] the content, on
    every rank, of the cell that [shmem_malloc] returns for
    [local_scout]; neither is initialised by the source. *)
Definition SHMEM_TDStep (g : Graph) (w : world) (pe npes : Z)
    (fresh_queue : list NodeID) (fresh_scout : list Z) : option (Z * world) :=
  local_scout0 ← lookupZ fresh_scout pe;
  local_queue ← alloc fresh_queue kQueueBufferSize;
  let lqueue := Queue.new_buffer local_queue (Z.to_nat pe) (Z.to_nat npes) in
  queue ← lookupZ (Queue.queues (frontier w)) pe;
  queue_offset ← CInt.wrap <$> CInt.div (Z.of_nat (Queue.size queue)) npes;
  parent_offset ← Bounds.offset (Graph.num_nodes g) npes;
  let lower_bound := Bounds.lower_bound parent_offset pe in
  let start := CInt.wrap (queue_offset * pe) in
  let end_ := if decide (pe = npes - 1)
              then CInt.wrap (Z.of_nat (Queue.size queue))
              else CInt.wrap (start + queue_offset) in
  let upper_bound :=
    Bounds.upper_bound (Graph.num_nodes g) npes parent_offset pe in
  st ← foldM (λ st i,
                queue ← lookupZ (Queue.queues (frontier (td_world st))) pe;
                u ← lookupZ (Queue.shared queue)
                      (Z.of_nat (Queue.shared_out_start queue) + i);
                foldM (TDStep_visit pe npes lower_bound upper_bound
                         parent_offset u) st (Graph.out_neigh g u))
          (mkTd w lqueue local_scout0) (seqZ start (end_ - start));
  '(_, w) ← on_frontier (Queue.flush (td_lqueue st)) (td_world st);
  scouts ← storeZ fresh_scout pe (td_local_scout st);
  Some (CInt.wrap (foldr Z.add 0 scouts), w).

(** ** Conversions between queue and bitmap *)

(** [QueueToBitmap], lines 204-210, on the queue copy of the caller. *)
Definition QueueToBitmap (queue : Queue.SlidingQueue NodeID)
    (bm : Bitmap.Bitmap) : Bitmap.Bitmap :=
  foldl Bitmap.set_bit_atomic bm (Queue.window queue).

(** [BitmapToQueue], lines 213-230. *)
Definition BitmapToQueue (g : Graph) (bm : Bitmap.Bitmap) (w : world)
    (pe npes : Z) (fresh_queue : list NodeID) : option world :=
  offset ← Bounds.offset (Graph.num_nodes g) npes;
  let lower_bound := Bounds.lower_bound offset pe in
  let upper_bound := Bounds.upper_bound (Graph.num_nodes g) npes offset pe in
  local_queue ← alloc fresh_queue kQueueBufferSize;
  let lqueue := Queue.new_buffer local_queue (Z.to_nat pe) (Z.to_nat npes) in
  '(lq, w) ← foldM (λ '(lq, w) n,
                      if Bitmap.get_bit bm n
                      then on_frontier (Queue.buffer_push_back lq n) w
                      else Some (lq, w))
               (lqueue, w) (seqZ lower_bound (upper_bound - lower_bound));
  '(_, w) ← on_frontier (Queue.flush lq) w;
  queue ← lookupZ (Queue.queues (frontier w)) pe;
  queues ← storeZ (Queue.queues (frontier w)) pe (Queue.slide_window queue);
  Some (mkWorld (parent w)
          (Queue.mkWorld queues (Queue.QLOCK (frontier w))
             (Queue.log (frontier w)))
          (PLOCKS w)).

(** ** Initialisation *)

(** [InitParent], lines 236-255: the copy of the parent array of rank
    [pe]; [fresh] is the content of its allocation. *)
Definition InitParent (g : Graph) (source : NodeID) (pe npes : Z)
    (fresh : list NodeID) : option (list NodeID) :=
  offset ← Bounds.offset (Graph.num_nodes g) npes;
  let max_size := Graph.num_nodes g - (npes - 1) * offset in
  let start := CInt.wrap (offset * pe) in
  let end_ := if decide (pe = npes - 1) then CInt.wrap (Graph.num_nodes g)
              else CInt.wrap (start + offset) in
  parent ← alloc fresh max_size;
  parent ← foldM (λ parent n,
                    storeZ parent (n - start)
                      (if decide (Graph.out_degree g n ≠ 0)
                       then - Graph.out_degree g n else -1))
             parent (seqZ start (end_ - start));
  if decide (start ≤ source ∧ source ≤ end_)
  then storeZ parent (source - start) source
  else Some parent.

(** ** The kernel *)

(** What the allocations of a run hold before the kernel writes to
    them: the parent array of every rank, and for every iteration of
    the outer loop the queue buffer and the [local_scout] cells. *)
Record allocations : Type := mkAllocations {
  fresh_parent : nat → list NodeID;
  fresh_queue : nat → list NodeID;
  fresh_scout : nat → list Z
}.

Record dobfs_state : Type := mkDobfs {
  st_world : world;
  st_front : Bitmap.Bitmap;
  st_curr : Bitmap.Bitmap;
  st_edges_to_check : Z;
  st_scout_count : Z
}.

(** [frontier->slide_window()] on the copy of the caller. *)
Definition slide_frontier (w : world) (pe : Z) : option world :=
  queue ← lookupZ (Queue.queues (frontier w)) pe;
  queues ← storeZ (Queue.queues (frontier w)) pe (Queue.slide_window queue);
  Some (mkWorld (parent w)
          (Queue.mkWorld queues (Queue.QLOCK (frontier w))
             (Queue.log (frontier w)))
          (PLOCKS w)).

(** One pass of the body of the [do ... while] loop, lines 288-293:
    [BUStep] and [front.swap(curr)]. The result is
    [(parent, front, curr, awake_count)]. *)
Definition bottom_up_pass (g : Graph)
    (s : list NodeID * Bitmap.Bitmap * Bitmap.Bitmap * Z)
    : option (list NodeID * Bitmap.Bitmap * Bitmap.Bitmap * Z) :=
  let '(parent, front, curr, _) := s in
  '(awake_count, parent, curr) ← BUStep g parent front curr;
  Some (parent, curr, front, awake_count).

(** The [do ... while] loop, lines 287-295. *)
Fixpoint bottom_up (fuel : nat) (g : Graph) (beta : Z)
    (s : list NodeID * Bitmap.Bitmap * Bitmap.Bitmap * Z)
    : option (list NodeID * Bitmap.Bitmap * Bitmap.Bitmap * Z) :=
  match fuel with
  | O => None
  | S fuel' =>
      let old_awake_count := s.2 in
      s' ← bottom_up_pass g s;
      let awake_count := s'.2 in
      bound ← CInt.div (Graph.num_nodes g) beta;
      if decide (old_awake_count ≤ awake_count ∨ bound < awake_count)
      then bottom_up fuel' g beta s'
      else Some s'
  end.

(** The passes of the loop without its test. *)
Fixpoint bottom_up_passes (k : nat) (g : Graph)
    (s : list NodeID * Bitmap.Bitmap * Bitmap.Bitmap * Z)
    : option (list NodeID * Bitmap.Bitmap * Bitmap.Bitmap * Z) :=
  match k with
  | O => Some s
  | S k' => s' ← bottom_up_pass g s; bottom_up_passes k' g s'
  end.

(** The [if] branch of the outer loop, lines 282-298. *)
Definition bottom_up_phase (fuel : nat) (g : Graph) (pe npes beta : Z)
    (fresh_queue : list NodeID) (st : dobfs_state) : option dobfs_state :=
  queue ← lookupZ (Queue.queues (frontier (st_world st))) pe;
  let front := QueueToBitmap queue (st_front st) in
  let awake_count := Z.of_nat (Queue.size queue) in
  w ← slide_frontier (st_world st) pe;
  own ← lookupZ (parent w) pe;
  '(own, front, curr, _) ← bottom_up fuel g beta
                             (own, front, st_curr st, awake_count);
  w ← with_parent w pe own;
  w ← BitmapToQueue g front w pe npes fresh_queue;
  Some (mkDobfs w front curr (st_edges_to_check st) 1).

(** The [else] branch of the outer loop, lines 300-310. *)
Definition top_down_phase (g : Graph) (pe npes : Z)
    (fresh_queue : list NodeID) (fresh_scout : list Z) (st : dobfs_state)
    : option dobfs_state :=
  let edges_to_check := st_edges_to_check st - st_scout_count st in
  '(scout_count, w) ← SHMEM_TDStep g (st_world st) pe npes
                        fresh_queue fresh_scout;
  w ← slide_frontier w pe;
  Some (mkDobfs w (st_front st) (st_curr st) edges_to_check scout_count).

(** The body of the outer loop, lines 281-311. *)
Definition DOBFS_iteration (fuel : nat) (g : Graph) (pe npes alpha beta : Z)
    (fresh_queue : list NodeID) (fresh_scout : list Z) (st : dobfs_state)
    : option dobfs_state :=
  threshold ← CInt.div (st_edges_to_check st) alpha;
  if decide (threshold < st_scout_count st)
  then bottom_up_phase fuel g pe npes beta fresh_queue st
  else top_down_phase g pe npes fresh_queue fresh_scout st.

(** The outer loop, [while (!frontier->empty())]; [k] counts its
    iterations. *)
Fixpoint DOBFS_loop (fuel inner : nat) (g : Graph) (pe npes alpha beta : Z)
    (a : allocations) (k : nat) (st : dobfs_state) : option dobfs_state :=
  match fuel with
  | O => None
  | S fuel' =>
      queue ← lookupZ (Queue.queues (frontier (st_world st))) pe;
      if Queue.empty queue then Some st
      else
        st' ← DOBFS_iteration inner g pe npes alpha beta
                (fresh_queue a k) (fresh_scout a k) st;
        DOBFS_loop fuel' inner g pe npes alpha beta a (S k) st'
  end.

(** The last loop of [DOBFS], lines 313-316. *)
Definition reset_unvisited (g : Graph) (parent : list NodeID)
    : option (list NodeID) :=
  foldM (λ parent n,
           pn ← lookupZ parent n;
           if decide (pn < -1) then storeZ parent n (-1) else Some parent)
        parent (seqZ 0 (Graph.num_nodes g)).

(** The state of the job when the ranks have passed the barrier of
    line 276: every rank has run [InitParent], created its copy of the
    frontier with the source in its window, and reset its bitmaps. *)
Definition DOBFS_init (g : Graph) (source : NodeID) (npes : Z)
    (a : allocations) : option dobfs_state :=
  parents ← mapM (λ pe, InitParent g source pe npes
                          (fresh_parent a (Z.to_nat pe))) (seqZ 0 npes);
  let size := Z.to_nat (Graph.num_nodes g) in
  queue ← Queue.push_back (Queue.new 0 size) source;
  let queue := Queue.slide_window queue in
  let frontier := Queue.mkWorld (replicate (Z.to_nat npes) queue) false [] in
  let curr := Bitmap.reset (Bitmap.create (Graph.num_nodes g)) in
  let front := Bitmap.reset (Bitmap.create (Graph.num_nodes g)) in
  Some (mkDobfs (mkWorld parents frontier (replicate (Z.to_nat npes) false))
          front curr (Graph.num_edges_directed g)
          (Graph.out_degree g source)).

(** [DOBFS], lines 257-318, as run by rank [pe]; the result is its copy
    of the parent array. *)
Definition DOBFS (fuel : nat) (g : Graph) (source : NodeID)
    (pe npes alpha beta : Z) (a : allocations) : option (list NodeID) :=
  st ← DOBFS_init g source npes a;
  st ← DOBFS_loop fuel fuel g pe npes alpha beta a 0 st;
  own ← lookupZ (parent (st_world st)) pe;
  reset_unvisited g own.

(** ** The verifier *)

(** The lines that [BFSVerifier] writes to [cout]. *)
Inductive warning : Type :=
  | Source_wrong
  | Wrong_depths (u v : NodeID)
  | Couldnt_find_edge (p u : NodeID)
  | Reachability_mismatch.

(** The loop over [out_neigh(u)] of the serial traversal, lines
    349-354. *)
Definition visit_neighbors (depth : list Z) (to_visit : list NodeID)
    (u : NodeID) (vs : list NodeID) : option (list Z * list NodeID) :=
  foldM (λ '(depth, to_visit) v,
           dv ← lookupZ depth v;
           if decide (dv = -1) then
             du ← lookupZ depth u;
             depth ← storeZ depth v (CInt.wrap (du + 1));
             Some (depth, to_visit ++ [v])
           else Some (depth, to_visit))
        (depth, to_visit) vs.

(** The loop over [to_visit], lines 347-355; [it] is the position of
    the iterator. *)
Fixpoint serial_bfs (fuel : nat) (g : Graph) (depth : list Z)
    (to_visit : list NodeID) (it : nat) : option (list Z) :=
  match fuel with
  | O => None
  | S fuel' =>
      match to_visit !! it with
      | None => Some depth
      | Some u =>
          '(depth, to_visit) ← visit_neighbors depth to_visit u
                                 (Graph.out_neigh g u);
          serial_bfs fuel' g depth to_visit (S it)
      end
  end.

(** The depths of the serial traversal, lines 342-355. *)
Definition reference_depths (fuel : nat) (g : Graph) (source : NodeID)
    : option (list Z) :=
  depth ← storeZ (replicate (Z.to_nat (Graph.num_nodes g)) (-1)) source 0;
  serial_bfs fuel g depth [source] 0.

(** The search for [parent[u]] among [in_neigh(u)], lines 365-379.
    [Some None] lets the verifier go on to the next vertex; a warning
    makes it return [false]. *)
Fixpoint check_parent (depth : list Z) (u du pu : Z) (vs : list NodeID)
    : option (option warning) :=
  match vs with
  | [] => Some (Some (Couldnt_find_edge pu u))
  | v :: vs' =>
      if decide (v = pu) then
        dv ← lookupZ depth v;
        if decide (dv ≠ du - 1) then Some (Some (Wrong_depths u v))
        else Some None
      else check_parent depth u du pu vs'
  end.

(** The body of the loop over the vertices, lines 357-383. *)
Definition check_vertex (g : Graph) (source : NodeID) (depth : list Z)
    (parent : list NodeID) (u : NodeID) : option (option warning) :=
  du ← lookupZ depth u;
  pu ← lookupZ parent u;
  if decide (du ≠ -1 ∧ pu ≠ -1) then
    if decide (u = source) then
      if decide (¬ (pu = u ∧ du = 0)) then Some (Some Source_wrong)
      else Some None
    else check_parent depth u du pu (Graph.in_neigh g u)
  else if decide (du ≠ pu) then Some (Some Reachability_mismatch)
  else Some None.

Fixpoint check_vertices (g : Graph) (source : NodeID) (depth : list Z)
    (parent : list NodeID) (us : list NodeID) : option (bool * list warning) :=
  match us with
  | [] => Some (true, [])
  | u :: us' =>
      r ← check_vertex g source depth parent u;
      match r with
      | Some w => Some (false, [w])
      | None => check_vertices g source depth parent us'
      end
  end.

(** [BFSVerifier], lines 340-386: the verdict and what was printed. *)
Definition BFSVerifier (fuel : nat) (g : Graph) (source : NodeID)
    (parent : list NodeID) : option (bool * list warning) :=
  depth ← reference_depths fuel g source;
  check_vertices g source depth parent (seqZ 0 (Graph.num_nodes g)).

(** What the verifier checks at a vertex, in the words of its comment
    (lines 336-339): the vertex has a parent exactly when the serial
    traversal reaches it; the source is its own parent, at depth 0; any
    other vertex with a parent [p] has an edge from [p] and lies one
    level below [p]. *)
Definition agrees_at (g : Graph) (source : NodeID) (depth : list Z)
    (parent : list NodeID) (u : NodeID) : Prop :=
  ∀ du pu,
    lookupZ depth u = Some du → lookupZ parent u = Some pu →
    (du = -1 ↔ pu = -1)
    ∧ (du ≠ -1 → u = source → pu = u ∧ du = 0)
    ∧ (du ≠ -1 → u ≠ source →
       pu ∈ Graph.in_neigh g u ∧ lookupZ depth pu = Some (du - 1)).

Definition agrees (g : Graph) (source : NodeID) (depth : list Z)
    (parent : list NodeID) : Prop :=
  ∀ u, agrees_at g source depth parent u.

(** What the serial traversal keeps true of its two arrays: a vertex
    is queued once, and the vertex queued at position [i] has a depth
    between 0 and [i]. *)
Definition traversal_inv (g : Graph) (depth : list Z)
    (to_visit : list NodeID) : Prop :=
  Z.of_nat (length depth) = Graph.num_nodes g
  ∧ NoDup to_visit
  ∧ ∀ (i : nat) u, to_visit !! i = Some u →
      ∃ d, lookupZ depth u = Some d ∧ 0 ≤ d ≤ Z.of_nat i.

(** Neighbours are vertices of the graph, and the two halves of the
    CSR cover the same vertices. *)
Definition well_formed (g : Graph) : Prop :=
  length (Graph.in_neighbors g) = length (Graph.out_neighbors g)
  ∧ Forall (Forall (λ v, 0 ≤ v < Graph.num_nodes g)) (Graph.out_neighbors g)
  ∧ Forall (Forall (λ v, 0 ≤ v < Graph.num_nodes g)) (Graph.in_neighbors g).

(** ** What the kernel is to compute *)

(** [reach g source k v]: a walk of [k] edges leads from the source to
    [v]. *)
Inductive reach (g : Graph) (source : NodeID) : nat → NodeID → Prop :=
  | reach_O : reach g source 0 source
  | reach_S k u v :
      reach g source k u → v ∈ Graph.out_neigh g u →
      reach g source (S k) v.

(** The ends of the walks of [k] edges from the source. *)
Fixpoint walks (g : Graph) (source : NodeID) (k : nat) : list NodeID :=
  match k with
  | O => [source]
  | S k' => walks g source k' ≫= Graph.out_neigh g
  end.

(** [v] is at most [d] edges away from the source, and [v] is exactly
    [d] edges away. *)
Definition within (g : Graph) (source : NodeID) (d : nat) (v : NodeID)
    : Prop :=
  ∃ k, (k ≤ d)%nat ∧ reach g source k v.

Definition at_level (g : Graph) (source : NodeID) (d : nat) (v : NodeID)
    : Prop :=
  reach g source d v ∧ ∀ k, (k < d)%nat → ¬ reach g source k v.

(** The incoming half of the CSR is the transpose of the outgoing
    half. *)
Definition transposed (g : Graph) : Prop :=
  ∀ u v, v ∈ Graph.in_neigh g u ↔ u ∈ Graph.out_neigh g v.

(** The parent array of a breadth-first search from [source]: the
    source is its own parent, a vertex that no walk reaches has -1, and
    any other vertex has a parent from which an edge leads to it and
    which is one edge closer to the source. *)
Definition bfs_tree (g : Graph) (source : NodeID) (parent : list NodeID)
    : Prop :=
  Z.of_nat (length parent) = Graph.num_nodes g
  ∧ lookupZ parent source = Some source
  ∧ ∀ v, 0 ≤ v < Graph.num_nodes g → v ≠ source →
      (lookupZ parent v = Some (-1) ∧ ∀ k, ¬ reach g source k v)
      ∨ (∃ p d, lookupZ parent v = Some p ∧ 0 ≤ p
                ∧ v ∈ Graph.out_neigh g p
                ∧ at_level g source d p ∧ at_level g source (S d) v).

(** ** A job of one rank

    With one rank the parent array, the frontier and the lock have one
    copy each, and the copy of the parent array has a slot for every
    vertex. *)

Definition solo (own : list NodeID) (q : Queue.SlidingQueue NodeID)
    (log : list (Queue.event NodeID)) : world :=
  mkWorld [own] (Queue.mkWorld [q] false log) [false].

(** What the top-down step does at the edge from [u] to [v]: to the
    parent array, to the list of the vertices that it queues, and to
    the scout count. *)
Definition td_edge (u : NodeID) (s : list NodeID * list NodeID * Z)
    (v : NodeID) : list NodeID * list NodeID * Z :=
  let '(parent, pushed, scout) := s in
  match lookupZ parent v with
  | Some curr_val =>
      if decide (curr_val < 0)
      then (<[Z.to_nat v := u]> parent, pushed ++ [v],
            CInt.wrap (scout + - curr_val))
      else s
  | None => s
  end.

Definition td_sweep (g : Graph) (us : list NodeID)
    (s : list NodeID * list NodeID * Z) : list NodeID * list NodeID * Z :=
  foldl (λ s u, foldl (td_edge u) s (Graph.out_neigh g u)) s us.

(** The edges that leave the vertices [us], in the order in which the
    top-down step meets them. *)
Definition edges_from (g : Graph) (us : list NodeID)
    : list (NodeID * NodeID) :=
  u ← us; pair u <$> Graph.out_neigh g u.

(** The vertex that a bottom-up step makes the parent of [u]: [u] has
    no parent yet, and this is its first incoming neighbour in
    [front]. *)
Definition wakes (g : Graph) (parent : list NodeID) (front : Bitmap.Bitmap)
    (u : NodeID) : option NodeID :=
  match lookupZ parent u with
  | Some pu =>
      if decide (pu < 0) then first_in_front front (Graph.in_neigh g u)
      else None
  | None => None
  end.

(** The vertices whose bit is set in a bitmap, in ascending order. *)
Definition members (g : Graph) (bm : Bitmap.Bitmap) : list NodeID :=
  filter (λ v, Bitmap.get_bit bm v = true) (seqZ 0 (Graph.num_nodes g)).

(** What the parent array holds when the vertices up to [d] edges away
    from the source have been visited. *)
Definition visited_to (g : Graph) (source : NodeID) (d : nat)
    (parent : list NodeID) : Prop :=
  Z.of_nat (length parent) = Graph.num_nodes g
  ∧ lookupZ parent source = Some source
  ∧ ∀ v p, lookupZ parent v = Some p →
      (p < 0 ∧ ¬ within g source d v)
      ∨ (0 ≤ p ∧ within g source d v
         ∧ (v ≠ source →
            ∃ k, v ∈ Graph.out_neigh g p
                 ∧ at_level g source k p ∧ at_level g source (S k) v)).

End BFS.

(** * Triangle counting (tc.cc) *)

Module TC.

Definition Graph : Type := Graph.CSRGraph Z.

(** [while ( *it < w) it++]: the iterator [it] walks the neighbour range
    of [u]; it is kept as the part of the range not yet passed. The
    loop has no bound of its own, and reading past the range is an
    error. *)
Fixpoint advance (it : list Z) (w : Z) : option (list Z) :=
  match it with
  | [] => None
  | x :: it' => if decide (x < w) then advance it' w else Some it
  end.

(** The loop over [w] in [out_neigh(v)], lines 62-71. *)
Fixpoint count_common (it : list Z) (v : Z) (ws : list Z) (total : Z)
    : option Z :=
  match ws with
  | [] => Some total
  | w :: ws' =>
      if decide (v < w) then Some total
      else
        it ← advance it w;
        x ← head it;
        count_common it v ws' (if decide (w = x) then total + 1 else total)
  end.

(** The loop over [v] in [out_neigh(u)], lines 58-72. *)
Fixpoint count_neighbors (g : Graph) (u : Z) (vs : list Z) (total : Z)
    : option Z :=
  match vs with
  | [] => Some total
  | v :: vs' =>
      if decide (u < v) then Some total
      else
        total ← count_common (Graph.out_neigh g u) v (Graph.out_neigh g v)
                  total;
        count_neighbors g u vs' total
  end.

(** The loop of one rank over its vertices, lines 55-73; [total] is
    allocated with [shmem_calloc] and starts at 0. *)
Definition count_local (g : Graph) (pe npes : Z) : option Z :=
  vp ← Partition.make (Graph.num_nodes g) pe npes;
  foldM (λ total u, count_neighbors g u (Graph.out_neigh g u) total) 0
    (seqZ (Partition.start vp) (Partition.end_ vp - Partition.start vp)).

(** [OrderedCount], lines 54-76, on a job of [npes] ranks:
    [shmem_long_sum_to_all] adds up the local totals and every rank
    returns the sum. *)
Definition OrderedCount (g : Graph) (npes : Z) : option Z :=
  totals ← mapM (λ pe, count_local g pe npes) (seqZ 0 npes);
  Some (foldr Z.add 0 totals).

(** [TCVerifier], lines 126-135: rank 0 prints the count and appends it
    to [tc_output.txt]; the verdict does not depend on the count. The
    result is the verdict and the lines appended to the file. *)
Definition TCVerifier (g : Graph) (test_total : Z) (pe : Z)
    : bool * list Z :=
  (true, if decide (pe = 0) then [test_total] else []).

(** ** The reference count *)

Definition adjacent (g : Graph) (a b : Z) : Prop := b ∈ Graph.out_neigh g a.

(** All triples [a < b < c] of vertices. *)
Definition triples (n : Z) : list (Z * Z * Z) :=
  c ← seqZ 0 n; b ← seqZ 0 c; a ← seqZ 0 b; [(a, b, c)].

#[global] Instance adjacent_dec g a b : Decision (adjacent g a b).
Proof. unfold adjacent. apply _. Defined.

(** A triple [(a, b, c)] whose vertices are pairwise adjacent. *)
Definition triangle (g : Graph) (t : Z * Z * Z) : Prop :=
  adjacent g t.1.1 t.1.2 ∧ adjacent g t.1.2 t.2 ∧ adjacent g t.1.1 t.2.

#[global] Instance triangle_dec g t : Decision (triangle g t).
Proof. unfold triangle. apply _. Defined.

(** Brute-force enumeration: the number of unordered triples of
    vertices that are pairwise adjacent. *)
Definition triangles (g : Graph) : Z :=
  Z.of_nat (length (filter (triangle g) (triples (Graph.num_nodes g)))).

(** The triangles that the kernel counts at [u] through its neighbour
    [v], and at [u]. *)
Definition common (g : Graph) (u v : Z) : nat :=
  length (filter (λ w, w ≤ v ∧ w ∈ Graph.out_neigh g u) (Graph.out_neigh g v)).

Definition at_vertex (g : Graph) (u : Z) : nat :=
  sum_list_with (common g u) (filter (λ v, v ≤ u) (Graph.out_neigh g u)).

(** ** The graphs the kernel is meant for *)

(** Neighbour lists strictly increasing, free of self-loops, and made
    of vertices of the graph. *)
Definition squished (g : Graph) : Prop :=
  Forall2 (λ u range,
             StronglySorted Z.lt range ∧ (u ∉ range)
             ∧ Forall (λ v, 0 ≤ v < Graph.num_nodes g) range)
    (seqZ 0 (Graph.num_nodes g)) (Graph.out_neighbors g).

(** Every edge is stored in both directions. *)
Definition symmetric (g : Graph) : Prop :=
  Forall2 (λ u range, Forall (λ v, adjacent g v u) range)
    (seqZ 0 (Graph.num_nodes g)) (Graph.out_neighbors g).

End TC.

(** * Single-source shortest paths (sssp.cc) *)

Module SSSP.

Definition NodeID : Type := Z.
Definition WeightT : Type := Z.
Definition WGraph : Type := Graph.CSRGraph (NodeID * WeightT).

(** ** Outcomes

    A run of the kernel ends with a value, or with an operation that
    has no defined result ([Fault]), or it is cut off by the bound on
    the rounds of its loops ([OutOfFuel]). *)
Inductive fault : Type :=
  | Division        (* a division by zero *)
  | Allocation      (* an allocation of the wrong size *)
  | Dist_access     (* an access outside [dist] *)
  | Frontier_read   (* a read outside [frontier] *)
  | Frontier_write  (* a write outside [frontier] *)
  | Bins_access     (* an access outside [local_bins] *)
  | Cell_access.    (* an access outside one of the small arrays *)

Inductive result (A : Type) : Type :=
  | Done (a : A)
  | Fault (what : fault)
  | OutOfFuel.

Arguments Done {A}.
Arguments Fault {A}.
Arguments OutOfFuel {A}.

#[global] Instance result_ret : MRet result := λ A, Done.

#[global] Instance result_bind : MBind result :=
  λ A B k m, match m with
             | Done a => k a
             | Fault what => Fault what
             | OutOfFuel => OutOfFuel
             end.

#[global] Instance result_fmap : FMap result :=
  λ A B f m, match m with
             | Done a => Done (f a)
             | Fault what => Fault what
             | OutOfFuel => OutOfFuel
             end.

Definition lift {A} (what : fault) (o : option A) : result A :=
  match o with Some a => Done a | None => Fault what end.

Fixpoint foldR {A B} (f : A → B → result A) (a : A) (l : list B) : result A :=
  match l with
  | [] => Done a
  | x :: l' => a' ← f a x; foldR f a' l'
  end.

(** ** Constants *)

(** Modelled from the spec: [WeightT], declared in [benchmark.h],
    which is not among the sources; the spec gives
    [DIST_INF = INT_MAX / 2], so weights are [int]. *)
Definition kDistInf : Z := CInt.int_max `quot` 2.

(** [numeric_limits<size_t>::max() / 2]. *)
Definition kMaxBin : Z := (2 ^ 64 - 1) `quot` 2.

Definition kBinSizeThreshold : Z := 1000.

(** ** State

    [dist], [frontier], [frontier_tails], the cell [local_min] and
    [iter] are symmetric: the world holds the copy of every rank.
    [shared_indexes] is read and written by its own rank only, and
    [local_bins] is private. *)
Record world : Type := mkWorld {
  dist : list (list Z);
  frontier : list (list NodeID);
  frontier_tails : list (list Z);
  local_min : list Z;
  iter : list Z
}.

Record rank : Type := mkRank {
  mem : world;
  shared_indexes : list Z;
  local_bins : list (list NodeID)
}.

Definition with_dist (w : world) (d : list (list Z)) : world :=
  mkWorld d (frontier w) (frontier_tails w) (local_min w) (iter w).

Definition with_frontier (w : world) (f : list (list NodeID)) : world :=
  mkWorld (dist w) f (frontier_tails w) (local_min w) (iter w).

Definition with_tails (w : world) (t : list (list Z)) : world :=
  mkWorld (dist w) (frontier w) t (local_min w) (iter w).

Definition with_mem (r : rank) (w : world) : rank :=
  mkRank w (shared_indexes r) (local_bins r).

(** ** One-sided operations *)

(** [shmem_getmem(&x, dist.begin() + i, sizeof(long), pe)]. *)
Definition shmem_getmem (w : world) (i pe : Z) : option Z :=
  d ← lookupZ (dist w) pe;
  lookupZ d i.

(** [shmem_long_atomic_compare_swap(dist.begin() + i, cond, value, pe)]
    stores [value] when the element equals [cond] and returns the
    element found. *)
Definition shmem_long_atomic_compare_swap (w : world) (i cond value pe : Z)
    : option (Z * world) :=
  d ← lookupZ (dist w) pe;
  old ← lookupZ d i;
  d' ← (if decide (old = cond) then storeZ d i value else Some d);
  ds ← storeZ (dist w) pe d';
  Some (old, with_dist w ds).

(** [shmem_ulong_atomic_fetch_add(&frontier_tails[k], value, pe)]. *)
Definition shmem_ulong_atomic_fetch_add (w : world) (k value pe : Z)
    : option (Z * world) :=
  t ← lookupZ (frontier_tails w) pe;
  old ← lookupZ t k;
  t' ← storeZ t k (CInt.to_size_t (old + value));
  ts ← storeZ (frontier_tails w) pe t';
  Some (old, with_tails w ts).

(** [shmem_size_put(&frontier_tails[k], &frontier_tails[k], 1, i)] from
    rank [pe]. *)
Definition shmem_size_put (w : world) (k pe i : Z) : option world :=
  mine ← lookupZ (frontier_tails w) pe;
  value ← lookupZ mine k;
  t ← lookupZ (frontier_tails w) i;
  t' ← storeZ t k value;
  ts ← storeZ (frontier_tails w) i t';
  Some (with_tails w ts).

(** [shmem_putmem(frontier.data() + at, src, sizeof(NodeID) * count,
    pe)]: [count] elements of [src] land in the copy of rank [pe]. *)
Definition shmem_putmem (w : world) (at_ : Z) (src : list NodeID) (pe : Z)
    : option world :=
  f ← lookupZ (frontier w) pe;
  f' ← foldM (λ f '(i, x), storeZ f (at_ + i) x) f
         (zip (seqZ 0 (Z.of_nat (length src))) src);
  fs ← storeZ (frontier w) pe f';
  Some (with_frontier w fs).

(** [shmem_int_atomic_inc(iter, i)]. *)
Definition shmem_int_atomic_inc (w : world) (i : Z) : option world :=
  old ← lookupZ (iter w) i;
  its ← storeZ (iter w) i (CInt.wrap (old + 1));
  Some (mkWorld (dist w) (frontier w) (frontier_tails w) (local_min w) its).

(** ** Bins *)

(** [local_bins.resize(size)]. *)
Definition resize (bins : list (list NodeID)) (size : Z)
    : list (list NodeID) :=
  take (Z.to_nat size) bins
    ++ replicate (Z.to_nat size - length bins) [].

(** [local_bins[b].push_back(v)]. *)
Definition push_back (bins : list (list NodeID)) (b : Z) (v : NodeID)
    : option (list (list NodeID)) :=
  bin ← lookupZ bins b;
  storeZ bins b (bin ++ [v]).

(** [local_bins[b]] under the test [b < local_bins.size()], which
    compares a [long] with a [size_t]. *)
Definition bin_at (bins : list (list NodeID)) (b : Z) : option (list NodeID) :=
  if decide (CInt.to_size_t b < Z.of_nat (length bins))
  then lookupZ bins b else None.

(** ** [RelaxEdges], lines 69-87 *)

(** The [while (new_dist < old_dist)] loop for the neighbour [v]. *)
Fixpoint relax (fuel : nat) (delta : Z) (vp : Partition.Partition)
    (v : NodeID) (old_dist new_dist : Z) (r : rank) : result rank :=
  if decide (new_dist < old_dist) then
    match fuel with
    | O => OutOfFuel
    | S fuel' =>
        i ← lift Division (Partition.local_pos vp v);
        pe ← lift Division (Partition.recv vp v);
        '(found, w) ← lift Dist_access
                         (shmem_long_atomic_compare_swap (mem r) i
                            old_dist new_dist pe);
        if decide (found = old_dist) then
          dest_bin ← lift Division
                        (CInt.to_size_t <$> CInt.div new_dist delta);
          let bins :=
            if decide (Z.of_nat (length (local_bins r)) ≤ dest_bin)
            then resize (local_bins r) (dest_bin + 1) else local_bins r in
          bins ← lift Bins_access (push_back bins dest_bin v);
          Done (mkRank w (shared_indexes r) bins)
        else
          old_dist ← lift Dist_access (shmem_getmem w i pe);
          relax fuel' delta vp v old_dist new_dist (with_mem r w)
    end
  else Done r.

Definition RelaxEdges (fuel : nat) (g : WGraph) (u : NodeID) (delta : Z)
    (vp : Partition.Partition) (r : rank) : result rank :=
  foldR (λ r '(v, w),
           iv ← lift Division (Partition.local_pos vp v);
           pv ← lift Division (Partition.recv vp v);
           old_dist ← lift Dist_access (shmem_getmem (mem r) iv pv);
           iu ← lift Division (Partition.local_pos vp u);
           pu ← lift Division (Partition.recv vp u);
           new_dist ← lift Dist_access (shmem_getmem (mem r) iu pu);
           let new_dist := CInt.wrap_long (new_dist + w) in
           relax fuel delta vp v old_dist new_dist r)
        r (Graph.out_neigh g u).

(** ** The phases of an iteration *)

(** Modelled from the spec: [OldePartition], whose declaration is not
    among the sources. The spec describes one partition scheme,
    [Partition(n, N)], and the kernel reads the same fields and helpers
    of an [OldePartition], so it is taken to be that scheme. *)
Definition OldePartition (n pe npes : Z) : option Partition.Partition :=
  Partition.make n pe npes.

(** Lines 118-123: the rank's slice of the frontier. *)
Definition process_frontier (fuel : nat) (g : WGraph) (delta : Z)
    (vp : Partition.Partition) (pe curr_bin_index curr_frontier_tail : Z)
    (r : rank) : result rank :=
  fp ← lift Division
         (OldePartition curr_frontier_tail pe (Partition.npes vp));
  foldR (λ r i,
           own ← lift Frontier_read (lookupZ (frontier (mem r)) pe);
           u ← lift Frontier_read (lookupZ own i);
           iu ← lift Division (Partition.local_pos vp u);
           pu ← lift Division (Partition.recv vp u);
           udist ← lift Dist_access (shmem_getmem (mem r) iu pu);
           if decide (CInt.wrap_long (delta * curr_bin_index) ≤ udist)
           then RelaxEdges fuel g u delta vp r
           else Done r)
        r (seqZ 0 (Partition.end_ fp - Partition.start fp)).

(** Lines 125-133: bucket fusion. *)
Fixpoint fuse (fuel : nat) (g : WGraph) (delta : Z) (vp : Partition.Partition)
    (curr_bin_index : Z) (r : rank) : result rank :=
  match bin_at (local_bins r) curr_bin_index with
  | Some curr_bin_copy =>
      if decide (curr_bin_copy ≠ []
                 ∧ Z.of_nat (length curr_bin_copy) < kBinSizeThreshold)
      then
        match fuel with
        | O => OutOfFuel
        | S fuel' =>
            bins ← lift Bins_access (storeZ (local_bins r) curr_bin_index []);
            r ← foldR (λ r u, RelaxEdges fuel' g u delta vp r)
                  (mkRank (mem r) (shared_indexes r) bins) curr_bin_copy;
            fuse fuel' g delta vp curr_bin_index r
        end
      else Done r
  | None => Done r
  end.

(** Lines 136-141: the first bin from [curr_bin_index] on that is not
    empty, if there is one. *)
Definition first_nonempty (bins : list (list NodeID)) (curr_bin_index : Z)
    : option Z :=
  if decide (0 ≤ curr_bin_index) then
    (λ p, curr_bin_index + Z.of_nat p.1)
      <$> list_find (λ bin, bin ≠ []) (drop (Z.to_nat curr_bin_index) bins)
  else None.

(** [shmem_long_min_to_all]: the least of the cells of the ranks. *)
Definition shmem_long_min_to_all (cells : list Z) : option Z :=
  match cells with
  | [] => None
  | c :: cells' => Some (foldr Z.min c cells')
  end.

(** Lines 164-184: the rank spreads its bin over the partitioned
    frontier, from rank [owner] on. The state of the loop is
    [(world, prior, owner, local_copy_start, stop)]. *)
Definition distribute (nftp : Partition.Partition) (bin : list NodeID)
    (owner local_copy_start : Z) (w : world) : option world :=
  '(w, _, _, _, _) ←
    foldM (λ '(w, prior, owner, local_copy_start, stop) i,
             if (stop : bool) then Some (w, prior, owner, local_copy_start, stop)
             else
               let bin_remainder :=
                 CInt.to_size_t (Z.of_nat (length bin) - prior) in
               let partition_remainder :=
                 CInt.to_size_t
                   (if decide (i ≠ Partition.npes nftp - 1)
                    then Partition.partition_width nftp - local_copy_start
                    else Partition.max_width nftp - local_copy_start) in
               if decide (partition_remainder < bin_remainder) then
                 w ← shmem_putmem w local_copy_start
                        (take (Z.to_nat partition_remainder)
                           (drop (Z.to_nat prior) bin)) owner;
                 Some (w, prior + partition_remainder, owner + 1, 0, false)
               else
                 w ← shmem_putmem w local_copy_start
                        (take (Z.to_nat bin_remainder)
                           (drop (Z.to_nat prior) bin)) owner;
                 Some (w, prior, owner, local_copy_start, true))
          (w, 0, owner, local_copy_start, false)
          (seqZ owner (Partition.npes nftp - owner));
  Some w.

(** Lines 134-142: the vote. The rank writes the first of its bins that
    is not empty, or else [next_bin_index], into its cell [local_min],
    and the least of the cells becomes [next_bin_index]. *)
Definition vote (pe curr_bin_index next : Z) (r : rank) : result rank :=
  next_bin_index ← lift Cell_access (lookupZ (shared_indexes r) next);
  let my_min :=
    match first_nonempty (local_bins r) curr_bin_index with
    | Some i => Z.min next_bin_index i
    | None => next_bin_index
    end in
  mins ← lift Cell_access (storeZ (local_min (mem r)) pe my_min);
  next_bin_index ← lift Cell_access (shmem_long_min_to_all mins);
  indexes ← lift Cell_access (storeZ (shared_indexes r) next next_bin_index);
  Done (mkRank (mkWorld (dist (mem r)) (frontier (mem r))
                  (frontier_tails (mem r)) mins (iter (mem r)))
          indexes (local_bins r)).

(** Lines 147-191: the second phase. The bin [next_bin_index] of the
    rank moves into the frontier and [iter] advances. *)
Definition redistribute (pe npes curr next : Z) (r : rank) : result rank :=
  next_bin_index ← lift Cell_access (lookupZ (shared_indexes r) next);
  indexes ← lift Cell_access (storeZ (shared_indexes r) curr kMaxBin);
  tails ← lift Cell_access (lookupZ (frontier_tails (mem r)) pe);
  tails ← lift Cell_access (storeZ tails curr 0);
  ts ← lift Cell_access (storeZ (frontier_tails (mem r)) pe tails);
  let w := with_tails (mem r) ts in
  let next_bin := bin_at (local_bins r) next_bin_index in
  '(copy_start, w) ←
    match next_bin with
    | Some bin =>
        '(old, w) ← lift Cell_access
                       (shmem_ulong_atomic_fetch_add w next
                          (Z.of_nat (length bin)) 0);
        Done (Some old, w)
    | None => Done (None, w)
    end;
  w ← (if decide (pe = 0)
       then lift Cell_access
              (foldM (λ w i, shmem_size_put w next pe i) w (seqZ 0 npes))
       else Done w);
  tails ← lift Cell_access (lookupZ (frontier_tails w) pe);
  next_frontier_tail ← lift Cell_access (lookupZ tails next);
  nftp ← lift Division (OldePartition next_frontier_tail pe npes);
  '(w, bins) ←
    match next_bin, copy_start with
    | Some bin, Some copy_start =>
        owner ← lift Division (Partition.recv nftp copy_start);
        local_copy_start ← lift Division
                                (Partition.local_pos nftp copy_start);
        w ← lift Frontier_write (distribute nftp bin owner local_copy_start w);
        bins ← lift Bins_access (storeZ (local_bins r) next_bin_index []);
        Done (w, bins)
    | _, _ => Done (w, local_bins r)
    end;
  w ← (if decide (pe = 0)
       then lift Cell_access (foldM shmem_int_atomic_inc w (seqZ 0 npes))
       else Done w);
  Done (mkRank w indexes bins).

(** The body of the outer loop, lines 112-191, for [iter = it]; [curr]
    and [next] select the cells of the two-element arrays. *)
Definition iteration (fuel : nat) (g : WGraph) (delta : Z)
    (vp : Partition.Partition) (pe : Z) (it : Z) (r : rank) : result rank :=
  let curr := Z.land it 1 in
  let next := Z.land (CInt.wrap (it + 1)) 1 in
  curr_bin_index ← lift Cell_access (lookupZ (shared_indexes r) curr);
  tails ← lift Cell_access (lookupZ (frontier_tails (mem r)) pe);
  curr_frontier_tail ← lift Cell_access (lookupZ tails curr);
  r ← process_frontier fuel g delta vp pe curr_bin_index curr_frontier_tail r;
  r ← fuse fuel g delta vp curr_bin_index r;
  r ← vote pe curr_bin_index next r;
  redistribute pe (Partition.npes vp) curr next r.

(** The outer loop, line 111. *)
Fixpoint DeltaStep_loop (fuel : nat) (g : WGraph) (delta : Z)
    (vp : Partition.Partition) (pe : Z) (r : rank) : result rank :=
  match fuel with
  | O => OutOfFuel
  | S fuel' =>
      it ← lift Cell_access (lookupZ (iter (mem r)) pe);
      curr_bin_index ← lift Cell_access
                          (lookupZ (shared_indexes r) (Z.land it 1));
      if decide (curr_bin_index ≠ kMaxBin) then
        r ← iteration fuel' g delta vp pe it r;
        DeltaStep_loop fuel' g delta vp pe r
      else Done r
  end.

(** [mapM] for runs. *)
Fixpoint mapR {A B} (f : A → result B) (l : list A) : result (list B) :=
  match l with
  | [] => Done []
  | x :: l' => y ← f x; ys ← mapR f l'; Done (y :: ys)
  end.

(** What every rank has set up when the loop is entered, lines 90-109.
    [fresh_frontier pe] is the content of the allocation of the
    frontier on rank [pe] and [fresh_min] that of the cells
    [local_min]; the source initialises neither. *)
Definition DeltaStep_init (g : WGraph) (source : NodeID) (npes : Z)
    (fresh_frontier : Z → list NodeID) (fresh_min : list Z) : result world :=
  ranks ← mapR (λ pe,
                  vp ← lift Division
                         (Partition.make (Graph.num_nodes g) pe npes);
                  let dist :=
                    replicate (Z.to_nat (Partition.max_width vp)) kDistInf in
                  dist ← (if decide (Partition.start vp ≤ source
                                     ∧ source < Partition.end_ vp)
                          then i ← lift Division
                                      (Partition.local_pos vp source);
                               lift Dist_access (storeZ dist i 0)
                          else Done dist);
                  ep ← lift Division
                         (Partition.make (Graph.num_edges_directed g) pe npes);
                  frontier ← lift Allocation
                               (alloc (fresh_frontier pe)
                                  (Partition.max_width ep));
                  frontier ← (if decide (pe = npes - 1)
                              then lift Frontier_write
                                     (storeZ frontier 0 source)
                              else Done frontier);
                  Done (dist, frontier))
             (seqZ 0 npes);
  local_min ← lift Allocation (alloc fresh_min npes);
  Done (mkWorld (fst <$> ranks) (snd <$> ranks)
          (replicate (Z.to_nat npes) [1; 0])
          local_min
          (replicate (Z.to_nat npes) 0)).

(** [Shmem_DeltaStep], lines 89-196, as run by rank [pe]; the result
    is its copy of [dist]. *)
Definition Shmem_DeltaStep (fuel : nat) (g : WGraph) (source : NodeID)
    (delta : Z) (pe npes : Z) (fresh_frontier : Z → list NodeID)
    (fresh_min : list Z) : result (list Z) :=
  w ← DeltaStep_init g source npes fresh_frontier fresh_min;
  vp ← lift Division (Partition.make (Graph.num_nodes g) pe npes);
  r ← DeltaStep_loop fuel g delta vp pe (mkRank w [0; kMaxBin] []);
  lift Dist_access (lookupZ (dist (mem r)) pe).

(** ** What the kernel is to compute *)

(** A walk from [u] along the edges of [g], with its total weight. *)
Inductive path (g : WGraph) (u : NodeID) : NodeID → Z → Prop :=
  | path_nil : path g u u 0
  | path_snoc v t w d :
      path g u v d → (t, w) ∈ Graph.out_neigh g v → path g u t (d + w).

(** The edges that leave [u], whose distance is [du], are relaxed. *)
Definition relaxed_at (g : WGraph) (dist : list Z) (u : NodeID) (du : Z)
    : Prop :=
  ∀ v w, (v, w) ∈ Graph.out_neigh g u →
         ∃ dv, lookupZ dist v = Some dv ∧ dv ≤ du + w.

Definition relaxed (g : WGraph) (dist : list Z) : Prop :=
  ∀ u du, lookupZ dist u = Some du → du < kDistInf → relaxed_at g dist u du.

Definition witnessed (g : WGraph) (source : NodeID) (dist : list Z) : Prop :=
  ∀ v dv, lookupZ dist v = Some dv → dv < kDistInf → path g source v dv.

Definition sssp_output (g : WGraph) (source : NodeID) (dist : list Z) : Prop :=
  lookupZ dist source = Some 0 ∧ relaxed g dist ∧ witnessed g source dist.

(** Edges lead to vertices of the graph and carry weights of type
    [WeightT] that are not negative. *)
Definition well_formed (g : WGraph) : Prop :=
  Forall (Forall (λ e : NodeID * WeightT,
                    0 ≤ e.1 < Graph.num_nodes g ∧ 0 ≤ e.2 ≤ CInt.int_max))
    (Graph.out_neighbors g).

(** ** A job of one rank

    With one rank the slice of the rank is the whole array, every
    symmetric object has one copy, and nothing interleaves with the
    program of the rank. *)

Definition single (n : Z) : Partition.Partition :=
  Partition.mkPartition n 0 1 n n 0 n.

Definition alone (d : list Z) (f : list NodeID) (tails : list Z) (m it : Z)
    (idx : list Z) (bins : list (list NodeID)) : rank :=
  mkRank (mkWorld [d] [f] [tails] [m] [it]) idx bins.

(** The content of bin [b], empty when there is no such bin, and the
    number of entries of all bins. *)
Definition entries (bins : list (list NodeID)) (b : Z) : list NodeID :=
  default [] (lookupZ bins b).

Definition total (bins : list (list NodeID)) : Z :=
  Z.of_nat (length (concat bins)).

(** The bins after [v] has entered bin [b], lines 77-80. *)
Definition pushed (bins : list (list NodeID)) (b : Z) (v : NodeID)
    : list (list NodeID) :=
  let bins' := if decide (Z.of_nat (length bins) ≤ b)
               then resize bins (b + 1) else bins in
  <[Z.to_nat b := entries bins b ++ [v]]> bins'.

(** What bounds the rounds that are left: every entry of a bin was paid
    for by a decrease of a distance. *)
Definition potential (d : list Z) (bins : list (list NodeID)) : Z :=
  foldr Z.add 0 d + total bins.

(** The distances are those of walks from the source. *)
Definition dist_ok (g : WGraph) (source : NodeID) (d : list Z) : Prop :=
  Z.of_nat (length d) = Graph.num_nodes g
  ∧ Forall (λ x, 0 ≤ x ≤ kDistInf) d
  ∧ lookupZ d source = Some 0
  ∧ witnessed g source d.

(** The bins hold vertices, their number is bounded by the largest
    distance, and the vertices of the current bin [c] are not closer
    than [delta * c]. *)
Definition bins_ok (g : WGraph) (delta c : Z) (d : list Z)
    (bins : list (list NodeID)) : Prop :=
  (∀ b v, v ∈ entries bins b → 0 ≤ v < Graph.num_nodes g)
  ∧ (∀ b, 0 ≤ b < Z.of_nat (length bins) → delta * b < kDistInf)
  ∧ (∀ v, v ∈ entries bins c → ∃ dv, lookupZ d v = Some dv ∧ delta * c ≤ dv).

(** Every reached vertex has its edges relaxed, or it is still to be
    processed: it waits in the work list [F] or in the bin of its
    distance. *)
Definition pending (g : WGraph) (delta c : Z) (d : list Z)
    (bins : list (list NodeID)) (F : list NodeID) : Prop :=
  ∀ v dv, lookupZ d v = Some dv → dv < kDistInf →
    relaxed_at g d v dv
    ∨ (delta * c ≤ dv ∧ (v ∈ F ∨ v ∈ entries bins (dv `div` delta))).

(** The state of the rank at the head of the outer loop, for the
    current bin [c] and a frontier of [tail] vertices. *)
Definition head_inv (g : WGraph) (source : NodeID) (delta : Z)
    (d : list Z) (f : list NodeID) (tails : list Z) (it : Z)
    (idx : list Z) (bins : list (list NodeID)) (c tail : Z) : Prop :=
  let k := Z.land it 1 in
  length idx = 2%nat ∧ length tails = 2%nat
  ∧ lookupZ idx k = Some c ∧ lookupZ idx (1 - k) = Some kMaxBin
  ∧ lookupZ tails k = Some tail ∧ lookupZ tails (1 - k) = Some 0
  ∧ 0 ≤ c ∧ delta * c < kDistInf
  ∧ 0 ≤ tail ≤ Z.of_nat (length f)
  ∧ Z.of_nat (length f) = Graph.num_edges_directed g
  ∧ dist_ok g source d ∧ bins_ok g delta c d bins
  ∧ pending g delta c d bins (take (Z.to_nat tail) f)
  ∧ Forall (λ u, 0 ≤ u < Graph.num_nodes g) (take (Z.to_nat tail) f)
  ∧ entries bins c = []
  ∧ potential d bins ≤ Graph.num_nodes g * kDistInf.

(** [SSSPVerifier], lines 205-220, on rank [pe]: the lines that the
    rank appends to [sssp_output.txt], and its verdict. *)
Definition SSSPVerifier (g : WGraph) (source : Z) (dist_to_test : list Z)
    (pe npes : Z) : option (bool * list Z) :=
  vp ← Partition.make (Graph.num_nodes g) pe npes;
  lines ← mapM (λ n, lp ← Partition.local_pos vp n; lookupZ dist_to_test lp)
               (seqZ (Partition.start vp)
                     (Partition.end_ vp - Partition.start vp));
  Some (true, lines).

(** The job: [PRINTER] is 0 on every rank after the barrier, a rank
    waits until it holds its own number and passes [pe + 1] to the next
    rank when it has closed the file, so the ranks write in rank
    order. [dist] has the slice of every rank. *)
Definition SSSPVerifier_job (g : WGraph) (source : Z) (dist : list (list Z))
    (npes : Z) : option (list bool * list Z) :=
  rs ← mapM (λ pe, d ← lookupZ dist pe; SSSPVerifier g source d pe npes)
            (seqZ 0 npes);
  Some (fst <$> rs, concat (snd <$> rs)).

End SSSP.

(** ** A run of two ranks

    Two ranks share a queue of capacity 8. Each creates a buffer of
    [local_size] 2 (the second slot of its allocation holds 77 on rank
    0 and 88 on rank 1), stages one vertex and flushes. *)

Module QueueRun.

Definition two_ranks : Queue.world Z :=
  Queue.mkWorld [Queue.new 0 8; Queue.new 0 8] false [].

Definition stage (fresh : list Z) (pe : nat) (v : Z)
    : Queue.shmem Z (Queue.QueueBuffer Z) :=
  Queue.buffer_push_back (Queue.new_buffer fresh pe 2) v.

Definition buffer0 : Queue.QueueBuffer Z := Queue.mkQueueBuffer 1 [5; 77] 2 0 2.
Definition buffer1 : Queue.QueueBuffer Z := Queue.mkQueueBuffer 1 [6; 88] 2 1 2.

Definition both_flush : Queue.shmem Z unit :=
  Queue.bind (stage [76; 77] 0 5) (λ b0,
  Queue.bind (stage [87; 88] 1 6) (λ b1,
  Queue.bind (Queue.flush b0) (λ _,
  Queue.bind (Queue.flush b1) (λ _,
  Queue.ret tt)))).

End QueueRun.

(** ** A bottom-up step on one edge

    The directed graph with the single edge [0 → 1], on one rank.
    Vertex 0 is the source and is in the frontier; vertex 1 is
    unvisited. The cell that [shmem_malloc] returns for [awake_count]
    is at index 0 of the heap, which holds zeros. *)

Module BottomUpRun.

Definition one_edge : BFS.Graph := Graph.mkCSRGraph true [[1]; []] [[]; [0]].

Definition front : Bitmap.Bitmap := Bitmap.set_bit (Bitmap.create 2) 0.

Definition rank0 : BFS.bu_rank :=
  BFS.mkBuRank [0; -1] front (Bitmap.create 2) [0; 0].

End BottomUpRun.

(** ** Graphs of the end-to-end scenarios *)

Module Scenario.

(** The undirected path [0 - 1 - 2 - 3 - 4 - 5]. *)
Definition path6 : BFS.Graph :=
  Graph.undirected [[1]; [0; 2]; [1; 3]; [2; 4]; [3; 5]; [4]].

(** The triangle on [{0, 1, 2}]. *)
Definition K3 : BFS.Graph := Graph.undirected [[1; 2]; [0; 2]; [0; 1]].

(** A run on one rank whose allocations hold zeros. *)
Definition zeros : BFS.allocations :=
  BFS.mkAllocations (λ _, replicate 6 0)
    (λ _, replicate (Z.to_nat BFS.kQueueBufferSize) 0) (λ _, [0]).

(** A run on two ranks whose allocations hold zeros; the parent array
    of a rank has [max_size = 6 - 1 * 3] elements. *)
Definition zeros2 : BFS.allocations :=
  BFS.mkAllocations (λ _, replicate 3 0)
    (λ _, replicate (Z.to_nat BFS.kQueueBufferSize) 0) (λ _, [0; 0]).

(** The complete graph on four vertices. *)
Definition K4 : BFS.Graph :=
  Graph.undirected [[1; 2; 3]; [0; 2; 3]; [0; 1; 3]; [0; 1; 2]].

(** Four vertices with repeated edges and self-loops, as the builder
    leaves them before squishing. *)
Definition unsquished : BFS.Graph :=
  Graph.undirected [[1; 1; 0; 2]; [0; 0; 1]; [2; 1; 0; 0]; [3; 3]].

(** A single vertex without edges, as a weighted graph. *)
Definition lone : SSSP.WGraph := Graph.undirected [[]].

(** The path [0 - 1 - 2 - 3 - 4 - 5] with unit weights. *)
Definition unit_path6 : SSSP.WGraph :=
  Graph.undirected
    [[(1, 1)]; [(0, 1); (2, 1)]; [(1, 1); (3, 1)]; [(2, 1); (4, 1)];
     [(3, 1); (5, 1)]; [(4, 1)]].

(** A directed graph of seven vertices and seven edges: vertex 1 is
    reached from the source 0 at distance 3 and, through vertex 2, at
    distance 2; it has four edges of weight 10, to the vertices 3 to
    6. *)
Definition fan : SSSP.WGraph :=
  Graph.mkCSRGraph true
    [[(1, 3); (2, 1)]; [(3, 10); (4, 10); (5, 10); (6, 10)]; [(1, 1)];
     []; []; []; []]
    [[]; [(0, 3); (2, 1)]; [(0, 1)]; [(1, 10)]; [(1, 10)]; [(1, 10)];
     [(1, 10)]].

(** The state of rank 0, alone, on [fan] with [delta = 10] when the
    loop is entered; the allocations hold zeros. *)
Definition fan_start : SSSP.result SSSP.rank :=
  w ← SSSP.DeltaStep_init fan 0 1 (λ _, replicate 7 0) [0];
  SSSP.Done (SSSP.mkRank w [0; SSSP.kMaxBin] []).

(** The first phase of the first iteration from there: the frontier
    and the fusion of bin 0. *)
Definition fan_phase1 : SSSP.result SSSP.rank :=
  r ← fan_start;
  vp ← SSSP.lift SSSP.Division (Partition.make 7 0 1);
  r ← SSSP.process_frontier 4 fan 10 vp 0 0 1 r;
  SSSP.fuse 4 fan 10 vp 0 r.

Definition no_state : BFS.dobfs_state :=
  BFS.mkDobfs (BFS.mkWorld [] (Queue.mkWorld [] false []) []) [] [] 0 0.

(** The state of [DOBFS] on [path6] from source 0 when the outer loop
    is entered, and after its first iteration. *)
Definition start : BFS.dobfs_state :=
  Eval vm_compute in
    default no_state (BFS.DOBFS_init path6 0 1 zeros).

Definition after_first : BFS.dobfs_state :=
  Eval vm_compute in
    default no_state
      (BFS.DOBFS_iteration 7 path6 0 1 15 18
         (BFS.fresh_queue zeros 0) (BFS.fresh_scout zeros 0) start).

End Scenario.

(* ================================================================== *)
(** * Properties *)
(* ================================================================== *)

(** ** Machine integers *)

Lemma wrap_small z : CInt.int_min ≤ z ≤ CInt.int_max → CInt.wrap z = z.
Proof.
  unfold CInt.wrap, CInt.int_min, CInt.int_max. intros H.
  rewrite Z.mod_small; lia.
Qed.

Lemma div_Some a b : b ≠ 0 → CInt.div a b = Some (a `quot` b).
Proof. unfold CInt.div. intros. by rewrite decide_False. Qed.

Lemma rem_Some a b : b ≠ 0 → CInt.rem a b = Some (a `rem` b).
Proof. unfold CInt.rem. intros. by rewrite decide_False. Qed.

Lemma quot_nonneg a b : 0 ≤ a → 0 < b → a `quot` b = a `div` b.
Proof. intros. rewrite Z.quot_div_nonneg; lia. Qed.

Lemma rem_nonneg a b : 0 ≤ a → 0 < b → a `rem` b = a `mod` b.
Proof. intros. rewrite Z.rem_mod_nonneg; lia. Qed.

Lemma offset_Some n npes :
  1 ≤ npes → 0 ≤ n ≤ CInt.int_max →
  Bounds.offset n npes = Some (n `div` npes).
Proof.
  intros Hp Hn. unfold Bounds.offset.
  rewrite div_Some by lia. simpl. f_equal.
  rewrite quot_nonneg by lia.
  assert (0 ≤ n `div` npes ≤ n).
  { split; [apply Z.div_pos; lia|]. apply Z.div_le_upper_bound; nia. }
  apply wrap_small. unfold CInt.int_min. lia.
Qed.

Lemma offset_zero n npes :
  0 ≤ n < npes → Bounds.offset n npes = Some 0.
Proof.
  intros Hn. unfold Bounds.offset.
  rewrite div_Some by lia. simpl. f_equal.
  rewrite Z.quot_small by lia. reflexivity.
Qed.

(** ** Arrays and loops *)

Section Arrays.

Context {A : Type}.

Implicit Types (l : list A) (i j : Z) (x : A).

Lemma lookupZ_Some l i x :
  lookupZ l i = Some x ↔ 0 ≤ i ∧ l !! Z.to_nat i = Some x.
Proof. unfold lookupZ. destruct (decide (0 ≤ i)); [tauto|]. split; [done|tauto]. Qed.

Lemma lookupZ_lt l i x : lookupZ l i = Some x → 0 ≤ i < Z.of_nat (length l).
Proof.
  intros [? H%lookup_lt_Some]%lookupZ_Some. lia.
Qed.

Lemma lookupZ_is_Some l i : 0 ≤ i < Z.of_nat (length l) → is_Some (lookupZ l i).
Proof.
  intros H. unfold lookupZ. rewrite decide_True by lia.
  apply lookup_lt_is_Some. lia.
Qed.

Lemma lookupZ_None l i : ¬ (0 ≤ i < Z.of_nat (length l)) → lookupZ l i = None.
Proof.
  intros H. unfold lookupZ. case_decide; [|done].
  apply lookup_ge_None. lia.
Qed.

Lemma lookupZ_of_nat l (k : nat) : lookupZ l (Z.of_nat k) = l !! k.
Proof. unfold lookupZ. rewrite decide_True by lia. by rewrite Nat2Z.id. Qed.

Lemma storeZ_Some l i x :
  0 ≤ i < Z.of_nat (length l) → storeZ l i x = Some (<[Z.to_nat i := x]> l).
Proof. intros H. unfold storeZ. by rewrite decide_True. Qed.

Lemma storeZ_inv l i x l' :
  storeZ l i x = Some l' →
  0 ≤ i < Z.of_nat (length l) ∧ l' = <[Z.to_nat i := x]> l.
Proof.
  unfold storeZ. destruct (decide (0 ≤ i < Z.of_nat (length l))); [|done].
  intros [= <-]. done.
Qed.

Lemma storeZ_length l i x l' : storeZ l i x = Some l' → length l' = length l.
Proof. intros [_ ->]%storeZ_inv. by rewrite length_insert. Qed.

Lemma lookupZ_storeZ_eq l i x l' : storeZ l i x = Some l' → lookupZ l' i = Some x.
Proof.
  intros [H ->]%storeZ_inv. apply lookupZ_Some. split; [lia|].
  apply list_lookup_insert_eq. lia.
Qed.

Lemma lookupZ_storeZ_ne l i j x l' :
  storeZ l i x = Some l' → i ≠ j → lookupZ l' j = lookupZ l j.
Proof.
  intros [H ->]%storeZ_inv Hne. unfold lookupZ. case_decide; [|done].
  apply list_lookup_insert_ne. lia.
Qed.

Lemma lookupZ_ext l l' :
  (∀ i, lookupZ l i = lookupZ l' i) → l = l'.
Proof.
  intros H. apply list_eq. intros k.
  specialize (H (Z.of_nat k)). by rewrite !lookupZ_of_nat in H.
Qed.

End Arrays.

Section Loops.

Context {A B : Type}.

Lemma foldM_app (f : A → B → option A) a l1 l2 :
  foldM f a (l1 ++ l2) = a' ← foldM f a l1; foldM f a' l2.
Proof.
  revert a. induction l1 as [|x l1 IH]; intros a; simpl; [done|].
  destruct (f a x); simpl; [apply IH|done].
Qed.

(** A loop that keeps an invariant whenever it goes on. *)
Lemma foldM_invariant (f : A → B → option A) (P : A → Prop) l a a' :
  foldM f a l = Some a' → P a →
  (∀ a x a', x ∈ l → P a → f a x = Some a' → P a') →
  P a'.
Proof.
  revert a. induction l as [|x l IH]; intros a Hrun Ha Hstep; simpl in Hrun.
  - by injection Hrun as <-.
  - destruct (f a x) as [a1|] eqn:Hf; [|done]. simpl in Hrun.
    apply (IH a1); [done| |].
    + eapply Hstep; [|done..]. left.
    + intros. eapply Hstep; [|done..]. by right.
Qed.

(** A loop over a list that establishes an invariant indexed by the
    elements already visited. *)
Lemma foldM_total (f : A → B → option A) (P : list B → A → Prop) l a :
  P [] a →
  (∀ pre x post a, l = pre ++ x :: post → P pre a →
     ∃ a', f a x = Some a' ∧ P (pre ++ [x]) a') →
  ∃ a', foldM f a l = Some a' ∧ P l a'.
Proof.
  intros Ha Hstep.
  enough (∀ pre post a, l = pre ++ post → P pre a →
            ∃ a', foldM f a post = Some a' ∧ P l a') as H
    by (apply (H [] l); done).
  intros pre post. revert pre.
  induction post as [|x post IH]; intros pre a0 Hl Hp; simpl.
  - exists a0. rewrite app_nil_r in Hl. by subst.
  - destruct (Hstep pre x post a0 Hl Hp) as (a1 & Hf & Hp1).
    rewrite Hf. simpl. apply (IH (pre ++ [x])); [|done].
    by rewrite <- app_assoc.
Qed.

End Loops.

(** A counting loop from [lo] that establishes an invariant indexed by
    the next value of its counter. *)
Lemma foldM_seqZ {A} (f : A → Z → option A) (P : Z → A → Prop) lo len a :
  0 ≤ len → P lo a →
  (∀ i a, lo ≤ i < lo + len → P i a → ∃ a', f a i = Some a' ∧ P (i + 1) a') →
  ∃ a', foldM f a (seqZ lo len) = Some a' ∧ P (lo + len) a'.
Proof.
  intros Hlen Ha Hstep.
  destruct (foldM_total f (λ pre a, P (lo + Z.of_nat (length pre)) a)
              (seqZ lo len) a) as (a' & Hrun & Hp).
  - simpl. by rewrite Z.add_0_r.
  - intros pre x post a0 Hl Hp.
    assert (Hx : seqZ lo len !! length pre = Some x).
    { rewrite Hl. by rewrite list_lookup_middle. }
    apply lookup_seqZ in Hx as [-> Hlt].
    destruct (Hstep (lo + Z.of_nat (length pre)) a0) as (a1 & Hf & Hp1);
      [lia|done|].
    exists a1. split; [done|]. rewrite length_app. simpl.
    replace (lo + Z.of_nat (length pre + 1)) with
      (lo + Z.of_nat (length pre) + 1) by lia. done.
  - exists a'. split; [done|]. rewrite length_seqZ in Hp.
    by rewrite Z2Nat.id in Hp.
Qed.

(** ** The owner computation of [SHMEM_TDStep] *)

(** C10. With [num_nodes >= npes] the owner computation of
    [SHMEM_TDStep] is defined (no division by zero), the owner
    [foreign_pe] is a rank of the job, and [local_v] lies inside the
    slice [[lower_bound, upper_bound)] of that rank, at the position of
    [v]. When [num_nodes < npes] the division is undefined, so
    [num_nodes >= npes] is necessary. *)
Theorem TDStep_owner_in_slice (num_nodes npes v : Z) :
  0 ≤ num_nodes ≤ CInt.int_max → 1 ≤ npes →
  (npes ≤ num_nodes → 0 ≤ v < num_nodes →
   ∃ parent_offset foreign_pe local_v,
     Bounds.offset num_nodes npes = Some parent_offset ∧
     1 ≤ parent_offset ∧
     TDStep_owner num_nodes npes v = Some (foreign_pe, local_v) ∧
     0 ≤ foreign_pe < npes ∧
     0 ≤ local_v <
       Bounds.upper_bound num_nodes npes parent_offset foreign_pe
       - Bounds.lower_bound parent_offset foreign_pe ∧
     Bounds.lower_bound parent_offset foreign_pe + local_v = v) ∧
  (is_Some (TDStep_owner num_nodes npes v) → npes ≤ num_nodes).
Proof.
  intros Hn Hp. split.
  - intros Hle Hv.
    set (po := num_nodes `div` npes).
    assert (Hpo : 1 ≤ po ≤ num_nodes).
    { unfold po. split.
      - apply Z.div_le_lower_bound; lia.
      - apply Z.div_le_upper_bound; nia. }
    assert (Hmul : po * npes ≤ num_nodes).
    { unfold po. rewrite Z.mul_comm. apply Z.mul_div_le. lia. }
    set (q := v `div` po).
    assert (Hq : 0 ≤ q ≤ v).
    { unfold q. split; [apply Z.div_pos; lia|].
      apply Z.div_le_upper_bound; nia. }
    assert (Hqv : po * q ≤ v < po * q + po).
    { unfold q. pose proof (Z.mul_div_le v po).
      pose proof (Z.mul_succ_div_gt v po). lia. }
    assert (Hw : ∀ z, 0 ≤ z ≤ num_nodes → CInt.wrap z = z).
    { intros z Hz. apply wrap_small. unfold CInt.int_min. lia. }
    unfold TDStep_owner, TDStep_foreign.
    rewrite offset_Some by lia. fold po. simpl.
    rewrite div_Some by lia. simpl.
    rewrite quot_nonneg by lia. fold q. rewrite (Hw q) by lia.
    destruct (decide (npes ≤ q)) as [Hc|Hc].
    + exists po, (npes - 1), (v - po * (npes - 1)).
      assert (po * (npes - 1) ≤ v) by nia.
      unfold Bounds.upper_bound, Bounds.lower_bound.
      rewrite decide_True by done.
      rewrite !(Hw (po * (npes - 1))) by nia.
      rewrite (Hw (v - _)) by nia. rewrite Hw by lia.
      repeat split; try lia.
    + exists po, q, (v `mod` po).
      rewrite rem_Some by lia. simpl. rewrite rem_nonneg by lia.
      pose proof (Z.mod_pos_bound v po ltac:(lia)) as Hm.
      rewrite (Hw (v `mod` po)) by lia.
      assert (Hvq : v = po * q + v `mod` po).
      { unfold q. apply Z.div_mod. lia. }
      unfold Bounds.upper_bound, Bounds.lower_bound.
      rewrite !(Hw (po * q)) by nia.
      destruct (decide (q = npes - 1)) as [->|Hne].
      * rewrite Hw by lia. repeat split; lia.
      * rewrite (Hw (po * q + po)) by nia. repeat split; lia.
  - intros Hs. destruct (decide (npes ≤ num_nodes)) as [|Hlt]; [done|].
    exfalso. unfold TDStep_owner in Hs.
    rewrite offset_zero in Hs by lia. simpl in Hs.
    unfold TDStep_foreign, CInt.div in Hs. simpl in Hs.
    by destruct Hs.
Qed.

Lemma TDStep_owner_in_slice_witness :
  ∃ parent_offset foreign_pe local_v,
    Bounds.offset 10 3 = Some parent_offset ∧
    1 ≤ parent_offset ∧
    TDStep_owner 10 3 9 = Some (foreign_pe, local_v) ∧
    0 ≤ foreign_pe < 3 ∧
    0 ≤ local_v <
      Bounds.upper_bound 10 3 parent_offset foreign_pe
      - Bounds.lower_bound parent_offset foreign_pe ∧
    Bounds.lower_bound parent_offset foreign_pe + local_v = 9.
Proof.
  assert (H0 : 0 ≤ 10 ≤ CInt.int_max) by (unfold CInt.int_max; lia).
  destruct (TDStep_owner_in_slice 10 3 9 H0 ltac:(lia)) as [H _].
  apply H; lia.
Defined.

(** ** The queue buffer *)

Section QueueFacts.

Context {T : Type}.

Implicit Types (q : Queue.SlidingQueue T) (w : Queue.world T).
Implicit Types (b : Queue.QueueBuffer T) (l buf items : list T).

Lemma store_fits l offset items :
  (offset + length items ≤ length l)%nat →
  Queue.store l offset items
  = Some (take offset l ++ items ++ drop (offset + length items) l).
Proof. intros H. unfold Queue.store. by rewrite decide_True. Qed.

Lemma length_stored l offset items :
  (offset + length items ≤ length l)%nat →
  length (take offset l ++ items ++ drop (offset + length items) l)
  = length l.
Proof. intros H. rewrite !length_app, length_take, length_drop. lia. Qed.

Lemma stored_prefix l offset items n :
  (offset ≤ length l)%nat →
  take n (drop offset (take offset l ++ items ++ l)) = take n (items ++ l).
Proof.
  intros H. rewrite drop_app_length'; [done|].
  rewrite length_take. lia.
Qed.

(** What one store on a rank's array does to the world. *)
Lemma store_shared_fits e target offset items w q :
  Queue.queues w !! target = Some q →
  (offset + length items ≤ length (Queue.shared q))%nat →
  Queue.store_shared e target offset items w
  = Some (tt, Queue.mkWorld
                (<[target :=
                     Queue.mkSlidingQueue
                       (take offset (Queue.shared q) ++ items
                          ++ drop (offset + length items) (Queue.shared q))
                       (Queue.shared_in q) (Queue.shared_out_start q)
                       (Queue.shared_out_end q)]> (Queue.queues w))
                (Queue.QLOCK w) (Queue.log w ++ [e])).
Proof.
  intros Hq Hfit. unfold Queue.store_shared. rewrite Hq.
  by rewrite store_fits.
Qed.

Lemma flush_loop (pe cs ce : nat) buf (k m : nat) w :
  (k + m ≤ length (Queue.queues w))%nat →
  (∀ i q, Queue.queues w !! i = Some q →
          (cs + length buf ≤ length (Queue.shared q))%nat) →
  ∃ w',
    Queue.for_pes (seq k m)
      (λ i, if decide (i ≠ pe) then
              Queue.bind (Queue.shmem_put64 cs buf i)
                (λ _, Queue.shmem_ulong_put_shared_in ce i)
            else Queue.ret tt) w = Some (tt, w')
    ∧ Queue.QLOCK w' = Queue.QLOCK w
    ∧ length (Queue.queues w') = length (Queue.queues w)
    ∧ Queue.log w'
      = Queue.log w
        ++ flat_map (λ i, if decide (i ≠ pe)
                          then [Queue.Put64 i cs buf; Queue.PutIn i ce]
                          else []) (seq k m)
    ∧ ∀ i, Queue.queues w' !! i
           = if decide ((k ≤ i < k + m)%nat ∧ i ≠ pe)
             then Queue.put_result cs ce buf <$> Queue.queues w !! i
             else Queue.queues w !! i.
Proof.
  revert k w. induction m as [|m IH]; intros k w Hlen Hfit.
  - exists w. simpl. rewrite app_nil_r. repeat split; try done.
    intros i. rewrite decide_False; [done|lia].
  - simpl.
    destruct (lookup_lt_is_Some_2 (Queue.queues w) k ltac:(lia)) as [qk Hqk].
    destruct (decide (k ≠ pe)) as [Hne|Heq].
    + (* the body runs the two puts on rank [k] *)
      set (w1 := Queue.mkWorld
                   (<[k := Queue.put_result cs ce buf qk]> (Queue.queues w))
                   (Queue.QLOCK w)
                   (Queue.log w ++ [Queue.Put64 k cs buf; Queue.PutIn k ce])).
      assert (Hbody :
        Queue.bind (Queue.shmem_put64 cs buf k)
          (λ _, Queue.shmem_ulong_put_shared_in ce k) w = Some (tt, w1)).
      { unfold Queue.bind, Queue.shmem_put64.
        erewrite store_shared_fits by eauto.
        unfold Queue.shmem_ulong_put_shared_in. simpl.
        rewrite list_lookup_insert_eq by (apply lookup_lt_is_Some; eauto).
        unfold Queue.emit. simpl. rewrite list_insert_insert_eq.
        unfold w1, Queue.put_result. by rewrite <- app_assoc. }
      destruct (IH (S k) w1) as (w' & Hrun & Hlock & Hlen' & Hlog & Hq).
      { simpl. rewrite length_insert. lia. }
      { simpl. intros i q Hi.
        destruct (decide (i = k)) as [->|Hik].
        - rewrite list_lookup_insert_eq in Hi
            by (apply lookup_lt_is_Some; eauto).
          injection Hi as <-. simpl. rewrite length_stored; eauto.
        - rewrite list_lookup_insert_ne in Hi by done. eauto. }
      exists w'. unfold Queue.bind at 1. rewrite Hbody.
      split; [exact Hrun|]. split; [by rewrite Hlock|].
      split; [by rewrite Hlen'; simpl; rewrite length_insert|].
      split; [rewrite Hlog; simpl; by rewrite <- app_assoc|].
      intros i. rewrite Hq. unfold w1; cbn [Queue.queues].
      destruct (decide (i = k)) as [->|Hik].
      * rewrite list_lookup_insert_eq by (apply lookup_lt_is_Some; eauto).
        rewrite Hqk. repeat case_decide; try done; exfalso; lia.
      * rewrite list_lookup_insert_ne by done.
        repeat case_decide; try done; exfalso; lia.
    + (* the caller skips itself *)
      destruct (IH (S k) w) as (w' & Hrun & Hlock & Hlen' & Hlog & Hq);
        [lia|done|].
      exists w'. unfold Queue.bind at 1. simpl.
      split; [exact Hrun|]. split; [done|]. split; [done|].
      split; [done|].
      intros i. rewrite Hq.
      assert (k = pe) as Hk by (destruct (decide (k = pe)); [done|by exfalso]).
      repeat case_decide; try done; exfalso; lia.
Qed.

End QueueFacts.

Section FlushProtocol.

Context {T : Type}.

Implicit Types (q : Queue.SlidingQueue T) (w : Queue.world T).
Implicit Types (b : Queue.QueueBuffer T).


End FlushProtocol.

(** C1. Two ranks stage one vertex each and flush, rank 0 first. When
    both flushes have completed the ranks disagree on [shared_in] (4 on
    rank 0, 3 on rank 1) and their backing arrays differ: the [put] of
    [flush] carries [local_size] elements and [copy_start + local_size]
    instead of the [in] staged ones and [copy_start + in]. *)
Theorem flush_ranks_disagree :
  ∃ w', QueueRun.both_flush QueueRun.two_ranks = Some (tt, w')
        ∧ Queue.shared_in <$> Queue.queues w' = [4; 3]%nat
        ∧ Queue.shared <$> Queue.queues w'
          = [[5; 0; 6; 88; 0; 0; 0; 0]; [5; 77; 6; 0; 0; 0; 0; 0]].
Proof. eexists. vm_compute. repeat split. Qed.

(** The buffers of the run are those that [push_back] builds. *)
Lemma stage_buffers :
  QueueRun.stage [76; 77] 0 5 QueueRun.two_ranks
  = Some (QueueRun.buffer0, QueueRun.two_ranks)
  ∧ QueueRun.stage [87; 88] 1 6 QueueRun.two_ranks
    = Some (QueueRun.buffer1, QueueRun.two_ranks).
Proof. split; reflexivity. Qed.



(** ** The bottom-up step *)

(** C5. On the graph with the single edge [0 → 1], with vertex 0 in
    the frontier, [SHMEM_BUStep] gives vertex 1 the parent 0 and sets
    its bit in [next], but returns 0 although one vertex was newly
    visited: [awake_count++] moves the pointer and the sum is taken
    over a cell that was never written. [BUStep] returns 1 on the same
    input. *)
Theorem SHMEM_BUStep_miscounts :
  BFS.SHMEM_BUStep BottomUpRun.one_edge [BottomUpRun.rank0] 0
  = Some [(0, BFS.mkBuRank [0; 0] BottomUpRun.front
                (Bitmap.set_bit (Bitmap.create 2) 1) [0; 0])]
  ∧ BFS.newly_visited (BFS.bu_parent BottomUpRun.rank0) [0; 0] = 1
  ∧ BFS.BUStep BottomUpRun.one_edge [0; -1] BottomUpRun.front
      (Bitmap.create 2)
    = Some (1, [0; 0], Bitmap.set_bit (Bitmap.create 2) 1).
Proof. repeat split; reflexivity. Qed.

(** ** The direction switch of [DOBFS] *)

Lemma bottom_up_passes_S k g s s' :
  BFS.bottom_up_pass g s = Some s' →
  BFS.bottom_up_passes (S k) g s = BFS.bottom_up_passes k g s'.
Proof. intros H. simpl. by rewrite H. Qed.

(** The [do ... while] loop returns the state after the first pass at
    which the woken count dropped below that of the pass before and is
    at most [num_nodes / beta]. *)
Lemma bottom_up_exit fuel g beta s r :
  BFS.bottom_up fuel g beta s = Some r →
  ∃ bound k,
    CInt.div (Graph.num_nodes g) beta = Some bound
    ∧ BFS.bottom_up_passes (S k) g s = Some r
    ∧ ∀ j sj sj', (j ≤ k)%nat →
        BFS.bottom_up_passes j g s = Some sj →
        BFS.bottom_up_passes (S j) g s = Some sj' →
        (sj'.2 < sj.2 ∧ sj'.2 ≤ bound) ↔ j = k.
Proof.
  revert s. induction fuel as [|fuel IH]; intros s Hrun; [done|].
  simpl in Hrun.
  destruct (BFS.bottom_up_pass g s) as [s'|] eqn:Hpass; [|done].
  simpl in Hrun.
  destruct (CInt.div (Graph.num_nodes g) beta) as [bound|] eqn:Hdiv; [|done].
  simpl in Hrun. exists bound.
  destruct (decide (s.2 ≤ s'.2 ∨ bound < s'.2)) as [Hcont|Hstop].
  - destruct (IH _ Hrun) as (bound' & k & Hb & Hk & Hfirst).
    assert (bound' = bound) as -> by congruence.
    exists (S k). split; [done|]. split.
    { by rewrite (bottom_up_passes_S _ _ _ _ Hpass). }
    intros [|j] sj sj' Hj Hsj Hsj'.
    + simpl in Hsj. injection Hsj as <-.
      simpl in Hsj'. rewrite Hpass in Hsj'. simpl in Hsj'.
      injection Hsj' as <-. split; [lia|done].
    + rewrite (bottom_up_passes_S j _ _ _ Hpass) in Hsj.
      rewrite (bottom_up_passes_S (S j) _ _ _ Hpass) in Hsj'.
      rewrite (Hfirst j sj sj') by (done || lia). lia.
  - injection Hrun as <-. exists 0%nat. split; [done|]. split.
    { simpl. by rewrite Hpass. }
    intros j sj sj' Hj Hsj Hsj'.
    assert (j = 0%nat) as -> by lia.
    simpl in Hsj. injection Hsj as <-.
    simpl in Hsj'. rewrite Hpass in Hsj'. simpl in Hsj'.
    injection Hsj' as <-. split; [done|lia].
Qed.



(** ** Squishing a neighbour range *)

Section SquishRange.

Context {DestID : Type} (le : relation DestID).
Context `{!∀ x y, Decision (le x y)} `{!EqDecision DestID}.
Context `{!PartialOrder le} `{!Total le}.
Context (node : DestID → Z).

Implicit Types (x y d : DestID) (l range : list DestID).

Lemma unique_from_elem x l d : d ∈ Builder.unique_from x l → d ∈ x :: l.
Proof.
  revert x. induction l as [|y l IH]; intros x; simpl.
  - done.
  - case_decide as Hxy.
    + intros Hd%IH. subst y.
      apply elem_of_cons in Hd as [->|Hd]; [left|by do 2 right].
    + intros [->|Hd%IH]%elem_of_cons; [left|by right].
Qed.

Lemma unique_from_sorted x l :
  StronglySorted le (x :: l) →
  StronglySorted (strict le) (Builder.unique_from x l).
Proof.
  revert x. induction l as [|y l IH]; intros x Hs; simpl.
  - repeat constructor.
  - apply StronglySorted_cons in Hs as [Hx Hs].
    case_decide as Hxy.
    + subst y. by apply IH.
    + apply StronglySorted_cons. split; [|by apply IH].
      apply Forall_forall. intros d Hd%unique_from_elem.
      assert (le x d) as Hle.
      { rewrite Forall_forall in Hx. by apply Hx. }
      split; [done|]. intros Hdx.
      assert (d = x) as -> by (by apply (anti_symm le)).
      apply elem_of_cons in Hd as [<-|Hd]; [done|].
      apply StronglySorted_cons in Hs as [Hy _].
      rewrite Forall_forall in Hy. specialize (Hy _ Hd).
      apply Hxy. apply (anti_symm le); [|done].
      rewrite Forall_forall in Hx. apply Hx. left.
Qed.

Lemma std_unique_sorted l :
  StronglySorted le l → StronglySorted (strict le) (Builder.std_unique l).
Proof.
  destruct l as [|x l]; simpl; [constructor|apply unique_from_sorted].
Qed.

Lemma std_remove_sorted (R : relation DestID) n l :
  StronglySorted R l → StronglySorted R (Builder.std_remove node n l).
Proof.
  unfold Builder.std_remove. induction 1 as [|x l Hs IH Hx]; [constructor|].
  rewrite filter_cons. case_decide; [|done].
  constructor; [done|].
  rewrite Forall_forall in *. intros d [_ Hd]%list_elem_of_filter. auto.
Qed.

Lemma std_remove_no_self n l d :
  d ∈ Builder.std_remove node n l → node d ≠ n.
Proof. by intros [? _]%list_elem_of_filter. Qed.

Lemma std_unique_length l : (length (Builder.std_unique l) ≤ length l)%nat.
Proof.
  destruct l as [|x l]; simpl; [done|].
  revert x. induction l as [|y l IH]; intros x; simpl; [done|].
  case_decide; simpl; [specialize (IH x)|specialize (IH y)]; lia.
Qed.

(** The distance [new_end - n_start] is the length of the squished
    list, which lies at the front of the range. *)
Lemma squish_range_front n range :
  let kept := Builder.std_remove node n
                (Builder.std_unique (Builder.std_sort le range)) in
  (Builder.squish_range le node n range).2 = Z.of_nat (length kept)
  ∧ take (length kept) (Builder.squish_range le node n range).1 = kept.
Proof.
  simpl. split; [done|]. unfold Builder.in_place.
  by rewrite take_app_length.
Qed.

Lemma squish_range_length n range :
  length (Builder.squish_range le node n range).1 = length range.
Proof.
  simpl. unfold Builder.in_place.
  set (sorted := Builder.std_sort le range).
  set (uniq := Builder.std_unique sorted).
  set (kept := Builder.std_remove node n uniq).
  assert (Hs : length sorted = length range).
  { unfold sorted, Builder.std_sort. by rewrite merge_sort_Permutation. }
  assert (Hu : (length uniq ≤ length sorted)%nat)
    by apply std_unique_length.
  assert (Hk : (length kept ≤ length uniq)%nat).
  { unfold kept, Builder.std_remove. apply length_filter. }
  rewrite !length_app, !length_drop, length_app, length_drop. lia.
Qed.

(** The squished list is strictly increasing and free of the vertex
    itself. *)
Lemma squished_sorted n range :
  let kept := Builder.std_remove node n
                (Builder.std_unique (Builder.std_sort le range)) in
  StronglySorted (strict le) kept ∧ ∀ d, d ∈ kept → node d ≠ n.
Proof.
  simpl. split.
  - apply std_remove_sorted, std_unique_sorted.
    unfold Builder.std_sort. apply StronglySorted_merge_sort; apply _.
  - intros d. apply std_remove_no_self.
Qed.

End SquishRange.

(** ** Prefix sums *)

Lemma total_app xs ys :
  Builder.total (xs ++ ys) = Builder.total xs + Builder.total ys.
Proof.
  unfold Builder.total. induction xs as [|x xs IH]; simpl; [done|].
  rewrite IH. lia.
Qed.

Lemma total_concat (xss : list (list Z)) :
  Builder.total (concat xss) = Builder.total (Builder.total <$> xss).
Proof.
  induction xss as [|xs xss IH]; simpl; [done|].
  rewrite total_app, IH. done.
Qed.

Lemma length_running a xs : length (Builder.running a xs) = length xs.
Proof. revert a. induction xs as [|x xs IH]; intros a; simpl; [done|]. by rewrite IH. Qed.

Lemma running_app a xs ys :
  Builder.running a (xs ++ ys)
  = Builder.running a xs ++ Builder.running (a + Builder.total xs) ys.
Proof.
  revert a. induction xs as [|x xs IH]; intros a; simpl.
  - by rewrite Z.add_0_r.
  - rewrite IH. do 3 f_equal. unfold Builder.total. simpl. lia.
Qed.

Lemma lookup_running a xs (k : nat) :
  (k < length xs)%nat →
  Builder.running a xs !! k = Some (a + Builder.total (take k xs)).
Proof.
  revert a k. induction xs as [|x xs IH]; intros a k Hk; simpl in *; [lia|].
  destruct k as [|k]; simpl.
  - by rewrite Z.add_0_r.
  - rewrite IH by lia. f_equal. unfold Builder.total. simpl. lia.
Qed.

(** Entry [k] of the prefix sums is the total of the first [k]
    elements. *)
Lemma lookup_PrefixSum degrees (k : nat) :
  (k ≤ length degrees)%nat →
  Builder.PrefixSum degrees !! k = Some (Builder.total (take k degrees)).
Proof.
  intros Hk. unfold Builder.PrefixSum.
  destruct (decide (k = length degrees)) as [->|Hne].
  - rewrite lookup_app_r by (rewrite length_running; lia).
    rewrite length_running, Nat.sub_diag. simpl.
    by rewrite firstn_all.
  - rewrite lookup_app_l by (rewrite length_running; lia).
    rewrite lookup_running by lia. done.
Qed.

Lemma length_PrefixSum degrees :
  length (Builder.PrefixSum degrees) = S (length degrees).
Proof.
  unfold Builder.PrefixSum. rewrite length_app, length_running. simpl. lia.
Qed.

Section Blocks.

Variable degrees : list Z.

Let size := Z.of_nat (length degrees).
Let num_blocks := (size + Builder.block_size - 1) `div` Builder.block_size.
Let block_end b := Z.min ((b + 1) * Builder.block_size) size.
Let blk b := Builder.block degrees (b * Builder.block_size) (block_end b).

Lemma block_size_pos : 0 < Builder.block_size.
Proof. done. Qed.

Lemma num_blocks_bounds :
  0 ≤ num_blocks ∧ size ≤ num_blocks * Builder.block_size
  ∧ ∀ b, 0 ≤ b < num_blocks → b * Builder.block_size < size.
Proof.
  pose proof block_size_pos as HB. unfold num_blocks.
  pose proof (Z.mul_div_le (size + Builder.block_size - 1) Builder.block_size HB).
  pose proof (Z.mul_succ_div_gt (size + Builder.block_size - 1)
                Builder.block_size HB).
  assert (0 ≤ size) by (unfold size; lia).
  split; [apply Z.div_pos; lia|]. split; [nia|]. intros b Hb. nia.
Qed.

(** The blocks before block [k] make up the first [k * block_size]
    elements. *)
Lemma blocks_before (k : nat) :
  Z.of_nat k ≤ num_blocks →
  concat (blk <$> seqZ 0 (Z.of_nat k))
  = take (Z.to_nat (Z.min (Z.of_nat k * Builder.block_size) size)) degrees.
Proof.
  pose proof block_size_pos as HB.
  destruct num_blocks_bounds as (Hnb & Hsize & Hlt).
  induction k as [|k IH]; intros Hk.
  - simpl. rewrite Z.min_l by (unfold size; lia). done.
  - replace (Z.of_nat (S k)) with (Z.of_nat k + 1) by lia.
    rewrite seqZ_app by lia. rewrite fmap_app, concat_app, IH by lia.
    simpl. rewrite app_nil_r.
    specialize (Hlt (Z.of_nat k) ltac:(lia)).
    rewrite Z.min_l by lia.
    unfold blk, Builder.block, block_end.
    rewrite take_take_drop. f_equal. lia.
Qed.

Lemma blocks_all : concat (blk <$> seqZ 0 num_blocks) = degrees.
Proof.
  destruct num_blocks_bounds as (Hnb & Hsize & _).
  rewrite <- (Z2Nat.id num_blocks) by done.
  rewrite blocks_before by lia. rewrite Z2Nat.id by done.
  rewrite Z.min_r by lia. unfold size. rewrite Nat2Z.id.
  apply firstn_all.
Qed.

(** [ParallelPrefixSum] computes the prefix sums of [PrefixSum]. *)
Lemma ParallelPrefixSum_PrefixSum :
  Builder.ParallelPrefixSum degrees = Builder.PrefixSum degrees.
Proof.
  pose proof block_size_pos as HB.
  destruct num_blocks_bounds as (Hnb & Hsize & Hlt).
  unfold Builder.ParallelPrefixSum, Builder.PrefixSum.
  fold size. fold num_blocks.
  change (λ b, Builder.total
                 (Builder.block degrees (b * Builder.block_size)
                    (Z.min ((b + 1) * Builder.block_size) size)))
    with (λ b, Builder.total (blk b)).
  change (λ b, Builder.running ?a
                 (Builder.block degrees (b * Builder.block_size)
                    (Z.min ((b + 1) * Builder.block_size) size)))
    with (λ b, Builder.running a (blk b)).
  set (local_sums := (λ b, Builder.total (blk b)) <$> seqZ 0 num_blocks).
  set (bulk_prefix := Builder.running 0 local_sums
                      ++ [Builder.total local_sums]).
  assert (Hlen : length local_sums = Z.to_nat num_blocks).
  { unfold local_sums. by rewrite length_fmap, length_seqZ. }
  assert (Htake : ∀ k : nat, Z.of_nat k ≤ num_blocks →
            Builder.total (take k local_sums)
            = Builder.total
                (take (Z.to_nat (Z.min (Z.of_nat k * Builder.block_size) size))
                   degrees)).
  { intros k Hk. rewrite <- blocks_before by done.
    rewrite total_concat. f_equal. unfold local_sums.
    rewrite <- (Z2Nat.id num_blocks) at 1 by done.
    replace (Z.to_nat num_blocks) with (k + (Z.to_nat num_blocks - k))%nat
      by lia.
    rewrite Nat2Z.inj_add, seqZ_app by lia.
    rewrite fmap_app, take_app_length'
      by (rewrite length_fmap, length_seqZ; lia).
    by rewrite <- list_fmap_compose. }
  assert (Hbulk : ∀ k : nat, Z.of_nat k ≤ num_blocks →
            default 0 (lookupZ bulk_prefix (Z.of_nat k))
            = Builder.total
                (take (Z.to_nat (Z.min (Z.of_nat k * Builder.block_size) size))
                   degrees)).
  { intros k Hk. rewrite lookupZ_of_nat. unfold bulk_prefix.
    fold (Builder.PrefixSum local_sums).
    rewrite lookup_PrefixSum by lia. simpl. by apply Htake. }
  f_equal.
  - transitivity (Builder.running 0 (concat (blk <$> seqZ 0 num_blocks)));
      [|by rewrite blocks_all].
    enough (∀ k : nat, Z.of_nat k ≤ num_blocks →
              concat ((λ b, Builder.running (default 0 (lookupZ bulk_prefix b))
                              (blk b)) <$> seqZ 0 (Z.of_nat k))
              = Builder.running 0 (concat (blk <$> seqZ 0 (Z.of_nat k)))) as H.
    { specialize (H (Z.to_nat num_blocks)). rewrite Z2Nat.id in H by done.
      apply H. lia. }
    induction k as [|k IH]; intros Hk; [done|].
    replace (Z.of_nat (S k)) with (Z.of_nat k + 1) by lia.
    rewrite seqZ_app by lia. rewrite !fmap_app, !concat_app, IH by lia.
    rewrite running_app. f_equal. simpl. rewrite !app_nil_r.
    change (Z.of_nat 0 + (0 + Z.of_nat k)) with (Z.of_nat k).
    rewrite Hbulk by lia. rewrite blocks_before by lia. done.
  - rewrite <- (Z2Nat.id num_blocks) by done. rewrite Hbulk by lia.
    rewrite Z2Nat.id by done. rewrite Z.min_r by lia.
    unfold size. rewrite Nat2Z.id. by rewrite firstn_all.
Qed.

End Blocks.

(** ** Partitions *)

Lemma partition_make n pe npes :
  1 ≤ npes → npes ≤ n → 0 ≤ pe < npes →
  ∃ vp, Partition.make n pe npes = Some vp
        ∧ Partition.npes vp = npes
        ∧ 1 ≤ Partition.partition_width vp
        ∧ Partition.partition_width vp = n `div` npes
        ∧ Partition.start vp = pe * Partition.partition_width vp
        ∧ 0 ≤ Partition.start vp ≤ Partition.end_ vp
        ∧ Partition.end_ vp ≤ n
        ∧ Partition.end_ vp - Partition.start vp ≤ Partition.max_width vp
        ∧ Partition.max_width vp = n - (npes - 1) * (n `div` npes)
        ∧ (pe < npes - 1 →
           Partition.end_ vp
           = Partition.start vp + Partition.partition_width vp)
        ∧ (pe = npes - 1 → Partition.end_ vp = n).
Proof.
  intros Hp Hn Hpe. unfold Partition.make.
  rewrite div_Some by lia. rewrite quot_nonneg by lia. simpl.
  set (pw := n `div` npes).
  assert (1 ≤ pw) by (apply Z.div_le_lower_bound; lia).
  assert (pw * npes ≤ n).
  { unfold pw. rewrite Z.mul_comm. apply Z.mul_div_le. lia. }
  eexists. split; [done|]. simpl.
  destruct (decide (pe < npes - 1)); split_and!; try done; try nia.
Qed.

Lemma partition_local_pos n pe npes vp x :
  1 ≤ npes → npes ≤ n → 0 ≤ pe < npes →
  Partition.make n pe npes = Some vp →
  Partition.start vp ≤ x < Partition.end_ vp →
  Partition.recv vp x = Some pe
  ∧ Partition.local_pos vp x = Some (x - Partition.start vp).
Proof.
  intros Hp Hn Hpe Hvp Hx.
  destruct (partition_make n pe npes Hp Hn Hpe)
    as (vp' & Hvp' & Hnp & Hpw & _ & Hstart & Hse & Hen & _ & _ & Hmid & Hlast).
  assert (vp' = vp) as -> by congruence.
  set (pw := Partition.partition_width vp) in *.
  assert (Hrecv : Partition.recv vp x = Some pe).
  { unfold Partition.recv. fold pw. rewrite div_Some by lia. simpl.
    rewrite quot_nonneg by lia. f_equal. rewrite Hnp.
    destruct (decide (pe < npes - 1)) as [Hlt|Hge].
    - specialize (Hmid Hlt).
      assert (x `div` pw = pe) as ->
        by (symmetry; apply Z.div_unique with (x - pe * pw); lia).
      lia.
    - assert (pe * pw ≤ x) by lia.
      assert (pe ≤ x `div` pw) by (apply Z.div_le_lower_bound; lia).
      lia. }
  split; [done|]. unfold Partition.local_pos. rewrite Hrecv. simpl.
  f_equal. fold pw. lia.
Qed.

(** ** The loops of [SquishCSR] on one rank *)

Lemma total_lengths {A} (ls : list (list A)) :
  Builder.total ((λ l, Z.of_nat (length l)) <$> ls)
  = Z.of_nat (length (concat ls)).
Proof.
  induction ls as [|l ls IH]; [done|].
  rewrite fmap_cons. simpl concat. rewrite length_app.
  change (Builder.total (?x :: ?xs)) with (x + Builder.total xs).
  rewrite IH. lia.
Qed.

Lemma concat_take_S {A} (ls : list (list A)) (k : nat) l :
  ls !! k = Some l → concat (take (S k) ls) = concat (take k ls) ++ l.
Proof.
  intros H. rewrite (take_S_r _ _ _ H), concat_app. simpl.
  by rewrite app_nil_r.
Qed.

Lemma concat_slice {A} (ls : list (list A)) (k : nat) l rest :
  ls !! k = Some l →
  take (length l) (drop (length (concat (take k ls))) (concat ls ++ rest)) = l.
Proof.
  intros H. rewrite <- (take_drop_middle _ _ _ H) at 2.
  rewrite concat_app. simpl. rewrite <- !app_assoc.
  rewrite drop_app_length. by rewrite take_app_length.
Qed.

Section SquishRank.

Context {DestID : Type} (le : relation DestID).
Context `{!∀ x y, Decision (le x y)} `{!EqDecision DestID}.
Context (node : DestID → Z) (zero : DestID).

Variables (n pe npes : Z) (vp : Partition.Partition).
Hypothesis Hp : 1 ≤ npes.
Hypothesis Hn : npes ≤ n.
Hypothesis Hpe : 0 ≤ pe < npes.
Hypothesis Hvp : Partition.make n pe npes = Some vp.

(** The squished neighbour list of vertex [x]. *)
Let kept (x : Z) (range : list DestID) : list DestID :=
  Builder.std_remove node x (Builder.std_unique (Builder.std_sort le range)).

Lemma squish_ranges_spec ranges diffs :
  Z.of_nat (length ranges) = n →
  Z.of_nat (length diffs) = Partition.max_width vp →
  ∃ ranges' diffs',
    Builder.squish_ranges le node vp ranges diffs = Some (ranges', diffs')
    ∧ length ranges' = length ranges
    ∧ length diffs' = length diffs
    ∧ ∀ x, Partition.start vp ≤ x < Partition.end_ vp →
        ∃ range range',
          lookupZ ranges x = Some range
          ∧ lookupZ ranges' x = Some range'
          ∧ take (length (kept x range)) range' = kept x range
          ∧ lookupZ diffs' (x - Partition.start vp)
            = Some (Z.of_nat (length (kept x range))).
Proof using Hp Hn Hpe Hvp.
  intros Hranges Hdiffs.
  destruct (partition_make n pe npes Hp Hn Hpe)
    as (vp' & Hvp' & _ & _ & _ & _ & Hse & Hen & Hmax & _).
  assert (vp' = vp) as -> by congruence.
  set (lo := Partition.start vp) in *. set (hi := Partition.end_ vp) in *.
  destruct (foldM_seqZ
    (λ '(ranges, diffs) x,
       indx ← Partition.local_pos vp x;
       range ← lookupZ ranges x;
       let '(range, diff) := Builder.squish_range le node x range in
       ranges ← storeZ ranges x range;
       diffs ← storeZ diffs indx diff;
       Some (ranges, diffs))
    (λ i '(ranges', diffs'),
       length ranges' = length ranges ∧ length diffs' = length diffs
       ∧ (∀ x, lo ≤ x < i →
            ∃ range range',
              lookupZ ranges x = Some range
              ∧ lookupZ ranges' x = Some range'
              ∧ take (length (kept x range)) range' = kept x range
              ∧ lookupZ diffs' (x - lo)
                = Some (Z.of_nat (length (kept x range))))
       ∧ (∀ x, i ≤ x → lookupZ ranges' x = lookupZ ranges x))
    lo (hi - lo) (ranges, diffs)) as ([ranges' diffs'] & Hrun & Hpost).
  - lia.
  - split; [done|]. split; [done|]. split; [intros; lia|done].
  - intros i [r d] Hi (Hlr & Hld & Hdone & Hrest).
    destruct (partition_local_pos n pe npes vp i) as [_ Hlp]; try done.
    { fold lo hi. lia. }
    rewrite Hlp. cbn -[Builder.squish_range]. fold lo.
    destruct (lookupZ_is_Some ranges i) as [range Hrange]; [lia|].
    rewrite (Hrest i) by lia. rewrite Hrange. cbn -[Builder.squish_range].
    destruct (squish_range_front le node i range) as [Hdiff Hfront].
    pose proof (squish_range_length le node i range) as Hlen.
    destruct (Builder.squish_range le node i range) as [range' diff] eqn:Hsq.
    simpl in Hdiff, Hfront, Hlen. fold (kept i range) in Hdiff, Hfront.
    rewrite storeZ_Some by lia. simpl.
    rewrite storeZ_Some by lia. simpl.
    eexists. split; [done|]. simpl.
    rewrite !length_insert. split; [done|]. split; [done|]. split.
    + intros x Hx. destruct (decide (x = i)) as [->|Hne].
      * exists range, range'. split; [done|].
        split; [apply (lookupZ_storeZ_eq r); apply storeZ_Some; lia|].
        split; [done|]. rewrite Hdiff.
        apply (lookupZ_storeZ_eq d). apply storeZ_Some. lia.
      * destruct (Hdone x) as (rg & rg' & H1 & H2 & H3 & H4); [lia|].
        exists rg, rg'. split; [done|]. split.
        { rewrite <- H2. apply (lookupZ_storeZ_ne r i x range').
          - apply storeZ_Some. lia.
          - done. }
        split; [done|]. rewrite <- H4.
        apply (lookupZ_storeZ_ne d (i - lo) (x - lo) diff).
        { apply storeZ_Some. lia. }
        lia.
    + intros x Hx. rewrite <- Hrest by lia.
      apply (lookupZ_storeZ_ne r i x range').
      * apply storeZ_Some. lia.
      * lia.
  - exists ranges', diffs'. split; [exact Hrun|].
    destruct Hpost as (Hlr & Hld & Hdone & _).
    split; [done|]. split; [done|].
    intros x Hx. apply Hdone. lia.
Qed.

Lemma length_concat_take {A} (ls : list (list A)) (k : nat) :
  (length (concat (take k ls)) ≤ length (concat ls))%nat.
Proof.
  rewrite <- (take_drop k ls) at 2. rewrite concat_app, length_app. lia.
Qed.

(** With [diffs] holding the lengths of the lists [kepts], the prefix
    sums are the offsets of these lists in their concatenation. *)
Lemma lookup_offsets (kepts : list (list DestID)) diffs (k : nat) :
  (∀ j l, kepts !! j = Some l → diffs !! j = Some (Z.of_nat (length l))) →
  (k ≤ length kepts)%nat →
  lookupZ (Builder.PrefixSum diffs) (Z.of_nat k)
  = Some (Z.of_nat (length (concat (take k kepts)))).
Proof.
  intros Hd Hk.
  assert (Hlen : (length kepts ≤ length diffs)%nat).
  { destruct (decide (length kepts = 0)%nat) as [|Hne]; [lia|].
    destruct (lookup_lt_is_Some_2 kepts (length kepts - 1)) as [l Hl]; [lia|].
    apply Hd, lookup_lt_Some in Hl. lia. }
  rewrite lookupZ_of_nat, lookup_PrefixSum by lia. f_equal.
  rewrite <- total_lengths. f_equal. apply list_eq. intros j.
  rewrite list_lookup_fmap.
  destruct (decide (j < k)%nat) as [Hj|Hj].
  - rewrite !lookup_take_lt by done.
    destruct (lookup_lt_is_Some_2 kepts j) as [l Hl]; [lia|].
    rewrite Hl. simpl. by apply Hd.
  - rewrite !lookup_take_ge by lia. done.
Qed.

Lemma copy_ranges_spec ranges' diffs' (kepts : list (list DestID)) max :
  Z.of_nat (length kepts) = Partition.end_ vp - Partition.start vp →
  (∀ (k : nat) l, kepts !! k = Some l →
     ∃ range', lookupZ ranges' (Partition.start vp + Z.of_nat k) = Some range'
               ∧ take (length l) range' = l
               ∧ diffs' !! k = Some (Z.of_nat (length l))) →
  Z.of_nat (length (concat kepts)) ≤ max →
  Builder.copy_ranges vp ranges' diffs' (Builder.PrefixSum diffs')
    (replicate (Z.to_nat max) zero)
  = Some (concat kepts
          ++ replicate (Z.to_nat max - length (concat kepts)) zero).
Proof using Hp Hn Hpe Hvp.
  intros Hlen Hk Hmax.
  set (lo := Partition.start vp) in *. set (hi := Partition.end_ vp) in *.
  assert (Hd : ∀ j l, kepts !! j = Some l →
                      diffs' !! j = Some (Z.of_nat (length l))).
  { intros j l Hl. by destruct (Hk j l Hl) as (? & _ & _ & ?). }
  destruct (foldM_seqZ
    (λ sq_neighs x,
       indx ← Partition.local_pos vp x;
       range ← lookupZ ranges' x;
       diff ← lookupZ diffs' indx;
       offset ← lookupZ (Builder.PrefixSum diffs') indx;
       if decide (0 ≤ diff ∧ 0 ≤ offset) then
         Queue.store sq_neighs (Z.to_nat offset) (take (Z.to_nat diff) range)
       else None)
    (λ i arr,
       arr = concat (take (Z.to_nat (i - lo)) kepts)
             ++ replicate (Z.to_nat max
                           - length (concat (take (Z.to_nat (i - lo)) kepts)))
                  zero)
    lo (hi - lo) (replicate (Z.to_nat max) zero)) as (arr & Hrun & Hpost).
  - lia.
  - rewrite Z.sub_diag. simpl. by rewrite Nat.sub_0_r.
  - intros i arr Hi ->.
    destruct (partition_local_pos n pe npes vp i) as [_ Hlp]; try done.
    { fold lo hi. lia. }
    rewrite Hlp. simpl. fold lo.
    set (k := Z.to_nat (i - lo)).
    destruct (lookup_lt_is_Some_2 kepts k) as [l Hl]; [lia|].
    destruct (Hk k l Hl) as (range' & Hr & Htake & Hdiff).
    replace (lo + Z.of_nat k) with i in Hr by lia.
    rewrite Hr. simpl.
    replace (i - lo) with (Z.of_nat k) by lia.
    rewrite (lookupZ_of_nat diffs'), Hdiff. simpl.
    rewrite (lookup_offsets kepts) by (done || lia). simpl.
    rewrite decide_True by lia. rewrite !Nat2Z.id, Htake.
    set (pre := concat (take k kepts)).
    pose proof (length_concat_take kepts (S k)) as Hle.
    rewrite (concat_take_S _ _ _ Hl), length_app in Hle. fold pre in Hle.
    rewrite store_fits by (rewrite length_app, length_replicate; lia).
    eexists. split; [done|].
    replace (Z.to_nat (i + 1 - lo)) with (S k) by lia.
    rewrite (concat_take_S _ _ _ Hl). fold pre.
    rewrite take_app_length. rewrite <- app_assoc. do 2 f_equal.
    rewrite drop_app_ge by lia. rewrite drop_replicate. f_equal.
    rewrite length_app. lia.
  - unfold Builder.copy_ranges. fold lo hi. rewrite Hrun. f_equal.
    rewrite Hpost.
    replace (Z.to_nat (lo + (hi - lo) - lo)) with (length kepts) by lia.
    by rewrite firstn_all.
Qed.

End SquishRank.

(** ** [SquishCSR] on the job *)

Lemma foldr_max_ge (xs : list Z) x : x ∈ xs → x ≤ foldr Z.max 0 xs.
Proof.
  induction xs as [|y xs IH]; [by intros ?%elem_of_nil|].
  intros [->|Hx]%elem_of_cons; simpl; [lia|]. specialize (IH Hx). lia.
Qed.

Lemma length_concat_lookup {A} (ls : list (list A)) k l :
  ls !! k = Some l → (length l ≤ length (concat ls))%nat.
Proof.
  intros H. rewrite <- (take_drop_middle _ _ _ H), concat_app, length_app.
  simpl. rewrite length_app. lia.
Qed.

(** Every vertex lies in the slice of one rank. *)
Lemma partition_owner n npes x :
  1 ≤ npes → npes ≤ n → 0 ≤ x < n →
  ∃ pe vp, 0 ≤ pe < npes ∧ Partition.make n pe npes = Some vp
           ∧ Partition.start vp ≤ x < Partition.end_ vp.
Proof.
  intros Hp Hn Hx. set (pw := n `div` npes).
  assert (1 ≤ pw) by (apply Z.div_le_lower_bound; lia).
  assert (0 ≤ x `div` pw) by (apply Z.div_pos; lia).
  pose proof (Z.mul_div_le x pw ltac:(lia)).
  pose proof (Z.mul_succ_div_gt x pw ltac:(lia)).
  set (pe := Z.min (x `div` pw) (npes - 1)).
  assert (Hpe : 0 ≤ pe < npes) by (unfold pe; lia).
  destruct (partition_make n pe npes Hp Hn Hpe)
    as (vp & Hvp & _ & _ & Hpw & Hstart & _ & _ & _ & _ & Hmid & Hlast).
  exists pe, vp. split; [done|]. split; [done|]. fold pw in Hpw.
  rewrite Hpw in *.
  destruct (decide (pe < npes - 1)) as [Hlt|Hge].
  - rewrite (Hmid Hlt), Hstart. unfold pe in *. nia.
  - rewrite Hlast by lia. rewrite Hstart. unfold pe in *. nia.
Qed.

Section SquishJob.

Context {DestID : Type} (le : relation DestID).
Context `{!∀ x y, Decision (le x y)} `{!EqDecision DestID}.
Context `{!PartialOrder le} `{!Total le}.
Context (node : DestID → Z) (zero : DestID).

Implicit Types (g : Graph.CSRGraph DestID) (range : list DestID).

(** The squished neighbour list of vertex [x]. *)
Let kept (x : Z) range : list DestID :=
  Builder.std_remove node x (Builder.std_unique (Builder.std_sort le range)).

Lemma unique_from_keeps (x : DestID) l d :
  d ∈ x :: l → d ∈ Builder.unique_from x l.
Proof.
  revert x. induction l as [|y l IH]; intros x; simpl; [done|].
  case_decide as Hxy.
  - subst y. intros [->|Hd]%elem_of_cons; apply IH; [left|done].
  - intros [->|Hd]%elem_of_cons; [left|right; by apply IH].
Qed.

Lemma kept_keeps x range d : d ∈ range → node d ≠ x → d ∈ kept x range.
Proof.
  intros Hd Hne. unfold kept, Builder.std_remove.
  apply list_elem_of_filter. split; [done|].
  assert (Hs : d ∈ Builder.std_sort le range).
  { unfold Builder.std_sort. by rewrite merge_sort_Permutation. }
  destruct (Builder.std_sort le range) as [|y l]; [done|].
  simpl. by apply unique_from_keeps.
Qed.

(** What a rank holds between the two loops. *)
Lemma squish_rank_spec g transpose npes fresh pe :
  1 ≤ npes → npes ≤ Graph.num_nodes g → 0 ≤ pe < npes →
  Z.of_nat (length (Builder.side g transpose)) = Graph.num_nodes g →
  Z.of_nat (length fresh)
  = Graph.num_nodes g - (npes - 1) * (Graph.num_nodes g `div` npes) →
  ∃ vp r (kepts : list (list DestID)),
    Partition.make (Graph.num_nodes g) pe npes = Some vp
    ∧ Builder.squish_rank le node g transpose npes fresh pe = Some r
    ∧ Builder.sq_vp r = vp
    ∧ Builder.sq_offsets r = Builder.PrefixSum (Builder.sq_diffs r)
    ∧ Builder.sq_total r = Z.of_nat (length (concat kepts))
    ∧ Z.of_nat (length kepts) = Partition.end_ vp - Partition.start vp
    ∧ ∀ (k : nat) l, kepts !! k = Some l →
        ∃ range range',
          lookupZ (Builder.side g transpose) (Partition.start vp + Z.of_nat k)
          = Some range
          ∧ l = kept (Partition.start vp + Z.of_nat k) range
          ∧ lookupZ (Builder.sq_ranges r) (Partition.start vp + Z.of_nat k)
            = Some range'
          ∧ take (length l) range' = l
          ∧ Builder.sq_diffs r !! k = Some (Z.of_nat (length l)).
Proof.
  intros Hp Hn Hpe Hside Hfresh.
  destruct (partition_make _ pe npes Hp Hn Hpe)
    as (vp & Hvp & _ & _ & _ & _ & Hse & Hen & _ & Hmax & _).
  destruct (squish_ranges_spec le node _ pe npes vp Hp Hn Hpe Hvp
              (Builder.side g transpose) fresh Hside)
    as (ranges' & diffs' & Hrun & Hlr & Hld & Hx); [by rewrite Hmax|].
  set (lo := Partition.start vp) in *. set (hi := Partition.end_ vp) in *.
  set (kepts := (λ x, kept x (default [] (lookupZ (Builder.side g transpose) x)))
                  <$> seqZ lo (hi - lo)).
  assert (Hk : ∀ (k : nat) l, kepts !! k = Some l →
     ∃ range range',
       lookupZ (Builder.side g transpose) (lo + Z.of_nat k) = Some range
       ∧ l = kept (lo + Z.of_nat k) range
       ∧ lookupZ ranges' (lo + Z.of_nat k) = Some range'
       ∧ take (length l) range' = l
       ∧ diffs' !! k = Some (Z.of_nat (length l))).
  { intros k l Hl. unfold kepts in Hl. rewrite list_lookup_fmap in Hl.
    destruct (seqZ lo (hi - lo) !! k) as [x|] eqn:Hxk; [|done].
    apply lookup_seqZ in Hxk as [-> Hklt]. simpl in Hl. injection Hl as <-.
    destruct (Hx (lo + Z.of_nat k)) as (range & range' & H1 & H2 & H3 & H4);
      [lia|].
    exists range, range'. rewrite H1. simpl. split; [done|]. split; [done|].
    split; [done|]. split; [done|].
    replace (lo + Z.of_nat k - lo) with (Z.of_nat k) in H4 by lia.
    by rewrite lookupZ_of_nat in H4. }
  assert (Hlen : Z.of_nat (length kepts) = hi - lo).
  { unfold kepts. rewrite length_fmap, length_seqZ. lia. }
  exists vp, (Builder.mkSquished vp ranges' diffs' (Builder.PrefixSum diffs')
                (Z.of_nat (length (concat kepts)))), kepts.
  split; [done|]. split.
  { unfold Builder.squish_rank. rewrite Hvp. simpl.
    unfold alloc. rewrite decide_True by (by rewrite Hmax). simpl.
    rewrite Hrun. simpl. rewrite ParallelPrefixSum_PrefixSum.
    fold lo hi. rewrite <- Hlen.
    rewrite (lookup_offsets kepts diffs'); [|by intros j l (? & ? & _ & _ & _ & _ & ?)%Hk|done].
    simpl. by rewrite firstn_all. }
  simpl. split_and!; try done.
Qed.

(** C6. After [SquishCSR] has run on a job of [npes] ranks, the
    neighbour list of every vertex in the CSR half produced by its
    owner is the squished list of its neighbours: it is strictly
    increasing, hence sorted ascending and free of duplicates, and does
    not contain the vertex itself. *)
Theorem SquishCSR_sorted g transpose npes fresh_diffs :
  1 ≤ npes → npes ≤ Graph.num_nodes g →
  Z.of_nat (length (Builder.side g transpose)) = Graph.num_nodes g →
  (∀ pe, 0 ≤ pe < npes →
     Z.of_nat (length (fresh_diffs pe))
     = Graph.num_nodes g - (npes - 1) * (Graph.num_nodes g `div` npes)) →
  (∃ x range d, lookupZ (Builder.side g transpose) x = Some range
                ∧ d ∈ range ∧ node d ≠ x) →
  ∃ ranks,
    Builder.SquishCSR le node zero g transpose npes fresh_diffs = Some ranks
    ∧ Z.of_nat (length ranks) = npes
    ∧ ∀ pe vp x range,
        0 ≤ pe < npes →
        Partition.make (Graph.num_nodes g) pe npes = Some vp →
        Partition.start vp ≤ x < Partition.end_ vp →
        lookupZ (Builder.side g transpose) x = Some range →
        ∃ index neighs i list,
          lookupZ ranks pe = Some (index, neighs)
          ∧ Partition.local_pos vp x = Some i
          ∧ Builder.csr_neigh index neighs i = Some list
          ∧ list = kept x range
          ∧ StronglySorted (strict le) list
          ∧ ∀ d, d ∈ list → node d ≠ x.
Proof.
  intros Hp Hn Hside Hfresh (x0 & range0 & d0 & Hx0 & Hd0 & Hne0).
  (* the first loop on every rank *)
  destruct (mapM (λ pe, Builder.squish_rank le node g transpose npes
                          (fresh_diffs pe) pe) (seqZ 0 npes))
    as [rs|] eqn:Hrs; cycle 1.
  { apply mapM_None_1, Exists_exists in Hrs as (pe & Hin & Hnone).
    apply elem_of_seqZ in Hin.
    destruct (squish_rank_spec g transpose npes (fresh_diffs pe) pe)
      as (? & ? & ? & _ & Hsome & _); try done; try lia.
    { apply Hfresh. lia. }
    congruence. }
  apply mapM_Some_1 in Hrs.
  assert (Hrank : ∀ pe, 0 ≤ pe < npes →
            ∃ r, lookupZ rs pe = Some r
                 ∧ Builder.squish_rank le node g transpose npes
                     (fresh_diffs pe) pe = Some r).
  { intros pe Hpe.
    assert (Hl : seqZ 0 npes !! Z.to_nat pe = Some pe).
    { apply lookup_seqZ. lia. }
    destruct (Forall2_lookup_l _ _ _ _ _ Hrs Hl) as (r & Hr & Hsq).
    exists r. split; [|done]. apply lookupZ_Some. split; [lia|done]. }
  assert (Hlen : Z.of_nat (length rs) = npes).
  { rewrite <- (Forall2_length _ _ _ Hrs), length_seqZ. lia. }
  set (max_neigh := foldr Z.max 0 (Builder.sq_total <$> rs)).
  assert (Htotal : ∀ pe r, lookupZ rs pe = Some r →
                           Builder.sq_total r ≤ max_neigh).
  { intros pe r [_ Hr]%lookupZ_Some. apply foldr_max_ge.
    apply list_elem_of_fmap. exists r. split; [done|].
    by eapply list_elem_of_lookup_2. }
  (* some rank keeps an edge *)
  assert (Hpos : 0 < max_neigh).
  { pose proof (lookupZ_lt _ _ _ Hx0) as Hx0n. rewrite Hside in Hx0n.
    destruct (partition_owner _ npes x0 Hp Hn Hx0n) as (pe & vp & Hpe & Hvp & Hx).
    destruct (Hrank pe Hpe) as (r & Hr & Hsq).
    destruct (squish_rank_spec g transpose npes (fresh_diffs pe) pe)
      as (vp' & r' & kepts & Hvp' & Hsq' & _ & _ & Htot & Hkl & Hk);
      try done; [by apply Hfresh|].
    assert (vp' = vp) as -> by congruence.
    assert (r' = r) as -> by congruence.
    destruct (lookup_lt_is_Some_2 kepts (Z.to_nat (x0 - Partition.start vp)))
      as [l Hl]; [lia|].
    destruct (Hk _ _ Hl) as (range & _ & Hrg & -> & _).
    replace (Partition.start vp + Z.of_nat (Z.to_nat (x0 - Partition.start vp)))
      with x0 in * by lia.
    assert (range = range0) as -> by congruence.
    pose proof (kept_keeps x0 range0 d0 Hd0 Hne0) as Hin.
    apply list_elem_of_lookup in Hin as [j Hj].
    apply lookup_lt_Some in Hj.
    pose proof (length_concat_lookup _ _ _ Hl).
    specialize (Htotal pe r Hr). lia. }
  (* the second loop on every rank *)
  set (copy := λ r : Builder.squished,
         sq_neighs ← Builder.copy_ranges (Builder.sq_vp r)
                       (Builder.sq_ranges r) (Builder.sq_diffs r)
                       (Builder.sq_offsets r)
                       (replicate (Z.to_nat max_neigh) zero);
         Some (Builder.sq_offsets r, sq_neighs)).
  assert (Hcopy : ∀ pe, 0 ≤ pe < npes →
    ∃ vp r (kepts : list (list DestID)),
      Partition.make (Graph.num_nodes g) pe npes = Some vp
      ∧ lookupZ rs pe = Some r
      ∧ copy r = Some (Builder.PrefixSum (Builder.sq_diffs r),
                       concat kepts
                       ++ replicate (Z.to_nat max_neigh
                                     - length (concat kepts)) zero)
      ∧ Z.of_nat (length (concat kepts)) ≤ max_neigh
      ∧ Z.of_nat (length kepts) = Partition.end_ vp - Partition.start vp
      ∧ ∀ (k : nat) l, kepts !! k = Some l →
          (∃ range,
             lookupZ (Builder.side g transpose)
               (Partition.start vp + Z.of_nat k) = Some range
             ∧ l = kept (Partition.start vp + Z.of_nat k) range)
          ∧ Builder.sq_diffs r !! k = Some (Z.of_nat (length l))).
  { intros pe Hpe. destruct (Hrank pe Hpe) as (r & Hr & Hsq).
    destruct (squish_rank_spec g transpose npes (fresh_diffs pe) pe)
      as (vp & r' & kepts & Hvp & Hsq' & Hrvp & Hoff & Htot & Hkl & Hk);
      try done; [by apply Hfresh|].
    assert (r' = r) as -> by congruence.
    exists vp, r, kepts. split; [done|]. split; [done|]. split.
    - unfold copy. rewrite Hrvp, Hoff.
      rewrite (copy_ranges_spec zero _ pe npes vp Hp Hn Hpe Hvp
                 _ _ kepts); [done|done| |].
      + intros k l Hl. destruct (Hk k l Hl) as (? & range' & _ & _ & ? & ? & ?).
        by exists range'.
      + rewrite <- Htot. by eapply Htotal.
    - split; [rewrite <- Htot; by eapply Htotal|].
      split; [done|]. intros k l Hl.
      destruct (Hk k l Hl) as (range & ? & ? & ? & _ & _ & ?).
      split; [by exists range|done]. }
  destruct (mapM copy rs) as [out|] eqn:Hout; cycle 1.
  { apply mapM_None_1, Exists_exists in Hout as (r & Hin & Hnone).
    apply list_elem_of_lookup in Hin as [j Hj].
    destruct (Hcopy (Z.of_nat j)) as (? & r' & ? & _ & Hr' & Hsome & _).
    { apply lookup_lt_Some in Hj. lia. }
    rewrite lookupZ_of_nat in Hr'. congruence. }
  apply mapM_Some_1 in Hout.
  exists out. split.
  { unfold Builder.SquishCSR.
    rewrite (mapM_Some_2 _ _ _ Hrs). simpl. fold max_neigh.
    rewrite decide_False by lia. fold copy. by apply mapM_Some_2. }
  split; [by rewrite <- (Forall2_length _ _ _ Hout)|].
  intros pe vp x range Hpe Hvp Hx Hrange.
  destruct (Hcopy pe Hpe)
    as (vp' & r & kepts & Hvp' & Hr & Hcp & Hmax & Hkl & Hk).
  assert (vp' = vp) as -> by congruence.
  apply lookupZ_Some in Hr as [_ Hr].
  destruct (Forall2_lookup_l _ _ _ _ _ Hout Hr) as (o & Ho & Hco).
  rewrite Hcp in Hco. injection Hco as <-.
  set (k := Z.to_nat (x - Partition.start vp)).
  destruct (lookup_lt_is_Some_2 kepts k) as [l Hl]; [lia|].
  destruct (Hk k l Hl) as ((range' & Hrg & ->) & _).
  replace (Partition.start vp + Z.of_nat k) with x in * by lia.
  assert (range' = range) as -> by congruence.
  destruct (partition_local_pos (Graph.num_nodes g) pe npes vp x)
    as [_ Hlp]; try done.
  eexists _, _, (x - Partition.start vp), (kept x range).
  split; [apply lookupZ_Some; split; [lia|done]|].
  split; [done|]. split.
  - unfold Builder.csr_neigh.
    replace (x - Partition.start vp) with (Z.of_nat k) by lia.
    assert (Hd : ∀ j l, kepts !! j = Some l →
              Builder.sq_diffs r !! j = Some (Z.of_nat (length l))).
    { intros j l' Hl'. by destruct (Hk j l' Hl') as [_ ?]. }
    rewrite (lookup_offsets kepts) by (done || lia). simpl.
    replace (Z.of_nat k + 1) with (Z.of_nat (S k)) by lia.
    rewrite (lookup_offsets kepts) by (done || lia). simpl.
    rewrite (concat_take_S _ _ _ Hl), length_app.
    pose proof (length_concat_take kepts (S k)) as Hle.
    rewrite (concat_take_S _ _ _ Hl), length_app in Hle.
    rewrite decide_True
      by (rewrite length_app, length_replicate; lia).
    f_equal.
    replace (Z.to_nat
               (Z.of_nat (length (concat (take k kepts)) + length (kept x range))
                - Z.of_nat (length (concat (take k kepts)))))
      with (length (kept x range)) by lia.
    rewrite Nat2Z.id. by apply concat_slice.
  - split; [done|]. apply (squished_sorted le node x range).
Qed.

End SquishJob.

Lemma SquishCSR_sorted_witness :
  ∃ ranks,
    Builder.SquishCSR Z.le id 0 Scenario.unsquished false 2 (λ _, [9; 9])
    = Some ranks
    ∧ Z.of_nat (length ranks) = 2
    ∧ ∀ pe vp x range,
        0 ≤ pe < 2 →
        Partition.make (Graph.num_nodes Scenario.unsquished) pe 2 = Some vp →
        Partition.start vp ≤ x < Partition.end_ vp →
        lookupZ (Builder.side Scenario.unsquished false) x = Some range →
        ∃ index neighs i list,
          lookupZ ranks pe = Some (index, neighs)
          ∧ Partition.local_pos vp x = Some i
          ∧ Builder.csr_neigh index neighs i = Some list
          ∧ list = Builder.std_remove id x
                     (Builder.std_unique (Builder.std_sort Z.le range))
          ∧ StronglySorted (strict Z.le) list
          ∧ ∀ d, d ∈ list → id d ≠ x.
Proof.
  apply (SquishCSR_sorted Z.le id 0 Scenario.unsquished false 2 (λ _, [9; 9])).
  - lia.
  - by vm_compute.
  - reflexivity.
  - intros pe _. reflexivity.
  - exists 0, [1; 1; 0; 2], 1. split; [reflexivity|]. split; [left|done].
Defined.

(** ** Triangle counting *)

Lemma filter_none {A} (P : A → Prop) `{!∀ x, Decision (P x)} (l : list A) :
  Forall (λ x, ¬ P x) l → filter P l = [].
Proof.
  induction 1 as [|x l Hx _ IH]; [done|].
  by rewrite filter_cons_False.
Qed.

Lemma filter_ext_Forall {A} (P Q : A → Prop)
    `{!∀ x, Decision (P x)} `{!∀ x, Decision (Q x)} (l : list A) :
  Forall (λ x, P x ↔ Q x) l → filter P l = filter Q l.
Proof.
  induction 1 as [|x l Hx _ IH]; [done|].
  rewrite !filter_cons, IH.
  destruct (decide (P x)), (decide (Q x)); tauto.
Qed.

Lemma sorted_lt_NoDup (l : list Z) : StronglySorted Z.lt l → NoDup l.
Proof.
  induction 1 as [|x l _ IH Hx]; constructor; [|done].
  intros Hin. rewrite Forall_forall in Hx. specialize (Hx _ Hin). lia.
Qed.

(** [advance] stops at the first element that is not below [w]; it
    stays inside the range when some element [v ≥ w] is ahead. *)
Lemma advance_spec it w v :
  v ∈ it → w ≤ v →
  ∃ pre x it',
    TC.advance it w = Some (x :: it')
    ∧ it = pre ++ x :: it'
    ∧ Forall (λ y, y < w) pre
    ∧ w ≤ x
    ∧ v ∈ x :: it'.
Proof.
  induction it as [|y it IH]; intros Hv Hw; [by apply elem_of_nil in Hv|].
  simpl. destruct (decide (y < w)) as [Hlt|Hge].
  - apply elem_of_cons in Hv as [->|Hv]; [lia|].
    destruct (IH Hv Hw) as (pre & x & it' & Hadv & -> & Hpre & Hx & Hin).
    exists (y :: pre), x, it'. split; [done|]. split; [done|].
    split; [by constructor|done].
  - exists [], y, it. split; [done|]. split; [done|].
    split; [constructor|]. split; [lia|done].
Qed.

(** The inner loop counts the neighbours of [v], up to [v], that are
    ahead in the range of [u]. *)
Lemma count_common_spec it v ws total :
  StronglySorted Z.lt it → StronglySorted Z.lt ws → v ∈ it →
  TC.count_common it v ws total
  = Some (total
          + Z.of_nat (length (filter (λ w, w ≤ v ∧ w ∈ it) ws))).
Proof.
  intros Hit Hws. revert it total Hit.
  induction Hws as [|w ws Hws IH Hw]; intros it total Hit Hv; simpl.
  - f_equal. lia.
  - rewrite Forall_forall in Hw.
    destruct (decide (v < w)) as [Hbreak|Hgo].
    + rewrite filter_none; [simpl; f_equal; lia|].
      constructor; [lia|]. apply Forall_forall. intros w' Hw'%Hw. lia.
    + destruct (advance_spec it w v Hv ltac:(lia))
        as (pre & x & it' & Hadv & -> & Hpre & Hx & Hin).
      rewrite Hadv. simpl.
      apply StronglySorted_app in Hit as (Hcross & _ & Hit').
      pose proof Hit' as Hit''.
      apply StronglySorted_cons in Hit'' as [Hxs _].
      rewrite Forall_forall in Hpre, Hxs.
      rewrite IH by done.
      assert (Hmem : w ∈ pre ++ x :: it' ↔ w = x).
      { rewrite elem_of_app, elem_of_cons. split; [|tauto].
        intros [Hp|[->|Hr]]; [|done|].
        - specialize (Hpre _ Hp). lia.
        - specialize (Hxs _ Hr). lia. }
      rewrite filter_cons.
      rewrite (filter_ext_Forall (λ w0, w0 ≤ v ∧ w0 ∈ pre ++ x :: it')
                 (λ w0, w0 ≤ v ∧ w0 ∈ x :: it')); cycle 1.
      { apply Forall_forall. intros w' Hw'%Hw.
        rewrite elem_of_app. split; [|tauto].
        intros [? [Hp|?]]; [|done]. specialize (Hpre _ Hp). lia. }
      f_equal. destruct (decide (w = x)) as [->|Hne].
      * rewrite decide_True by (split; [lia|by apply Hmem]).
        simpl. lia.
      * rewrite decide_False by (rewrite Hmem; tauto). lia.
Qed.

Lemma squished_neigh g u :
  TC.squished g → 0 ≤ u < Graph.num_nodes g →
  StronglySorted Z.lt (Graph.out_neigh g u)
  ∧ (u ∉ Graph.out_neigh g u)
  ∧ ∀ v, v ∈ Graph.out_neigh g u → 0 ≤ v < Graph.num_nodes g.
Proof.
  intros Hsq Hu. unfold TC.squished in Hsq.
  assert (Hl : seqZ 0 (Graph.num_nodes g) !! Z.to_nat u = Some u).
  { apply lookup_seqZ. lia. }
  destruct (Forall2_lookup_l _ _ _ _ _ Hsq Hl) as (range & Hr & Hs & Hn & Hin).
  unfold Graph.out_neigh, lookupZ. rewrite decide_True by lia.
  rewrite Hr. simpl. split; [done|]. split; [done|].
  by apply Forall_forall.
Qed.

Lemma symmetric_neigh g u v :
  TC.symmetric g → 0 ≤ u < Graph.num_nodes g →
  v ∈ Graph.out_neigh g u → u ∈ Graph.out_neigh g v.
Proof.
  intros Hsym Hu. unfold TC.symmetric in Hsym.
  assert (Hl : seqZ 0 (Graph.num_nodes g) !! Z.to_nat u = Some u).
  { apply lookup_seqZ. lia. }
  destruct (Forall2_lookup_l _ _ _ _ _ Hsym Hl) as (range & Hr & Hall).
  unfold Graph.out_neigh at 1, lookupZ. rewrite decide_True by lia.
  rewrite Hr. simpl. rewrite Forall_forall in Hall. apply Hall.
Qed.

(** The loop over the neighbours of [u]. *)
Lemma count_neighbors_spec g u vs total :
  TC.squished g → 0 ≤ u < Graph.num_nodes g →
  Forall (λ v, v ∈ Graph.out_neigh g u) vs → StronglySorted Z.lt vs →
  TC.count_neighbors g u vs total
  = Some (total
          + Z.of_nat (sum_list_with (TC.common g u) (filter (λ v, v ≤ u) vs))).
Proof.
  intros Hsq Hu Hin Hvs. revert total Hin.
  destruct (squished_neigh g u Hsq Hu) as (Hsu & _ & Hru).
  induction Hvs as [|v vs Hvs IH Hv]; intros total Hin; simpl.
  - f_equal. lia.
  - apply Forall_cons in Hin as [Hvin Hin]. rewrite Forall_forall in Hv.
    destruct (decide (u < v)) as [Hbreak|Hgo].
    + rewrite filter_none; [simpl; f_equal; lia|].
      constructor; [lia|]. apply Forall_forall. intros v' Hv'%Hv. lia.
    + destruct (squished_neigh g v Hsq (Hru v Hvin)) as (Hsv & _ & _).
      rewrite count_common_spec by done. simpl.
      rewrite IH by done. rewrite filter_cons_True by lia. simpl.
      f_equal. rewrite Nat2Z.inj_add.
      unfold TC.common at 2. symmetry. apply Z.add_assoc.
Qed.

Lemma partition_slice n pe npes :
  1 ≤ npes → 0 ≤ n → 0 ≤ pe < npes →
  ∃ vp, Partition.make n pe npes = Some vp
        ∧ Partition.start vp = pe * (n `div` npes)
        ∧ Partition.end_ vp
          = (if decide (pe < npes - 1)
             then pe * (n `div` npes) + n `div` npes else n)
        ∧ 0 ≤ Partition.start vp ≤ Partition.end_ vp
        ∧ Partition.end_ vp ≤ n.
Proof.
  intros Hp Hn Hpe. unfold Partition.make.
  rewrite div_Some by lia. rewrite quot_nonneg by lia. simpl.
  set (pw := n `div` npes).
  assert (0 ≤ pw) by (apply Z.div_pos; lia).
  assert (pw * npes ≤ n).
  { unfold pw. rewrite Z.mul_comm. apply Z.mul_div_le. lia. }
  eexists. split; [done|]. simpl. split; [done|]. split; [done|].
  destruct (decide (pe < npes - 1)); nia.
Qed.

(** The slices of the ranks, in rank order, make up the vertex range. *)
Lemma slices_cover n npes :
  1 ≤ npes → 0 ≤ n →
  concat ((λ pe, seqZ (pe * (n `div` npes))
                   ((if decide (pe < npes - 1)
                     then pe * (n `div` npes) + n `div` npes else n)
                    - pe * (n `div` npes))) <$> seqZ 0 npes)
  = seqZ 0 n.
Proof.
  intros Hp Hn. set (pw := n `div` npes).
  assert (0 ≤ pw) by (apply Z.div_pos; lia).
  assert (pw * npes ≤ n).
  { unfold pw. rewrite Z.mul_comm. apply Z.mul_div_le. lia. }
  assert (Hsplit : ∀ k, 0 ≤ k → seqZ 0 (k + 1) = seqZ 0 k ++ [k]).
  { intros k Hk. rewrite seqZ_app by lia. f_equal. }
  replace (seqZ 0 npes) with (seqZ 0 (npes - 1) ++ [npes - 1])
    by (rewrite <- Hsplit by lia; f_equal; lia).
  rewrite fmap_app, concat_app. simpl.
  rewrite decide_False by lia. rewrite app_nil_r.
  assert (Hfront : ∀ k : nat, Z.of_nat k ≤ npes - 1 →
    concat ((λ pe, seqZ (pe * pw)
                     ((if decide (pe < npes - 1)
                       then pe * pw + pw else n) - pe * pw))
              <$> seqZ 0 (Z.of_nat k))
    = seqZ 0 (Z.of_nat k * pw)).
  { induction k as [|k IH]; intros Hk; [done|].
    replace (Z.of_nat (S k)) with (Z.of_nat k + 1) by lia.
    rewrite Hsplit by lia. rewrite fmap_app, concat_app, IH by lia.
    simpl. rewrite decide_True by lia. rewrite app_nil_r.
    replace (Z.of_nat k * pw + pw - Z.of_nat k * pw) with pw by lia.
    replace ((Z.of_nat k + 1) * pw) with (Z.of_nat k * pw + pw) by lia.
    rewrite (seqZ_app 0) by nia. done. }
  specialize (Hfront (Z.to_nat (npes - 1))).
  rewrite Z2Nat.id in Hfront by lia. rewrite Hfront by lia.
  transitivity (seqZ 0 ((npes - 1) * pw + (n - (npes - 1) * pw)));
    [|f_equal; lia].
  rewrite (seqZ_app 0) by nia. done.
Qed.

Lemma mapM_fmap {A B} (f : A → option B) (h : A → B) (l : list A) :
  (∀ x, x ∈ l → f x = Some (h x)) → mapM f l = Some (h <$> l).
Proof.
  intros H. apply mapM_Some_2. induction l as [|x l IH]; [constructor|].
  rewrite fmap_cons. constructor; [apply H; left|].
  apply IH. intros y Hy. apply H. by right.
Qed.

Lemma foldr_add_sum {A} (h : A → nat) (l : list A) :
  foldr Z.add 0 ((λ x, Z.of_nat (h x)) <$> l) = Z.of_nat (sum_list_with h l).
Proof. induction l as [|x l IH]; [done|]. rewrite fmap_cons. simpl. lia. Qed.

Lemma sum_list_with_slices {A B} (h : A → nat) (slice : B → list A) l :
  sum_list_with (λ x, sum_list_with h (slice x)) l
  = sum_list_with h (concat (slice <$> l)).
Proof.
  induction l as [|x l IH]; [done|].
  rewrite fmap_cons. simpl. by rewrite sum_list_with_app, IH.
Qed.

(** The kernel adds up [at_vertex] over all the vertices. *)
Lemma OrderedCount_sum g npes :
  1 ≤ npes → TC.squished g →
  TC.OrderedCount g npes
  = Some (Z.of_nat (sum_list_with (TC.at_vertex g)
                      (seqZ 0 (Graph.num_nodes g)))).
Proof.
  intros Hp Hsq. set (n := Graph.num_nodes g).
  assert (Hn : 0 ≤ n) by (unfold n, Graph.num_nodes; lia).
  set (slice := λ pe, seqZ (pe * (n `div` npes))
                        ((if decide (pe < npes - 1)
                          then pe * (n `div` npes) + n `div` npes else n)
                         - pe * (n `div` npes))).
  unfold TC.OrderedCount.
  rewrite (mapM_fmap _ (λ pe, Z.of_nat (sum_list_with (TC.at_vertex g)
                                           (slice pe)))).
  - simpl. f_equal. rewrite foldr_add_sum. f_equal.
    rewrite sum_list_with_slices. unfold slice. by rewrite slices_cover.
  - intros pe Hpe%elem_of_seqZ. unfold TC.count_local. fold n.
    destruct (partition_slice n pe npes) as (vp & -> & Hs & He & Hse & Hen);
      [lia..|].
    simpl. rewrite Hs, He. fold (slice pe).
    destruct (foldM_total
      (λ total u, TC.count_neighbors g u (Graph.out_neigh g u) total)
      (λ pre total, total = Z.of_nat (sum_list_with (TC.at_vertex g) pre))
      (slice pe) 0) as (total & -> & ->); [done| |done].
    intros pre x post total Hl ->.
    assert (Hx : x ∈ slice pe).
    { rewrite Hl. apply elem_of_app. right. left. }
    apply elem_of_seqZ in Hx. rewrite <- He, <- Hs in Hx.
    destruct (squished_neigh g x Hsq) as (Hsx & _ & _); [fold n; lia|].
    rewrite count_neighbors_spec;
      [|done|fold n; lia|by apply Forall_forall|done].
    eexists. split; [done|].
    rewrite sum_list_with_app. simpl. unfold TC.at_vertex at 3. lia.
Qed.

Lemma length_filter_bind {A B} (P : B → Prop) `{!∀ x, Decision (P x)}
    (f : A → list B) (l : list A) :
  length (filter P (l ≫= f))
  = sum_list_with (λ x, length (filter P (f x))) l.
Proof.
  induction l as [|x l IH]; [done|].
  rewrite bind_cons, filter_app, length_app, IH. done.
Qed.

Lemma sum_list_with_ext {A} (f h : A → nat) (l : list A) :
  (∀ x, x ∈ l → f x = h x) → sum_list_with f l = sum_list_with h l.
Proof.
  induction l as [|x l IH]; intros H; [done|]. simpl.
  rewrite (H x) by left. rewrite IH; [done|]. intros y Hy. apply H. by right.
Qed.

Lemma sum_list_with_filter {A} (P : A → Prop) `{!∀ x, Decision (P x)}
    (h : A → nat) (l : list A) :
  sum_list_with h (filter P l)
  = sum_list_with (λ x, if decide (P x) then h x else 0%nat) l.
Proof.
  induction l as [|x l IH]; [done|].
  rewrite filter_cons. simpl. destruct (decide (P x)); simpl; by rewrite IH.
Qed.

Lemma sum_list_with_singletons {A B} (P : B → Prop) `{!∀ x, Decision (P x)}
    (f : A → B) (l : list A) :
  sum_list_with (λ a, length (filter P [f a])) l
  = length (filter (λ a, P (f a)) l).
Proof.
  induction l as [|x l IH]; [done|].
  rewrite filter_cons. simpl. rewrite IH.
  rewrite (filter_cons P). destruct (decide (P (f x))); done.
Qed.

Section Triangles.

Variable g : TC.Graph.
Hypothesis Hsq : TC.squished g.
Hypothesis Hsym : TC.symmetric g.

Let n := Graph.num_nodes g.
Let N := Graph.out_neigh g.

(** The neighbours of [c] below [c], read off its sorted list or picked
    from the vertex range. *)
Lemma neighbors_below c :
  0 ≤ c < n →
  filter (λ v, v ≤ c) (N c) ≡ₚ filter (λ b, b ∈ N c) (seqZ 0 c).
Proof using Hsq.
  intros Hc. destruct (squished_neigh g c Hsq Hc) as (Hs & Hself & Hr).
  apply NoDup_Permutation.
  - by apply NoDup_filter, sorted_lt_NoDup.
  - apply NoDup_filter, NoDup_seqZ.
  - intros x. rewrite !list_elem_of_filter, elem_of_seqZ. fold (N c).
    split.
    + intros [Hle Hin]. split; [done|].
      specialize (Hr x Hin). assert (x ≠ c) by (by intros ->). lia.
    + intros [Hin ?]. split; [lia|done].
Qed.

(** The triangles [(a, b, c)] with a given edge [b - c], [b < c]. *)
Lemma common_triangles b c :
  0 ≤ b < c → c < n →
  length (filter (λ a, TC.triangle g (a, b, c)) (seqZ 0 b))
  = if decide (b ∈ N c) then TC.common g c b else 0%nat.
Proof using Hsq Hsym.
  intros Hb Hc.
  assert (Hbn : 0 ≤ b < Graph.num_nodes g) by (fold n; lia).
  assert (Hcn : 0 ≤ c < Graph.num_nodes g) by (fold n; lia).
  destruct (squished_neigh g b Hsq Hbn) as (Hs & Hself & Hr).
  destruct (decide (b ∈ N c)) as [Hbc|Hbc].
  - unfold TC.common. apply Permutation_length, NoDup_Permutation.
    + apply NoDup_filter, NoDup_seqZ.
    + by apply NoDup_filter, sorted_lt_NoDup.
    + intros x. rewrite !list_elem_of_filter, elem_of_seqZ.
      unfold TC.triangle, TC.adjacent. simpl. fold N. split.
      * intros [(Hxb & _ & Hxc) Hx].
        assert (0 ≤ x < Graph.num_nodes g) by (fold n; lia).
        split; [split; [lia|]|]; by apply symmetric_neigh.
      * intros [[Hle Hxc] Hxb].
        specialize (Hr x Hxb). assert (x ≠ b) by (by intros ->).
        split; [|lia].
        split; [by apply symmetric_neigh|].
        split; by apply symmetric_neigh.
  - apply length_zero_iff_nil, filter_none, Forall_forall.
    intros a _ (_ & Hcb & _). apply Hbc.
    unfold TC.adjacent in Hcb. simpl in Hcb. by apply symmetric_neigh.
Qed.

(** What the kernel counts at [c] is the number of triangles whose
    largest vertex is [c]. *)
Lemma at_vertex_triangles c :
  0 ≤ c < n →
  TC.at_vertex g c
  = length (filter (TC.triangle g)
              (seqZ 0 c ≫= λ b, seqZ 0 b ≫= λ a, [(a, b, c)])).
Proof using Hsq Hsym.
  intros Hc. unfold TC.at_vertex. fold N.
  rewrite (neighbors_below c Hc), sum_list_with_filter.
  rewrite length_filter_bind. apply sum_list_with_ext.
  intros b Hb%elem_of_seqZ.
  rewrite length_filter_bind.
  rewrite (sum_list_with_singletons (TC.triangle g) (λ a, (a, b, c))).
  rewrite common_triangles by lia. done.
Qed.

(** The kernel and the brute-force enumeration agree. *)
Lemma OrderedCount_triangles npes :
  1 ≤ npes → TC.OrderedCount g npes = Some (TC.triangles g).
Proof using Hsq Hsym.
  intros Hp. rewrite OrderedCount_sum by done. f_equal.
  unfold TC.triangles, TC.triples. f_equal.
  rewrite length_filter_bind. apply sum_list_with_ext.
  intros c Hc%elem_of_seqZ. apply at_vertex_triangles. fold n in Hc. lia.
Qed.

End Triangles.

Lemma scenario_graphs_squished :
  (TC.squished Scenario.K3 ∧ TC.symmetric Scenario.K3)
  ∧ (TC.squished Scenario.path6 ∧ TC.symmetric Scenario.path6)
  ∧ (TC.squished Scenario.K4 ∧ TC.symmetric Scenario.K4).
Proof.
  repeat split; apply (bool_decide_unpack _); vm_compute; exact I.
Qed.

(** C4. On an undirected, squished graph [OrderedCount] returns the
    number of triangles of the graph, as a brute-force enumeration of
    the triples of pairwise adjacent vertices counts them, whatever the
    number of ranks; it returns 1 on the triangle [K3] and 0 on the
    path [0 - 1 - 2 - 3 - 4 - 5]. *)
Theorem OrderedCount_exact g npes :
  1 ≤ npes → TC.squished g → TC.symmetric g →
  TC.OrderedCount g npes = Some (TC.triangles g)
  ∧ TC.OrderedCount Scenario.K3 npes = Some 1
  ∧ TC.OrderedCount Scenario.path6 npes = Some 0.
Proof.
  intros Hp Hsq Hsym.
  destruct scenario_graphs_squished as ((H3 & H3') & (Hp6 & Hp6') & _).
  split; [by apply OrderedCount_triangles|].
  split; rewrite OrderedCount_triangles by done; reflexivity.
Qed.

Lemma OrderedCount_exact_witness :
  TC.OrderedCount Scenario.K4 2 = Some 4
  ∧ TC.OrderedCount Scenario.K3 2 = Some 1
  ∧ TC.OrderedCount Scenario.path6 2 = Some 0.
Proof.
  apply (OrderedCount_exact Scenario.K4 2).
  - lia.
  - apply (bool_decide_unpack _). vm_compute. exact I.
  - apply (bool_decide_unpack _). vm_compute. exact I.
Defined.

(** ** The verifiers *)

Lemma out_neigh_range g u v :
  BFS.well_formed g → v ∈ Graph.out_neigh g u → 0 ≤ v < Graph.num_nodes g.
Proof.
  intros (_ & Hout & _) Hv. unfold Graph.out_neigh in Hv.
  destruct (lookupZ (Graph.out_neighbors g) u) as [range|] eqn:Hu;
    simpl in Hv; [|by apply elem_of_nil in Hv].
  apply lookupZ_Some in Hu as [_ Hu].
  eapply Forall_lookup_1 in Hout; [|done].
  by eapply List.Forall_forall in Hout; [|by apply list_elem_of_In].
Qed.

Lemma in_neigh_range g u v :
  BFS.well_formed g → v ∈ Graph.in_neigh g u → 0 ≤ v < Graph.num_nodes g.
Proof.
  intros (_ & _ & Hin) Hv. unfold Graph.in_neigh in Hv.
  destruct (lookupZ (Graph.in_neighbors g) u) as [range|] eqn:Hu;
    simpl in Hv; [|by apply elem_of_nil in Hv].
  apply lookupZ_Some in Hu as [_ Hu].
  eapply Forall_lookup_1 in Hin; [|done].
  by eapply List.Forall_forall in Hin; [|by apply list_elem_of_In].
Qed.

(** No more vertices are queued than the graph has. *)
Lemma traversal_queue_length g depth to_visit :
  BFS.traversal_inv g depth to_visit →
  Z.of_nat (length to_visit) ≤ Graph.num_nodes g.
Proof.
  intros (Hlen & Hnd & Hq).
  assert (Hsub : to_visit ⊆+ seqZ 0 (Graph.num_nodes g)).
  { apply NoDup_submseteq; [done|]. intros u Hu.
    apply list_elem_of_lookup in Hu as [i Hi].
    destruct (Hq i u Hi) as (d & Hd%lookupZ_lt & _).
    apply elem_of_seqZ. lia. }
  apply submseteq_length in Hsub. rewrite length_seqZ in Hsub. lia.
Qed.

Section SerialTraversal.

Variable g : BFS.Graph.
Hypothesis Hmax : Graph.num_nodes g ≤ CInt.int_max.

Lemma visit_neighbors_total vs : ∀ depth to_visit (it : nat) u,
  BFS.traversal_inv g depth to_visit →
  to_visit !! it = Some u →
  Forall (λ v, 0 ≤ v < Graph.num_nodes g) vs →
  ∃ depth' ext,
    BFS.visit_neighbors depth to_visit u vs = Some (depth', to_visit ++ ext)
    ∧ BFS.traversal_inv g depth' (to_visit ++ ext).
Proof using Hmax.
  induction vs as [|v vs IH]; intros depth to_visit it u Hinv Hit Hvs.
  { exists depth, []. rewrite app_nil_r. done. }
  apply Forall_cons in Hvs as [Hv Hvs].
  pose proof (traversal_queue_length _ _ _ Hinv) as Hbound.
  pose proof Hinv as (Hlen & Hnd & Hq).
  destruct (lookupZ_is_Some depth v) as [dv Hdv]; [lia|].
  unfold BFS.visit_neighbors. simpl. rewrite Hdv. simpl.
  destruct (decide (dv = -1)) as [->|Hne].
  - destruct (Hq it u Hit) as (du & Hdu & Hrange). rewrite Hdu. simpl.
    pose proof (lookup_lt_Some _ _ _ Hit) as Hlt.
    rewrite wrap_small by (unfold CInt.int_min; lia).
    rewrite storeZ_Some by lia. simpl.
    set (depth1 := <[Z.to_nat v := du + 1]> depth).
    assert (Hstore : storeZ depth v (du + 1) = Some depth1)
      by (by apply storeZ_Some; lia).
    assert (Hfresh : v ∉ to_visit).
    { intros [i Hi]%list_elem_of_lookup.
      destruct (Hq i v Hi) as (d & Hd & ?). rewrite Hdv in Hd.
      injection Hd as <-. lia. }
    assert (Hinv1 : BFS.traversal_inv g depth1 (to_visit ++ [v])).
    { split_and!.
      - unfold depth1. by rewrite length_insert.
      - apply NoDup_app. split_and!; [done| |apply NoDup_singleton].
        intros x Hx ->%list_elem_of_singleton. done.
      - intros i x Hi. apply lookup_app_Some in Hi as [Hi|[Hge Hi]].
        + destruct (Hq i x Hi) as (d & Hd & ?). exists d. split; [|done].
          rewrite (lookupZ_storeZ_ne _ _ _ _ _ Hstore); [done|].
          intros <-. apply Hfresh. by eapply list_elem_of_lookup_2.
        + apply list_lookup_singleton_Some in Hi as [Hi <-].
          exists (du + 1). split; [by eapply lookupZ_storeZ_eq|].
          unfold BFS.NodeID in *. lia. }
    destruct (IH depth1 (to_visit ++ [v]) it u Hinv1) as (depth' & ext & Hrun & Hinv');
      [by apply lookup_app_l_Some|done|].
    exists depth', ([v] ++ ext). rewrite app_assoc. done.
  - destruct (IH depth to_visit it u Hinv Hit Hvs) as (depth' & ext & Hrun & Hinv').
    exists depth', ext. done.
Qed.

Hypothesis Hwf : BFS.well_formed g.

Lemma serial_bfs_total fuel : ∀ depth to_visit (it : nat),
  BFS.traversal_inv g depth to_visit →
  (Z.to_nat (Graph.num_nodes g) - it < fuel)%nat →
  ∃ depth', BFS.serial_bfs fuel g depth to_visit it = Some depth'
            ∧ Z.of_nat (length depth') = Graph.num_nodes g.
Proof using Hmax Hwf.
  induction fuel as [|fuel IH]; intros depth to_visit it Hinv Hfuel; [lia|].
  simpl. destruct (to_visit !! it) as [u|] eqn:Hit.
  - destruct (visit_neighbors_total (Graph.out_neigh g u) depth to_visit it u)
      as (depth' & ext & Hrun & Hinv'); [done|done| |].
    { apply List.Forall_forall. intros v Hv%list_elem_of_In.
      by eapply out_neigh_range. }
    rewrite Hrun. simpl. apply IH; [done|].
    pose proof (lookup_lt_Some _ _ _ Hit).
    pose proof (traversal_queue_length _ _ _ Hinv). lia.
  - exists depth. split; [done|]. apply Hinv.
Qed.

Lemma reference_depths_total fuel source :
  0 ≤ source < Graph.num_nodes g →
  (Z.to_nat (Graph.num_nodes g) < fuel)%nat →
  ∃ depth, BFS.reference_depths fuel g source = Some depth
           ∧ Z.of_nat (length depth) = Graph.num_nodes g.
Proof using Hmax Hwf.
  intros Hsource Hfuel. unfold BFS.reference_depths.
  set (depth0 := replicate (Z.to_nat (Graph.num_nodes g)) (-1)).
  assert (Hlen : Z.of_nat (length depth0) = Graph.num_nodes g).
  { unfold depth0. rewrite length_replicate. lia. }
  rewrite storeZ_Some by lia. simpl.
  apply serial_bfs_total; [|lia]. split_and!.
  - by rewrite length_insert.
  - apply NoDup_singleton.
  - intros i u Hi. apply list_lookup_singleton_Some in Hi as [-> <-].
    exists 0. split; [|lia]. eapply lookupZ_storeZ_eq.
    apply storeZ_Some. lia.
Qed.

End SerialTraversal.

Lemma check_parent_spec depth u du pu vs :
  Forall (λ v, is_Some (lookupZ depth v)) vs →
  ∃ r, BFS.check_parent depth u du pu vs = Some r
       ∧ (r = None ↔ pu ∈ vs ∧ lookupZ depth pu = Some (du - 1)).
Proof.
  induction vs as [|v vs IH]; intros Hvs; simpl.
  - eexists. split; [done|]. split; [done|].
    intros [H%elem_of_nil _]. done.
  - apply Forall_cons in Hvs as [[dv Hdv] Hvs].
    case_decide as Hne; [subst v|].
    + rewrite Hdv. simpl. case_decide as Hd.
      * eexists. split; [done|]. split; [done|]. intros [_ H]. congruence.
      * eexists. split; [done|]. split; [|done]. intros _.
        split; [left|]. f_equal. lia.
    + destruct (IH Hvs) as (r & -> & Hr). exists r. split; [done|].
      rewrite Hr, elem_of_cons. split.
      * intros [? ?]. split; [by right|done].
      * intros [[?|?] ?]; [congruence|done].
Qed.

Section Checks.

Variables (g : BFS.Graph) (source : BFS.NodeID) (depth : list Z)
  (parent : list BFS.NodeID).
Hypothesis Hwf : BFS.well_formed g.
Hypothesis Hdepth : Z.of_nat (length depth) = Graph.num_nodes g.
Hypothesis Hparent : Z.of_nat (length parent) = Graph.num_nodes g.

Lemma check_vertex_spec u :
  0 ≤ u < Graph.num_nodes g →
  ∃ r, BFS.check_vertex g source depth parent u = Some r
       ∧ (r = None ↔ BFS.agrees_at g source depth parent u).
Proof using Hwf Hdepth Hparent.
  intros Hu.
  destruct (lookupZ_is_Some depth u) as [du Hdu]; [lia|].
  destruct (lookupZ_is_Some parent u) as [pu Hpu]; [lia|].
  assert (Hat : BFS.agrees_at g source depth parent u
                ↔ (du = -1 ↔ pu = -1)
                  ∧ (du ≠ -1 → u = source → pu = u ∧ du = 0)
                  ∧ (du ≠ -1 → u ≠ source →
                     pu ∈ Graph.in_neigh g u
                     ∧ lookupZ depth pu = Some (du - 1))).
  { split; [intros H; by apply H|].
    intros H du' pu' Hdu' Hpu'.
    rewrite Hdu in Hdu'. rewrite Hpu in Hpu'.
    injection Hdu' as <-. injection Hpu' as <-. done. }
  setoid_rewrite Hat. clear Hat.
  unfold BFS.check_vertex. rewrite Hdu, Hpu. simpl.
  case_decide as Hno; [destruct Hno as [Hd Hp]|].
  - case_decide as Hs.
    + case_decide as Hbad.
      * eexists. split; [done|]. split; [done|]. intros (_ & H & _).
        destruct Hbad. by apply H.
      * eexists. split; [done|]. split; [|done]. intros _.
        split_and!; [tauto| |done]. intros _ _.
        destruct (decide (pu = u)); destruct (decide (du = 0)); tauto.
    + destruct (check_parent_spec depth u du pu (Graph.in_neigh g u))
        as (r & -> & Hr).
      { apply List.Forall_forall. intros v Hv%list_elem_of_In.
        apply lookupZ_is_Some. rewrite Hdepth. by eapply in_neigh_range. }
      exists r. split; [done|]. rewrite Hr. tauto.
  - case_decide as Hne.
    + eexists. split; [done|]. split; [done|]. intros (Hiff & _).
      destruct (decide (du = -1)); destruct (decide (pu = -1)); try tauto.
      lia.
    + eexists. split; [done|]. split; [|done]. intros _.
      assert (du = pu) as -> by lia.
      assert (pu = -1) as -> by (destruct (decide (pu = -1)); tauto).
      done.
Qed.

Lemma check_vertices_spec us :
  Forall (λ u, 0 ≤ u < Graph.num_nodes g) us →
  ∃ verdict warnings,
    BFS.check_vertices g source depth parent us = Some (verdict, warnings)
    ∧ (verdict = true ↔ ∀ u, u ∈ us → BFS.agrees_at g source depth parent u)
    ∧ (verdict = true → warnings = [])
    ∧ (verdict = false → ∃ w, warnings = [w]).
Proof using Hwf Hdepth Hparent.
  induction us as [|u us IH]; intros Hus; simpl.
  - exists true, []. split_and!; try done.
    split; [|done]. intros _ u Hu. by apply elem_of_nil in Hu.
  - apply Forall_cons in Hus as [Hu Hus].
    destruct (check_vertex_spec u Hu) as (r & -> & Hr). simpl.
    destruct r as [w|].
    + exists false, [w]. split_and!; try done; [|by exists w].
      split; [done|]. intros H.
      assert (Some w = None) as [=]. apply Hr, H. left.
    + destruct (IH Hus) as (verdict & warnings & -> & Hiff & Hrest).
      exists verdict, warnings. split_and!; try apply Hrest; [done|].
      rewrite Hiff. split.
      * intros H x [->|Hx]%elem_of_cons; [by apply Hr|by apply H].
      * intros H x Hx. apply H. by right.
Qed.

Lemma agrees_vertices :
  BFS.agrees g source depth parent
  ↔ ∀ u, u ∈ seqZ 0 (Graph.num_nodes g) →
         BFS.agrees_at g source depth parent u.
Proof using Hdepth.
  split; [intros H u _; apply H|]. intros H u.
  destruct (decide (0 ≤ u < Graph.num_nodes g)) as [Hu|Hu].
  - apply H, elem_of_seqZ. lia.
  - intros du pu Hdu%lookupZ_lt. lia.
Qed.

End Checks.

Lemma SSSPVerifier_total (g : SSSP.WGraph) source dist pe npes :
  0 ≤ pe < npes → npes ≤ Graph.num_nodes g →
  Graph.num_nodes g - (npes - 1) * (Graph.num_nodes g `div` npes)
    ≤ Z.of_nat (length dist) →
  ∃ lines, SSSP.SSSPVerifier g source dist pe npes = Some (true, lines).
Proof.
  intros Hpe Hn Hdist. unfold SSSP.SSSPVerifier.
  destruct (partition_make (Graph.num_nodes g) pe npes)
    as (vp & Hvp & _ & _ & _ & _ & Hse & _ & Hw & Hmax & _); [lia..|].
  rewrite Hvp. simpl.
  destruct (mapM (λ n, lp ← Partition.local_pos vp n; lookupZ dist lp)
              (seqZ (Partition.start vp)
                 (Partition.end_ vp - Partition.start vp)))
    as [lines|] eqn:Hlines; [by exists lines|].
  exfalso. apply mapM_None_1 in Hlines.
  apply Exists_exists in Hlines as (n & Hin%elem_of_seqZ & Hnone).
  destruct (partition_local_pos (Graph.num_nodes g) pe npes vp n)
    as [_ Hlp]; [lia..|done|lia|].
  rewrite Hlp in Hnone. simpl in Hnone.
  destruct (lookupZ_is_Some dist (n - Partition.start vp)) as [d Hd]; [lia|].
  by rewrite Hd in Hnone.
Qed.




(** ** The last loop of [DOBFS] *)

(** The loop keeps the length of the array, leaves no entry below -1
    among those it has passed, and changes no other entry. *)
Lemma reset_unvisited_full g own :
  Z.of_nat (length own) = Graph.num_nodes g →
  ∃ own', BFS.reset_unvisited g own = Some own'
          ∧ length own' = length own
          ∧ ∀ n p, lookupZ own n = Some p →
                   lookupZ own' n = Some (if decide (p < -1) then -1 else p).
Proof.
  intros Hlen. unfold BFS.reset_unvisited.
  destruct (foldM_seqZ
              (λ parent n,
                 pn ← lookupZ parent n;
                 if decide (pn < -1) then storeZ parent n (-1) else Some parent)
              (λ i own',
                 length own' = length own
                 ∧ ∀ n p, lookupZ own n = Some p →
                          lookupZ own' n
                          = Some (if decide (n < i ∧ p < -1) then -1 else p))
              0 (Graph.num_nodes g) own) as (own' & Hrun & Hlen' & Hval).
  - lia.
  - split; [done|]. intros n p Hn. rewrite decide_False; [done|].
    apply lookupZ_lt in Hn. lia.
  - intros i cur Hi [Hl Hv].
    destruct (lookupZ_is_Some own i) as [p Hp]; [lia|].
    pose proof (Hv i p Hp) as Hcur. rewrite decide_False in Hcur by lia.
    rewrite Hcur. simpl. case_decide as Hlow.
    + rewrite storeZ_Some by lia. eexists. split; [done|].
      assert (Hst : storeZ cur i (-1) = Some (<[Z.to_nat i := -1]> cur))
        by (apply storeZ_Some; lia).
      split; [by rewrite length_insert|]. intros n q Hq.
      destruct (decide (n = i)) as [->|Hne].
      * rewrite (lookupZ_storeZ_eq _ _ _ _ Hst).
        assert (q = p) as -> by congruence.
        rewrite decide_True by lia. done.
      * rewrite (lookupZ_storeZ_ne _ _ _ _ _ Hst) by done.
        rewrite (Hv n q Hq). f_equal.
        repeat case_decide; try done; exfalso; lia.
    + exists cur. split; [done|]. split; [done|]. intros n q Hq.
      rewrite (Hv n q Hq). f_equal.
      destruct (decide (n = i)) as [->|Hne].
      * assert (q = p) as -> by congruence.
        repeat case_decide; try done; exfalso; lia.
      * repeat case_decide; try done; exfalso; lia.
  - exists own'. split; [done|]. split; [done|]. intros n p Hn.
    etrans; [by apply Hval|]. f_equal. apply lookupZ_lt in Hn.
    repeat case_decide; try done; exfalso; lia.
Qed.

(** On an array shorter than the graph the loop runs past the end. *)
Lemma reset_unvisited_short g own :
  Z.of_nat (length own) < Graph.num_nodes g →
  BFS.reset_unvisited g own = None.
Proof.
  intros Hlen. unfold BFS.reset_unvisited.
  set (len := Z.of_nat (length own)) in *.
  replace (Graph.num_nodes g) with (len + (Graph.num_nodes g - len)) by lia.
  rewrite seqZ_app by lia. rewrite foldM_app.
  match goal with
  | |- context [foldM ?f own (seqZ 0 len)] =>
      destruct (foldM f own (seqZ 0 len)) as [own1|] eqn:Hrun; [|done]
  end. simpl.
  assert (Hl : length own1 = length own).
  { eapply (foldM_invariant _ (λ cur, length cur = length own));
      [exact Hrun|done|].
    intros cur n cur' _ Hcur Hstep. simpl in Hstep.
    destruct (lookupZ cur n) as [pn|]; [|done]. simpl in Hstep.
    case_decide; [|congruence].
    apply storeZ_length in Hstep. congruence. }
  replace (Graph.num_nodes g - len) with (1 + (Graph.num_nodes g - len - 1))
    by lia.
  rewrite seqZ_app by lia. rewrite foldM_app.
  change (seqZ (0 + len) 1) with [0 + len]. simpl.
  rewrite lookupZ_None; [done|]. unfold len. lia.
Qed.

(** C7. On a job of two ranks the parent array of a rank is
    partitioned: for the path [0 - 1 - 2 - 3 - 4 - 5] [InitParent]
    gives each rank [max_size = 3] elements. The last loop of [DOBFS]
    runs [n] over all six vertices and reads [parent[n]], so whatever a
    rank's array holds, the loop leaves the array at [n = 3]; so does
    [BUStep] in the first iteration of the outer loop, and [DOBFS]
    returns no parent array on rank 0, whatever the fuel. On one rank
    the array has six elements and [DOBFS] returns the parents of the
    path. *)
Theorem DOBFS_partitioned_parent :
  BFS.parent ∘ BFS.st_world
    <$> BFS.DOBFS_init Scenario.path6 0 2 Scenario.zeros2
  = Some [[0; -2; -2]; [-2; -2; -1]]
  ∧ (∀ own, length own = 3%nat →
            BFS.reset_unvisited Scenario.path6 own = None)
  ∧ BFS.BUStep Scenario.path6 [0; -2; -2]
      (Bitmap.set_bit (Bitmap.create 6) 0) (Bitmap.create 6) = None
  ∧ (∀ fuel, BFS.DOBFS fuel Scenario.path6 0 0 2 15 18 Scenario.zeros2 = None)
  ∧ BFS.DOBFS 7 Scenario.path6 0 0 1 15 18 Scenario.zeros
    = Some [0; 0; 1; 2; 3; 4].
Proof.
  split_and!.
  - vm_compute. reflexivity.
  - intros own Hown. apply reset_unvisited_short. rewrite Hown. reflexivity.
  - vm_compute. reflexivity.
  - intros [|fuel]; vm_compute; reflexivity.
  - vm_compute. reflexivity.
Qed.

(** ** Delta-stepping on one rank *)

Lemma wrap_long_small z : - 2 ^ 63 ≤ z < 2 ^ 63 → CInt.wrap_long z = z.
Proof. intros H. unfold CInt.wrap_long. rewrite Z.mod_small; lia. Qed.

Lemma to_size_t_small z : 0 ≤ z < 2 ^ 64 → CInt.to_size_t z = z.
Proof. intros H. unfold CInt.to_size_t. by rewrite Z.mod_small. Qed.

Lemma land_1_mod it : Z.land it 1 = it `mod` 2.
Proof. change 1 with (Z.ones 1). by rewrite Z.land_ones. Qed.

Lemma land_1_cases it : Z.land it 1 = 0 ∨ Z.land it 1 = 1.
Proof. rewrite land_1_mod. pose proof (Z.mod_pos_bound it 2). lia. Qed.

Lemma land_1_succ it : Z.land (CInt.wrap (it + 1)) 1 = 1 - Z.land it 1.
Proof.
  rewrite !land_1_mod. unfold CInt.wrap.
  pose proof (Z.div_mod (it + 1 + 2 ^ 31) (2 ^ 32) ltac:(lia)) as Hq.
  set (q := (it + 1 + 2 ^ 31) `div` 2 ^ 32) in *.
  replace ((it + 1 + 2 ^ 31) `mod` 2 ^ 32 - 2 ^ 31)
    with (it + 1 + (- 2 ^ 31 * q) * 2) by lia.
  rewrite Z_mod_plus_full.
  pose proof (Z.div_mod it 2 ltac:(lia)) as Hit.
  pose proof (Z.mod_pos_bound it 2 ltac:(lia)).
  destruct (decide (it `mod` 2 = 0)) as [H0|H0].
  - rewrite H0. replace (it + 1) with (1 + (it `div` 2) * 2) by lia.
    by rewrite Z_mod_plus_full.
  - assert (it `mod` 2 = 1) as H1 by lia. rewrite H1.
    replace (it + 1) with (0 + (it `div` 2 + 1) * 2) by lia.
    by rewrite Z_mod_plus_full.
Qed.

Lemma make_single n : Partition.make n 0 1 = Some (SSSP.single n).
Proof.
  unfold Partition.make. rewrite div_Some by lia. simpl.
  rewrite Z.quot_1_r. unfold SSSP.single. f_equal. f_equal; lia.
Qed.

Lemma single_pos n x :
  0 ≤ x < n →
  Partition.local_pos (SSSP.single n) x = Some x
  ∧ Partition.recv (SSSP.single n) x = Some 0.
Proof.
  intros Hx.
  assert (Hrecv : Partition.recv (SSSP.single n) x = Some 0).
  { unfold Partition.recv. simpl. rewrite div_Some by lia. simpl.
    rewrite Z.quot_small by lia. reflexivity. }
  split; [|done]. unfold Partition.local_pos. rewrite Hrecv. simpl.
  f_equal. lia.
Qed.

Lemma foldR_total {A B} (f : A → B → SSSP.result A)
    (P : list B → A → Prop) l a :
  P [] a →
  (∀ pre x post a, l = pre ++ x :: post → P pre a →
     ∃ a', f a x = SSSP.Done a' ∧ P (pre ++ [x]) a') →
  ∃ a', SSSP.foldR f a l = SSSP.Done a' ∧ P l a'.
Proof.
  intros Ha Hstep.
  enough (∀ pre post a, l = pre ++ post → P pre a →
            ∃ a', SSSP.foldR f a post = SSSP.Done a' ∧ P l a') as H
    by (apply (H [] l); done).
  intros pre post. revert pre.
  induction post as [|x post IH]; intros pre a0 Hl Hp; simpl.
  - exists a0. rewrite app_nil_r in Hl. by subst.
  - destruct (Hstep pre x post a0 Hl Hp) as (a1 & Hf & Hp1).
    rewrite Hf. simpl. apply (IH (pre ++ [x])); [|done].
    by rewrite <- app_assoc.
Qed.

(** *** Sums and bins *)

Lemma sum_insert (l : list Z) (i : nat) x y :
  l !! i = Some x →
  foldr Z.add 0 (<[i := y]> l) = foldr Z.add 0 l - x + y.
Proof.
  revert i. induction l as [|z l IH]; intros [|i] Hi; simpl in *; try done.
  - injection Hi as ->. lia.
  - rewrite (IH i Hi). lia.
Qed.

Lemma sum_nonneg (l : list Z) :
  Forall (λ x, 0 ≤ x) l → 0 ≤ foldr Z.add 0 l.
Proof. induction 1; simpl; lia. Qed.

Lemma sum_replicate (k : nat) (x : Z) :
  foldr Z.add 0 (replicate k x) = Z.of_nat k * x.
Proof. induction k as [|k IH]; simpl; [done|]. rewrite IH. lia. Qed.

Lemma total_sum bins :
  SSSP.total bins = foldr Z.add 0 ((λ bin, Z.of_nat (length bin)) <$> bins).
Proof.
  unfold SSSP.total. induction bins as [|bin bins IH]; [done|].
  rewrite fmap_cons. cbn [foldr concat].
  rewrite length_app, Nat2Z.inj_add, IH. done.
Qed.

Lemma total_nonneg bins : 0 ≤ SSSP.total bins.
Proof. unfold SSSP.total. lia. Qed.

Lemma total_insert bins (i : nat) bin bin' :
  bins !! i = Some bin →
  SSSP.total (<[i := bin']> bins)
  = SSSP.total bins - Z.of_nat (length bin) + Z.of_nat (length bin').
Proof.
  intros Hi. rewrite !total_sum, list_fmap_insert.
  apply sum_insert. by rewrite list_lookup_fmap, Hi.
Qed.

Lemma total_app_empty bins k :
  SSSP.total (bins ++ replicate k []) = SSSP.total bins.
Proof.
  rewrite !total_sum, fmap_app, fmap_replicate.
  induction bins as [|bin bins IH].
  - rewrite app_nil_l, sum_replicate. simpl. lia.
  - rewrite fmap_cons, <- app_comm_cons. cbn [foldr]. by rewrite IH.
Qed.

Lemma entries_length_total bins b :
  Z.of_nat (length (SSSP.entries bins b)) ≤ SSSP.total bins.
Proof.
  unfold SSSP.entries.
  destruct (lookupZ bins b) as [bin|] eqn:Hb; simpl; [|apply total_nonneg].
  apply lookupZ_Some in Hb as [_ Hb].
  rewrite <- (take_drop_middle _ _ _ Hb). unfold SSSP.total.
  rewrite concat_app, length_app. simpl. rewrite length_app. lia.
Qed.

Lemma resize_grow bins b :
  Z.of_nat (length bins) ≤ b →
  SSSP.resize bins (b + 1)
  = bins ++ replicate (Z.to_nat (b + 1) - length bins) [].
Proof.
  intros Hb. unfold SSSP.resize. rewrite take_ge by lia. done.
Qed.

Lemma entries_app_empty bins k b :
  SSSP.entries (bins ++ replicate k []) b = SSSP.entries bins b.
Proof.
  unfold SSSP.entries, lookupZ. case_decide; [|done].
  destruct (decide (Z.to_nat b < length bins)%nat) as [Hlt|Hge].
  - by rewrite lookup_app_l.
  - rewrite lookup_app_r by lia.
    rewrite (lookup_ge_None_2 bins) by lia. simpl.
    destruct (replicate k [] !! _) as [bin|] eqn:Hr; [|done].
    apply lookup_replicate in Hr as [-> _]. done.
Qed.

Section Pushed.

Variables (bins : list (list SSSP.NodeID)) (b : Z) (v : SSSP.NodeID).
Hypothesis Hb : 0 ≤ b.

Lemma pushed_push_back :
  SSSP.push_back
    (if decide (Z.of_nat (length bins) ≤ b)
     then SSSP.resize bins (b + 1) else bins) b v
  = Some (SSSP.pushed bins b v).
Proof using Hb.
  unfold SSSP.push_back, SSSP.pushed.
  case_decide as Hlen.
  - rewrite resize_grow by done.
    set (ext := bins ++ replicate (Z.to_nat (b + 1) - length bins) []).
    assert (Hlook : lookupZ ext b = Some []).
    { apply lookupZ_Some. split; [done|]. unfold ext.
      rewrite lookup_app_r by lia. apply lookup_replicate. split; [done|lia]. }
    rewrite Hlook. simpl.
    assert (SSSP.entries bins b = []) as ->.
    { unfold SSSP.entries. rewrite lookupZ_None; [done|lia]. }
    apply storeZ_Some. unfold ext.
    rewrite length_app, length_replicate. lia.
  - destruct (lookupZ_is_Some bins b) as [bin Hbin]; [lia|].
    rewrite Hbin. simpl. unfold SSSP.entries. rewrite Hbin. simpl.
    apply storeZ_Some. lia.
Qed.

Lemma entries_pushed b' :
  SSSP.entries (SSSP.pushed bins b v) b'
  = if decide (b' = b) then SSSP.entries bins b ++ [v]
    else SSSP.entries bins b'.
Proof using Hb.
  pose proof pushed_push_back as Hpush. unfold SSSP.push_back in Hpush.
  set (ext := if decide (Z.of_nat (length bins) ≤ b)
              then SSSP.resize bins (b + 1) else bins) in *.
  assert (Hext : ∀ j, SSSP.entries ext j = SSSP.entries bins j).
  { intros j. unfold ext. case_decide; [|done].
    rewrite resize_grow by done. apply entries_app_empty. }
  destruct (lookupZ ext b) as [bin|] eqn:Hbin; [|done]. simpl in Hpush.
  assert (Hbin' : bin = SSSP.entries bins b).
  { rewrite <- Hext. unfold SSSP.entries. by rewrite Hbin. }
  subst bin.
  case_decide as Heq.
  - subst b'. unfold SSSP.entries at 1.
    erewrite lookupZ_storeZ_eq; [|exact Hpush]. done.
  - unfold SSSP.entries at 1.
    erewrite lookupZ_storeZ_ne; [|exact Hpush|done].
    apply Hext.
Qed.

Lemma total_pushed : SSSP.total (SSSP.pushed bins b v) = SSSP.total bins + 1.
Proof using Hb.
  unfold SSSP.pushed. case_decide as Hlen.
  - rewrite resize_grow by done.
    assert (SSSP.entries bins b = []) as ->.
    { unfold SSSP.entries. rewrite lookupZ_None; [done|lia]. }
    erewrite total_insert; last first.
    { rewrite lookup_app_r by lia. apply lookup_replicate.
      split; [done|lia]. }
    rewrite total_app_empty. simpl. lia.
  - destruct (lookupZ_is_Some bins b) as [bin Hbin]; [lia|].
    unfold SSSP.entries. rewrite Hbin. simpl.
    apply lookupZ_Some in Hbin as [_ Hbin].
    erewrite total_insert by done. rewrite length_app. simpl. lia.
Qed.

Lemma length_pushed :
  Z.of_nat (length (SSSP.pushed bins b v))
  = Z.max (Z.of_nat (length bins)) (b + 1).
Proof using Hb.
  unfold SSSP.pushed. rewrite length_insert. case_decide as Hlen.
  - rewrite resize_grow by done. rewrite length_app, length_replicate. lia.
  - lia.
Qed.

End Pushed.

Lemma entries_clear bins c bins' b :
  storeZ bins c [] = Some bins' →
  SSSP.entries bins' b = if decide (b = c) then [] else SSSP.entries bins b.
Proof.
  intros Hst. unfold SSSP.entries. case_decide as Heq.
  - subst. by erewrite lookupZ_storeZ_eq.
  - by erewrite lookupZ_storeZ_ne.
Qed.

Lemma total_clear bins c bins' :
  storeZ bins c [] = Some bins' →
  SSSP.total bins' = SSSP.total bins - Z.of_nat (length (SSSP.entries bins c)).
Proof.
  intros [Hc ->]%storeZ_inv.
  destruct (lookupZ_is_Some bins c) as [bin Hbin]; [lia|].
  unfold SSSP.entries. rewrite Hbin. simpl.
  apply lookupZ_Some in Hbin as [_ Hbin].
  erewrite total_insert by done. simpl. lia.
Qed.

Lemma lookupZ_singleton {A} (x : A) : lookupZ [x] 0 = Some x.
Proof. reflexivity. Qed.

Lemma storeZ_singleton {A} (x y : A) : storeZ [x] 0 y = Some [y].
Proof. reflexivity. Qed.

Lemma kDistInf_eq : SSSP.kDistInf = 1073741823.
Proof. reflexivity. Qed.

Lemma kMaxBin_eq : SSSP.kMaxBin = 9223372036854775807.
Proof. reflexivity. Qed.

Section DeltaStep.

Variables (g : SSSP.WGraph) (source : SSSP.NodeID) (delta : Z).
Hypothesis Hwf : SSSP.well_formed g.
Hypothesis Hdelta : 0 < delta.

Lemma out_neigh_weighted u v w :
  (v, w) ∈ Graph.out_neigh g u →
  0 ≤ v < Graph.num_nodes g ∧ 0 ≤ w ≤ CInt.int_max.
Proof using Hwf.
  intros Hv. unfold Graph.out_neigh in Hv.
  destruct (lookupZ (Graph.out_neighbors g) u) as [range|] eqn:Hu;
    simpl in Hv; [|by apply elem_of_nil in Hv].
  apply lookupZ_Some in Hu as [_ Hu].
  eapply Forall_lookup_1 in Hu; [|exact Hwf].
  eapply List.Forall_forall in Hu; [|by apply list_elem_of_In]. done.
Qed.

Lemma relaxed_at_mono d d' u du :
  SSSP.relaxed_at g d u du →
  (∀ v dv, lookupZ d v = Some dv → ∃ dv', lookupZ d' v = Some dv' ∧ dv' ≤ dv) →
  SSSP.relaxed_at g d' u du.
Proof.
  intros Hrel Hmono v w Hv. destruct (Hrel v w Hv) as (dv & Hdv & Hle).
  destruct (Hmono v dv Hdv) as (dv' & Hdv' & Hle'). exists dv'. split; [done|lia].
Qed.

Lemma dist_range d v dv :
  SSSP.dist_ok g source d → lookupZ d v = Some dv → 0 ≤ dv ≤ SSSP.kDistInf.
Proof.
  intros (_ & Hrange & _) [_ Hv]%lookupZ_Some.
  by eapply Forall_lookup_1 in Hrange.
Qed.

(** The [while] loop of [RelaxEdges] runs its body once at most. *)
Lemma relax_single fuel d f tails m it idx bins v old new :
  lookupZ d v = Some old → old ≤ SSSP.kDistInf → 0 ≤ new →
  (new < old → (0 < fuel)%nat) →
  SSSP.relax fuel delta (SSSP.single (Z.of_nat (length d))) v old new
    (SSSP.alone d f tails m it idx bins)
  = SSSP.Done
      (if decide (new < old)
       then SSSP.alone (<[Z.to_nat v := new]> d) f tails m it idx
              (SSSP.pushed bins (new `div` delta) v)
       else SSSP.alone d f tails m it idx bins).
Proof using Hdelta.
  intros Hold Hinf Hnew Hfuel. pose proof (lookupZ_lt _ _ _ Hold) as Hv.
  destruct fuel as [|fuel]; simpl; case_decide as Hlt; try done.
  { specialize (Hfuel Hlt). lia. }
  destruct (single_pos (Z.of_nat (length d)) v Hv) as [-> ->]. simpl.
  unfold SSSP.shmem_long_atomic_compare_swap. simpl.
  rewrite Hold. simpl.
  rewrite decide_True by done. rewrite storeZ_Some by done. simpl.
  rewrite decide_True by done.
  rewrite div_Some by lia. simpl. rewrite quot_nonneg by lia.
  assert (0 ≤ new `div` delta ≤ new).
  { split; [apply Z.div_pos; lia|]. apply Z.div_le_upper_bound; nia. }
  rewrite kDistInf_eq in Hinf. rewrite to_size_t_small by lia.
  rewrite pushed_push_back by lia. simpl. reflexivity.
Qed.

(** One edge of [RelaxEdges]: the state after the body of the loop
    over [out_neigh(u)] for the neighbour [(v, w)]. *)
Lemma relax_edge_single fuel c d f tails m it idx bins
    (F : list SSSP.NodeID) u du v w :
  (0 < fuel)%nat →
  SSSP.dist_ok g source d → SSSP.bins_ok g delta c d bins →
  lookupZ d u = Some du → delta * c ≤ du →
  (v, w) ∈ Graph.out_neigh g u →
  (∀ x dx, lookupZ d x = Some dx → dx < SSSP.kDistInf → x ≠ u →
     SSSP.relaxed_at g d x dx
     ∨ (delta * c ≤ dx ∧ (x ∈ F ∨ x ∈ SSSP.entries bins (dx `div` delta)))) →
  ∃ d' bins',
    (iv ← SSSP.lift SSSP.Division
            (Partition.local_pos (SSSP.single (Graph.num_nodes g)) v);
     pv ← SSSP.lift SSSP.Division
            (Partition.recv (SSSP.single (Graph.num_nodes g)) v);
     old_dist ← SSSP.lift SSSP.Dist_access
                  (SSSP.shmem_getmem
                     (SSSP.mem (SSSP.alone d f tails m it idx bins)) iv pv);
     iu ← SSSP.lift SSSP.Division
            (Partition.local_pos (SSSP.single (Graph.num_nodes g)) u);
     pu ← SSSP.lift SSSP.Division
            (Partition.recv (SSSP.single (Graph.num_nodes g)) u);
     new_dist ← SSSP.lift SSSP.Dist_access
                  (SSSP.shmem_getmem
                     (SSSP.mem (SSSP.alone d f tails m it idx bins)) iu pu);
     SSSP.relax fuel delta (SSSP.single (Graph.num_nodes g)) v old_dist
       (CInt.wrap_long (new_dist + w)) (SSSP.alone d f tails m it idx bins))
    = SSSP.Done (SSSP.alone d' f tails m it idx bins')
    ∧ SSSP.dist_ok g source d' ∧ SSSP.bins_ok g delta c d' bins'
    ∧ lookupZ d' u = Some du
    ∧ (∃ dv, lookupZ d' v = Some dv ∧ dv ≤ du + w)
    ∧ (∀ x dx, lookupZ d' x = Some dx → dx < SSSP.kDistInf → x ≠ u →
         SSSP.relaxed_at g d' x dx
         ∨ (delta * c ≤ dx
            ∧ (x ∈ F ∨ x ∈ SSSP.entries bins' (dx `div` delta))))
    ∧ SSSP.potential d' bins' ≤ SSSP.potential d bins
    ∧ (∀ x dx, lookupZ d x = Some dx →
         ∃ dx', lookupZ d' x = Some dx' ∧ (dx' = dx ∨ delta * c ≤ dx' < dx)).
Proof using Hwf Hdelta.
  intros Hfuel Hd Hb Hu Hcu Hedge Hpend.
  pose proof Hd as (Hlen & Hrange & Hsrc & Hwit).
  pose proof Hb as (Hvalid & Hidx & Hcur).
  destruct (out_neigh_weighted u v w Hedge) as [Hv Hw].
  pose proof (lookupZ_lt _ _ _ Hu) as Hurange.
  pose proof (dist_range d u du Hd Hu) as Hdu.
  destruct (lookupZ_is_Some d v) as [old Hold]; [lia|].
  pose proof (dist_range d v old Hd Hold) as Hdold.
  pose proof kDistInf_eq as Hinf. unfold CInt.int_max in Hw.
  destruct (single_pos (Graph.num_nodes g) v Hv) as [-> ->].
  destruct (single_pos (Graph.num_nodes g) u) as [-> ->]; [lia|].
  simpl. unfold SSSP.shmem_getmem. simpl. rewrite Hold, Hu. simpl.
  rewrite wrap_long_small by lia.
  rewrite <- Hlen. rewrite relax_single; [|done|lia|lia|lia].
  case_decide as Hlt.
  - (* the distance of [v] decreases *)
    set (new := du + w) in *.
    set (d' := <[Z.to_nat v := new]> d).
    assert (Hst : storeZ d v new = Some d') by (apply storeZ_Some; lia).
    assert (Hvu : v ≠ u) by (intros ->; rewrite Hu in Hold; injection Hold; lia).
    assert (Hbin : 0 ≤ new `div` delta) by (apply Z.div_pos; lia).
    assert (Hmul : delta * (new `div` delta) ≤ new)
      by (apply Z.mul_div_le; lia).
    assert (Hsame : ∀ x, x ≠ v → lookupZ d' x = lookupZ d x).
    { intros x Hx. by eapply lookupZ_storeZ_ne. }
    assert (Hnew : lookupZ d' v = Some new) by (by eapply lookupZ_storeZ_eq).
    assert (Hmono : ∀ x dx, lookupZ d x = Some dx →
              ∃ dx', lookupZ d' x = Some dx'
                     ∧ (dx' = dx ∨ delta * c ≤ dx' < dx)).
    { intros x dx Hx. destruct (decide (x = v)) as [->|Hne].
      - exists new. split; [done|]. right.
        assert (dx = old) as -> by congruence. unfold new. lia.
      - exists dx. rewrite Hsame by done. split; [done|by left]. }
    exists d', (SSSP.pushed bins (new `div` delta) v).
    split; [done|]. unfold SSSP.dist_ok, SSSP.bins_ok. split_and!.
    + unfold d'. rewrite length_insert. done.
    + apply Forall_insert; [done|]. unfold new. lia.
    + rewrite Hsame; [done|]. intros ->. rewrite Hsrc in Hold.
      injection Hold as <-. unfold new in Hlt. lia.
    + intros x dx Hx Hfin. destruct (decide (x = v)) as [->|Hne].
      * assert (dx = new) as -> by congruence.
        apply SSSP.path_snoc with (v := u); [|done].
        apply Hwit; [done|]. unfold new in Hlt. lia.
      * rewrite Hsame in Hx by done. by apply Hwit.
    + intros b x. rewrite entries_pushed by done. case_decide.
      * intros [Hx| ->%list_elem_of_singleton]%elem_of_app; [|done].
        by eapply Hvalid.
      * apply Hvalid.
    + intros b. rewrite length_pushed by done. intros Hbound.
      destruct (decide (b < Z.of_nat (length bins))) as [Hin|Hout].
      * apply Hidx. lia.
      * assert (b ≤ new `div` delta) by lia.
        assert (delta * b ≤ delta * (new `div` delta)) by nia.
        unfold new in *. lia.
    + intros x. rewrite entries_pushed by done.
      intros Hx.
      assert (Hcases : x = v ∨ x ∈ SSSP.entries bins c).
      { case_decide as Heq; [|by right].
        apply elem_of_app in Hx as [Hx| ->%list_elem_of_singleton];
          [right; by rewrite Heq|by left]. }
      destruct (decide (x = v)) as [->|Hne].
      * exists new. split; [done|]. unfold new. lia.
      * destruct Hcases as [->|Hin]; [done|].
        destruct (Hcur x Hin) as (dx & Hdx & Hle).
        exists dx. rewrite Hsame by done. done.
    + by rewrite Hsame.
    + exists new. split; [done|]. unfold new. lia.
    + intros x dx Hx Hfin Hxu. destruct (decide (x = v)) as [->|Hne].
      * assert (dx = new) as -> by congruence. right.
        split; [unfold new; lia|]. right.
        rewrite entries_pushed by done. rewrite decide_True by done.
        apply elem_of_app. right. apply list_elem_of_singleton. done.
      * rewrite Hsame in Hx by done.
        destruct (Hpend x dx Hx Hfin Hxu) as [Hrel|(Hle & Hin)].
        -- left. eapply relaxed_at_mono; [done|].
           intros y dy Hy. destruct (Hmono y dy Hy) as (dy' & Hdy' & Hor).
           exists dy'. split; [done|lia].
        -- right. split; [done|]. destruct Hin as [Hin|Hin]; [by left|].
           right. rewrite entries_pushed by done. case_decide as Heq.
           ++ apply elem_of_app. left. by rewrite <- Heq.
           ++ done.
    + unfold SSSP.potential. rewrite total_pushed by done.
      unfold d'. erewrite sum_insert; last first.
      { apply lookupZ_Some in Hold as [_ Hold]. exact Hold. }
      unfold new in *. lia.
    + done.
  - (* nothing changes *)
    exists d, bins. split; [done|]. split_and!; try done.
    + exists old. split; [done|lia].
    + intros x dx Hx. exists dx. split; [done|by left].
Qed.

(** [RelaxEdges] on a vertex [u] that is not closer than the current
    bin: afterwards the edges of [u] are relaxed, and every vertex whose
    distance fell waits in the bin of its new distance. *)
Lemma RelaxEdges_single fuel c d f tails m it idx bins
    (F : list SSSP.NodeID) u du :
  (0 < fuel)%nat →
  SSSP.dist_ok g source d → SSSP.bins_ok g delta c d bins →
  SSSP.pending g delta c d bins (u :: F) →
  lookupZ d u = Some du → delta * c ≤ du →
  ∃ d' bins',
    SSSP.RelaxEdges fuel g u delta (SSSP.single (Graph.num_nodes g))
      (SSSP.alone d f tails m it idx bins)
    = SSSP.Done (SSSP.alone d' f tails m it idx bins')
    ∧ SSSP.dist_ok g source d' ∧ SSSP.bins_ok g delta c d' bins'
    ∧ SSSP.pending g delta c d' bins' F
    ∧ SSSP.potential d' bins' ≤ SSSP.potential d bins
    ∧ (∀ x dx, lookupZ d x = Some dx →
         ∃ dx', lookupZ d' x = Some dx' ∧ (dx' = dx ∨ delta * c ≤ dx' < dx)).
Proof using Hwf Hdelta.
  intros Hfuel Hd Hb Hpend Hu Hcu. unfold SSSP.RelaxEdges.
  match goal with
  | |- ∃ d' bins', SSSP.foldR ?body _ _ = _ ∧ _ =>
      destruct (foldR_total body
        (λ pre r, ∃ d' bins',
           r = SSSP.alone d' f tails m it idx bins'
           ∧ SSSP.dist_ok g source d' ∧ SSSP.bins_ok g delta c d' bins'
           ∧ lookupZ d' u = Some du
           ∧ (∀ v w, (v, w) ∈ pre →
                ∃ dv, lookupZ d' v = Some dv ∧ dv ≤ du + w)
           ∧ (∀ x dx, lookupZ d' x = Some dx → dx < SSSP.kDistInf → x ≠ u →
                SSSP.relaxed_at g d' x dx
                ∨ (delta * c ≤ dx
                   ∧ (x ∈ F ∨ x ∈ SSSP.entries bins' (dx `div` delta))))
           ∧ SSSP.potential d' bins' ≤ SSSP.potential d bins
           ∧ (∀ x dx, lookupZ d x = Some dx →
                ∃ dx', lookupZ d' x = Some dx'
                       ∧ (dx' = dx ∨ delta * c ≤ dx' < dx)))
        (Graph.out_neigh g u) (SSSP.alone d f tails m it idx bins))
        as (r & Hrun & d' & bins' & -> & Hd' & Hb' & Hu' & Hall & Hpend'
            & Hpot & Hmono)
  end.
  - exists d, bins. split_and!; try done.
    + intros v w Hin. by apply elem_of_nil in Hin.
    + intros x dx Hx Hfin Hxu.
      destruct (Hpend x dx Hx Hfin) as [Hrel|(Hle & [Hin|Hin])].
      * by left.
      * right. split; [done|]. left.
        apply elem_of_cons in Hin as [->|Hin]; done.
      * right. split; [done|]. by right.
    + intros x dx Hx. exists dx. split; [done|by left].
  - intros pre [v w] post r Hl
      (d1 & bins1 & -> & Hd1 & Hb1 & Hu1 & Hall1 & Hpend1 & Hpot1 & Hmono1).
    assert (Hedge : (v, w) ∈ Graph.out_neigh g u).
    { rewrite Hl. apply elem_of_app. right. left. }
    destruct (relax_edge_single fuel c d1 f tails m it idx bins1 F u du v w)
      as (d2 & bins2 & Hrun & Hd2 & Hb2 & Hu2 & Hnew & Hpend2 & Hpot2 & Hmono2);
      try done.
    exists (SSSP.alone d2 f tails m it idx bins2). split; [exact Hrun|].
    exists d2, bins2. split_and!; try done.
    + intros t w' [Hin|Heq%list_elem_of_singleton]%elem_of_app;
        [|by injection Heq as -> ->].
      destruct (Hall1 t w' Hin) as (dt & Hdt & Hle).
      destruct (Hmono2 t dt Hdt) as (dt' & Hdt' & Hor).
      exists dt'. split; [done|lia].
    + lia.
    + intros x dx Hx. destruct (Hmono1 x dx Hx) as (dx1 & Hdx1 & Hor1).
      destruct (Hmono2 x dx1 Hdx1) as (dx2 & Hdx2 & Hor2).
      exists dx2. split; [done|]. lia.
  - exists d', bins'. split_and!; try done.
    intros x dx Hx Hfin. destruct (decide (x = u)) as [->|Hne].
    + left. assert (dx = du) as -> by congruence.
      intros v w Hin. by apply Hall.
    + destruct (Hpend' x dx Hx Hfin Hne) as [Hrel|Hwait]; [by left|by right].
Qed.

Lemma potential_nonneg d bins :
  SSSP.dist_ok g source d → 0 ≤ foldr Z.add 0 d ∧ 0 ≤ SSSP.total bins.
Proof.
  intros (_ & Hrange & _). split; [|apply total_nonneg].
  apply sum_nonneg. eapply Forall_impl; [done|]. simpl. lia.
Qed.

(** The vertices of a work list, relaxed one after the other. *)
Lemma relax_list_single fuel c f tails m it idx (L : list SSSP.NodeID) :
  ∀ d bins,
  (0 < fuel)%nat →
  SSSP.dist_ok g source d → SSSP.bins_ok g delta c d bins →
  SSSP.pending g delta c d bins L →
  Forall (λ u, ∃ du, lookupZ d u = Some du ∧ delta * c ≤ du) L →
  ∃ d' bins',
    SSSP.foldR (λ r u, SSSP.RelaxEdges fuel g u delta
                         (SSSP.single (Graph.num_nodes g)) r)
      (SSSP.alone d f tails m it idx bins) L
    = SSSP.Done (SSSP.alone d' f tails m it idx bins')
    ∧ SSSP.dist_ok g source d' ∧ SSSP.bins_ok g delta c d' bins'
    ∧ SSSP.pending g delta c d' bins' []
    ∧ SSSP.potential d' bins' ≤ SSSP.potential d bins.
Proof using Hwf Hdelta.
  induction L as [|u L IH]; intros d bins Hfuel Hd Hb Hpend Hall.
  { exists d, bins. simpl. split_and!; try done. }
  apply Forall_cons in Hall as [(du & Hu & Hcu) Hall].
  destruct (RelaxEdges_single fuel c d f tails m it idx bins L u du)
    as (d1 & bins1 & Hrun & Hd1 & Hb1 & Hpend1 & Hpot1 & Hmono1); try done.
  destruct (IH d1 bins1) as (d2 & bins2 & Hrun2 & Hd2 & Hb2 & Hpend2 & Hpot2);
    try done.
  { eapply Forall_impl; [exact Hall|]. simpl.
    intros x (dx & Hx & Hle). destruct (Hmono1 x dx Hx) as (dx' & Hx' & Hor).
    exists dx'. split; [done|lia]. }
  exists d2, bins2. simpl. rewrite Hrun. simpl. split_and!; try done. lia.
Qed.

Lemma foldR_seqZ {A} (f : A → Z → SSSP.result A) (P : Z → A → Prop) lo len a :
  0 ≤ len → P lo a →
  (∀ i a, lo ≤ i < lo + len → P i a →
     ∃ a', f a i = SSSP.Done a' ∧ P (i + 1) a') →
  ∃ a', SSSP.foldR f a (seqZ lo len) = SSSP.Done a' ∧ P (lo + len) a'.
Proof.
  intros Hlen Ha Hstep.
  destruct (foldR_total f (λ pre a, P (lo + Z.of_nat (length pre)) a)
              (seqZ lo len) a) as (a' & Hrun & Hp).
  - simpl. by rewrite Z.add_0_r.
  - intros pre x post a0 Hl Hp.
    assert (Hx : seqZ lo len !! length pre = Some x).
    { rewrite Hl. by rewrite list_lookup_middle. }
    apply lookup_seqZ in Hx as [-> Hlt].
    destruct (Hstep (lo + Z.of_nat (length pre)) a0) as (a1 & Hf & Hp1);
      [lia|done|].
    exists a1. split; [done|]. rewrite length_app. simpl.
    replace (lo + Z.of_nat (length pre + 1)) with
      (lo + Z.of_nat (length pre) + 1) by lia. done.
  - exists a'. split; [done|]. rewrite length_seqZ in Hp.
    by rewrite Z2Nat.id in Hp.
Qed.

(** The first phase on the frontier: every vertex of the frontier has
    been relaxed or lies below the current bin. *)
Lemma process_frontier_single fuel c tail d f tails m it idx bins :
  (0 < fuel)%nat → 0 ≤ c → delta * c < SSSP.kDistInf →
  0 ≤ tail ≤ Z.of_nat (length f) →
  SSSP.dist_ok g source d → SSSP.bins_ok g delta c d bins →
  SSSP.pending g delta c d bins (take (Z.to_nat tail) f) →
  Forall (λ u, 0 ≤ u < Graph.num_nodes g) (take (Z.to_nat tail) f) →
  ∃ d' bins',
    SSSP.process_frontier fuel g delta (SSSP.single (Graph.num_nodes g))
      0 c tail (SSSP.alone d f tails m it idx bins)
    = SSSP.Done (SSSP.alone d' f tails m it idx bins')
    ∧ SSSP.dist_ok g source d' ∧ SSSP.bins_ok g delta c d' bins'
    ∧ SSSP.pending g delta c d' bins' []
    ∧ SSSP.potential d' bins' ≤ SSSP.potential d bins.
Proof using Hwf Hdelta.
  intros Hfuel Hc Hcinf Htail Hd Hb Hpend Hvalid.
  unfold SSSP.process_frontier, SSSP.OldePartition.
  cbn [Partition.npes SSSP.single]. rewrite make_single.
  cbn [SSSP.lift mbind SSSP.result_bind Partition.end_ Partition.start
       SSSP.single].
  rewrite Z.sub_0_r.
  set (F := take (Z.to_nat tail) f) in *.
  match goal with
  | |- ∃ d' bins', SSSP.foldR ?body _ _ = _ ∧ _ =>
      destruct (foldR_seqZ body
        (λ i r, ∃ d' bins',
           r = SSSP.alone d' f tails m it idx bins'
           ∧ SSSP.dist_ok g source d' ∧ SSSP.bins_ok g delta c d' bins'
           ∧ SSSP.pending g delta c d' bins' (drop (Z.to_nat i) F)
           ∧ SSSP.potential d' bins' ≤ SSSP.potential d bins)
        0 tail (SSSP.alone d f tails m it idx bins))
        as (r & Hrun & d' & bins' & -> & Hd' & Hb' & Hpend' & Hpot)
  end.
  - lia.
  - exists d, bins. split_and!; done.
  - intros i r Hi (d1 & bins1 & -> & Hd1 & Hb1 & Hpend1 & Hpot1).
    assert (HFlen : length F = Z.to_nat tail).
    { unfold F. rewrite length_take. lia. }
    destruct (lookup_lt_is_Some_2 F (Z.to_nat i)) as [u HuF]; [lia|].
    assert (Hf : lookupZ f i = Some u).
    { apply lookupZ_Some. split; [lia|].
      unfold F in HuF. rewrite lookup_take_lt in HuF by lia. done. }
    assert (Hu : 0 ≤ u < Graph.num_nodes g)
      by (by eapply Forall_lookup_1 in Hvalid).
    pose proof Hd1 as (Hlen1 & _).
    destruct (lookupZ_is_Some d1 u) as [du Hdu]; [lia|].
    assert (Hdrop : drop (Z.to_nat i) F = u :: drop (Z.to_nat (i + 1)) F).
    { replace (Z.to_nat (i + 1)) with (S (Z.to_nat i)) by lia.
      by apply drop_S. }
    simpl. rewrite Hf. simpl.
    destruct (single_pos (Graph.num_nodes g) u Hu) as [-> ->]. simpl.
    unfold SSSP.shmem_getmem. simpl. rewrite Hdu. simpl.
    rewrite wrap_long_small by (rewrite kDistInf_eq in Hcinf; nia).
    rewrite Hdrop in Hpend1.
    case_decide as Hle.
    + destruct (RelaxEdges_single fuel c d1 f tails m it idx bins1
                  (drop (Z.to_nat (i + 1)) F) u du)
        as (d2 & bins2 & Hrun & Hd2 & Hb2 & Hpend2 & Hpot2 & _); try done.
      eexists. split; [exact Hrun|]. exists d2, bins2.
      split_and!; try done. lia.
    + eexists. split; [done|]. exists d1, bins1. split_and!; try done.
      intros x dx Hx Hfin.
      destruct (Hpend1 x dx Hx Hfin) as [Hrel|(Hle' & [Hin|Hin])].
      * by left.
      * apply elem_of_cons in Hin as [->|Hin].
        -- assert (dx = du) as -> by congruence. lia.
        -- right. split; [done|by left].
      * right. split; [done|by right].
  - exists d', bins'. split_and!; try done.
    rewrite Z.add_0_l in Hpend'. rewrite drop_ge in Hpend'; [done|].
    unfold F. rewrite length_take. lia.
Qed.

(** Bucket fusion ends within as many rounds as the potential allows. *)
Lemma fuse_single c f tails m it idx fuel :
  ∀ d bins,
  SSSP.potential d bins < Z.of_nat fuel →
  0 ≤ c → delta * c < SSSP.kDistInf →
  SSSP.dist_ok g source d → SSSP.bins_ok g delta c d bins →
  SSSP.pending g delta c d bins [] →
  ∃ d' bins',
    SSSP.fuse fuel g delta (SSSP.single (Graph.num_nodes g)) c
      (SSSP.alone d f tails m it idx bins)
    = SSSP.Done (SSSP.alone d' f tails m it idx bins')
    ∧ SSSP.dist_ok g source d' ∧ SSSP.bins_ok g delta c d' bins'
    ∧ SSSP.pending g delta c d' bins' []
    ∧ SSSP.potential d' bins' ≤ SSSP.potential d bins.
Proof using Hwf Hdelta.
  induction fuel as [|fuel IH]; intros d bins Hpot Hc Hcinf Hd Hb Hpend.
  { destruct (potential_nonneg d bins Hd). unfold SSSP.potential in Hpot. lia. }
  assert (Hcsmall : CInt.to_size_t c = c).
  { apply to_size_t_small. rewrite kDistInf_eq in Hcinf. nia. }
  cbn [SSSP.fuse]. unfold SSSP.bin_at. simpl. rewrite Hcsmall.
  case_decide as Hlen; [|by exists d, bins].
  destruct (lookupZ_is_Some bins c) as [L HL]; [lia|]. rewrite HL.
  case_decide as Hgo; [|by exists d, bins].
  destruct Hgo as [Hne Hsmall].
  rewrite storeZ_Some by lia. simpl.
  set (bins1 := <[Z.to_nat c := []]> bins).
  assert (Hst : storeZ bins c [] = Some bins1) by (apply storeZ_Some; lia).
  assert (HLe : SSSP.entries bins c = L)
    by (unfold SSSP.entries; by rewrite HL).
  pose proof Hb as (Hvalid & Hidx & Hcur).
  assert (Hb1 : SSSP.bins_ok g delta c d bins1).
  { split_and!.
    - intros b v. rewrite (entries_clear _ _ _ _ Hst). case_decide.
      + intros Hin. by apply elem_of_nil in Hin.
      + apply Hvalid.
    - intros b. unfold bins1. rewrite length_insert. apply Hidx.
    - intros v. rewrite (entries_clear _ _ _ _ Hst).
      rewrite decide_True by done. intros Hin. by apply elem_of_nil in Hin. }
  assert (Hpend1 : SSSP.pending g delta c d bins1 L).
  { intros x dx Hx Hfin.
    destruct (Hpend x dx Hx Hfin) as [Hrel|(Hle & [Hin|Hin])].
    - by left.
    - by apply elem_of_nil in Hin.
    - right. split; [done|].
      rewrite (entries_clear _ _ _ _ Hst). case_decide as Heq.
      + left. rewrite <- HLe, <- Heq. done.
      + by right. }
  assert (Hall : Forall (λ u, ∃ du, lookupZ d u = Some du ∧ delta * c ≤ du) L).
  { apply List.Forall_forall. intros u Hu%list_elem_of_In.
    apply Hcur. by rewrite HLe. }
  assert (Hpot1 : SSSP.potential d bins1
                  = SSSP.potential d bins - Z.of_nat (length L)).
  { unfold SSSP.potential. rewrite (total_clear _ _ _ Hst), HLe. lia. }
  assert (1 ≤ Z.of_nat (length L)) by (destruct L; [done|simpl; lia]).
  destruct (potential_nonneg d bins1 Hd) as [Hsum Htot].
  unfold SSSP.potential in Hpot, Hpot1.
  destruct (relax_list_single fuel c f tails m it idx L d bins1)
    as (d2 & bins2 & Hrun & Hd2 & Hb2 & Hpend2 & Hpot2); try done.
  { lia. }
  fold (SSSP.alone d f tails m it idx bins1). rewrite Hrun. simpl.
  destruct (IH d2 bins2) as (d3 & bins3 & Hrun3 & Hd3 & Hb3 & Hpend3 & Hpot3);
    try done.
  { unfold SSSP.potential in *. lia. }
  exists d3, bins3. split_and!; try done.
  unfold SSSP.potential in *. lia.
Qed.

End DeltaStep.

(** *** The vote and the redistribution *)

Lemma first_nonempty_spec bins c :
  0 ≤ c →
  match SSSP.first_nonempty bins c with
  | Some i => c ≤ i < Z.of_nat (length bins) ∧ SSSP.entries bins i ≠ []
              ∧ ∀ b, c ≤ b < i → SSSP.entries bins b = []
  | None => ∀ b, c ≤ b → SSSP.entries bins b = []
  end.
Proof.
  intros Hc. unfold SSSP.first_nonempty. rewrite decide_True by done.
  destruct (list_find _ _) as [[i bin]|] eqn:Hfind; simpl.
  - apply list_find_Some in Hfind as (Hi & Hne & Hbefore).
    rewrite lookup_drop in Hi. pose proof (lookup_lt_Some _ _ _ Hi).
    split_and!; [lia|lia| |].
    + unfold SSSP.entries.
      assert (lookupZ bins (c + Z.of_nat i) = Some bin) as ->; [|done].
      apply lookupZ_Some. split; [lia|].
      replace (Z.to_nat (c + Z.of_nat i)) with (Z.to_nat c + i)%nat by lia.
      done.
    + intros b Hb. unfold SSSP.entries.
      destruct (lookupZ bins b) as [bin'|] eqn:Hb'; [|done]. simpl.
      apply lookupZ_Some in Hb' as [_ Hb'].
      destruct (decide (bin' = [])) as [|Hne']; [done|].
      exfalso. apply (Hbefore (Z.to_nat (b - c)) bin'); [|lia|done].
      rewrite lookup_drop.
      replace (Z.to_nat c + Z.to_nat (b - c))%nat with (Z.to_nat b) by lia.
      done.
  - apply list_find_None in Hfind. intros b Hb. unfold SSSP.entries.
    destruct (lookupZ bins b) as [bin'|] eqn:Hb'; [|done]. simpl.
    apply lookupZ_Some in Hb' as [_ Hb'].
    destruct (decide (bin' = [])) as [|Hne']; [done|].
    exfalso. eapply Forall_lookup_1 in Hfind; [by apply Hfind|].
    rewrite lookup_drop.
    replace (Z.to_nat c + Z.to_nat (b - c))%nat with (Z.to_nat b) by lia.
    done.
Qed.

(** A put of [src] into the frontier fits exactly when the frontier
    has room for it. *)
Lemma put_loop (src : list SSSP.NodeID) : ∀ (f : list SSSP.NodeID) k,
  0 ≤ k ≤ Z.of_nat (length f) →
  foldM (λ f '(i, x), storeZ f (0 + i) x) f
    (zip (seqZ k (Z.of_nat (length src))) src)
  = if decide (k + Z.of_nat (length src) ≤ Z.of_nat (length f))
    then Some (take (Z.to_nat k) f ++ src
               ++ drop (Z.to_nat k + length src) f)
    else None.
Proof.
  induction src as [|x src IH]; intros f k Hk.
  - simpl. rewrite decide_True by lia.
    rewrite Nat.add_0_r, take_drop. done.
  - rewrite seqZ_cons by (simpl; lia). cbn [zip zip_with foldM].
    rewrite Z.add_0_l.
    replace (Z.pred (Z.of_nat (length (x :: src))))
      with (Z.of_nat (length src)) by (simpl; lia).
    destruct (decide (k < Z.of_nat (length f))) as [Hlt|Hge].
    + rewrite storeZ_Some by lia. simpl.
      rewrite IH by (rewrite length_insert; lia).
      rewrite length_insert.
      case_decide as Hfit.
      * rewrite decide_True by (simpl; lia). f_equal.
        replace (Z.to_nat (Z.succ k)) with (S (Z.to_nat k)) by lia.
        rewrite (take_S_r _ _ x) by (apply list_lookup_insert_eq; lia).
        rewrite take_insert_ge by lia.
        rewrite drop_insert_lt by lia.
        rewrite <- app_assoc. cbn [app].
        replace (S (Z.to_nat k) + length src)%nat
          with (Z.to_nat k + S (length src))%nat by lia.
        done.
      * rewrite decide_False by (simpl; lia). done.
    + unfold storeZ. rewrite decide_False by lia. simpl.
      rewrite decide_False by (simpl; lia). done.
Qed.

Lemma shmem_putmem_single d f tails m it (src : list SSSP.NodeID) :
  SSSP.shmem_putmem (SSSP.mkWorld [d] [f] [tails] [m] [it]) 0 src 0
  = if decide (Z.of_nat (length src) ≤ Z.of_nat (length f))
    then Some (SSSP.mkWorld [d] [src ++ drop (length src) f] [tails] [m] [it])
    else None.
Proof.
  unfold SSSP.shmem_putmem. simpl.
  rewrite (put_loop src f 0) by lia. simpl. rewrite Z.add_0_l.
  case_decide; done.
Qed.

Lemma bins_length_bound g delta c d bins :
  0 < delta → SSSP.bins_ok g delta c d bins →
  Z.of_nat (length bins) ≤ SSSP.kDistInf.
Proof.
  intros Hdelta (_ & Hidx & _).
  destruct (decide (Z.of_nat (length bins) ≤ SSSP.kDistInf)) as [|Hgt]; [done|].
  specialize (Hidx SSSP.kDistInf). rewrite kDistInf_eq in *.
  assert (delta * 1073741823 < 1073741823) by (apply Hidx; lia). nia.
Qed.

Lemma shmem_size_put_single d f tails m it k x :
  lookupZ tails k = Some x →
  SSSP.shmem_size_put (SSSP.mkWorld [d] [f] [tails] [m] [it]) k 0 0
  = Some (SSSP.mkWorld [d] [f] [tails] [m] [it]).
Proof.
  intros Hx. unfold SSSP.shmem_size_put. simpl. rewrite Hx. simpl.
  pose proof (lookupZ_lt _ _ _ Hx).
  rewrite storeZ_Some by done. simpl.
  apply lookupZ_Some in Hx as [_ Hx]. rewrite list_insert_id by done. done.
Qed.

Lemma shmem_int_atomic_inc_single d f tails m it :
  SSSP.shmem_int_atomic_inc (SSSP.mkWorld [d] [f] [tails] [m] [it]) 0
  = Some (SSSP.mkWorld [d] [f] [tails] [m] [CInt.wrap (it + 1)]).
Proof. reflexivity. Qed.

Lemma shmem_ulong_atomic_fetch_add_single d f tails m it k old value :
  lookupZ tails k = Some old →
  SSSP.shmem_ulong_atomic_fetch_add (SSSP.mkWorld [d] [f] [tails] [m] [it])
    k value 0
  = Some (old, SSSP.mkWorld [d] [f]
                 [<[Z.to_nat k := CInt.to_size_t (old + value)]> tails]
                 [m] [it]).
Proof.
  intros Hx. unfold SSSP.shmem_ulong_atomic_fetch_add. simpl.
  rewrite Hx. simpl. pose proof (lookupZ_lt _ _ _ Hx).
  rewrite storeZ_Some by done. simpl. done.
Qed.

Lemma distribute_single (bin : list SSSP.NodeID) w :
  bin ≠ [] → Z.of_nat (length bin) < 2 ^ 63 →
  SSSP.distribute (SSSP.single (Z.of_nat (length bin))) bin 0 0 w
  = SSSP.shmem_putmem w 0 bin 0.
Proof.
  intros Hne Hsize. unfold SSSP.distribute. simpl.
  rewrite Z.sub_0_r. rewrite to_size_t_small by lia.
  rewrite decide_False by lia.
  rewrite Nat2Z.id. change (Z.to_nat 0) with 0%nat.
  rewrite drop_0, firstn_all.
  destruct (SSSP.shmem_putmem w 0 bin 0); done.
Qed.

Section Phases.

Local Arguments SSSP.first_nonempty : simpl never.
Local Arguments SSSP.bin_at : simpl never.
Local Arguments SSSP.distribute : simpl never.
Local Arguments SSSP.OldePartition : simpl never.
Local Arguments Z.land : simpl never.
Local Arguments CInt.wrap : simpl never.
Local Arguments lookupZ : simpl never.
Local Arguments storeZ : simpl never.

Variables (d : list Z) (f : list SSSP.NodeID) (tails : list Z) (m it : Z)
  (idx : list Z) (bins : list (list SSSP.NodeID)) (k k' : Z).
Hypothesis Hk : k = 0 ∨ k = 1.
Hypothesis Hk' : k' = 1 - k.
Hypothesis Hlidx : length idx = 2%nat.
Hypothesis Hltails : length tails = 2%nat.
Hypothesis Hbins : Z.of_nat (length bins) ≤ SSSP.kDistInf.

(** The vote of a rank that is alone: [next_bin_index] becomes the
    first bin from the current one on that is not empty, or stays
    [kMaxBin]. *)
Lemma vote_single c :
  0 ≤ c → lookupZ idx k' = Some SSSP.kMaxBin →
  SSSP.vote 0 c k' (SSSP.alone d f tails m it idx bins)
  = SSSP.Done
      (SSSP.alone d f tails
         (default SSSP.kMaxBin (SSSP.first_nonempty bins c)) it
         (<[Z.to_nat k' := default SSSP.kMaxBin (SSSP.first_nonempty bins c)]>
            idx)
         bins).
Proof using All.
  intros Hc Hmax. unfold SSSP.vote. simpl. rewrite Hmax. simpl.
  assert (Hmin : match SSSP.first_nonempty bins c with
                 | Some i => Z.min SSSP.kMaxBin i
                 | None => SSSP.kMaxBin
                 end = default SSSP.kMaxBin (SSSP.first_nonempty bins c)).
  { pose proof (first_nonempty_spec bins c Hc) as Hspec.
    destruct (SSSP.first_nonempty bins c) as [i|]; [|done]. simpl.
    rewrite kMaxBin_eq, kDistInf_eq in *. lia. }
  rewrite Hmin. rewrite storeZ_Some by lia. simpl. reflexivity.
Qed.

(** The second phase when no bin is left: only the cells change. *)
Lemma redistribute_last :
  lookupZ idx k' = Some SSSP.kMaxBin → lookupZ tails k' = Some 0 →
  SSSP.redistribute 0 1 k k' (SSSP.alone d f tails m it idx bins)
  = SSSP.Done
      (SSSP.alone d f (<[Z.to_nat k := 0]> tails) m (CInt.wrap (it + 1))
         (<[Z.to_nat k := SSSP.kMaxBin]> idx) bins).
Proof using All.
  intros Hmax Htail. unfold SSSP.redistribute. simpl. rewrite Hmax. simpl.
  rewrite (storeZ_Some idx) by lia. simpl.
  rewrite (storeZ_Some tails) by lia. simpl.
  assert (SSSP.bin_at bins SSSP.kMaxBin = None) as ->.
  { unfold SSSP.bin_at. rewrite decide_False; [done|].
    rewrite to_size_t_small by (rewrite kMaxBin_eq; lia).
    rewrite kMaxBin_eq, kDistInf_eq in *. lia. }
  simpl.
  change (Z.of_nat 0 + 0) with 0. unfold SSSP.with_tails. simpl.
  rewrite (shmem_size_put_single _ _ _ _ _ _ 0); last first.
  { erewrite lookupZ_storeZ_ne; [done|by apply storeZ_Some; lia|lia]. }
  simpl. erewrite lookupZ_storeZ_ne; [|by apply storeZ_Some; lia|lia].
  rewrite Htail. simpl. reflexivity.
Qed.

(** The second phase when bin [nb] is next: the bin moves to the start
    of the frontier if the frontier has room for it, and the put leaves
    the frontier otherwise. *)
Lemma redistribute_bin nb bin :
  lookupZ idx k' = Some nb → lookupZ tails k' = Some 0 →
  lookupZ bins nb = Some bin → bin ≠ [] →
  Z.of_nat (length bin) < 2 ^ 63 →
  SSSP.redistribute 0 1 k k' (SSSP.alone d f tails m it idx bins)
  = if decide (Z.of_nat (length bin) ≤ Z.of_nat (length f))
    then SSSP.Done
           (SSSP.alone d (bin ++ drop (length bin) f)
              (<[Z.to_nat k' := Z.of_nat (length bin)]>
                 (<[Z.to_nat k := 0]> tails))
              m (CInt.wrap (it + 1))
              (<[Z.to_nat k := SSSP.kMaxBin]> idx)
              (<[Z.to_nat nb := []]> bins))
    else SSSP.Fault SSSP.Frontier_write.
Proof using All.
  intros Hnb Htail Hbin Hne Hsize. unfold SSSP.redistribute. simpl.
  rewrite Hnb. simpl.
  pose proof (lookupZ_lt _ _ _ Hbin) as Hrange.
  pose proof Hbins as Hbound. rewrite kDistInf_eq in Hbound.
  rewrite (storeZ_Some idx) by lia. simpl.
  rewrite (storeZ_Some tails) by lia. simpl.
  assert (SSSP.bin_at bins nb = Some bin) as ->.
  { unfold SSSP.bin_at. rewrite to_size_t_small by lia.
    rewrite decide_True by lia. done. }
  simpl.
  unfold SSSP.with_tails. simpl.
  assert (Htail1 : lookupZ (<[Z.to_nat k := 0]> tails) k' = Some 0).
  { erewrite lookupZ_storeZ_ne; [done|by apply storeZ_Some; lia|lia]. }
  rewrite (shmem_ulong_atomic_fetch_add_single _ _ _ _ _ _ 0) by done.
  rewrite (Z.add_0_l (Z.of_nat (length bin))).
  rewrite (to_size_t_small (Z.of_nat (length bin))) by lia.
  set (tails2 := <[Z.to_nat k' := Z.of_nat (length bin)]>
                   (<[Z.to_nat k := 0]> tails)).
  assert (Htail2 : lookupZ tails2 k' = Some (Z.of_nat (length bin))).
  { eapply lookupZ_storeZ_eq. apply storeZ_Some.
    rewrite length_insert. lia. }
  simpl. change (Z.of_nat 0 + 0) with 0.
  rewrite (shmem_size_put_single _ _ _ _ _ _ (Z.of_nat (length bin))) by done.
  simpl. rewrite Htail2. simpl.
  rewrite Z.quot_1_r, Z.sub_0_r.
  fold (SSSP.single (Z.of_nat (length bin))).
  change (0 * Z.of_nat (length bin)) with 0.
  fold (SSSP.single (Z.of_nat (length bin))).
  assert (Hpos : 0 ≤ 0 < Z.of_nat (length bin))
    by (destruct bin; [done|simpl; lia]).
  destruct (single_pos _ _ Hpos) as [-> ->]. simpl.
  rewrite distribute_single by done.
  rewrite shmem_putmem_single.
  case_decide as Hfit; [|done]. simpl.
  rewrite (storeZ_Some bins) by lia. simpl. reflexivity.
Qed.

End Phases.

Section DeltaLoop.

Variables (g : SSSP.WGraph) (source : SSSP.NodeID) (delta : Z).
Hypothesis Hwf : SSSP.well_formed g.
Hypothesis Hdelta : 0 < delta.
Hypothesis Hnodes : Graph.num_nodes g ≤ CInt.int_max.

(** One iteration of the outer loop from its invariant: the invariant
    holds again, for a smaller potential, or the loop is about to end
    with the edges of every reached vertex relaxed, or the put of the
    second phase has left the frontier. *)
Lemma iteration_single fuel d f tails m it idx bins c tail :
  SSSP.head_inv g source delta d f tails it idx bins c tail →
  SSSP.potential d bins < Z.of_nat fuel →
  match SSSP.iteration fuel g delta (SSSP.single (Graph.num_nodes g)) 0 it
          (SSSP.alone d f tails m it idx bins) with
  | SSSP.Done r' =>
      ∃ d' f' tails' m' idx' bins',
        r' = SSSP.alone d' f' tails' m' (CInt.wrap (it + 1)) idx' bins'
        ∧ ((∃ c' tail',
              SSSP.head_inv g source delta d' f' tails' (CInt.wrap (it + 1))
                idx' bins' c' tail'
              ∧ SSSP.potential d' bins' < SSSP.potential d bins)
           ∨ (lookupZ idx' (Z.land (CInt.wrap (it + 1)) 1) = Some SSSP.kMaxBin
              ∧ SSSP.dist_ok g source d' ∧ SSSP.relaxed g d'))
  | SSSP.Fault what => what = SSSP.Frontier_write
  | SSSP.OutOfFuel => False
  end.
Proof using Hwf Hdelta Hnodes.
  intros Hhead Hfuel.
  destruct Hhead as (Hlidx & Hltails & Hic & Himax & Htk & Htk' & Hc & Hcinf
                     & Htail & Hflen & Hd & Hb & Hpend & Hvalid & Hempty & Hpot).
  assert (Hk : Z.land it 1 = 0 ∨ Z.land it 1 = 1) by apply land_1_cases.
  unfold SSSP.iteration. rewrite land_1_succ.
  set (k := Z.land it 1) in *. set (k' := 1 - k) in *.
  change (SSSP.shared_indexes (SSSP.alone d f tails m it idx bins)) with idx.
  change (SSSP.frontier_tails (SSSP.mem (SSSP.alone d f tails m it idx bins)))
    with [tails].
  rewrite Hic, lookupZ_singleton.
  cbn [SSSP.lift mbind SSSP.result_bind]. rewrite Htk.
  cbn [SSSP.lift mbind SSSP.result_bind].
  destruct (potential_nonneg g source d bins Hd) as [Hsum Htot].
  destruct (process_frontier_single g source delta Hwf Hdelta fuel c tail
              d f tails m it idx bins)
    as (d1 & bins1 & Hrun1 & Hd1 & Hb1 & Hpend1 & Hpot1); try done.
  { unfold SSSP.potential in Hfuel. lia. }
  rewrite Hrun1. cbn [SSSP.lift mbind SSSP.result_bind].
  destruct (fuse_single g source delta Hwf Hdelta c f tails m it idx fuel
              d1 bins1)
    as (d2 & bins2 & Hrun2 & Hd2 & Hb2 & Hpend2 & Hpot2); try done.
  { lia. }
  rewrite Hrun2. cbn [SSSP.lift mbind SSSP.result_bind].
  pose proof (bins_length_bound g delta c d2 bins2 Hdelta Hb2) as Hlen2.
  rewrite (vote_single d2 f tails m it idx bins2 k k') by done.
  cbn [SSSP.lift mbind SSSP.result_bind SSSP.single Partition.npes].
  pose proof (first_nonempty_spec bins2 c Hc) as Hvote.
  set (idx1 := <[Z.to_nat k' := default SSSP.kMaxBin
                                  (SSSP.first_nonempty bins2 c)]> idx).
  assert (Hlidx1 : length idx1 = 2%nat)
    by (unfold idx1; by rewrite length_insert).
  assert (Hidx1 : lookupZ idx1 k'
                  = Some (default SSSP.kMaxBin (SSSP.first_nonempty bins2 c))).
  { eapply lookupZ_storeZ_eq. apply storeZ_Some. lia. }
  destruct (potential_nonneg g source d2 bins2 Hd2) as [Hsum2 Htot2].
  assert (Hpotbound : SSSP.potential d2 bins2 < 2 ^ 63).
  { rewrite kDistInf_eq in *. unfold CInt.int_max in *. nia. }
  destruct (SSSP.first_nonempty bins2 c) as [i|] eqn:Hfirst; simpl in Hidx1.
  - (* bin [i] is next *)
    destruct Hvote as (Hi & Hne & Hbelow).
    destruct (lookupZ_is_Some bins2 i) as [bin Hbin]; [lia|].
    assert (Hentries : SSSP.entries bins2 i = bin)
      by (unfold SSSP.entries; by rewrite Hbin).
    rewrite Hentries in Hne.
    pose proof (entries_length_total bins2 i) as Hsize.
    rewrite Hentries in Hsize.
    rewrite (redistribute_bin d2 f tails _ it idx1 bins2 k k' Hk eq_refl
               Hlidx1 Hltails Hlen2 i bin); try done; last first.
    { unfold SSSP.potential in Hpotbound. lia. }
    case_decide as Hfit; [|done].
    set (bins3 := <[Z.to_nat i := []]> bins2).
    assert (Hst : storeZ bins2 i [] = Some bins3) by (apply storeZ_Some; lia).
    assert (Hlenbin : 1 ≤ Z.of_nat (length bin))
      by (destruct bin; [done|simpl; lia]).
    pose proof Hb2 as (Hvalid2 & Hidxb2 & Hcur2).
    eexists _, _, _, _, _, _. split; [reflexivity|]. left.
    exists i, (Z.of_nat (length bin)).
    assert (Hpot3 : SSSP.potential d2 bins3
                    = SSSP.potential d2 bins2 - Z.of_nat (length bin)).
    { unfold SSSP.potential. rewrite (total_clear _ _ _ Hst), Hentries. lia. }
    split; [|lia].
    unfold SSSP.head_inv. rewrite land_1_succ. fold k. fold k'.
    replace (1 - k') with k by (unfold k'; lia).
    rewrite Nat2Z.id, take_app_length.
    split_and!.
    + by rewrite length_insert.
    + by rewrite !length_insert.
    + erewrite lookupZ_storeZ_ne; [exact Hidx1|by apply storeZ_Some; lia|].
      unfold k'. lia.
    + eapply lookupZ_storeZ_eq. apply storeZ_Some. lia.
    + eapply lookupZ_storeZ_eq. apply storeZ_Some. rewrite length_insert. lia.
    + erewrite lookupZ_storeZ_ne;
        [|by apply storeZ_Some; rewrite length_insert; lia|unfold k'; lia].
      eapply lookupZ_storeZ_eq. apply storeZ_Some. lia.
    + lia.
    + apply Hidxb2. lia.
    + lia.
    + rewrite length_app, length_drop. lia.
    + rewrite length_app, length_drop. lia.
    + done.
    + split_and!.
      * intros b v. rewrite (entries_clear _ _ _ _ Hst). case_decide.
        -- intros Hin. by apply elem_of_nil in Hin.
        -- apply Hvalid2.
      * intros b. unfold bins3. rewrite length_insert. apply Hidxb2.
      * intros v. rewrite (entries_clear _ _ _ _ Hst).
        rewrite decide_True by done. intros Hin. by apply elem_of_nil in Hin.
    + intros x dx Hx Hfin.
      destruct (Hpend2 x dx Hx Hfin) as [Hrel|(Hle & [Hin|Hin])].
      * by left.
      * by apply elem_of_nil in Hin.
      * right.
        assert (c ≤ dx `div` delta) by (apply Z.div_le_lower_bound; lia).
        assert (Hib : i ≤ dx `div` delta).
        { destruct (decide (i ≤ dx `div` delta)) as [|Hlt]; [done|].
          rewrite Hbelow in Hin by lia. by apply elem_of_nil in Hin. }
        split.
        -- pose proof (Z.mul_div_le dx delta Hdelta). nia.
        -- rewrite (entries_clear _ _ _ _ Hst). case_decide as Heq.
           ++ left. rewrite <- Hentries, <- Heq. done.
           ++ by right.
    + apply List.Forall_forall. intros u Hu%list_elem_of_In.
      apply (Hvalid2 i). by rewrite Hentries.
    + rewrite (entries_clear _ _ _ _ Hst). by rewrite decide_True.
    + lia.
  - (* no bin is left *)
    rewrite (redistribute_last d2 f tails _ it idx1 bins2 k k' Hk eq_refl
               Hlidx1 Hltails Hlen2); try done.
    eexists _, _, _, _, _, _. split; [reflexivity|]. right. split_and!.
    + erewrite lookupZ_storeZ_ne; [exact Hidx1|by apply storeZ_Some; lia|].
      unfold k'. lia.
    + done.
    + intros x dx Hx Hfin.
      destruct (Hpend2 x dx Hx Hfin) as [Hrel|(Hle & [Hin|Hin])].
      * done.
      * by apply elem_of_nil in Hin.
      * assert (c ≤ dx `div` delta) by (apply Z.div_le_lower_bound; lia).
        rewrite Hvote in Hin by done. by apply elem_of_nil in Hin.
Qed.

(** The outer loop ends, with every reached vertex relaxed or with a
    put that has left the frontier. *)
Lemma DeltaStep_loop_single fuel : ∀ d f tails m it idx bins,
  (∃ c tail, SSSP.head_inv g source delta d f tails it idx bins c tail
             ∧ SSSP.potential d bins + 1 < Z.of_nat fuel)
  ∨ (lookupZ idx (Z.land it 1) = Some SSSP.kMaxBin
     ∧ SSSP.dist_ok g source d ∧ SSSP.relaxed g d ∧ (0 < fuel)%nat) →
  match SSSP.DeltaStep_loop fuel g delta (SSSP.single (Graph.num_nodes g)) 0
          (SSSP.alone d f tails m it idx bins) with
  | SSSP.Done r' =>
      ∃ d', SSSP.dist (SSSP.mem r') = [d']
            ∧ SSSP.dist_ok g source d' ∧ SSSP.relaxed g d'
  | SSSP.Fault what => what = SSSP.Frontier_write
  | SSSP.OutOfFuel => False
  end.
Proof using Hwf Hdelta Hnodes.
  induction fuel as [|fuel IH]; intros d f tails m it idx bins Hstate.
  { destruct Hstate as [(c & tail & Hhead & Hfuel)|(_ & _ & _ & Hfuel)]; [|lia].
    destruct Hhead as (_ & _ & _ & _ & _ & _ & _ & _ & _ & _ & Hd & _).
    destruct (potential_nonneg g source d bins Hd).
    unfold SSSP.potential in Hfuel. lia. }
  cbn [SSSP.DeltaStep_loop].
  change (SSSP.iter (SSSP.mem (SSSP.alone d f tails m it idx bins)))
    with [it].
  change (SSSP.shared_indexes (SSSP.alone d f tails m it idx bins)) with idx.
  rewrite lookupZ_singleton. cbn [SSSP.lift mbind SSSP.result_bind].
  destruct Hstate as [(c & tail & Hhead & Hfuel)|(Hmax & Hd & Hrel & Hfuel)].
  - pose proof Hhead as (_ & _ & Hic & _ & _ & _ & Hc & Hcinf & _ & _ & Hd & _).
    rewrite Hic. cbn [SSSP.lift mbind SSSP.result_bind].
    rewrite decide_True by (rewrite kMaxBin_eq; rewrite kDistInf_eq in Hcinf; nia).
    pose proof (iteration_single fuel d f tails m it idx bins c tail Hhead)
      as Hiter.
    destruct (SSSP.iteration fuel g delta (SSSP.single (Graph.num_nodes g))
                0 it (SSSP.alone d f tails m it idx bins)) as [r'|what|];
      cbn [mbind SSSP.result_bind]; [|apply Hiter; lia|apply Hiter; lia].
    destruct Hiter as (d' & f' & tails' & m' & idx' & bins' & -> & Hnext);
      [lia|].
    apply IH. destruct Hnext as [(c' & tail' & Hhead' & Hless)|(? & ? & ?)].
    + left. exists c', tail'. split; [done|lia].
    + right. split_and!; try done.
      destruct (potential_nonneg g source d bins Hd).
      unfold SSSP.potential in Hfuel. lia.
  - rewrite Hmax. cbn [SSSP.lift mbind SSSP.result_bind].
    rewrite decide_False by (intros Hne; by apply Hne).
    exists d. done.
Qed.

(** The state when the loop is entered, on one rank. *)
Lemma DeltaStep_init_single fresh_frontier m :
  0 ≤ source < Graph.num_nodes g →
  Z.of_nat (length (fresh_frontier 0)) = Graph.num_edges_directed g →
  SSSP.DeltaStep_init g source 1 fresh_frontier [m]
  = if decide (1 ≤ Graph.num_edges_directed g)
    then SSSP.Done
           (SSSP.mkWorld
              [<[Z.to_nat source := 0]>
                 (replicate (Z.to_nat (Graph.num_nodes g)) SSSP.kDistInf)]
              [<[0%nat := source]> (fresh_frontier 0)]
              [[1; 0]] [m] [0])
    else SSSP.Fault SSSP.Frontier_write.
Proof using Hnodes.
  intros Hsource Hfresh. unfold SSSP.DeltaStep_init.
  change (seqZ 0 1) with [0]. cbn [SSSP.mapR].
  rewrite !make_single. cbn [SSSP.lift mbind SSSP.result_bind].
  cbn [SSSP.single Partition.max_width Partition.start Partition.end_].
  rewrite decide_True by lia.
  destruct (single_pos (Graph.num_nodes g) source Hsource) as [Hpos _].
  rewrite Hpos.
  cbn [SSSP.lift mbind SSSP.result_bind].
  rewrite storeZ_Some by (rewrite length_replicate; lia).
  cbn [SSSP.lift mbind SSSP.result_bind].
  assert (Halloc : alloc (fresh_frontier 0) (Graph.num_edges_directed g)
                   = Some (fresh_frontier 0)).
  { unfold alloc. by rewrite decide_True. }
  rewrite Halloc. cbn [SSSP.lift mbind SSSP.result_bind].
  unfold SSSP.NodeID in *.
  rewrite (decide_True (P := 0 = 1 - 1)) by done.
  case_decide as Hedges.
  - rewrite (storeZ_Some (fresh_frontier 0)) by lia. reflexivity.
  - unfold storeZ at 1. rewrite decide_False by lia. reflexivity.
Qed.

(** The invariant holds when the loop is entered: the source, at
    distance 0, is alone in the frontier and every other vertex is at
    [kDistInf]. *)
Lemma initial_head_inv (fresh : list SSSP.NodeID) :
  0 ≤ source < Graph.num_nodes g →
  Z.of_nat (length fresh) = Graph.num_edges_directed g →
  1 ≤ Graph.num_edges_directed g →
  SSSP.head_inv g source delta
    (<[Z.to_nat source := 0]>
       (replicate (Z.to_nat (Graph.num_nodes g)) SSSP.kDistInf))
    (<[0%nat := source]> fresh) [1; 0] 0 [0; SSSP.kMaxBin] [] 0 1
  ∧ SSSP.potential
      (<[Z.to_nat source := 0]>
         (replicate (Z.to_nat (Graph.num_nodes g)) SSSP.kDistInf)) []
    = (Graph.num_nodes g - 1) * SSSP.kDistInf.
Proof using Hdelta.
  intros Hsource Hfresh Hedges.
  set (d0 := <[Z.to_nat source := 0]>
               (replicate (Z.to_nat (Graph.num_nodes g)) SSSP.kDistInf)).
  assert (Hst : storeZ (replicate (Z.to_nat (Graph.num_nodes g)) SSSP.kDistInf)
                  source 0 = Some d0).
  { apply storeZ_Some. rewrite length_replicate. lia. }
  assert (Hsrc : lookupZ d0 source = Some 0) by (by eapply lookupZ_storeZ_eq).
  assert (Hother : ∀ v dv, lookupZ d0 v = Some dv → v ≠ source →
                           dv = SSSP.kDistInf).
  { intros v dv Hv Hne.
    erewrite lookupZ_storeZ_ne in Hv; [|exact Hst|done].
    apply lookupZ_Some in Hv as [_ Hv].
    by apply lookup_replicate in Hv as [-> _]. }
  assert (Hpot : SSSP.potential d0 []
                 = (Graph.num_nodes g - 1) * SSSP.kDistInf).
  { unfold SSSP.potential, d0.
    erewrite sum_insert; last first.
    { apply lookup_replicate. split; [done|lia]. }
    rewrite sum_replicate. unfold SSSP.total. simpl. lia. }
  assert (Hfin : ∀ v dv, lookupZ d0 v = Some dv → dv < SSSP.kDistInf →
                         v = source ∧ dv = 0).
  { intros v dv Hv Hlt. destruct (decide (v = source)) as [->|Hne].
    - split; [done|congruence].
    - specialize (Hother v dv Hv Hne). lia. }
  assert (Hnil : ∀ b, SSSP.entries [] b = []).
  { intros b. unfold SSSP.entries, lookupZ. case_decide; [|done].
    by rewrite lookup_nil. }
  split; [|done]. unfold SSSP.head_inv.
  change (Z.land 0 1) with 0. change (1 - 0) with 1.
  change (Z.to_nat 1) with 1%nat.
  assert (Htake : take 1 (<[0%nat := source]> fresh) = [source]).
  { destruct fresh as [|x fresh]; [simpl in Hfresh; lia|done]. }
  rewrite Htake. rewrite length_insert.
  split_and!; try done; try lia.
  - rewrite Z.mul_0_r, kDistInf_eq. lia.
  - split_and!.
    + unfold d0. rewrite length_insert, length_replicate. lia.
    + unfold d0. apply Forall_insert.
      * apply Forall_replicate. rewrite kDistInf_eq. lia.
      * rewrite kDistInf_eq. lia.
    + done.
    + intros v dv Hv Hlt. destruct (Hfin v dv Hv Hlt) as [-> ->].
      apply SSSP.path_nil.
  - split_and!.
    + intros b v. rewrite Hnil. intros Hin. by apply elem_of_nil in Hin.
    + simpl. lia.
    + intros v. rewrite Hnil. intros Hin. by apply elem_of_nil in Hin.
  - intros v dv Hv Hlt. destruct (Hfin v dv Hv Hlt) as [-> ->]. right.
    split; [lia|]. left. apply list_elem_of_singleton. done.
  - apply Forall_singleton. done.
  - rewrite Hpot. rewrite kDistInf_eq. lia.
Qed.

(** On one rank [Shmem_DeltaStep] ends, whatever the graph, the source
    and [delta > 0]. It returns distances that are 0 at the source,
    relaxed along every edge that leaves a reached vertex, and carried
    by a walk from the source, unless a write has left the frontier
    before. *)
Lemma Shmem_DeltaStep_single fuel fresh_frontier m :
  0 ≤ source < Graph.num_nodes g →
  Z.of_nat (length (fresh_frontier 0)) = Graph.num_edges_directed g →
  (Graph.num_nodes g - 1) * SSSP.kDistInf + 1 < Z.of_nat fuel →
  match SSSP.Shmem_DeltaStep fuel g source delta 0 1 fresh_frontier [m] with
  | SSSP.Done dist =>
      Z.of_nat (length dist) = Graph.num_nodes g
      ∧ SSSP.sssp_output g source dist
  | SSSP.Fault what => what = SSSP.Frontier_write
  | SSSP.OutOfFuel => False
  end.
Proof using Hwf Hdelta Hnodes.
  intros Hsource Hfresh Hfuel. unfold SSSP.Shmem_DeltaStep.
  rewrite DeltaStep_init_single by done.
  case_decide as Hedges; [|done].
  cbn [mbind SSSP.result_bind]. rewrite make_single.
  cbn [SSSP.lift mbind SSSP.result_bind].
  destruct (initial_head_inv (fresh_frontier 0) Hsource Hfresh Hedges)
    as [Hhead Hpot].
  assert (Hpre : SSSP.potential
                   (<[Z.to_nat source := 0]>
                      (replicate (Z.to_nat (Graph.num_nodes g))
                         SSSP.kDistInf)) [] + 1 < Z.of_nat fuel)
    by (rewrite Hpot; lia).
  match goal with
  | |- context [SSSP.DeltaStep_loop fuel g delta _ 0 ?r] =>
      change r with
        (SSSP.alone
           (<[Z.to_nat source := 0]>
              (replicate (Z.to_nat (Graph.num_nodes g)) SSSP.kDistInf))
           (<[0%nat := source]> (fresh_frontier 0)) [1; 0] m 0
           [0; SSSP.kMaxBin] []);
      pose proof (DeltaStep_loop_single fuel _ _ _ m _ _ _
                    (or_introl (ex_intro _ 0 (ex_intro _ 1
                       (conj Hhead Hpre))))) as Hloop;
      destruct (SSSP.DeltaStep_loop fuel g delta
                  (SSSP.single (Graph.num_nodes g)) 0
                  (SSSP.alone
                     (<[Z.to_nat source := 0]>
                        (replicate (Z.to_nat (Graph.num_nodes g))
                           SSSP.kDistInf))
                     (<[0%nat := source]> (fresh_frontier 0)) [1; 0] m 0
                     [0; SSSP.kMaxBin] [])) as [r'|what|]
  end; cbn [mbind SSSP.result_bind]; [|done|done].
  destruct Hloop as (d' & Hdist & Hd' & Hrel). rewrite Hdist.
  rewrite lookupZ_singleton. cbn [SSSP.lift].
  destruct Hd' as (Hlen & _ & Hsrc & Hwit). done.
Qed.

End DeltaLoop.

(** ** Delta-stepping on the frontier's capacity *)

(** C3. On one rank, the graph [fan] (seven vertices, seven edges,
    positive weights), source 0 and [delta = 10]: the frontier has
    [num_edges_directed = 7] slots. In the first iteration vertex 1 is
    relaxed twice from bin 0, at distance 3 and then at distance 2, and
    each time its four neighbours enter bin 1, which holds eight
    entries when the fusion ends. The redistribution puts these eight
    entries into the frontier and writes past its end, whatever the
    bound on the rounds of the loops; the kernel returns no [dist]. With
    [delta = 1] no bin outgrows the frontier and the distances are
    right, as they are on the path with unit weights. *)
Theorem Shmem_DeltaStep_overruns_frontier :
  SSSP.well_formed Scenario.fan
  ∧ Graph.num_edges_directed Scenario.fan = 7
  ∧ SSSP.frontier ∘ SSSP.mem <$> Scenario.fan_start
    = SSSP.Done [[0; 0; 0; 0; 0; 0; 0]]
  ∧ SSSP.local_bins <$> Scenario.fan_phase1
    = SSSP.Done [[]; [3; 4; 5; 6; 3; 4; 5; 6]]
  ∧ SSSP.dist ∘ SSSP.mem <$> Scenario.fan_phase1
    = SSSP.Done [[0; 2; 1; 12; 12; 12; 12]]
  ∧ (∀ fuel, SSSP.Shmem_DeltaStep (4 + fuel) Scenario.fan 0 10 0 1
               (λ _, replicate 7 0) [0]
             = SSSP.Fault SSSP.Frontier_write)
  ∧ (∀ fuel dist, SSSP.Shmem_DeltaStep fuel Scenario.fan 0 10 0 1
                    (λ _, replicate 7 0) [0]
                  ≠ SSSP.Done dist)
  ∧ SSSP.Shmem_DeltaStep 9 Scenario.fan 0 1 0 1 (λ _, replicate 7 0) [0]
    = SSSP.Done [0; 2; 1; 12; 12; 12; 12]
  ∧ SSSP.Shmem_DeltaStep 8 Scenario.unit_path6 0 1 0 1
      (λ _, replicate 10 0) [0]
    = SSSP.Done [0; 1; 2; 3; 4; 5].
Proof.
  split_and!.
  - apply (bool_decide_unpack _). vm_compute. exact I.
  - reflexivity.
  - vm_compute. reflexivity.
  - vm_compute. reflexivity.
  - vm_compute. reflexivity.
  - intros fuel. vm_compute. reflexivity.
  - intros fuel dist.
    do 4 (destruct fuel as [|fuel]; [vm_compute; discriminate|]).
    vm_compute. discriminate.
  - vm_compute. reflexivity.
  - vm_compute. reflexivity.
Qed.

(* ================================================================== *)
(** * The rest of the builder (builder.h) *)
(* ================================================================== *)

(** ** Prefix sums of the builder *)

(** X1. [ParallelPrefixSum] returns, for every vector of degrees, the
    vector that the serial [PrefixSum] returns: one entry more than
    there are degrees, entry [k] being the sum of the first [k]
    degrees, so that the last entry is the sum of all of them. *)
Theorem ParallelPrefixSum_offsets degrees :
  Builder.ParallelPrefixSum degrees = Builder.PrefixSum degrees
  ∧ length (Builder.ParallelPrefixSum degrees) = S (length degrees)
  ∧ ∀ k : nat, (k ≤ length degrees)%nat →
      Builder.ParallelPrefixSum degrees !! k
      = Some (Builder.total (take k degrees)).
Proof.
  rewrite ParallelPrefixSum_PrefixSum. split; [done|].
  split; [apply length_PrefixSum|]. intros k Hk. by apply lookup_PrefixSum.
Qed.

(** ** What squishing keeps *)

Section SquishKeeps.

Context {DestID : Type} (le : relation DestID).
Context `{!∀ x y, Decision (le x y)} `{!EqDecision DestID}.
Context `{!PartialOrder le} `{!Total le}.
Context (node : DestID → Z).

Implicit Types (x y d : DestID) (l range : list DestID).

Lemma unique_from_strict x l :
  StronglySorted (strict le) (x :: l) → Builder.unique_from x l = x :: l.
Proof.
  revert x. induction l as [|y l IH]; intros x Hs; simpl; [done|].
  apply StronglySorted_cons in Hs as [Hx Hs].
  rewrite decide_False.
  - by rewrite IH.
  - intros ->. apply Forall_cons in Hx as [[_ Hirr] _]. by apply Hirr.
Qed.

Lemma std_unique_strict l :
  StronglySorted (strict le) l → Builder.std_unique l = l.
Proof. destruct l as [|x l]; [done|]. apply unique_from_strict. Qed.

Lemma strict_sorted_le l :
  StronglySorted (strict le) l → StronglySorted le l.
Proof.
  induction 1 as [|x l Hs IH Hx]; constructor; [done|].
  eapply Forall_impl; [exact Hx|]. by intros y [? _].
Qed.

Lemma std_sort_sorted l : StronglySorted le l → Builder.std_sort le l = l.
Proof.
  intros Hs. unfold Builder.std_sort.
  apply (StronglySorted_unique le); [|done|apply merge_sort_Permutation].
  apply StronglySorted_merge_sort; apply _.
Qed.

Lemma std_remove_none n l :
  (∀ d, d ∈ l → node d ≠ n) → Builder.std_remove node n l = l.
Proof.
  intros Hall. unfold Builder.std_remove.
  induction l as [|x l IH]; [done|].
  rewrite filter_cons, decide_True by (apply Hall; left).
  f_equal. apply IH. intros d Hd. apply Hall. by right.
Qed.

Lemma squished_fixed n l :
  StronglySorted (strict le) l → (∀ d, d ∈ l → node d ≠ n) →
  Builder.std_remove node n (Builder.std_unique (Builder.std_sort le l)) = l.
Proof.
  intros Hs Hn. rewrite std_sort_sorted by by apply strict_sorted_le.
  rewrite std_unique_strict by done. by apply std_remove_none.
Qed.

(** X2. The body of the first loop of [SquishCSR] (sort, unique,
    remove) loses no neighbour and invents none: the range keeps its
    length, and its first [diff] elements are exactly the neighbours of
    the range other than the vertex itself. Squishing what was kept
    changes nothing. *)
Theorem squish_range_keeps n range :
  let range' := (Builder.squish_range le node n range).1 in
  let diff := (Builder.squish_range le node n range).2 in
  let kept := take (Z.to_nat diff) range' in
  length range' = length range
  ∧ 0 ≤ diff ≤ Z.of_nat (length range)
  ∧ (∀ d, d ∈ kept ↔ d ∈ range ∧ node d ≠ n)
  ∧ Builder.squish_range le node n kept = (kept, diff).
Proof.
  intros range' diff kept.
  destruct (squish_range_front le node n range) as [_ Hfront].
  destruct (squished_sorted le node n range) as [Hsorted Hself].
  simpl in Hfront, Hsorted, Hself.
  set (k := Builder.std_remove node n
              (Builder.std_unique (Builder.std_sort le range))) in *.
  assert (Hdiff : diff = Z.of_nat (length k)) by done.
  assert (Hkept : kept = k).
  { unfold kept. rewrite Hdiff, Nat2Z.id. exact Hfront. }
  assert (Hlen : length range' = length range)
    by apply squish_range_length.
  split; [done|]. split.
  { rewrite Hdiff. split; [lia|].
    rewrite <- Hlen, <- Hkept. unfold kept. rewrite length_take. lia. }
  rewrite Hkept. split.
  - intros d. split.
    + intros Hd. split; [|by apply Hself].
      unfold k, Builder.std_remove in Hd.
      apply list_elem_of_filter in Hd as [_ Hd].
      assert (Hs : d ∈ Builder.std_sort le range).
      { destruct (Builder.std_sort le range) as [|y l]; [done|].
        by apply unique_from_elem in Hd. }
      unfold Builder.std_sort in Hs. by rewrite merge_sort_Permutation in Hs.
    + intros [Hd Hne]. unfold k, Builder.std_remove.
      apply list_elem_of_filter. split; [done|].
      assert (Hs : d ∈ Builder.std_sort le range).
      { unfold Builder.std_sort. by rewrite merge_sort_Permutation. }
      destruct (Builder.std_sort le range) as [|y l]; [done|].
      simpl. clear -Hs. revert y Hs.
      induction l as [|z l IH]; intros y Hs; simpl; [done|].
      case_decide as Hyz.
      * subst z. apply IH. apply elem_of_cons in Hs as [->|Hs]; [left|done].
      * apply elem_of_cons in Hs as [->|Hs]; [left|right; by apply IH].
  - unfold Builder.squish_range.
    rewrite (squished_fixed n k Hsorted Hself).
    rewrite std_sort_sorted by by apply strict_sorted_le.
    rewrite std_unique_strict by done.
    unfold Builder.in_place. rewrite drop_all, app_nil_r, drop_all, app_nil_r.
    by rewrite Hdiff.
Qed.

End SquishKeeps.

Lemma squish_range_keeps_witness :
  Builder.squish_range Z.le id 2 [2; 1; 0; 0] = ([0; 1; 2; 2], 2)
  ∧ Builder.squish_range Z.le id 2 [0; 1] = ([0; 1], 2).
Proof.
  pose proof (squish_range_keeps Z.le id 2 [2; 1; 0; 0]) as H.
  split; [reflexivity|]. apply H.
Defined.

(** ** The largest vertex id of the edge list *)

Section MaxNodeID.

Context {DestID : Type} (node : DestID → Z).

Implicit Types (el : list (Z * DestID)) (els : list (list (Z * DestID))).

Lemma foldl_max_spec (xs : list Z) x :
  x ≤ foldl Z.max x xs
  ∧ (∀ y, y ∈ xs → y ≤ foldl Z.max x xs)
  ∧ (foldl Z.max x xs = x ∨ foldl Z.max x xs ∈ xs).
Proof.
  revert x. induction xs as [|y xs IH]; intros x; simpl.
  - split; [lia|]. split; [by intros ? ?%elem_of_nil|by left].
  - destruct (IH (Z.max x y)) as (H1 & H2 & H3).
    split; [lia|]. split.
    + intros z [->|Hz]%elem_of_cons; [lia|by apply H2].
    + destruct H3 as [H3|H3]; [|right; by right].
      rewrite H3. destruct (Z.max_spec x y) as [[_ ->]|[_ ->]];
        [right; left|by left].
Qed.

Lemma local_max_seen_spec el m :
  Builder.local_max_seen node el = m →
  0 ≤ m
  ∧ (∀ e, e ∈ el → e.1 ≤ m ∧ node e.2 ≤ m)
  ∧ (m = 0 ∨ ∃ e, e ∈ el ∧ (m = e.1 ∨ m = node e.2)).
Proof.
  intros <-. unfold Builder.local_max_seen.
  cut (∀ a, let m := foldl (λ max_seen (e : Z * DestID),
                              Z.max (Z.max max_seen e.1) (node e.2)) a el in
            a ≤ m
            ∧ (∀ e, e ∈ el → e.1 ≤ m ∧ node e.2 ≤ m)
            ∧ (m = a ∨ ∃ e, e ∈ el ∧ (m = e.1 ∨ m = node e.2))).
  { intros H. apply (H 0). }
  induction el as [|e el IH]; intros a; simpl.
  - split; [lia|]. split; [by intros ? ?%elem_of_nil|by left].
  - destruct (IH (Z.max (Z.max a e.1) (node e.2))) as (H1 & H2 & H3).
    split; [lia|]. split.
    + intros e' [->|He]%elem_of_cons; [lia|by apply H2].
    + destruct H3 as [H3|(e' & He' & H3)].
      * rewrite H3.
        destruct (Z.max_spec (Z.max a e.1) (node e.2)) as [[_ ->]|[_ ->]].
        { right. exists e. split; [left|by right]. }
        destruct (Z.max_spec a e.1) as [[_ ->]|[_ ->]]; [|by left].
        right. exists e. split; [left|by left].
      * right. exists e'. split; [by right|done].
Qed.

(** The value that the reduction leaves on every rank. *)
Lemma FindMaxNodeID_spec els :
  els ≠ [] →
  ∃ m, Builder.FindMaxNodeID node els = Some m
       ∧ 0 ≤ m
       ∧ (∀ el e, el ∈ els → e ∈ el → e.1 ≤ m ∧ node e.2 ≤ m)
       ∧ (m = 0 ∨ ∃ el e, el ∈ els ∧ e ∈ el ∧ (m = e.1 ∨ m = node e.2))
       ∧ (Forall (λ el, el = []) els → m = 0).
Proof.
  intros Hne. destruct els as [|el els]; [done|].
  set (x := Builder.local_max_seen node el).
  set (xs := Builder.local_max_seen node <$> els).
  exists (foldl Z.max x xs). split; [done|].
  destruct (foldl_max_spec xs x) as (H1 & H2 & H3).
  destruct (local_max_seen_spec el x eq_refl) as (Hx0 & Hxe & Hxa).
  assert (Hin : ∀ el', el' ∈ els →
            Builder.local_max_seen node el' ≤ foldl Z.max x xs).
  { intros el' Hel. apply H2. unfold xs. by apply list_elem_of_fmap_2. }
  split; [lia|]. split.
  { intros el' e [->|Hel]%elem_of_cons He.
    - destruct (Hxe e He). lia.
    - destruct (local_max_seen_spec el' _ eq_refl) as (_ & He' & _).
      destruct (He' e He). specialize (Hin el' Hel). lia. }
  split.
  { destruct H3 as [->|H3].
    - destruct Hxa as [?|(e & He & Hm)]; [by left|].
      right. exists el, e. split; [left|done].
    - unfold xs in H3. apply list_elem_of_fmap in H3 as (el' & Hm & Hel).
      destruct (local_max_seen_spec el' _ (eq_sym Hm)) as (_ & _ & Ha).
      destruct Ha as [?|(e & He & Hme)]; [by left|].
      right. exists el', e. split; [by right|done]. }
  intros Hall. apply Forall_cons in Hall as [Hel0 Hall].
  destruct H3 as [H3|H3]; [rewrite H3; unfold x; by rewrite Hel0|].
  unfold xs in H3. apply list_elem_of_fmap in H3 as (el' & Hm & Hel).
  rewrite Forall_forall in Hall. fold xs in Hm. rewrite Hm.
  by rewrite (Hall _ Hel).
Qed.

(** X3. [FindMaxNodeID] returns, on every rank, a bound on the ids of
    the whole edge list: no source and no destination of an edge of any
    rank exceeds it. The bound starts at 0: it is never negative, and
    when it is positive it is the id of an endpoint of some edge, hence
    the largest id. On an edge list without edges it is 0. *)
Theorem FindMaxNodeID_largest els :
  els ≠ [] →
  ∃ m, Builder.FindMaxNodeID node els = Some m
       ∧ 0 ≤ m
       ∧ (∀ el e, el ∈ els → e ∈ el → e.1 ≤ m ∧ node e.2 ≤ m)
       ∧ (m = 0 ∨ ∃ el e, el ∈ els ∧ e ∈ el ∧ (m = e.1 ∨ m = node e.2))
       ∧ (Forall (λ el, el = []) els → m = 0).
Proof. apply FindMaxNodeID_spec. Qed.

End MaxNodeID.

Lemma FindMaxNodeID_largest_witness :
  ∃ m, Builder.FindMaxNodeID id [[(0, 3); (4, 1)]; [(2, 2)]] = Some m
       ∧ 0 ≤ m
       ∧ (∀ el e, el ∈ [[(0, 3); (4, 1)]; [(2, 2)]] → e ∈ el →
            e.1 ≤ m ∧ id e.2 ≤ m)
       ∧ (m = 0 ∨ ∃ el e, el ∈ [[(0, 3); (4, 1)]; [(2, 2)]] ∧ e ∈ el
                          ∧ (m = e.1 ∨ m = id e.2))
       ∧ (Forall (λ el, el = []) [[(0, 3); (4, 1)]; [(2, 2)]] → m = 0).
Proof.
  apply (FindMaxNodeID_largest id [[(0, 3); (4, 1)]; [(2, 2)]]). done.
Defined.
(** ** Symmetric arrays *)

Section Cells.

Context {A : Type}.

Implicit Types (M : list (list A)) (f g : Z → Z → A).

Lemma symmetric_array_store npes len M f pe i v :
  Builder.symmetric_array npes len M f → 0 ≤ pe < npes → 0 ≤ i < len →
  ∃ a a' M',
    lookupZ M pe = Some a ∧ lookupZ a i = Some (f pe i)
    ∧ storeZ a i v = Some a' ∧ storeZ M pe a' = Some M'
    ∧ Builder.symmetric_array npes len M'
        (λ pe' i', if decide (pe' = pe ∧ i' = i) then v else f pe' i').
Proof.
  intros [Hlen Hrows] Hpe Hi.
  destruct (Hrows pe Hpe) as (a & Ha & Hla & Hcells).
  exists a, (<[Z.to_nat i := v]> a), (<[Z.to_nat pe := <[Z.to_nat i := v]> a]> M).
  assert (Hsa : storeZ a i v = Some (<[Z.to_nat i := v]> a))
    by (apply storeZ_Some; lia).
  assert (HsM : storeZ M pe (<[Z.to_nat i := v]> a)
                = Some (<[Z.to_nat pe := <[Z.to_nat i := v]> a]> M))
    by (apply storeZ_Some; lia).
  split; [done|]. split; [by apply Hcells|]. split; [done|]. split; [done|].
  split; [by rewrite length_insert|].
  intros pe' Hpe'. destruct (decide (pe' = pe)) as [->|Hne].
  - exists (<[Z.to_nat i := v]> a).
    split; [by apply (lookupZ_storeZ_eq _ _ _ _ HsM)|].
    split; [by rewrite length_insert|].
    intros i' Hi'. case_decide as Hc.
    + destruct Hc as [_ ->]. by apply (lookupZ_storeZ_eq _ _ _ _ Hsa).
    + rewrite (lookupZ_storeZ_ne _ _ _ _ _ Hsa) by (intros <-; by apply Hc).
      by apply Hcells.
  - destruct (Hrows pe' Hpe') as (b & Hb & Hlb & Hcb).
    exists b. rewrite (lookupZ_storeZ_ne _ _ _ _ _ HsM) by done.
    split; [done|]. split; [done|].
    intros i' Hi'. rewrite decide_False by (by intros [? _]). by apply Hcb.
Qed.

Lemma symmetric_array_ext npes len M f g :
  Builder.symmetric_array npes len M f →
  (∀ pe i, 0 ≤ pe < npes → 0 ≤ i < len → f pe i = g pe i) →
  Builder.symmetric_array npes len M g.
Proof.
  intros [Hlen Hrows] Hfg. split; [done|]. intros pe Hpe.
  destruct (Hrows pe Hpe) as (a & Ha & Hla & Hcells).
  exists a. split; [done|]. split; [done|].
  intros i Hi. rewrite <- Hfg by done. by apply Hcells.
Qed.

Lemma symmetric_array_row npes len M f pe :
  Builder.symmetric_array npes len M f → 0 ≤ pe < npes →
  lookupZ M pe = Some (f pe <$> seqZ 0 len).
Proof.
  intros [Hlen Hrows] Hpe.
  destruct (Hrows pe Hpe) as (a & Ha & Hla & Hcells).
  rewrite Ha. f_equal. apply list_eq. intros k.
  rewrite list_lookup_fmap.
  destruct (decide (Z.of_nat k < len)) as [Hk|Hk].
  - rewrite lookup_seqZ_lt by lia. simpl.
    rewrite <- lookupZ_of_nat. rewrite Hcells by lia. done.
  - rewrite lookup_seqZ_ge by lia. simpl.
    apply lookup_ge_None. lia.
Qed.

Lemma symmetric_array_replicate npes len (v : A) :
  0 ≤ npes → 0 ≤ len →
  Builder.symmetric_array npes len
    (replicate (Z.to_nat npes) (replicate (Z.to_nat len) v)) (λ _ _, v).
Proof.
  intros Hp Hl. split; [rewrite length_replicate; lia|].
  intros pe Hpe. exists (replicate (Z.to_nat len) v).
  split.
  { apply lookupZ_Some. split; [lia|]. apply lookup_replicate. split; [done|lia]. }
  split; [rewrite length_replicate; lia|].
  intros i Hi. apply lookupZ_Some. split; [lia|].
  apply lookup_replicate. split; [done|lia].
Qed.

End Cells.

(** ** Counting degrees and placing edges *)

Section BuildCSR.

Context {DestID : Type} (node : DestID → Z) (zero : DestID).
Context (get_source : Z * DestID → DestID).

Variables (n npes : Z).
Hypothesis Hp : 1 ≤ npes.
Hypothesis Hn : npes ≤ n.

Let pw := n `div` npes.
Let mw := n - (npes - 1) * pw.

Implicit Types (hs done : list (Z * DestID)) (D : list (list Z)).

Lemma width_bounds : 1 ≤ pw ∧ pw * npes ≤ n ∧ pw ≤ mw.
Proof using Hp Hn.
  assert (1 ≤ pw) by (apply Z.div_le_lower_bound; lia).
  assert (pw * npes ≤ n).
  { unfold pw. rewrite Z.mul_comm. apply Z.mul_div_le. lia. }
  unfold mw. split; [done|]. split; [done|]. nia.
Qed.

Lemma owner_range x :
  0 ≤ x < n →
  0 ≤ Builder.owner n npes x < npes
  ∧ 0 ≤ x - Builder.owner n npes x * pw < mw
  ∧ (Builder.owner n npes x < npes - 1 →
     x - Builder.owner n npes x * pw < pw).
Proof using Hp Hn.
  intros Hx. destruct width_bounds as (Hpw & Hnp & Hmw).
  unfold Builder.owner. fold pw.
  assert (0 ≤ x `div` pw) by (apply Z.div_pos; lia).
  pose proof (Z.mul_div_le x pw ltac:(lia)).
  pose proof (Z.mul_succ_div_gt x pw ltac:(lia)).
  unfold mw. split; [lia|].
  destruct (Z.min_spec (x `div` pw) (npes - 1)) as [[Hlt ->]|[Hge ->]];
    (split; [nia|]); intros; nia.
Qed.

Lemma recv_any p vp x :
  0 ≤ p < npes → Partition.make n p npes = Some vp → 0 ≤ x →
  Partition.recv vp x = Some (Builder.owner n npes x)
  ∧ Partition.local_pos vp x = Some (x - Builder.owner n npes x * pw).
Proof using Hp Hn.
  intros Hpe Hvp Hx.
  destruct (partition_make n p npes Hp Hn Hpe)
    as (vp' & Hvp' & Hnp & Hpw1 & Hpw & _).
  assert (vp' = vp) as -> by congruence.
  assert (Hrecv : Partition.recv vp x = Some (Builder.owner n npes x)).
  { unfold Partition.recv, Builder.owner. rewrite Hpw, Hnp.
    rewrite div_Some by (rewrite <- Hpw; lia). simpl.
    rewrite quot_nonneg by (rewrite <- ?Hpw; lia). done. }
  split; [done|]. unfold Partition.local_pos. rewrite Hrecv. simpl.
  by rewrite Hpw.
Qed.

Lemma owner_slice pe vp x :
  0 ≤ pe < npes → Partition.make n pe npes = Some vp →
  Partition.start vp ≤ x < Partition.end_ vp →
  Builder.owner n npes x = pe ∧ Partition.start vp = pe * pw.
Proof using Hp Hn.
  intros Hpe Hvp Hx.
  destruct (partition_local_pos n pe npes vp x Hp Hn Hpe Hvp Hx) as [Hr _].
  destruct (partition_make n pe npes Hp Hn Hpe)
    as (vp' & Hvp' & _ & _ & Hpw & Hstart & Hse & _).
  assert (vp' = vp) as -> by congruence.
  destruct (recv_any pe vp x Hpe Hvp ltac:(lia)) as [Hr' _].
  split; [congruence|]. by rewrite Hstart, Hpw.
Qed.

(** *** The counters *)

Lemma count_at_nonneg hs pe i : 0 ≤ Builder.count_at n npes hs pe i.
Proof. unfold Builder.count_at. case_decide; lia. Qed.

Lemma count_at_le hs pe i :
  Builder.count_at n npes hs pe i ≤ Z.of_nat (length hs).
Proof.
  unfold Builder.count_at. case_decide; [|lia].
  pose proof (length_filter (λ h : Z * DestID,
                h.1 = Builder.vertex_at n npes pe i) hs). lia.
Qed.

Lemma count_at_snoc done x d pe i :
  Builder.count_at n npes (done ++ [(x, d)]) pe i
  = Builder.count_at n npes done pe i
    + (if decide (pe = Builder.owner n npes x
                  ∧ i = x - Builder.owner n npes x * pw) then 1 else 0).
Proof.
  unfold Builder.count_at, Builder.vertex_at. fold pw.
  rewrite filter_app, length_app, filter_cons, filter_nil. simpl.
  destruct (decide (Builder.owner n npes (pe * pw + i) = pe)) as [Ho|Ho].
  - destruct (decide (x = pe * pw + i)) as [->|Hx].
    + rewrite decide_True by (rewrite Ho; lia). simpl. lia.
    + rewrite decide_False by (intros [-> ->]; lia). simpl. lia.
  - rewrite decide_False; [lia|]. intros [-> ->]. apply Ho.
    f_equal. lia.
Qed.

Lemma count_at_app done rest pe i :
  Builder.count_at n npes done pe i
  ≤ Builder.count_at n npes (done ++ rest) pe i.
Proof.
  unfold Builder.count_at. case_decide; [|lia].
  rewrite filter_app, length_app. lia.
Qed.

Lemma count_at_nil pe i :
  Builder.count_at n npes ([] : list (Z * DestID)) pe i = 0.
Proof. unfold Builder.count_at. by case_decide. Qed.

Section Flags.

Variables (symmetrize transpose : bool).

Let hit := Builder.hits node get_source symmetrize transpose.

(** The ids of the edge list are vertices of the graph. *)
Let valid (el : list (Z * DestID)) : Prop :=
  Forall (λ e, 0 ≤ e.1 < n ∧ 0 ≤ node e.2 < n) el.

Lemma hits_valid e h :
  0 ≤ e.1 < n ∧ 0 ≤ node e.2 < n → h ∈ hit e → 0 ≤ h.1 < n.
Proof.
  intros [Hu Hv]. unfold hit, Builder.hits.
  intros [Hh|Hh]%elem_of_app.
  - destruct (symmetrize || negb symmetrize && negb transpose);
      [|by apply elem_of_nil in Hh].
    by apply list_elem_of_singleton in Hh as ->.
  - destruct (symmetrize || negb symmetrize && transpose);
      [|by apply elem_of_nil in Hh].
    by apply list_elem_of_singleton in Hh as ->.
Qed.

Lemma length_hits e : (length (hit e) ≤ 2)%nat.
Proof.
  unfold hit, Builder.hits. rewrite length_app.
  destruct (symmetrize || negb symmetrize && negb transpose),
    (symmetrize || negb symmetrize && transpose); simpl; lia.
Qed.

Lemma length_bind_hits el :
  (length (el ≫= hit) ≤ 2 * length el)%nat.
Proof.
  induction el as [|e el IH]; [done|].
  rewrite bind_cons, length_app. pose proof (length_hits e). simpl. lia.
Qed.

Lemma hits_nonempty e : hit e ≠ [].
Proof.
  unfold hit, Builder.hits.
  destruct symmetrize, transpose; done.
Qed.

(** One increment of [CountDegrees]. *)
Lemma inc_step D done x d p vp :
  Builder.symmetric_array npes mw D (Builder.count_at n npes done) →
  0 ≤ p < npes → Partition.make n p npes = Some vp → 0 ≤ x < n →
  Z.of_nat (length done) < CInt.int_max →
  ∃ D',
    (receiver ← Partition.recv vp x;
     local_v ← Partition.local_pos vp x;
     Builder.shmem_int_atomic_inc D local_v receiver) = Some D'
    ∧ Builder.symmetric_array npes mw D'
        (Builder.count_at n npes (done ++ [(x, d)])).
Proof using Hp Hn.
  intros HD Hpe Hvp Hx Hlen.
  destruct (recv_any p vp x Hpe Hvp ltac:(lia)) as [-> ->]. simpl.
  destruct (owner_range x Hx) as (Ho & Hi & _).
  set (pe := Builder.owner n npes x) in *. set (i := x - pe * pw) in *.
  destruct (symmetric_array_store npes mw D _ pe i
              (Builder.count_at n npes done pe i + 1) HD Ho Hi)
    as (a & a' & D' & Ha & Hai & Hsa & HsD & HD').
  exists D'. unfold Builder.shmem_int_atomic_inc.
  rewrite Ha. simpl. rewrite Hai. simpl.
  pose proof (count_at_nonneg done pe i). pose proof (count_at_le done pe i).
  rewrite wrap_small by (unfold CInt.int_min, CInt.int_max in *; lia).
  rewrite Hsa. simpl. split; [done|].
  eapply symmetric_array_ext; [exact HD'|].
  intros pe' i' _ _. simpl. rewrite count_at_snoc. fold pe i.
  case_decide as Hc.
  - destruct Hc as [-> ->]. done.
  - lia.
Qed.

Lemma count_edge_step D done e p vp :
  Builder.symmetric_array npes mw D (Builder.count_at n npes done) →
  0 ≤ p < npes → Partition.make n p npes = Some vp →
  0 ≤ e.1 < n ∧ 0 ≤ node e.2 < n →
  Z.of_nat (length done) + 1 < CInt.int_max →
  ∃ D',
    Builder.count_edge node symmetrize transpose vp D e = Some D'
    ∧ Builder.symmetric_array npes mw D'
        (Builder.count_at n npes (done ++ hit e)).
Proof using Hp Hn.
  intros HD Hpe Hvp [Hu Hv] Hlen.
  unfold Builder.count_edge, hit, Builder.hits.
  destruct (symmetrize || negb symmetrize && negb transpose).
  - destruct (inc_step D done e.1 e.2 p vp HD Hpe Hvp Hu ltac:(lia))
      as (D1 & -> & HD1). simpl.
    destruct (symmetrize || negb symmetrize && transpose).
    + destruct (inc_step D1 (done ++ [(e.1, e.2)]) (node e.2) (get_source e)
                  p vp HD1 Hpe Hvp Hv) as (D2 & -> & HD2).
      { rewrite length_app. simpl. lia. }
      exists D2. split; [done|]. by rewrite <- app_assoc in HD2.
    + exists D1. split; [done|]. exact HD1.
  - simpl. destruct (symmetrize || negb symmetrize && transpose).
    + destruct (inc_step D done (node e.2) (get_source e) p vp HD Hpe Hvp Hv
                  ltac:(lia)) as (D2 & -> & HD2).
      exists D2. split; [done|]. exact HD2.
    + exists D. split; [done|]. simpl. by rewrite app_nil_r.
Qed.

Lemma count_list el D done p vp :
  Builder.symmetric_array npes mw D (Builder.count_at n npes done) →
  0 ≤ p < npes → Partition.make n p npes = Some vp → valid el →
  Z.of_nat (length done) + 2 * Z.of_nat (length el) ≤ CInt.int_max →
  ∃ D',
    foldM (Builder.count_edge node symmetrize transpose vp) D el = Some D'
    ∧ Builder.symmetric_array npes mw D'
        (Builder.count_at n npes (done ++ (el ≫= hit))).
Proof using Hp Hn.
  revert D done. induction el as [|e el IH]; intros D done HD Hpe Hvp Hel Hlen.
  - exists D. split; [done|]. by rewrite app_nil_r.
  - apply Forall_cons in Hel as [He Hel]. simpl in Hlen.
    destruct (count_edge_step D done e p vp HD Hpe Hvp He ltac:(lia))
      as (D1 & HD1run & HD1).
    cbn [foldM]. rewrite HD1run. cbn [mbind option_bind].
    destruct (IH D1 (done ++ hit e) HD1 Hpe Hvp Hel) as (D2 & HD2run & HD2).
    { rewrite length_app. pose proof (length_hits e). lia. }
    exists D2. split; [done|]. rewrite bind_cons. by rewrite app_assoc.
Qed.

Lemma CountDegrees_spec (els : list (list (Z * DestID))) :
  Z.of_nat (length els) = npes → Forall valid els →
  2 * Z.of_nat (length (concat els)) ≤ CInt.int_max →
  ∃ D,
    Builder.CountDegrees node symmetrize transpose n npes els = Some D
    ∧ Builder.symmetric_array npes mw D
        (Builder.count_at n npes (concat els ≫= hit)).
Proof using Hp Hn.
  intros Hlen Hvalid Hbound.
  destruct width_bounds as (Hpw & Hnp & Hmw).
  unfold Builder.CountDegrees.
  destruct (partition_make n 0 npes Hp Hn ltac:(lia))
    as (vp0 & -> & _ & _ & _ & _ & _ & _ & _ & Hmax & _). simpl.
  rewrite Hmax. fold pw. fold mw.
  destruct (foldM_seqZ
    (λ degrees pe,
       vp ← Partition.make n pe npes;
       el ← lookupZ els pe;
       foldM (Builder.count_edge node symmetrize transpose vp) degrees el)
    (λ k D, Builder.symmetric_array npes mw D
              (Builder.count_at n npes
                 (concat (take (Z.to_nat k) els) ≫= hit)))
    0 npes (replicate (Z.to_nat npes) (replicate (Z.to_nat mw) 0)))
    as (D & Hrun & HD).
  - lia.
  - simpl. eapply symmetric_array_ext.
    + apply symmetric_array_replicate; lia.
    + intros pe i _ _. simpl. by rewrite count_at_nil.
  - intros k D [Hk0 Hk] HD.
    destruct (partition_make n k npes Hp Hn ltac:(lia)) as (vp & Hvp & _).
    rewrite Hvp. simpl.
    destruct (lookupZ_is_Some els k ltac:(lia)) as [el Hel].
    rewrite Hel. simpl.
    apply lookupZ_Some in Hel as [_ Hel].
    assert (Hv : valid el).
    { rewrite Forall_forall in Hvalid. apply Hvalid.
      by eapply list_elem_of_lookup_2. }
    assert (Htake : concat (take (Z.to_nat (k + 1)) els)
                    = concat (take (Z.to_nat k) els) ++ el).
    { replace (Z.to_nat (k + 1)) with (S (Z.to_nat k)) by lia.
      by apply concat_take_S. }
    destruct (count_list el D _ k vp HD ltac:(lia) Hvp Hv) as (D' & HD'run & HD').
    { pose proof (length_bind_hits (concat (take (Z.to_nat k) els))).
      pose proof (length_concat_take els (Z.to_nat (k + 1))).
      rewrite Htake, length_app in *. lia. }
    exists D'. split; [done|].
    rewrite Htake, bind_app. done.
  - exists D. split; [done|].
    replace (0 + npes) with npes in HD by lia.
    rewrite firstn_all2 in HD by lia. done.
Qed.


(** *** The offsets *)

Lemma total_fmap_nonneg {X} (f : X → Z) (l : list X) :
  (∀ x, 0 ≤ f x) → 0 ≤ Builder.total (f <$> l).
Proof.
  intros Hf. unfold Builder.total.
  induction l as [|x l IH]; csimpl; [done|]. specialize (Hf x). lia.
Qed.

Lemma total_fmap_add {X} (f g : X → Z) (l : list X) :
  Builder.total ((λ x, f x + g x) <$> l)
  = Builder.total (f <$> l) + Builder.total (g <$> l).
Proof.
  unfold Builder.total. induction l as [|x l IH]; csimpl; [done|]. lia.
Qed.

Lemma total_indicator (P : Prop) `{!Decision P} (l : list Z) j0 :
  NoDup l →
  0 ≤ Builder.total ((λ j, if decide (P ∧ j = j0) then 1 else 0) <$> l) ≤ 1.
Proof.
  unfold Builder.total. induction 1 as [|j l Hj Hl IH]; csimpl; [lia|].
  case_decide as Hc; [|lia].
  destruct Hc as [_ ->].
  enough (foldr Z.add 0
            ((λ j, if decide (P ∧ j = j0) then 1 else 0) <$> l) = 0) by lia.
  clear IH Hl. induction l as [|j l IH]; csimpl; [done|].
  rewrite decide_False.
  - rewrite IH; [done|]. intros Hin. apply Hj. by right.
  - intros [_ ->]. apply Hj. left.
Qed.

Lemma seqZ_one m : seqZ m 1 = [m].
Proof. unfold seqZ. simpl. done. Qed.

Lemma offset_at_nonneg hs pe i : 0 ≤ Builder.offset_at n npes hs pe i.
Proof. apply total_fmap_nonneg. intros j. apply count_at_nonneg. Qed.

Lemma offset_at_S hs pe i :
  0 ≤ i →
  Builder.offset_at n npes hs pe (i + 1)
  = Builder.offset_at n npes hs pe i + Builder.count_at n npes hs pe i.
Proof.
  intros Hi. unfold Builder.offset_at.
  rewrite seqZ_app by lia. rewrite fmap_app, total_app.
  rewrite seqZ_one, Z.add_0_l. f_equal. unfold Builder.total. simpl. lia.
Qed.

Lemma offset_at_mono hs pe i j :
  0 ≤ i ≤ j →
  Builder.offset_at n npes hs pe i ≤ Builder.offset_at n npes hs pe j.
Proof.
  intros Hij. unfold Builder.offset_at.
  replace j with (i + (j - i)) by lia.
  rewrite seqZ_app by lia. rewrite fmap_app, total_app.
  pose proof (total_fmap_nonneg (Builder.count_at n npes hs pe)
                (seqZ (0 + i) (j - i)) (count_at_nonneg hs pe)).
  lia.
Qed.

Lemma offset_at_le hs pe i :
  Builder.offset_at n npes hs pe i ≤ Z.of_nat (length hs).
Proof.
  induction hs as [|[x d] hs IH] using rev_ind.
  - unfold Builder.offset_at.
    enough (Builder.total
              (Builder.count_at n npes ([] : list (Z * DestID)) pe <$> seqZ 0 i)
            = 0) as -> by done.
    unfold Builder.total. induction (seqZ 0 i) as [|j l IHl]; csimpl; [done|].
    rewrite count_at_nil. lia.
  - unfold Builder.offset_at in *.
    rewrite (list_fmap_ext _ (λ j, Builder.count_at n npes hs pe j
               + (if decide (pe = Builder.owner n npes x
                             ∧ j = x - Builder.owner n npes x * pw)
                  then 1 else 0)) (seqZ 0 i))
      by (intros; apply count_at_snoc).
    rewrite total_fmap_add.
    pose proof (total_indicator (pe = Builder.owner n npes x) (seqZ 0 i)
                  (x - Builder.owner n npes x * pw) (NoDup_seqZ _ _)).
    rewrite length_app. simpl. lia.
Qed.

(** Every update of [hs] has its slot below the total of its rank. *)
Lemma slot_bound hs done x d rest pe i :
  hs = done ++ (x, d) :: rest →
  pe = Builder.owner n npes x → i = x - pe * pw → 0 ≤ i →
  Builder.offset_at n npes hs pe i + Builder.count_at n npes done pe i
  < Builder.offset_at n npes hs pe (i + 1).
Proof.
  intros -> -> -> Hi. rewrite offset_at_S by done.
  pose proof (count_at_app (done ++ [(x, d)]) rest
                (Builder.owner n npes x)
                (x - Builder.owner n npes x * pw)) as Hle.
  rewrite <- app_assoc in Hle. simpl in Hle.
  rewrite count_at_snoc in Hle. rewrite decide_True in Hle by done. lia.
Qed.

(** One placement of the last loop of [MakeCSR]. *)
Lemma place_step maxn hs done rest x d p vp C (N : list (list DestID)) :
  Builder.placed n npes maxn hs done C N →
  hs = done ++ (x, d) :: rest →
  0 ≤ p < npes → Partition.make n p npes = Some vp → 0 ≤ x < n →
  Builder.offset_at n npes hs (Builder.owner n npes x)
    (x - Builder.owner n npes x * pw + 1) ≤ maxn →
  Z.of_nat (length hs) < 2 ^ 62 →
  ∃ C' N',
    (receiver ← Partition.recv vp x;
     local_v ← Partition.local_pos vp x;
     '(neighbor, offsets) ←
       Builder.shmem_long_atomic_fetch_inc C local_v receiver;
     neighs ← Builder.shmem_putmem N neighbor d receiver;
     Some (offsets, neighs)) = Some (C', N')
    ∧ Builder.placed n npes maxn hs (done ++ [(x, d)]) C' N'.
Proof using Hp Hn.
  intros (HC & HlenN & Hrows & Hent) Hhs Hpe Hvp Hx Hmax Hlen.
  destruct (recv_any p vp x Hpe Hvp ltac:(lia)) as [-> ->]. simpl.
  destruct (owner_range x Hx) as (Ho & Hi & _).
  set (pe := Builder.owner n npes x) in *. set (i := x - pe * pw) in *.
  fold pw in HC. fold mw in HC.
  set (c := Builder.offset_at n npes hs pe i
            + Builder.count_at n npes done pe i).
  assert (Hc : 0 ≤ c < Builder.offset_at n npes hs pe (i + 1)).
  { split.
    - pose proof (offset_at_nonneg hs pe i).
      pose proof (count_at_nonneg done pe i). unfold c. lia.
    - apply (slot_bound hs done x d rest); [done|done|done|lia]. }
  pose proof (offset_at_le hs pe (i + 1)) as Hle.
  destruct (symmetric_array_store npes (mw + 1) C _ pe i (c + 1) HC Ho
              ltac:(lia))
    as (a & a' & C' & Ha & Hai & Hsa & HsC & HC').
  unfold Builder.shmem_long_atomic_fetch_inc.
  rewrite Ha. simpl. rewrite Hai. simpl. fold c.
  rewrite wrap_long_small by lia. rewrite Hsa. simpl. rewrite HsC. simpl.
  destruct (lookupZ_is_Some N pe ltac:(lia)) as [b Hb].
  pose proof (Hrows pe b Hb) as Hlb.
  unfold Builder.shmem_putmem. rewrite Hb. simpl.
  assert (Hsb : storeZ b c d = Some (<[Z.to_nat c := d]> b))
    by (apply storeZ_Some; lia).
  rewrite Hsb. simpl.
  assert (HsN : storeZ N pe (<[Z.to_nat c := d]> b)
                = Some (<[Z.to_nat pe := <[Z.to_nat c := d]> b]> N))
    by (apply storeZ_Some; lia).
  rewrite HsN. simpl.
  eexists _, _. split; [done|].
  split.
  { fold pw. fold mw. eapply symmetric_array_ext; [exact HC'|].
    intros pe' i' _ _. simpl. rewrite count_at_snoc. fold pe i.
    case_decide as Hd.
    - destruct Hd as [-> ->]. unfold c. lia.
    - lia. }
  split; [by rewrite length_insert|].
  split.
  { intros pe' a0 Ha0. destruct (decide (pe' = pe)) as [->|Hne].
    - rewrite (lookupZ_storeZ_eq _ _ _ _ HsN) in Ha0. injection Ha0 as <-.
      by rewrite length_insert.
    - rewrite (lookupZ_storeZ_ne _ _ _ _ _ HsN) in Ha0 by done.
      by apply (Hrows pe'). }
  intros x' k h Hx' Hk. rewrite filter_app in Hk.
  assert (Hcnt : Builder.count_at n npes done pe i
                 = Z.of_nat (length (filter (λ h : Z * DestID, h.1 = x) done))).
  { unfold Builder.count_at, Builder.vertex_at. fold pw.
    replace (pe * pw + i) with x by (unfold i; lia).
    by rewrite decide_True. }
  destruct (decide (x' = x)) as [->|Hxx].
  - fold pw. fold pe. fold i. exists (<[Z.to_nat c := d]> b).
    split; [by apply (lookupZ_storeZ_eq _ _ _ _ HsN)|].
    rewrite filter_cons, decide_True, filter_nil in Hk by done.
    destruct (decide (k < length (filter (λ h : Z * DestID, h.1 = x) done))%nat)
      as [Hlt|Hge].
    + rewrite lookup_app_l in Hk by done.
      destruct (Hent x k h Hx Hk) as (b' & Hb' & Hh).
      fold pw in Hh. fold pe in Hb', Hh. fold i in Hh.
      assert (b' = b) as -> by congruence.
      rewrite (lookupZ_storeZ_ne _ _ _ _ _ Hsb); [done|]. unfold c. lia.
    + rewrite lookup_app_r in Hk by lia.
      apply list_lookup_singleton_Some in Hk as [Hk0 <-]. simpl.
      replace (Builder.offset_at n npes hs pe i + Z.of_nat k) with c
        by (unfold c; lia).
      by apply (lookupZ_storeZ_eq _ _ _ _ Hsb).
  - rewrite filter_cons, decide_False, filter_nil, app_nil_r in Hk
      by (simpl; congruence).
    destruct (Hent x' k h Hx' Hk) as (b' & Hb' & Hh).
    destruct (owner_range x' Hx') as (Ho' & Hi' & _).
    fold pw in Hh |- *.
    set (pe' := Builder.owner n npes x') in *.
    set (i' := x' - pe' * pw) in *.
    destruct (decide (pe' = pe)) as [Hpp|Hpp].
    + exists (<[Z.to_nat c := d]> b). rewrite Hpp.
      split; [by apply (lookupZ_storeZ_eq _ _ _ _ HsN)|].
      rewrite Hpp in Hb'. assert (b' = b) as -> by congruence.
      rewrite (lookupZ_storeZ_ne _ _ _ _ _ Hsb); [by rewrite <- Hpp|].
      rewrite <- Hpp.
      assert (Hk' : Z.of_nat k < Builder.count_at n npes hs pe' i').
      { apply lookup_lt_Some in Hk.
        unfold Builder.count_at, Builder.vertex_at. fold pw.
        replace (pe' * pw + i') with x' by (unfold i'; lia).
        rewrite decide_True by done.
        rewrite Hhs, filter_app, length_app. lia. }
      assert (i' ≠ i) by (unfold i, i'; rewrite Hpp; lia).
      pose proof (offset_at_S hs pe' i' ltac:(lia)) as HS.
      pose proof (count_at_nonneg done pe i).
      clearbody pe pe' i i'. subst pe'. unfold c.
      destruct (decide (i' < i)).
      * pose proof (offset_at_mono hs pe (i' + 1) i ltac:(lia)). lia.
      * pose proof (offset_at_mono hs pe (i + 1) i' ltac:(lia)). lia.
    + exists b'. split; [|done].
      by rewrite (lookupZ_storeZ_ne _ _ _ _ _ HsN).
Qed.

(** The slots of a vertex lie within the [neighs] array. *)
Let fits (maxn : Z) hs : Prop :=
  ∀ x, 0 ≤ x < n →
    Builder.offset_at n npes hs (Builder.owner n npes x)
      (x - Builder.owner n npes x * pw + 1) ≤ maxn.

Lemma place_edge_step maxn hs done rest e p vp C (N : list (list DestID)) :
  Builder.placed n npes maxn hs done C N →
  hs = done ++ hit e ++ rest →
  0 ≤ p < npes → Partition.make n p npes = Some vp →
  0 ≤ e.1 < n ∧ 0 ≤ node e.2 < n →
  fits maxn hs → Z.of_nat (length hs) < 2 ^ 62 →
  ∃ C' N',
    Builder.place_edge node get_source symmetrize transpose vp (C, N) e
    = Some (C', N')
    ∧ Builder.placed n npes maxn hs (done ++ hit e) C' N'.
Proof using Hp Hn.
  intros HP Hhs Hpe Hvp [Hu Hv] Hfits Hlen.
  unfold Builder.place_edge. unfold hit, Builder.hits in *.
  destruct (symmetrize || negb symmetrize && negb transpose).
  - destruct (place_step maxn hs done
                ((if symmetrize || negb symmetrize && transpose
                  then [(node e.2, get_source e)] else []) ++ rest)
                e.1 e.2 p vp C N HP Hhs Hpe Hvp Hu (Hfits _ Hu) Hlen)
      as (C1 & N1 & Hrun1 & HP1).
    destruct (Partition.recv vp e.1) as [r1|]; [|done].
    destruct (Partition.local_pos vp e.1) as [l1|]; [|done].
    simpl in Hrun1 |- *.
    destruct (Builder.shmem_long_atomic_fetch_inc C l1 r1) as [[c1 C1']|];
      [|done].
    simpl in Hrun1 |- *.
    destruct (Builder.shmem_putmem N c1 e.2 r1) as [N1'|]; [|done].
    simpl in Hrun1 |- *. injection Hrun1 as -> ->.
    destruct (symmetrize || negb symmetrize && transpose).
    + destruct (place_step maxn hs (done ++ [(e.1, e.2)]) rest
                  (node e.2) (get_source e) p vp C1 N1 HP1) as
        (C2 & N2 & Hrun2 & HP2); try done.
      { rewrite Hhs. by rewrite <- !app_assoc. }
      { by apply Hfits. }
      destruct (Partition.recv vp (node e.2)) as [r2|]; [|done].
      destruct (Partition.local_pos vp (node e.2)) as [l2|]; [|done].
      simpl in Hrun2 |- *.
      destruct (Builder.shmem_long_atomic_fetch_inc C1 l2 r2) as [[c2 C2']|];
        [|done].
      simpl in Hrun2 |- *.
      destruct (Builder.shmem_putmem N1 c2 (get_source e) r2) as [N2'|];
        [|done].
      simpl in Hrun2 |- *. injection Hrun2 as -> ->.
      exists C2, N2. split; [done|]. by rewrite <- app_assoc in HP2.
    + exists C1, N1. split; [done|]. exact HP1.
  - simpl. destruct (symmetrize || negb symmetrize && transpose).
    + destruct (place_step maxn hs done rest
                  (node e.2) (get_source e) p vp C N HP Hhs Hpe Hvp Hv
                  (Hfits _ Hv) Hlen) as (C2 & N2 & Hrun2 & HP2).
      destruct (Partition.recv vp (node e.2)) as [r2|]; [|done].
      destruct (Partition.local_pos vp (node e.2)) as [l2|]; [|done].
      simpl in Hrun2 |- *.
      destruct (Builder.shmem_long_atomic_fetch_inc C l2 r2) as [[c2 C2']|];
        [|done].
      simpl in Hrun2 |- *.
      destruct (Builder.shmem_putmem N c2 (get_source e) r2) as [N2'|];
        [|done].
      simpl in Hrun2 |- *. injection Hrun2 as -> ->.
      exists C2, N2. split; [done|]. exact HP2.
    + exists C, N. split; [done|]. simpl. by rewrite app_nil_r.
Qed.

Lemma place_list maxn hs el done rest p vp C (N : list (list DestID)) :
  Builder.placed n npes maxn hs done C N →
  hs = done ++ (el ≫= hit) ++ rest →
  0 ≤ p < npes → Partition.make n p npes = Some vp → valid el →
  fits maxn hs → Z.of_nat (length hs) < 2 ^ 62 →
  ∃ C' N',
    foldM (Builder.place_edge node get_source symmetrize transpose vp)
      (C, N) el = Some (C', N')
    ∧ Builder.placed n npes maxn hs (done ++ (el ≫= hit)) C' N'.
Proof using Hp Hn.
  revert C N done.
  induction el as [|e el IH]; intros C N done HP Hhs Hpe Hvp Hel Hfits Hlen.
  - exists C, N. split; [done|]. by rewrite app_nil_r.
  - apply Forall_cons in Hel as [He Hel].
    rewrite bind_cons in Hhs. rewrite <- app_assoc in Hhs.
    destruct (place_edge_step maxn hs done _ e p vp C N HP Hhs Hpe Hvp He
                Hfits Hlen) as (C1 & N1 & Hrun1 & HP1).
    cbn [foldM]. rewrite Hrun1. cbn [mbind option_bind].
    destruct (IH C1 N1 (done ++ hit e) HP1) as (C2 & N2 & Hrun2 & HP2);
      try done.
    { by rewrite <- app_assoc. }
    exists C2, N2. split; [done|]. rewrite bind_cons. by rewrite app_assoc.
Qed.


(** *** The job *)

Lemma take_seqZ i len :
  0 ≤ i ≤ len → take (Z.to_nat i) (seqZ 0 len) = seqZ 0 i.
Proof.
  intros Hi. replace len with (i + (len - i)) by lia.
  rewrite seqZ_app by lia. rewrite take_app_length'; [done|].
  rewrite length_seqZ. lia.
Qed.

Lemma offsets_array D hs :
  Builder.symmetric_array npes mw D (Builder.count_at n npes hs) →
  Builder.symmetric_array npes (mw + 1) (Builder.ParallelPrefixSum <$> D)
    (Builder.offset_at n npes hs).
Proof using Hp Hn.
  intros HD. destruct width_bounds as (Hpw & Hnp & Hmw).
  pose proof HD as [Hlen Hrows].
  split; [by rewrite length_fmap|]. intros pe Hpe.
  pose proof (symmetric_array_row _ _ _ _ pe HD Hpe) as Hrow.
  set (a := Builder.count_at n npes hs pe <$> seqZ 0 mw) in *.
  exists (Builder.PrefixSum a).
  assert (Hla : Z.of_nat (length a) = mw).
  { unfold a. rewrite length_fmap, length_seqZ. lia. }
  split.
  { apply lookupZ_Some in Hrow as [? Hrow]. apply lookupZ_Some.
    split; [done|]. rewrite list_lookup_fmap, Hrow. simpl.
    by rewrite ParallelPrefixSum_PrefixSum. }
  split; [rewrite length_PrefixSum; lia|].
  intros i Hi. rewrite <- (Z2Nat.id i) at 1 by lia.
  rewrite lookupZ_of_nat, lookup_PrefixSum by lia. f_equal.
  unfold Builder.offset_at, a. rewrite <- fmap_take.
  by rewrite take_seqZ by lia.
Qed.

(** The total of rank [pe]: the entry of its offsets at the width of
    its slice. *)
Let local_max hs (pe : Z) : Z :=
  Builder.offset_at n npes hs pe (if decide (pe < npes - 1) then pw else mw).

Lemma local_maxes_spec offsets hs :
  Builder.symmetric_array npes (mw + 1) offsets (Builder.offset_at n npes hs) →
  mapM (λ pe,
          vp ← Partition.make n pe npes;
          sums ← lookupZ offsets pe;
          lookupZ sums (Partition.end_ vp - Partition.start vp))
    (seqZ 0 npes)
  = Some (local_max hs <$> seqZ 0 npes).
Proof using Hp Hn.
  intros [Hlen Hrows]. destruct width_bounds as (Hpw & Hnp & Hmw).
  apply mapM_Some_2, Forall2_fmap_r, Forall_Forall2_diag, Forall_forall.
  intros pe Hpe%elem_of_seqZ.
  destruct (partition_make n pe npes Hp Hn ltac:(lia))
    as (vp & -> & _ & _ & Hw & Hstart & _ & _ & _ & _ & Hmid & Hlast).
  simpl. destruct (Hrows pe ltac:(lia)) as (a & -> & Hla & Hcells). simpl.
  unfold local_max. fold pw in Hw. case_decide as Hc.
  - rewrite (Hmid Hc). rewrite Hw.
    replace (Partition.start vp + pw - Partition.start vp) with pw by lia.
    apply Hcells. lia.
  - rewrite Hlast by lia. rewrite Hstart, Hw.
    replace (n - pe * pw) with mw by (unfold mw; nia).
    apply Hcells. lia.
Qed.

Lemma local_max_fits hs maxn :
  (∀ pe, 0 ≤ pe < npes → local_max hs pe ≤ maxn) → fits maxn hs.
Proof using Hp Hn.
  intros Hmax x Hx. destruct (owner_range x Hx) as (Ho & Hi & Hmid).
  etrans; [|apply (Hmax _ Ho)]. unfold local_max.
  apply offset_at_mono. case_decide; [specialize (Hmid ltac:(done))|]; lia.
Qed.

Lemma maxn_spec hs :
  let maxn := foldl Z.max (-1) (local_max hs <$> seqZ 0 npes) in
  (∀ pe, 0 ≤ pe < npes → local_max hs pe ≤ maxn)
  ∧ 0 ≤ maxn ≤ Z.of_nat (length hs).
Proof using Hp Hn.
  intros maxn.
  destruct (foldl_max_spec (local_max hs <$> seqZ 0 npes) (-1))
    as (H1 & H2 & H3). fold maxn in H1, H2, H3.
  assert (Hall : ∀ pe, 0 ≤ pe < npes → local_max hs pe ≤ maxn).
  { intros pe Hpe. apply H2. apply list_elem_of_fmap_2.
    apply elem_of_seqZ. lia. }
  split; [done|]. split.
  - specialize (Hall 0 ltac:(lia)).
    pose proof (offset_at_nonneg hs 0 (if decide (0 < npes - 1) then pw else mw)).
    unfold local_max in Hall. lia.
  - destruct H3 as [->|H3]; [lia|].
    apply list_elem_of_fmap in H3 as (pe & -> & _). apply offset_at_le.
Qed.

Lemma elem_of_concat {X} (x : X) (ls : list (list X)) :
  x ∈ concat ls ↔ ∃ l, x ∈ l ∧ l ∈ ls.
Proof.
  induction ls as [|l ls IH]; simpl.
  - split; [by intros ?%elem_of_nil|]. by intros (l & _ & ?%elem_of_nil).
  - rewrite elem_of_app, IH. split.
    + intros [Hx|(l' & Hx & Hl)]; [exists l; split; [done|left]|].
      exists l'. split; [done|by right].
    + intros (l' & Hx & [->|Hl]%elem_of_cons); [by left|].
      right. by exists l'.
Qed.

Lemma filter_hits_valid (els : list (list (Z * DestID))) :
  Forall valid els →
  ∀ h, h ∈ concat els ≫= hit → 0 ≤ h.1 < n.
Proof.
  intros Hvalid h (e & Hh & He)%list_elem_of_bind.
  apply elem_of_concat in He as (el & He & Hel).
  rewrite Forall_forall in Hvalid. specialize (Hvalid el Hel).
  unfold valid in Hvalid. rewrite Forall_forall in Hvalid.
  by apply (hits_valid e h (Hvalid e He)).
Qed.

Lemma MakeCSR_spec (els : list (list (Z * DestID))) :
  Z.of_nat (length els) = npes → Forall valid els →
  2 * Z.of_nat (length (concat els)) ≤ CInt.int_max →
  concat els ≠ [] →
  ∃ ranks,
    Builder.MakeCSR node zero get_source symmetrize transpose n npes els
    = Some ranks
    ∧ Z.of_nat (length ranks) = npes
    ∧ ∀ x, 0 ≤ x < n →
        ∃ index neighs,
          lookupZ ranks (Builder.owner n npes x) = Some (index, neighs)
          ∧ Builder.csr_neigh index neighs (x - Builder.owner n npes x * pw)
            = Some (Builder.neighbours_of node get_source symmetrize transpose
                      x (concat els)).
Proof using Hp Hn.
  intros Hlen Hvalid Hbound Hne.
  destruct width_bounds as (Hpw & Hnp & Hmw).
  set (hs := concat els ≫= hit).
  unfold Builder.MakeCSR.
  destruct (CountDegrees_spec els Hlen Hvalid Hbound) as (D & -> & HD).
  simpl. fold hs in HD.
  pose proof (offsets_array D hs HD) as HO.
  rewrite (local_maxes_spec _ hs HO). simpl.
  destruct (maxn_spec hs) as (Hmax & Hmaxn0 & Hmaxn).
  set (maxn := foldl Z.max (-1) (local_max hs <$> seqZ 0 npes)) in *.
  pose proof (local_max_fits hs maxn Hmax) as Hfits.
  assert (Hhs : Z.of_nat (length hs) < 2 ^ 62).
  { pose proof (length_bind_hits (concat els)). fold hs in H.
    unfold CInt.int_max in Hbound. lia. }
  (* some update exists, so some rank has a neighbour to store *)
  assert (Hpos : 0 < maxn).
  { destruct hs as [|[x d] hs'] eqn:Ehs.
    - exfalso. destruct (concat els) as [|e l]; [done|].
      unfold hs in Ehs. rewrite bind_cons in Ehs.
      apply app_eq_nil in Ehs as [Ehs _]. by apply hits_nonempty in Ehs.
    - assert (Hx : 0 ≤ x < n).
      { apply (filter_hits_valid els Hvalid (x, d)). fold hs. rewrite Ehs. left. }
      rewrite <- Ehs in *.
      destruct (owner_range x Hx) as (Ho & Hi & _).
      pose proof (slot_bound hs [] x d hs' _ _ Ehs eq_refl eq_refl ltac:(lia)).
      pose proof (offset_at_nonneg hs (Builder.owner n npes x)
                    (x - Builder.owner n npes x * pw)).
      pose proof (count_at_nonneg ([] : list (Z * DestID))
                    (Builder.owner n npes x)
                    (x - Builder.owner n npes x * pw)).
      specialize (Hfits x Hx). lia. }
  rewrite decide_False by lia.
  (* the loop that places the edges *)
  destruct (foldM_seqZ
    (λ s pe,
       vp ← Partition.make n pe npes;
       el ← lookupZ els pe;
       foldM (Builder.place_edge node get_source symmetrize transpose vp) s el)
    (λ k (s : list (list Z) * list (list DestID)),
       Builder.placed n npes maxn hs
         (concat (take (Z.to_nat k) els) ≫= hit) s.1 s.2)
    0 npes
    (Builder.ParallelPrefixSum <$> D,
     replicate (Z.to_nat npes) (replicate (Z.to_nat maxn) zero)))
    as ([C N] & Hrun & HP).
  - lia.
  - simpl. split.
    { fold pw. fold mw. eapply symmetric_array_ext; [exact HO|].
      intros pe i _ _. simpl. rewrite count_at_nil. lia. }
    split; [rewrite length_replicate; lia|].
    split.
    { intros pe a [_ Ha]%lookupZ_Some.
      apply lookup_replicate in Ha as [-> _]. rewrite length_replicate. lia. }
    intros x k h _ Hk. by rewrite filter_nil in Hk.
  - intros k [C N] [Hk0 Hk] HP. simpl in HP.
    destruct (partition_make n k npes Hp Hn ltac:(lia)) as (vp & Hvp & _).
    rewrite Hvp. simpl.
    destruct (lookupZ_is_Some els k ltac:(lia)) as [el Hel].
    rewrite Hel. simpl.
    apply lookupZ_Some in Hel as [_ Hel].
    assert (Hv : valid el).
    { rewrite Forall_forall in Hvalid. apply Hvalid.
      by eapply list_elem_of_lookup_2. }
    assert (Htake : concat (take (Z.to_nat (k + 1)) els)
                    = concat (take (Z.to_nat k) els) ++ el).
    { replace (Z.to_nat (k + 1)) with (S (Z.to_nat k)) by lia.
      by apply concat_take_S. }
    destruct (place_list maxn hs el (concat (take (Z.to_nat k) els) ≫= hit)
                (concat (drop (Z.to_nat (k + 1)) els) ≫= hit)
                k vp C N HP) as (C' & N' & Hrun' & HP'); try done; try lia.
    { unfold hs. rewrite <- (take_drop (Z.to_nat (k + 1)) els) at 1.
      rewrite concat_app, Htake, !bind_app. by rewrite <- app_assoc. }
    exists (C', N'). split; [done|]. simpl.
    rewrite Htake, bind_app. done.
  - replace (0 + npes) with npes in HP by lia.
    rewrite firstn_all2 in HP by lia. fold hs in HP. simpl in HP.
    rewrite Hrun. simpl.
    destruct HP as (HC & HlenN & Hrows & Hent).
    destruct HO as [HlenO HrowsO].
    eexists. split; [done|].
    split; [rewrite length_zip_with; lia|].
    intros x Hx. destruct (owner_range x Hx) as (Ho & Hi & _).
    set (pe := Builder.owner n npes x) in *. set (i := x - pe * pw) in *.
    destruct (HrowsO pe Ho) as (index & Hindex & Hlindex & Hcells).
    destruct (lookupZ_is_Some N pe ltac:(lia)) as [neighs Hneighs].
    pose proof (Hrows pe neighs Hneighs) as Hln.
    exists index, neighs. split.
    { apply lookupZ_Some in Hindex as [? Hindex].
      apply lookupZ_Some in Hneighs as [_ Hneighs].
      apply lookupZ_Some. split; [done|].
      rewrite lookup_zip_with, Hindex. simpl. by rewrite Hneighs. }
    unfold Builder.csr_neigh.
    rewrite (Hcells i) by lia. simpl. rewrite (Hcells (i + 1)) by lia. simpl.
    pose proof (offset_at_nonneg hs pe i) as Hfirst.
    pose proof (offset_at_S hs pe i ltac:(lia)) as HS.
    pose proof (count_at_nonneg hs pe i) as Hcnt0.
    specialize (Hfits x Hx). fold pe in Hfits. fold i in Hfits.
    rewrite decide_True by lia. f_equal.
    assert (Hcnt : Builder.count_at n npes hs pe i
                   = Z.of_nat (length (filter (λ h : Z * DestID, h.1 = x) hs))).
    { unfold Builder.count_at, Builder.vertex_at. fold pw.
      replace (pe * pw + i) with x by (unfold i; lia).
      by rewrite decide_True. }
    unfold Builder.neighbours_of. fold hit. fold hs.
    apply list_eq. intros k. rewrite list_lookup_fmap.
    destruct (filter (λ h : Z * DestID, h.1 = x) hs !! k) as [h|] eqn:Hk.
    + pose proof (lookup_lt_Some _ _ _ Hk) as Hklt.
      rewrite lookup_take_lt by lia. rewrite lookup_drop.
      destruct (Hent x k h Hx Hk) as (a & Ha & Hh).
      fold pw in Hh. fold pe in Ha, Hh. fold i in Hh.
      assert (a = neighs) as -> by congruence.
      apply lookupZ_Some in Hh as [_ Hh]. simpl.
      rewrite <- Hh. f_equal. lia.
    + apply lookup_ge_None in Hk. simpl.
      apply lookup_ge_None. rewrite length_take. lia.
Qed.

Lemma MakeCSR_empty (els : list (list (Z * DestID))) :
  Z.of_nat (length els) = npes → concat els = [] →
  Builder.MakeCSR node zero get_source symmetrize transpose n npes els = None.
Proof using Hp Hn.
  intros Hlen Hnil. unfold Builder.MakeCSR.
  destruct (CountDegrees_spec els Hlen) as (D & -> & HD).
  { apply Forall_forall. intros el Hel. apply Forall_forall. intros e He.
    assert (e ∈ concat els) as Hc by (apply elem_of_concat; eauto).
    rewrite Hnil in Hc. by apply elem_of_nil in Hc. }
  { rewrite Hnil. simpl. done. }
  simpl. rewrite Hnil in HD. simpl in HD.
  pose proof (offsets_array D [] HD) as HO.
  rewrite (local_maxes_spec _ [] HO). simpl.
  destruct (maxn_spec []) as (_ & _ & Hmaxn). simpl in Hmaxn.
  by rewrite decide_True by lia.
Qed.

End Flags.

End BuildCSR.

(** X4. [CountDegrees] on a job of [npes] ranks leaves, in the counter
    of every vertex on the rank that owns it, the number of neighbours
    that the edge lists of all ranks give the vertex: the edges that
    leave it and, in the transposed or symmetrized half, those that
    reach it, whichever ranks hold them and in whatever order. The ids
    of the edges are vertices of the graph, there are at most
    [INT_MAX / 2] edges, and the ranks pass the barrier of every 10000
    edges equally often. *)
Theorem CountDegrees_counts {DestID : Type} (node : DestID → Z)
    (get_source : Z * DestID → DestID) (symmetrize transpose : bool)
    (n npes : Z) (els : list (list (Z * DestID))) :
  1 ≤ npes → npes ≤ n → Z.of_nat (length els) = npes →
  Forall (Forall (λ e, 0 ≤ e.1 < n ∧ 0 ≤ node e.2 < n)) els →
  2 * Z.of_nat (length (concat els)) ≤ CInt.int_max →
  (∃ k, Forall (λ el, Z.of_nat (length el) `div` 10000 = k) els) →
  ∃ degrees,
    Builder.CountDegrees node symmetrize transpose n npes els = Some degrees
    ∧ Z.of_nat (length degrees) = npes
    ∧ ∀ pe vp x,
        0 ≤ pe < npes → Partition.make n pe npes = Some vp →
        Partition.start vp ≤ x < Partition.end_ vp →
        ∃ counts i,
          lookupZ degrees pe = Some counts
          ∧ Z.of_nat (length counts) = Partition.max_width vp
          ∧ Partition.local_pos vp x = Some i
          ∧ lookupZ counts i
            = Some (Z.of_nat (length
                (Builder.neighbours_of node get_source symmetrize transpose
                   x (concat els)))).
Proof.
  intros Hp Hn Hlen Hvalid Hbound _.
  destruct (CountDegrees_spec node get_source n npes Hp Hn symmetrize
              transpose els Hlen Hvalid Hbound) as (D & HD & [HlenD Hrows]).
  exists D. split; [done|]. split; [done|].
  intros pe vp x Hpe Hvp Hx.
  destruct (owner_slice n npes Hp Hn pe vp x Hpe Hvp Hx) as [Ho Hstart].
  destruct (partition_local_pos n pe npes vp x Hp Hn Hpe Hvp Hx) as [_ Hlp].
  destruct (partition_make n pe npes Hp Hn Hpe)
    as (vp' & Hvp' & _ & _ & _ & _ & Hse & Hen & Hw & Hmax & _).
  assert (vp' = vp) as -> by congruence.
  destruct (Hrows pe Hpe) as (a & Ha & Hla & Hcells).
  exists a, (x - Partition.start vp).
  split; [done|]. split; [by rewrite Hmax|]. split; [done|].
  rewrite Hcells by lia. f_equal.
  unfold Builder.count_at, Builder.vertex_at.
  replace (pe * (n `div` npes) + (x - Partition.start vp)) with x by lia.
  rewrite decide_True by done.
  unfold Builder.neighbours_of. by rewrite length_fmap.
Qed.

Lemma CountDegrees_counts_witness :
  ∃ degrees,
    Builder.CountDegrees id true false 4 2 [[(0, 1); (2, 3)]; [(3, 0)]]
    = Some degrees
    ∧ Z.of_nat (length degrees) = 2
    ∧ ∀ pe vp x,
        0 ≤ pe < 2 → Partition.make 4 pe 2 = Some vp →
        Partition.start vp ≤ x < Partition.end_ vp →
        ∃ counts i,
          lookupZ degrees pe = Some counts
          ∧ Z.of_nat (length counts) = Partition.max_width vp
          ∧ Partition.local_pos vp x = Some i
          ∧ lookupZ counts i
            = Some (Z.of_nat (length
                (Builder.neighbours_of id Builder.GetSource true false
                   x (concat [[(0, 1); (2, 3)]; [(3, 0)]])))).
Proof.
  apply (CountDegrees_counts id Builder.GetSource true false 4 2
           [[(0, 1); (2, 3)]; [(3, 0)]]).
  - lia.
  - lia.
  - reflexivity.
  - repeat constructor; simpl; lia.
  - vm_compute. discriminate.
  - exists 0. repeat constructor.
Defined.

(** X5. [MakeCSR] on a job of [npes] ranks builds the adjacency lists
    of the edge list: in the CSR half of the rank that owns a vertex,
    the neighbour list of the vertex holds the destinations of the
    edges that leave it and, in the transposed or symmetrized half, the
    sources of the edges that reach it (with their weights, for a
    weighted graph), one entry per edge, in the order in which the
    edges are placed, under the preconditions of [CountDegrees]. When
    no rank holds an edge, the allocation of [neighs] has no element
    and the job exits. *)
Theorem MakeCSR_adjacency {DestID : Type} (node : DestID → Z) (zero : DestID)
    (get_source : Z * DestID → DestID) (symmetrize transpose : bool)
    (n npes : Z) (els : list (list (Z * DestID))) :
  1 ≤ npes → npes ≤ n → Z.of_nat (length els) = npes →
  Forall (Forall (λ e, 0 ≤ e.1 < n ∧ 0 ≤ node e.2 < n)) els →
  2 * Z.of_nat (length (concat els)) ≤ CInt.int_max →
  (∃ k, Forall (λ el, Z.of_nat (length el) `div` 10000 = k) els) →
  (concat els = [] →
   Builder.MakeCSR node zero get_source symmetrize transpose n npes els = None)
  ∧ (concat els ≠ [] →
     ∃ ranks,
       Builder.MakeCSR node zero get_source symmetrize transpose n npes els
       = Some ranks
       ∧ Z.of_nat (length ranks) = npes
       ∧ ∀ pe vp x,
           0 ≤ pe < npes → Partition.make n pe npes = Some vp →
           Partition.start vp ≤ x < Partition.end_ vp →
           ∃ index neighs i,
             lookupZ ranks pe = Some (index, neighs)
             ∧ Partition.local_pos vp x = Some i
             ∧ Builder.csr_neigh index neighs i
               = Some (Builder.neighbours_of node get_source symmetrize
                         transpose x (concat els))).
Proof.
  intros Hp Hn Hlen Hvalid Hbound _. split.
  { intros Hnil. by apply MakeCSR_empty. }
  intros Hne.
  destruct (MakeCSR_spec node zero get_source n npes Hp Hn symmetrize
              transpose els Hlen Hvalid Hbound Hne)
    as (ranks & Hrun & Hlr & Hx).
  exists ranks. split; [done|]. split; [done|].
  intros pe vp x Hpe Hvp Hin.
  destruct (owner_slice n npes Hp Hn pe vp x Hpe Hvp Hin) as [Ho Hstart].
  destruct (partition_local_pos n pe npes vp x Hp Hn Hpe Hvp Hin) as [_ Hlp].
  destruct (partition_make n pe npes Hp Hn Hpe)
    as (vp' & Hvp' & _ & _ & _ & _ & Hse & Hen & _).
  assert (vp' = vp) as -> by congruence.
  destruct (Hx x ltac:(lia)) as (index & neighs & Hr & Hcsr).
  rewrite Ho in Hr, Hcsr. rewrite <- Hstart in Hcsr.
  by exists index, neighs, (x - Partition.start vp).
Qed.

Lemma MakeCSR_adjacency_witness :
  Builder.MakeCSR fst (0, 0) Builder.GetSource_weighted false true 4 2
    [[(0, (1, 7)); (2, (1, 5))]; [(3, (0, 2))]]
  = Some [([0; 1; 3], [(3, 2); (0, 7); (2, 5)]);
          ([0; 0; 0], [(0, 0); (0, 0); (0, 0)])]
  ∧ ∃ index neighs i,
      Some ([0; 1; 3], [(3, 2); (0, 7); (2, 5)]) = Some (index, neighs)
      ∧ Partition.local_pos (Partition.mkPartition 4 0 2 2 2 0 2) 1 = Some i
      ∧ Builder.csr_neigh index neighs i = Some [(0, 7); (2, 5)].
Proof.
  split; [reflexivity|].
  destruct (MakeCSR_adjacency fst (0, 0) Builder.GetSource_weighted false true
              4 2 [[(0, (1, 7)); (2, (1, 5))]; [(3, (0, 2))]])
    as [_ H].
  - lia.
  - lia.
  - reflexivity.
  - repeat constructor; simpl; lia.
  - vm_compute. discriminate.
  - exists 0. repeat constructor.
  - destruct (H ltac:(done)) as (ranks & Hrun & _ & Hx).
    vm_compute in Hrun. injection Hrun as <-.
    apply (Hx 0 (Partition.mkPartition 4 0 2 2 2 0 2) 1);
      [lia|reflexivity|simpl; lia].
Defined.

(** ** The graph of an edge list *)

Section EdgeListGraph.

Context {DestID : Type} (node : DestID → Z) (get_source : Z * DestID → DestID).

Lemma elem_of_hits symmetrize transpose (e : Z * DestID) x d :
  (x, d) ∈ Builder.hits node get_source symmetrize transpose e
  ↔ ((symmetrize = true ∨ transpose = false) ∧ x = e.1 ∧ d = e.2)
    ∨ ((symmetrize = true ∨ transpose = true)
       ∧ x = node e.2 ∧ d = get_source e).
Proof.
  unfold Builder.hits.
  destruct symmetrize, transpose; simpl;
    rewrite ?elem_of_cons, ?elem_of_nil; split;
    intros H; repeat destruct H as [H|H]; try done;
    try (injection H as -> ->); try (destruct H as (? & -> & ->));
    intuition congruence.
Qed.

Lemma elem_of_neighbours_of symmetrize transpose x (el : list (Z * DestID)) d :
  d ∈ Builder.neighbours_of node get_source symmetrize transpose x el
  ↔ ∃ e, e ∈ el
         ∧ (x, d) ∈ Builder.hits node get_source symmetrize transpose e.
Proof.
  unfold Builder.neighbours_of. rewrite list_elem_of_fmap. split.
  - intros ([x' d'] & -> & [Hx He]%list_elem_of_filter). simpl in Hx. subst x'.
    apply list_elem_of_bind in He as (e & He & Hin). by exists e.
  - intros (e & He & Hin). exists (x, d). split; [done|].
    apply list_elem_of_filter. split; [done|].
    apply list_elem_of_bind. by exists e.
Qed.

End EdgeListGraph.

(** X17. [MakeGraphFromEL] on a job of [npes] ranks, for an unweighted
    edge list and no number of vertices on the command line: the graph
    has one vertex more than the largest id of the edge list, which
    makes every id a vertex, so that [MakeCSR] stays within its
    arrays. [v] is in the outgoing list of [u] exactly when the edge
    list has the edge from [u] to [v] or, in a symmetrized graph, the
    edge from [v] to [u]. The incoming half is built for a graph that
    is not symmetrized when [invert] is set, and it is the transpose of
    the outgoing half: [u] is in the incoming list of [v] exactly when
    [v] is in the outgoing list of [u]. The ids are not negative and
    below [INT_MAX], some id is as large as [npes - 1], there are at
    most [INT_MAX / 2] edges, and the ranks pass the barrier of every
    10000 edges of [CountDegrees] equally often. *)
Theorem MakeGraphFromEL_transposed (symmetrize invert : bool) (npes : Z)
    (els : list (list (Z * Z))) :
  1 ≤ npes → Z.of_nat (length els) = npes →
  Forall (Forall (λ e : Z * Z,
                    0 ≤ e.1 < CInt.int_max ∧ 0 ≤ e.2 < CInt.int_max)) els →
  (∃ el e, el ∈ els ∧ e ∈ el ∧ (npes - 1 ≤ e.1 ∨ npes - 1 ≤ e.2)) →
  2 * Z.of_nat (length (concat els)) ≤ CInt.int_max →
  (∃ k, Forall (λ el, Z.of_nat (length el) `div` 10000 = k) els) →
  ∃ n out inv,
    Builder.MakeGraphFromEL id 0 Builder.GetSource symmetrize invert (-1)
      npes els
    = Some (n, out, inv)
    ∧ Builder.FindMaxNodeID id els = Some (n - 1)
    ∧ (∀ u v, 0 ≤ u < n →
         Builder.neighbour id n npes out u v
         ↔ (u, v) ∈ concat els
           ∨ (symmetrize = true ∧ (v, u) ∈ concat els))
    ∧ if negb symmetrize && invert
      then ∃ inr, inv = Some inr
                  ∧ ∀ u v, 0 ≤ u < n → 0 ≤ v < n →
                      Builder.neighbour id n npes inr v u
                      ↔ Builder.neighbour id n npes out u v
      else inv = None.
Proof.
  intros Hp Hlen Hids (el0 & e0 & Hel0 & He0 & Hbig) Hbound _.
  assert (Hne : els ≠ []) by (intros ->; by apply elem_of_nil in Hel0).
  destruct (FindMaxNodeID_spec id els Hne)
    as (m & Hmax & Hm0 & Hall & Hwhich & _).
  assert (Hid : ∀ el e, el ∈ els → e ∈ el →
            0 ≤ e.1 < CInt.int_max ∧ 0 ≤ e.2 < CInt.int_max).
  { intros el e Hel He. rewrite Forall_forall in Hids.
    specialize (Hids el Hel). rewrite Forall_forall in Hids. by apply Hids. }
  assert (Hmlt : m < CInt.int_max).
  { destruct Hwhich as [->|(el & e & Hel & He & Hme)]; [done|].
    destruct (Hid el e Hel He). simpl in Hme. lia. }
  assert (Hmge : npes - 1 ≤ m).
  { destruct (Hall el0 e0 Hel0 He0). simpl in *. lia. }
  set (n := m + 1).
  assert (Hn : npes ≤ n) by (unfold n; lia).
  assert (Hvalid : Forall (Forall (λ e : Z * Z,
                     0 ≤ e.1 < n ∧ 0 ≤ id e.2 < n)) els).
  { apply Forall_forall. intros el Hel. apply Forall_forall. intros e He.
    destruct (Hid el e Hel He). destruct (Hall el e Hel He).
    unfold n. simpl in *. lia. }
  assert (Hedges : concat els ≠ []).
  { intros Hnil. assert (He : e0 ∈ concat els).
    { apply elem_of_concat. by exists el0. }
    rewrite Hnil in He. by apply elem_of_nil in He. }
  assert (Hhalf : ∀ transpose,
            ∃ ranks,
              Builder.MakeCSR id 0 Builder.GetSource symmetrize transpose
                n npes els = Some ranks
              ∧ ∀ u v, 0 ≤ u < n →
                  Builder.neighbour id n npes ranks u v
                  ↔ ∃ e, e ∈ concat els
                         ∧ (u, v) ∈ Builder.hits id Builder.GetSource
                                      symmetrize transpose e).
  { intros transpose.
    destruct (MakeCSR_spec id 0 Builder.GetSource n npes Hp Hn symmetrize
                transpose els Hlen Hvalid Hbound Hedges)
      as (ranks & Hrun & _ & Hx).
    exists ranks. split; [done|]. intros u v Hu.
    destruct (Hx u Hu) as (index & neighs & Hr & Hcsr).
    unfold Builder.neighbour, Builder.adjacency. rewrite Hr. simpl.
    rewrite Hcsr. split.
    - intros (l & d & [= <-] & Hd & <-).
      by apply elem_of_neighbours_of in Hd.
    - intros He. eexists _, v. split; [done|]. split; [|done].
      by apply elem_of_neighbours_of. }
  destruct (Hhalf false) as (out & Hout & Hnb).
  assert (Hwrap : CInt.wrap (m + 1) = n).
  { apply wrap_small. unfold CInt.int_min, CInt.int_max in *. lia. }
  exists n, out.
  unfold Builder.MakeGraphFromEL. rewrite decide_True by done.
  rewrite Hmax. cbn [mbind option_bind]. rewrite Hwrap, Hout.
  cbn [mbind option_bind].
  assert (Hlist : ∀ u v, 0 ≤ u < n →
            Builder.neighbour id n npes out u v
            ↔ (u, v) ∈ concat els
              ∨ (symmetrize = true ∧ (v, u) ∈ concat els)).
  { intros u v Hu. rewrite (Hnb u v Hu). split.
    - intros ([a b] & He & Hh). apply elem_of_hits in Hh. simpl in Hh.
      unfold Builder.GetSource in Hh. simpl in Hh.
      destruct Hh as [(_ & -> & ->)|([Hs|?] & -> & ->)]; [by left| |done].
      by right.
    - intros [He|[Hs He]].
      + exists (u, v). split; [done|]. apply elem_of_hits. left.
        split; [by right|done].
      + exists (v, u). split; [done|]. apply elem_of_hits. right.
        split; [by left|done]. }
  destruct symmetrize, invert; simpl.
  - eexists. by replace (n - 1) with m by (unfold n; lia).
  - eexists. by replace (n - 1) with m by (unfold n; lia).
  - destruct (Hhalf true) as (inr & Hin & Hnbin). rewrite Hin. simpl.
    eexists. split; [done|].
    split; [by replace (n - 1) with m by (unfold n; lia)|].
    split; [done|]. exists inr. split; [done|].
    intros u v Hu Hv. rewrite (Hnbin v u Hv), (Hnb u v Hu). split.
    + intros ([a b] & He & Hh). apply elem_of_hits in Hh. simpl in Hh.
      unfold Builder.GetSource in Hh. simpl in Hh.
      destruct Hh as [([?|?] & _)|(_ & -> & ->)]; [done|done|].
      exists (a, b). split; [done|]. apply elem_of_hits. left.
      split; [by right|done].
    + intros ([a b] & He & Hh). apply elem_of_hits in Hh. simpl in Hh.
      unfold Builder.GetSource in Hh. simpl in Hh.
      destruct Hh as [(_ & -> & ->)|([?|?] & _)]; [|done|done].
      exists (a, b). split; [done|]. apply elem_of_hits. right.
      split; [by right|done].
  - eexists. by replace (n - 1) with m by (unfold n; lia).
Qed.

Lemma MakeGraphFromEL_transposed_witness :
  ∃ n out inv,
    Builder.MakeGraphFromEL id 0 Builder.GetSource false true (-1) 2
      [[(0, 1); (2, 3)]; [(3, 0)]]
    = Some (n, out, inv)
    ∧ Builder.FindMaxNodeID id [[(0, 1); (2, 3)]; [(3, 0)]] = Some (n - 1)
    ∧ (∀ u v, 0 ≤ u < n →
         Builder.neighbour id n 2 out u v
         ↔ (u, v) ∈ concat [[(0, 1); (2, 3)]; [(3, 0)]]
           ∨ (false = true ∧ (v, u) ∈ concat [[(0, 1); (2, 3)]; [(3, 0)]]))
    ∧ if negb false && true
      then ∃ inr, inv = Some inr
                  ∧ ∀ u v, 0 ≤ u < n → 0 ≤ v < n →
                      Builder.neighbour id n 2 inr v u
                      ↔ Builder.neighbour id n 2 out u v
      else inv = None.
Proof.
  apply (MakeGraphFromEL_transposed false true 2 [[(0, 1); (2, 3)]; [(3, 0)]]).
  - lia.
  - reflexivity.
  - unfold CInt.int_max. repeat constructor; simpl; lia.
  - exists [(0, 1); (2, 3)], (2, 3). repeat split.
    + apply list_elem_of_here.
    + apply list_elem_of_further, list_elem_of_here.
    + simpl. lia.
  - vm_compute. discriminate.
  - exists 0. repeat constructor.
Defined.


(* ================================================================== *)
(** * The rest of the sliding queue (sliding_queue.h) *)
(* ================================================================== *)

Section QueueWindow.

Context {T : Type}.

Implicit Types (q : Queue.SlidingQueue T) (xs items : list T).

Lemma appended_appended q xs ys :
  (Queue.shared_in q + length xs + length ys ≤ length (Queue.shared q))%nat →
  Queue.appended (Queue.appended q xs) ys = Queue.appended q (xs ++ ys).
Proof.
  intros Hfit. unfold Queue.appended. simpl.
  set (s := Queue.shared q) in *. set (i := Queue.shared_in q) in *.
  assert (Hla : length (take i s ++ xs) = (i + length xs)%nat).
  { rewrite length_app, length_take. lia. }
  f_equal.
  - rewrite (app_assoc (take i s) xs).
    rewrite take_app_length' by done.
    rewrite drop_app_ge by lia. rewrite Hla.
    replace (i + length xs + length ys - (i + length xs))%nat
      with (length ys) by lia.
    rewrite drop_drop, length_app. rewrite <- !app_assoc.
    do 3 f_equal. f_equal. lia.
  - rewrite length_app. lia.
Qed.

Lemma appended_nil q :
  (Queue.shared_in q ≤ length (Queue.shared q))%nat →
  Queue.appended q [] = q.
Proof.
  intros Hfit. unfold Queue.appended. destruct q as [s i o e]. simpl in *.
  f_equal; [|lia]. rewrite Nat.add_0_r. apply take_drop.
Qed.

Lemma push_back_all q xs :
  (Queue.shared_in q + length xs ≤ length (Queue.shared q))%nat →
  foldM Queue.push_back q xs = Some (Queue.appended q xs).
Proof.
  revert q. induction xs as [|x xs IH]; intros q Hfit.
  - simpl. by rewrite appended_nil by (simpl in Hfit; lia).
  - simpl in Hfit.
    assert (Hpb : Queue.push_back q x = Some (Queue.appended q [x])).
    { unfold Queue.push_back. rewrite decide_True by lia. f_equal.
      unfold Queue.appended. simpl. f_equal; [|lia].
      rewrite insert_take_drop by lia. do 2 f_equal. f_equal. lia. }
    cbn [foldM]. rewrite Hpb. cbn [mbind option_bind].
    rewrite IH
      by (unfold Queue.appended; cbn [Queue.shared Queue.shared_in];
          rewrite length_stored by (simpl; lia); simpl; lia).
    f_equal. apply (appended_appended q [x] xs). simpl. lia.
Qed.

Lemma push_back_overflow q xs :
  (Queue.shared_in q ≤ length (Queue.shared q))%nat →
  (length (Queue.shared q) < Queue.shared_in q + length xs)%nat →
  foldM Queue.push_back q xs = None.
Proof.
  revert q. induction xs as [|x xs IH]; intros q Hin Hfit;
    [simpl in Hfit; lia|].
  simpl in Hfit. cbn [foldM].
  destruct (Queue.push_back q x) as [q1|] eqn:Hpb; [|done].
  cbn [mbind option_bind].
  unfold Queue.push_back in Hpb. case_decide; [|done].
  injection Hpb as <-. apply IH; simpl; rewrite length_insert; lia.
Qed.

(** X6. The items pushed on a [SlidingQueue] since its last
    [slide_window] (or since [reset]) are the window that the next
    [slide_window] opens: [begin()] to [end()] holds them in the order
    of the pushes, [size()] is their number and [empty()] tells
    whether there were none; a second [slide_window] without a push
    leaves an empty window. [push_back] does not check the capacity:
    pushing more items than the array has room for writes past its
    end. *)
Theorem slide_window_opens_pushed q xs :
  Queue.shared_out_end q = Queue.shared_in q →
  (Queue.shared_in q ≤ length (Queue.shared q))%nat →
  ((length (Queue.shared q) < Queue.shared_in q + length xs)%nat →
   foldM Queue.push_back q xs = None)
  ∧ ((Queue.shared_in q + length xs ≤ length (Queue.shared q))%nat →
     ∃ q', foldM Queue.push_back q xs = Some q'
           ∧ Queue.window (Queue.slide_window q') = xs
           ∧ Queue.size (Queue.slide_window q') = length xs
           ∧ (Queue.empty (Queue.slide_window q') = true ↔ xs = [])
           ∧ Queue.shared_out_end (Queue.slide_window q')
             = Queue.shared_in (Queue.slide_window q')
           ∧ Queue.empty (Queue.slide_window (Queue.slide_window q')) = true).
Proof.
  intros Hend Hin. split; [by apply push_back_overflow|].
  intros Hfit. exists (Queue.appended q xs).
  split; [by apply push_back_all|].
  assert (Hsize : Queue.size (Queue.slide_window (Queue.appended q xs))
                  = length xs).
  { unfold Queue.size. simpl. lia. }
  split.
  { unfold Queue.window. rewrite Hsize. simpl. rewrite Hend.
    rewrite drop_app_length' by (rewrite length_take; lia).
    by rewrite take_app_length. }
  split; [done|]. split.
  { unfold Queue.empty. simpl. rewrite Hend, bool_decide_eq_true.
    split.
    - intros Hx. destruct xs; [done|]. simpl in Hx. lia.
    - intros ->. simpl. lia. }
  split; [done|].
  unfold Queue.empty. simpl. by rewrite bool_decide_eq_true.
Qed.

End QueueWindow.

Lemma slide_window_opens_pushed_witness :
  ∃ q', foldM Queue.push_back (Queue.new 0 4) [7; 8; 9] = Some q'
        ∧ Queue.window (Queue.slide_window q') = [7; 8; 9]
        ∧ Queue.size (Queue.slide_window q') = 3%nat
        ∧ (Queue.empty (Queue.slide_window q') = true ↔ [7; 8; 9] = [])
        ∧ Queue.shared_out_end (Queue.slide_window q')
          = Queue.shared_in (Queue.slide_window q')
        ∧ Queue.empty (Queue.slide_window (Queue.slide_window q')) = true.
Proof.
  destruct (slide_window_opens_pushed (Queue.new 0 4) [7; 8; 9]) as [_ H].
  - reflexivity.
  - simpl. lia.
  - apply H. simpl. lia.
Defined.

(** ** The queue buffer on one rank *)

Section BufferAlone.

Context {T : Type}.

Implicit Types (q : Queue.SlidingQueue T) (b : Queue.QueueBuffer T).
Implicit Types (xs items : list T) (log : list (Queue.event T)).

Lemma flush_alone b q log :
  Queue.alone b →
  (Queue.shared_in q + Queue.in_ b ≤ length (Queue.shared q))%nat →
  ∃ log',
    Queue.flush b (Queue.mkWorld [q] false log)
    = Some (Queue.with_in b 0,
            Queue.mkWorld [Queue.appended q (Queue.staged b)] false log').
Proof.
  intros (Hpe & Hnpes & Hlq & Hsize & Hin) Hfit.
  destruct b as [i lq ls p np]. destruct q as [s si so se].
  simpl in *. subst p np.
  assert (Hlen : length (take i lq) = i) by (rewrite length_take; lia).
  unfold Queue.flush, Queue.bind, Queue.shmem_set_lock. simpl.
  unfold Queue.std_copy, Queue.store_shared. simpl.
  rewrite store_fits by (simpl; lia). simpl.
  eexists. unfold Queue.appended, Queue.staged. simpl. rewrite Hlen. done.
Qed.

Lemma staged_push b x :
  (Queue.in_ b < length (Queue.local_queue b))%nat →
  take (S (Queue.in_ b)) (<[Queue.in_ b := x]> (Queue.local_queue b))
  = Queue.staged b ++ [x].
Proof.
  intros Hlt. unfold Queue.staged.
  rewrite (take_S_r _ _ x) by (by apply list_lookup_insert_eq).
  by rewrite take_insert_ge by lia.
Qed.

(** One [push_back]: the queue may receive the items staged before,
    and what is staged afterwards completes them with the new item. *)
Lemma buffer_push_alone b q log x :
  Queue.alone b →
  (Queue.shared_in q + Queue.in_ b + 1 ≤ length (Queue.shared q))%nat →
  ∃ b' flushed log',
    Queue.buffer_push_back b x (Queue.mkWorld [q] false log)
    = Some (b', Queue.mkWorld [Queue.appended q flushed] false log')
    ∧ Queue.alone b'
    ∧ flushed ++ Queue.staged b' = Queue.staged b ++ [x].
Proof.
  intros Hb Hfit. pose proof Hb as (Hpe & Hnpes & Hlq & Hsize & Hin).
  destruct (decide (Queue.in_ b = Queue.local_size b)) as [Hfull|Hroom].
  - (* the buffer is full: it is flushed, and [x] is staged first *)
    destruct (flush_alone b q log Hb ltac:(lia)) as (log1 & Hf).
    set (b1 := Queue.mkQueueBuffer 1 (<[0%nat := x]> (Queue.local_queue b))
                 (Queue.local_size b) (Queue.pe b) (Queue.npes b)).
    exists b1, (Queue.staged b), log1.
    unfold Queue.buffer_push_back, Queue.bind.
    rewrite decide_True by done. rewrite Hf. simpl.
    rewrite decide_True by lia. unfold Queue.ret. fold b1.
    split; [done|]. split.
    { unfold Queue.alone, b1. simpl. rewrite length_insert.
      repeat split; try done; lia. }
    f_equal. unfold Queue.staged, b1. simpl.
    destruct (Queue.local_queue b); [simpl in *; lia|done].
  - set (b1 := Queue.mkQueueBuffer (S (Queue.in_ b))
                 (<[Queue.in_ b := x]> (Queue.local_queue b))
                 (Queue.local_size b) (Queue.pe b) (Queue.npes b)).
    exists b1, [], log.
    unfold Queue.buffer_push_back, Queue.bind.
    rewrite decide_False by done. unfold Queue.ret.
    rewrite decide_True by lia. fold b1.
    rewrite appended_nil by lia.
    split; [done|]. split.
    { unfold Queue.alone, b1. simpl. rewrite length_insert.
      repeat split; try done; lia. }
    simpl. unfold Queue.staged at 1, b1. simpl. apply staged_push. lia.
Qed.

Lemma length_staged b :
  Queue.alone b → length (Queue.staged b) = Queue.in_ b.
Proof.
  intros (_ & _ & Hlq & _ & Hin). unfold Queue.staged.
  rewrite length_take. lia.
Qed.

Lemma push_all_alone xs b q log :
  Queue.alone b →
  (Queue.shared_in q + Queue.in_ b + length xs ≤ length (Queue.shared q))%nat →
  ∃ b' log',
    Queue.bind (Queue.push_all b xs) Queue.flush (Queue.mkWorld [q] false log)
    = Some (b', Queue.mkWorld [Queue.appended q (Queue.staged b ++ xs)]
                  false log')
    ∧ Queue.in_ b' = 0%nat ∧ Queue.alone b'.
Proof.
  revert b q log. induction xs as [|x xs IH]; intros b q log Hb Hfit.
  - simpl in *. destruct (flush_alone b q log Hb ltac:(lia)) as (log' & Hf).
    exists (Queue.with_in b 0), log'. rewrite app_nil_r.
    unfold Queue.bind, Queue.ret. split; [done|]. split; [done|].
    destruct Hb as (? & ? & ? & ? & ?). unfold Queue.alone. simpl.
    repeat split; try done; lia.
  - simpl in Hfit.
    destruct (buffer_push_alone b q log x Hb ltac:(lia))
      as (b1 & flushed & log1 & Hpush & Hb1 & Hrepr).
    assert (Hlens : (length flushed + Queue.in_ b1 = Queue.in_ b + 1)%nat).
    { apply (f_equal length) in Hrepr. rewrite !length_app in Hrepr.
      rewrite !length_staged in Hrepr by done. simpl in Hrepr. lia. }
    destruct (IH b1 (Queue.appended q flushed) log1 Hb1)
      as (b' & log' & Hrun & Hb').
    { unfold Queue.appended. cbn [Queue.shared Queue.shared_in].
      rewrite length_stored by lia. lia. }
    exists b', log'. split; [|done].
    cbn [Queue.push_all]. unfold Queue.bind in *.
    rewrite Hpush. rewrite Hrun. do 3 f_equal.
    rewrite appended_appended.
    + by rewrite app_assoc, Hrepr, <- app_assoc.
    + rewrite length_app, length_staged by done. lia.
Qed.

(** X7. On a job of one rank, a [QueueBuffer] hands every item on, in
    order: after any number of [push_back]s, whatever the size of the
    buffer, and a final [flush], the shared queue holds the pushed
    items at its [shared_in], which has advanced by their number; the
    lock is free again and the buffer is empty. The room that the
    pushes need in the shared queue is not checked by the code. *)
Theorem buffer_hands_on_in_order (fresh xs : list T) q log :
  (0 < length fresh)%nat →
  (Queue.shared_in q + length xs ≤ length (Queue.shared q))%nat →
  ∃ b' log',
    Queue.bind (Queue.push_all (Queue.new_buffer fresh 0 1) xs) Queue.flush
      (Queue.mkWorld [q] false log)
    = Some (b', Queue.mkWorld [Queue.appended q xs] false log')
    ∧ Queue.in_ b' = 0%nat.
Proof.
  intros Hfresh Hfit.
  destruct (push_all_alone xs (Queue.new_buffer fresh 0 1) q log)
    as (b' & log' & Hrun & Hin & _).
  - unfold Queue.alone. simpl. repeat split; try done; lia.
  - simpl. lia.
  - exists b', log'. split; [|done]. rewrite Hrun. done.
Qed.

End BufferAlone.

Lemma buffer_hands_on_in_order_witness :
  ∃ b' log',
    Queue.bind (Queue.push_all (Queue.new_buffer [0; 0] 0 1) [7; 8; 9])
      Queue.flush (Queue.mkWorld [Queue.new 0 4] false [])
    = Some (b', Queue.mkWorld [Queue.appended (Queue.new 0 4) [7; 8; 9]]
                  false log')
    ∧ Queue.in_ b' = 0%nat.
Proof.
  apply (buffer_hands_on_in_order [0; 0] [7; 8; 9] (Queue.new 0 4) []).
  - simpl. lia.
  - simpl. lia.
Defined.

(* ================================================================== *)
(** * The rest of the breadth-first search (bfs.cc) *)
(* ================================================================== *)

(** ** The initial parent array *)

(** The slots that [InitParent] fills, and when its write of the source
    leaves the array. *)
Lemma InitParent_spec g source pe npes fresh :
  1 ≤ npes → npes ≤ Graph.num_nodes g →
  Graph.num_nodes g ≤ CInt.int_max →
  0 ≤ pe < npes → 0 ≤ source < Graph.num_nodes g →
  Z.of_nat (length fresh)
  = Graph.num_nodes g - (npes - 1) * (Graph.num_nodes g `div` npes) →
  let offset := Graph.num_nodes g `div` npes in
  let start := pe * offset in
  let end_ := if decide (pe = npes - 1) then Graph.num_nodes g
              else start + offset in
  (BFS.InitParent g source pe npes fresh = None
   ↔ pe < npes - 1 ∧ source = end_ ∧ Graph.num_nodes g `mod` npes = 0)
  ∧ ∀ parent,
      BFS.InitParent g source pe npes fresh = Some parent →
      length parent = length fresh
      ∧ ∀ v, start ≤ v < end_ →
          lookupZ parent (v - start)
          = Some (if decide (v = source) then source
                  else if decide (Graph.out_degree g v ≠ 0)
                       then - Graph.out_degree g v else -1).
Proof.
  intros Hp Hn Hmax Hpe Hsrc Hfresh offset start end_.
  unfold BFS.NodeID in *.
  set (n := Graph.num_nodes g) in *.
  assert (Hoff : 1 ≤ offset) by (apply Z.div_le_lower_bound; lia).
  assert (Hon : offset * npes ≤ n).
  { unfold offset. rewrite Z.mul_comm. apply Z.mul_div_le. lia. }
  assert (Hmod : n `mod` npes = n - npes * offset).
  { unfold offset. rewrite Z.mod_eq by lia. done. }
  assert (Hse : 0 ≤ start ∧ start ≤ end_ ∧ end_ ≤ n
                ∧ end_ - start ≤ Z.of_nat (length fresh)).
  { unfold start, end_. case_decide; nia. }
  destruct Hse as (Hs0 & Hse & Hen & Hwidth).
  assert (Hoffeq : Bounds.offset n npes = Some offset)
    by (apply offset_Some; lia).
  unfold BFS.InitParent. unfold BFS.NodeID in *. fold n.
  rewrite Hoffeq. simpl.
  unfold CInt.int_max in Hmax.
  rewrite (wrap_small (offset * pe))
    by (unfold CInt.int_min, CInt.int_max; nia).
  rewrite (wrap_small n) by (unfold CInt.int_min, CInt.int_max; lia).
  replace (offset * pe) with start by (unfold start; lia).
  rewrite (wrap_small (start + offset))
    by (unfold CInt.int_min, CInt.int_max, start; nia).
  fold end_. unfold alloc. rewrite decide_True by done. simpl.
  set (init := λ v, if decide (Graph.out_degree g v ≠ 0)
                    then - Graph.out_degree g v else -1).
  destruct (foldM_seqZ
              (λ parent v, storeZ parent (v - start) (init v))
              (λ i parent,
                 length parent = length fresh
                 ∧ ∀ v, start ≤ v < i →
                     lookupZ parent (v - start) = Some (init v))
              start (end_ - start) fresh)
    as (filled & Hrun & Hlen & Hfilled).
  - lia.
  - split; [done|]. intros v Hv. lia.
  - intros i parent Hi [Hl Hdone].
    assert (Hst : storeZ parent (i - start) (init i)
                  = Some (<[Z.to_nat (i - start) := init i]> parent))
      by (apply storeZ_Some; lia).
    eexists. split; [exact Hst|]. split; [by rewrite length_insert|].
    intros v Hv. destruct (decide (v = i)) as [->|Hne].
    + by apply (lookupZ_storeZ_eq _ _ _ _ Hst).
    + rewrite (lookupZ_storeZ_ne _ _ _ _ _ Hst) by lia. apply Hdone. lia.
  - replace (start + (end_ - start)) with end_ in Hfilled by lia.
    unfold init in Hrun. rewrite Hrun. simpl.
    destruct (decide (start ≤ source ∧ source ≤ end_)) as [Hin|Hout].
    + destruct (decide (source - start < Z.of_nat (length filled)))
        as [Hfit|Hpast].
      * rewrite storeZ_Some by lia. split.
        { split; [done|]. intros (Hlast & Hs & Hm). exfalso.
          unfold end_ in Hs. rewrite decide_False in Hs by lia.
          rewrite Hlen in Hfit. lia. }
        intros parent [= <-]. split; [by rewrite length_insert|].
        intros v Hv. destruct (decide (v = source)) as [->|Hne].
        { apply lookupZ_Some. split; [lia|].
          apply list_lookup_insert_eq. lia. }
        unfold lookupZ. rewrite decide_True by lia.
        rewrite list_lookup_insert_ne by lia.
        specialize (Hfilled v Hv). unfold lookupZ in Hfilled.
        by rewrite decide_True in Hfilled by lia.
      * unfold storeZ. rewrite decide_False by lia. split; [|done].
        split; [|done]. intros _. rewrite Hlen in Hpast.
        unfold end_ in *. case_decide; [lia|].
        split; [lia|]. split; lia.
    + split.
      { split; [done|]. intros (Hlast & Hs & Hm). lia. }
      intros parent [= <-]. split; [done|].
      intros v Hv. rewrite decide_False by lia. by apply Hfilled.
Qed.

(** X8. [InitParent] on rank [pe] fills the slots of the vertices of
    the rank: the slot of the source holds the source, the slot of any
    other vertex [v] holds [-out_degree(v)], or [-1] when [v] has no
    outgoing edge, so that it is negative. The test for the source,
    [source <= end], includes the first vertex of the next rank: when
    the source is that vertex, the rank writes it into slot [end -
    start], which lies past the array when [npes] divides [num_nodes]
    (the array has then no slot to spare), and in no other case does
    the function leave the array. *)
Theorem InitParent_slots g source pe npes fresh :
  1 ≤ npes → npes ≤ Graph.num_nodes g →
  Graph.num_nodes g ≤ CInt.int_max →
  0 ≤ pe < npes → 0 ≤ source < Graph.num_nodes g →
  Z.of_nat (length fresh)
  = Graph.num_nodes g - (npes - 1) * (Graph.num_nodes g `div` npes) →
  let offset := Graph.num_nodes g `div` npes in
  let start := pe * offset in
  let end_ := if decide (pe = npes - 1) then Graph.num_nodes g
              else start + offset in
  (BFS.InitParent g source pe npes fresh = None
   ↔ pe < npes - 1 ∧ source = end_ ∧ Graph.num_nodes g `mod` npes = 0)
  ∧ ∀ parent,
      BFS.InitParent g source pe npes fresh = Some parent →
      length parent = length fresh
      ∧ ∀ v, start ≤ v < end_ →
          lookupZ parent (v - start)
          = Some (if decide (v = source) then source
                  else if decide (Graph.out_degree g v ≠ 0)
                       then - Graph.out_degree g v else -1).
Proof. apply InitParent_spec. Qed.

Lemma InitParent_slots_witness :
  (BFS.InitParent Scenario.path6 3 0 2 [9; 9; 9] = None
   ↔ 0 < 2 - 1 ∧ 3 = (if decide (0 = 2 - 1) then 6 else 0 * 3 + 3)
     ∧ 6 `mod` 2 = 0)
  ∧ BFS.InitParent Scenario.path6 3 1 2 [9; 9; 9] = Some [3; -2; -1].
Proof.
  destruct (InitParent_slots Scenario.path6 3 0 2 [9; 9; 9]) as [H _];
    [lia|by vm_compute|by vm_compute|lia|by vm_compute|reflexivity|].
  split; [exact H|reflexivity].
Defined.

(** Arithmetic in the presence of [NodeID]. *)
Ltac nlia := unfold BFS.NodeID in *; lia.

(** ** Bitmaps *)

Section BitmapFacts.

Implicit Types (bm : Bitmap.Bitmap) (pos q : Z).

Lemma testbit_one k : Z.testbit 1 k = bool_decide (k = 0).
Proof.
  destruct k as [|p|p]; [done| |done].
  rewrite bool_decide_eq_false_2 by lia. by destruct p.
Qed.

Lemma length_set_bit bm pos : length (Bitmap.set_bit bm pos) = length bm.
Proof.
  unfold Bitmap.set_bit.
  destruct (lookupZ bm (Bitmap.word_offset pos)) as [word|] eqn:Hw; [|done].
  destruct (storeZ bm _ _) as [bm'|] eqn:Hs; [|done]. simpl.
  by apply storeZ_length in Hs.
Qed.

Lemma get_bit_set_bit bm pos q :
  0 ≤ pos < 64 * Z.of_nat (length bm) →
  Bitmap.get_bit (Bitmap.set_bit bm pos) q
  = if decide (q = pos) then true else Bitmap.get_bit bm q.
Proof.
  intros Hpos. unfold Bitmap.set_bit, Bitmap.get_bit, Bitmap.word_offset,
    Bitmap.bit_offset, Bitmap.kBitsPerWord. unfold Bitmap.Bitmap in *.
  assert (Hwo : 0 ≤ pos `div` 64 < Z.of_nat (length bm)).
  { split; [apply Z.div_pos; lia|]. apply Z.div_lt_upper_bound; lia. }
  destruct (lookupZ_is_Some bm _ Hwo) as [word Hword]. rewrite Hword.
  rewrite storeZ_Some by done. simpl.
  pose proof (Z.mod_pos_bound pos 64 ltac:(lia)) as Hbo.
  pose proof (Z.mod_pos_bound q 64 ltac:(lia)) as Hqo.
  pose proof (Z.div_mod pos 64 ltac:(lia)) as Hp.
  pose proof (Z.div_mod q 64 ltac:(lia)) as Hq.
  assert (Hst : storeZ bm (pos `div` 64)
                  (Z.lor word (Z.shiftl 1 (pos `mod` 64)))
                = Some (<[Z.to_nat (pos `div` 64) :=
                            Z.lor word (Z.shiftl 1 (pos `mod` 64))]> bm))
    by (by apply storeZ_Some).
  destruct (decide (q `div` 64 = pos `div` 64)) as [Hsame|Hdiff].
  - rewrite Hsame, (lookupZ_storeZ_eq _ _ _ _ Hst), Hword. simpl.
    rewrite Z.lor_spec, Z.shiftl_spec by lia. rewrite testbit_one.
    destruct (decide (q = pos)) as [->|Hne].
    + rewrite Z.sub_diag. by rewrite orb_true_r.
    + rewrite bool_decide_eq_false_2 by lia. by rewrite orb_false_r.
  - rewrite (lookupZ_storeZ_ne _ _ _ _ _ Hst) by done.
    by rewrite decide_False by (intros ->; done).
Qed.

Lemma length_reset bm : length (Bitmap.reset bm) = length bm.
Proof. unfold Bitmap.reset. by rewrite length_replicate. Qed.

Lemma get_bit_reset bm q : Bitmap.get_bit (Bitmap.reset bm) q = false.
Proof.
  unfold Bitmap.get_bit, Bitmap.reset.
  destruct (lookupZ (replicate (length bm) 0) (Bitmap.word_offset q))
    as [word|] eqn:Hw; simpl; [|apply Z.testbit_0_l].
  apply lookupZ_Some in Hw as [_ Hw].
  apply lookup_replicate in Hw as [-> _]. apply Z.testbit_0_l.
Qed.

Lemma create_reset size : Bitmap.reset (Bitmap.create size) = Bitmap.create size.
Proof. unfold Bitmap.reset, Bitmap.create. by rewrite length_replicate. Qed.

Lemma get_bit_create size q : Bitmap.get_bit (Bitmap.create size) q = false.
Proof. rewrite <- create_reset. apply get_bit_reset. Qed.

Lemma create_covers size :
  0 ≤ size → size ≤ 64 * Z.of_nat (length (Bitmap.create size)).
Proof.
  intros Hs. unfold Bitmap.create, Bitmap.kBitsPerWord.
  rewrite length_replicate.
  pose proof (Z.div_pos (size + 64 - 1) 64 ltac:(lia) ltac:(lia)).
  rewrite Z2Nat.id by done.
  pose proof (Z.mul_succ_div_gt (size + 64 - 1) 64 ltac:(lia)). lia.
Qed.

End BitmapFacts.

(** ** The bottom-up step *)

Section BottomUp.

Variable g : BFS.Graph.

Let n := Graph.num_nodes g.

Implicit Types (parent : list BFS.NodeID) (front next : Bitmap.Bitmap).

Lemma first_in_front_spec front vs :
  match BFS.first_in_front front vs with
  | Some v => v ∈ vs ∧ Bitmap.get_bit front v = true
  | None => ∀ v, v ∈ vs → Bitmap.get_bit front v = false
  end.
Proof.
  induction vs as [|v vs IH]; simpl.
  - by intros v ?%elem_of_nil.
  - destruct (Bitmap.get_bit front v) eqn:Hv; [split; [left|done]|].
    destruct (BFS.first_in_front front vs) as [w|].
    + destruct IH. split; [by right|done].
    + intros w [->|Hw]%elem_of_cons; [done|by apply IH].
Qed.

Lemma filter_seqZ_S (P : Z → Prop) `{!∀ x, Decision (P x)} i :
  0 ≤ i →
  filter P (seqZ 0 (i + 1))
  = filter P (seqZ 0 i) ++ (if decide (P i) then [i] else []).
Proof.
  intros Hi. rewrite seqZ_app by lia. rewrite filter_app.
  by rewrite Z.add_0_l, seqZ_one, filter_cons, filter_nil.
Qed.

(** The step as a function of the array and the frontier it is given. *)
Lemma BUStep_wakes parent front next :
  Z.of_nat (length parent) = n → n ≤ 64 * Z.of_nat (length next) →
  ∃ parent' next',
    BFS.BUStep g parent front next
    = Some (Z.of_nat (length (filter (λ u, is_Some (BFS.wakes g parent front u))
                                (seqZ 0 n))),
            parent', next')
    ∧ length parent' = length parent ∧ length next' = length next
    ∧ (∀ u, 0 ≤ u < n →
         lookupZ parent' u
         = match BFS.wakes g parent front u with
           | Some v => Some v
           | None => lookupZ parent u
           end)
    ∧ (∀ u, Bitmap.get_bit next' u
            = bool_decide (0 ≤ u < n ∧ is_Some (BFS.wakes g parent front u))).
Proof.
  intros Hlen Hnext.
  set (woke := λ u, is_Some (BFS.wakes g parent front u)).
  unfold BFS.BUStep. fold n.
  destruct (foldM_seqZ
    (λ '(awake_count, parent, next) u,
       pu ← lookupZ parent u;
       if decide (pu < 0) then
         match BFS.first_in_front front (Graph.in_neigh g u) with
         | Some v =>
             parent ← storeZ parent u v;
             Some (awake_count + 1, parent, Bitmap.set_bit next u)
         | None => Some (awake_count, parent, next)
         end
       else Some (awake_count, parent, next))
    (λ i (s : Z * list BFS.NodeID * Bitmap.Bitmap),
       s.1.1 = Z.of_nat (length (filter woke (seqZ 0 i)))
       ∧ length s.1.2 = length parent ∧ length s.2 = length next
       ∧ (∀ u, 0 ≤ u < n →
            lookupZ s.1.2 u
            = if decide (u < i)
              then match BFS.wakes g parent front u with
                   | Some v => Some v
                   | None => lookupZ parent u
                   end
              else lookupZ parent u)
       ∧ (∀ u, Bitmap.get_bit s.2 u = bool_decide (0 ≤ u < i ∧ woke u)))
    0 n (0, parent, Bitmap.reset next))
    as ([[awake parent'] next'] & Hrun & Hawake & Hlp & Hln & Hpar & Hbits).
  - unfold n. nlia.
  - simpl. split; [done|]. split; [done|]. split; [apply length_reset|].
    split.
    + intros u Hu. by rewrite decide_False by nlia.
    + intros u. rewrite get_bit_reset.
      symmetry. apply bool_decide_eq_false_2. nlia.
  - intros i [[awake par] nxt] Hi (Hawake & Hlp & Hln & Hpar & Hbits).
    simpl in *.
    pose proof (Hpar i ltac:(nlia)) as Hpi. rewrite decide_False in Hpi by nlia.
    destruct (lookupZ_is_Some parent i ltac:(nlia)) as [pu Hpu].
    rewrite Hpi, Hpu. simpl.
    assert (Hw : BFS.wakes g parent front i
                 = if decide (pu < 0)
                   then BFS.first_in_front front (Graph.in_neigh g i)
                   else None).
    { unfold BFS.wakes. by rewrite Hpu. }
    rewrite filter_seqZ_S by nlia. rewrite length_app.
    destruct (decide (pu < 0)) as [Hneg|Hpos].
    + destruct (BFS.first_in_front front (Graph.in_neigh g i)) as [v|] eqn:Hf.
      * assert (Hst : storeZ par i v = Some (<[Z.to_nat i := v]> par))
          by (apply storeZ_Some; nlia).
        rewrite Hst. simpl. eexists. split; [done|]. simpl.
        rewrite decide_True by (unfold woke; rewrite Hw; done).
        split; [simpl; nlia|]. split; [by rewrite length_insert|].
        split; [by rewrite length_set_bit|]. split.
        { intros u Hu. destruct (decide (u = i)) as [->|Hne].
          - rewrite (lookupZ_storeZ_eq _ _ _ _ Hst).
            rewrite decide_True by nlia. by rewrite Hw.
          - rewrite (lookupZ_storeZ_ne _ _ _ _ _ Hst) by done.
            rewrite Hpar by done.
            destruct (decide (u < i)); [by rewrite decide_True by nlia|].
            by rewrite decide_False by nlia. }
        intros u. rewrite get_bit_set_bit by nlia. rewrite Hbits.
        destruct (decide (u = i)) as [->|Hne].
        { symmetry. apply bool_decide_eq_true_2. split; [nlia|].
          unfold woke. by rewrite Hw. }
        apply bool_decide_ext.
        split; intros [? ?]; (split; [nlia|done]).
      * eexists. split; [done|]. simpl.
        rewrite decide_False by (unfold woke; rewrite Hw; by intros [? ?]).
        split; [simpl; nlia|]. split; [done|]. split; [done|]. split.
        { intros u Hu. rewrite Hpar by done.
          destruct (decide (u = i)) as [->|Hne].
          - rewrite decide_False, decide_True by nlia. by rewrite Hw.
          - destruct (decide (u < i)); [by rewrite decide_True by nlia|].
            by rewrite decide_False by nlia. }
        intros u. rewrite Hbits. apply bool_decide_ext.
        split; [intros [? ?]; split; [nlia|done]|].
        intros [? Hwu]. split; [|done].
        destruct (decide (u = i)) as [->|]; [|nlia].
        unfold woke in Hwu. rewrite Hw in Hwu. by destruct Hwu.
    + eexists. split; [done|]. simpl.
      rewrite decide_False by (unfold woke; rewrite Hw; by intros [? ?]).
      split; [simpl; nlia|]. split; [done|]. split; [done|]. split.
      { intros u Hu. rewrite Hpar by done.
        destruct (decide (u = i)) as [->|Hne].
        - rewrite decide_False, decide_True by nlia. by rewrite Hw.
        - destruct (decide (u < i)); [by rewrite decide_True by nlia|].
          by rewrite decide_False by nlia. }
      intros u. rewrite Hbits. apply bool_decide_ext.
      split; [intros [? ?]; split; [nlia|done]|].
      intros [? Hwu]. split; [|done].
      destruct (decide (u = i)) as [->|]; [|nlia].
      unfold woke in Hwu. rewrite Hw in Hwu. by destruct Hwu.
  - simpl in *.
    exists parent', next'. rewrite Hrun, Hawake.
    split; [done|]. split; [done|]. split; [done|]. split.
    + intros u Hu. rewrite Hpar by done. by rewrite decide_True by nlia.
    + intros u. rewrite Hbits. apply bool_decide_ext.
      split; intros [? ?]; (split; [nlia|done]).
Qed.

End BottomUp.

(** X9. [BUStep] on a parent array with a slot for every vertex never
    fails and wakes exactly the vertices without a parent that have an
    incoming neighbour in [front]: such a vertex gets an incoming
    neighbour that is in [front] as its parent and its bit in [next];
    every other vertex keeps its entry and has no bit in [next],
    whatever [next] held before. The count returned is the number of
    vertices woken, which is the number of bits of [next]. *)
Theorem BUStep_wakes_unvisited g parent front next :
  Z.of_nat (length parent) = Graph.num_nodes g →
  Graph.num_nodes g ≤ 64 * Z.of_nat (length next) →
  ∃ awake_count parent' next',
    BFS.BUStep g parent front next = Some (awake_count, parent', next')
    ∧ length parent' = length parent
    ∧ awake_count = Z.of_nat (length (BFS.members g next'))
    ∧ ∀ u pu,
        0 ≤ u < Graph.num_nodes g → lookupZ parent u = Some pu →
        (pu < 0 →
         (∃ v, v ∈ Graph.in_neigh g u ∧ Bitmap.get_bit front v = true) →
         ∃ v, lookupZ parent' u = Some v ∧ v ∈ Graph.in_neigh g u
              ∧ Bitmap.get_bit front v = true
              ∧ Bitmap.get_bit next' u = true)
        ∧ (¬ (pu < 0 ∧ ∃ v, v ∈ Graph.in_neigh g u
                            ∧ Bitmap.get_bit front v = true) →
           lookupZ parent' u = Some pu ∧ Bitmap.get_bit next' u = false).
Proof.
  intros Hlen Hnext.
  destruct (BUStep_wakes g parent front next Hlen Hnext)
    as (parent' & next' & Hrun & Hlp & Hln & Hpar & Hbits).
  eexists _, parent', next'. split; [exact Hrun|]. split; [done|].
  split.
  { f_equal. unfold BFS.members. f_equal. apply filter_ext_Forall.
    apply Forall_forall. intros u Hu%elem_of_seqZ. rewrite Hbits.
    rewrite bool_decide_eq_true. split; [intros ?; split; [lia|done]|].
    by intros [_ ?]. }
  intros u pu Hu Hpu. specialize (Hpar u Hu). rewrite Hbits.
  unfold BFS.wakes in *. rewrite Hpu in *.
  pose proof (first_in_front_spec front (Graph.in_neigh g u)) as Hf.
  split.
  - intros Hneg (v0 & Hv0 & Hbit0). rewrite decide_True in * by done.
    destruct (BFS.first_in_front front (Graph.in_neigh g u)) as [v|].
    + destruct Hf as [Hv Hbit].
      exists v. split; [done|]. split; [done|]. split; [done|].
      apply bool_decide_eq_true_2. split; [lia|done].
    + specialize (Hf v0 Hv0). congruence.
  - intros Hno. destruct (decide (pu < 0)) as [Hneg|Hpos].
    + destruct (BFS.first_in_front front (Graph.in_neigh g u)) as [v|].
      * destruct Hf as [Hv Hbit]. exfalso. apply Hno. split; [done|].
        by exists v.
      * split; [done|]. apply bool_decide_eq_false_2. by intros [_ [? ?]].
    + split; [done|]. apply bool_decide_eq_false_2. by intros [_ [? ?]].
Qed.

Lemma BUStep_wakes_unvisited_witness :
  ∃ awake_count parent' next',
    BFS.BUStep BottomUpRun.one_edge [0; -1] BottomUpRun.front [5]
    = Some (awake_count, parent', next')
    ∧ length parent' = length [0; -1]
    ∧ awake_count = Z.of_nat (length (BFS.members BottomUpRun.one_edge next'))
    ∧ ∀ u pu,
        0 ≤ u < Graph.num_nodes BottomUpRun.one_edge →
        lookupZ [0; -1] u = Some pu →
        (pu < 0 →
         (∃ v, v ∈ Graph.in_neigh BottomUpRun.one_edge u
               ∧ Bitmap.get_bit BottomUpRun.front v = true) →
         ∃ v, lookupZ parent' u = Some v
              ∧ v ∈ Graph.in_neigh BottomUpRun.one_edge u
              ∧ Bitmap.get_bit BottomUpRun.front v = true
              ∧ Bitmap.get_bit next' u = true)
        ∧ (¬ (pu < 0 ∧ ∃ v, v ∈ Graph.in_neigh BottomUpRun.one_edge u
                            ∧ Bitmap.get_bit BottomUpRun.front v = true) →
           lookupZ parent' u = Some pu ∧ Bitmap.get_bit next' u = false).
Proof.
  apply (BUStep_wakes_unvisited BottomUpRun.one_edge [0; -1]
           BottomUpRun.front [5]).
  - reflexivity.
  - vm_compute. discriminate.
Defined.

(** ** Queue to bitmap and back *)

Section Conversions.

Implicit Types (bm : Bitmap.Bitmap) (q : Queue.SlidingQueue BFS.NodeID).
Implicit Types (own : list BFS.NodeID) (ws : list BFS.NodeID).

Lemma set_bits_spec ws bm v :
  Forall (λ u, 0 ≤ u < 64 * Z.of_nat (length bm)) ws →
  length (foldl Bitmap.set_bit_atomic bm ws) = length bm
  ∧ Bitmap.get_bit (foldl Bitmap.set_bit_atomic bm ws) v
    = Bitmap.get_bit bm v || bool_decide (v ∈ ws).
Proof.
  revert bm. induction ws as [|w ws IH]; intros bm Hws; simpl.
  - split; [done|]. by rewrite orb_false_r.
  - apply Forall_cons in Hws as [Hw Hws].
    unfold Bitmap.set_bit_atomic at 2 4.
    destruct (IH (Bitmap.set_bit bm w)) as [Hlen Hbit].
    { by rewrite length_set_bit. }
    rewrite Hlen, Hbit, length_set_bit. split; [done|].
    rewrite get_bit_set_bit by done.
    destruct (decide (v = w)) as [->|Hne].
    + rewrite (bool_decide_eq_true_2 (w ∈ w :: ws)) by left.
      by rewrite orb_true_r.
    + f_equal. apply bool_decide_ext. rewrite elem_of_cons.
      split; [by right|]. by intros [?|?].
Qed.

Lemma QueueToBitmap_bits q bm v :
  Forall (λ u, 0 ≤ u < 64 * Z.of_nat (length bm)) (Queue.window q) →
  length (BFS.QueueToBitmap q bm) = length bm
  ∧ Bitmap.get_bit (BFS.QueueToBitmap q bm) v
    = Bitmap.get_bit bm v || bool_decide (v ∈ Queue.window q).
Proof. apply set_bits_spec. Qed.

Lemma filter_sorted {A} (R : relation A) (P : A → Prop)
    `{!∀ x, Decision (P x)} (l : list A) :
  StronglySorted R l → StronglySorted R (filter P l).
Proof.
  induction 1 as [|x l Hs IH Hx]; [constructor|].
  rewrite filter_cons. case_decide; [|done].
  constructor; [done|].
  rewrite Forall_forall in *. intros y [_ Hy]%list_elem_of_filter. auto.
Qed.

Lemma seqZ_sorted lo len : StronglySorted Z.lt (seqZ lo len).
Proof.
  destruct (decide (0 ≤ len)) as [Hlen|Hlen].
  - rewrite <- (Z2Nat.id len) by done. clear Hlen.
    revert lo. induction (Z.to_nat len) as [|k IH]; intros lo.
    + constructor.
    + rewrite seqZ_cons by lia. constructor.
      * replace (Z.pred (Z.of_nat (S k))) with (Z.of_nat k) by lia. apply IH.
      * apply Forall_forall. intros x Hx%elem_of_seqZ. lia.
  - rewrite seqZ_nil by lia. constructor.
Qed.

Lemma members_spec g bm :
  StronglySorted Z.lt (BFS.members g bm)
  ∧ ∀ v, v ∈ BFS.members g bm
         ↔ 0 ≤ v < Graph.num_nodes g ∧ Bitmap.get_bit bm v = true.
Proof.
  unfold BFS.members. split; [apply filter_sorted, seqZ_sorted|].
  intros v. rewrite list_elem_of_filter, elem_of_seqZ.
  split; intros [? ?]; (split; [lia|done]) || (split; [done|lia]).
Qed.

Lemma sorted_NoDup (l : list Z) : StronglySorted Z.lt l → NoDup l.
Proof.
  induction 1 as [|x l Hs IH Hx]; constructor; [|done].
  intros Hin. rewrite Forall_forall in Hx. specialize (Hx x Hin). lia.
Qed.

(** The pushes of [BitmapToQueue] are those of the vertices whose bit
    is set. *)
Lemma pushes_members bm l lq p f locks :
  foldM (λ '(lq, w) n,
           if Bitmap.get_bit bm n
           then BFS.on_frontier (Queue.buffer_push_back lq n) w
           else Some (lq, w))
        (lq, BFS.mkWorld p f locks) l
  = BFS.on_frontier
      (Queue.push_all lq (filter (λ v, Bitmap.get_bit bm v = true) l))
      (BFS.mkWorld p f locks).
Proof.
  unfold BFS.on_frontier. cbn [BFS.frontier BFS.parent BFS.PLOCKS].
  revert lq f. induction l as [|x l IH]; intros lq f; [done|].
  cbn [foldM]. rewrite filter_cons.
  destruct (Bitmap.get_bit bm x) eqn:Hx.
  - rewrite decide_True by done. cbn [Queue.push_all]. unfold Queue.bind.
    cbn [BFS.frontier BFS.parent BFS.PLOCKS].
    destruct (Queue.buffer_push_back lq x f) as [[lq' f']|]; [|done].
    cbn [mbind option_bind]. by rewrite IH.
  - rewrite decide_False by done. cbn [mbind option_bind]. apply IH.
Qed.

Lemma BitmapToQueue_alone g bm own q log fresh_queue :
  Graph.num_nodes g ≤ CInt.int_max →
  Z.of_nat (length fresh_queue) = BFS.kQueueBufferSize →
  (Queue.shared_in q + length (BFS.members g bm) ≤ length (Queue.shared q))%nat →
  ∃ log',
    BFS.BitmapToQueue g bm (BFS.solo own q log) 0 1 fresh_queue
    = Some (BFS.solo own
              (Queue.slide_window (Queue.appended q (BFS.members g bm))) log').
Proof.
  intros Hmax Hfresh Hroom. unfold BFS.BitmapToQueue.
  assert (Hn0 : 0 ≤ Graph.num_nodes g) by (unfold Graph.num_nodes; lia).
  rewrite offset_Some by lia. rewrite Z.div_1_r. simpl.
  unfold Bounds.lower_bound, Bounds.upper_bound. rewrite Z.mul_0_r.
  rewrite decide_True by done.
  rewrite (wrap_small 0) by done.
  rewrite (wrap_small (Graph.num_nodes g))
    by (unfold CInt.int_min; lia).
  rewrite Z.sub_0_r.
  unfold alloc. rewrite decide_True by done. simpl.
  unfold BFS.solo at 1. rewrite pushes_members. fold (BFS.members g bm).
  destruct (push_all_alone (BFS.members g bm)
              (Queue.new_buffer fresh_queue 0 1) q log)
    as (b' & log' & Hrun & _ & _).
  { unfold Queue.alone. simpl. unfold BFS.kQueueBufferSize in Hfresh.
    repeat split; try done; lia. }
  { simpl. lia. }
  unfold Queue.bind in Hrun. unfold BFS.on_frontier. simpl.
  change (Z.to_nat 0) with 0%nat. change (Z.to_nat 1) with 1%nat.
  change (Queue.staged (Queue.new_buffer fresh_queue 0 1)
          ++ BFS.members g bm) with (BFS.members g bm) in Hrun.
  unfold BFS.NodeID in *.
  destruct (Queue.push_all (Queue.new_buffer fresh_queue 0 1)
              (BFS.members g bm) (Queue.mkWorld [q] false log))
    as [[lq f]|]; [|done].
  simpl. rewrite Hrun. simpl. by exists log'.
Qed.

End Conversions.

(** X10. On a job of one rank, [QueueToBitmap] into a cleared bitmap
    followed by [BitmapToQueue] hands the frontier back in ascending
    order and without duplicates: the window that [BitmapToQueue]
    opens holds exactly the vertices of the window that
    [QueueToBitmap] was given. The check list is only read, the lock is
    free again, and the parent array is untouched. *)
Theorem frontier_round_trip g (bm : Bitmap.Bitmap)
    (q : Queue.SlidingQueue BFS.NodeID) (own : list BFS.NodeID) log
    fresh_queue :
  Graph.num_nodes g ≤ CInt.int_max →
  Graph.num_nodes g ≤ 64 * Z.of_nat (length bm) →
  Z.of_nat (length fresh_queue) = BFS.kQueueBufferSize →
  Forall (λ u, 0 ≤ u < Graph.num_nodes g) (Queue.window q) →
  (Queue.shared_in q + Queue.size q ≤ length (Queue.shared q))%nat →
  ∃ q' log',
    BFS.BitmapToQueue g (BFS.QueueToBitmap q (Bitmap.reset bm))
      (BFS.solo own (Queue.slide_window q) log) 0 1 fresh_queue
    = Some (BFS.solo own q' log')
    ∧ StronglySorted Z.lt (Queue.window q')
    ∧ ∀ v, v ∈ Queue.window q' ↔ v ∈ Queue.window q.
Proof.
  intros Hmax Hbm Hfresh Hws Hroom.
  set (front := BFS.QueueToBitmap q (Bitmap.reset bm)).
  assert (Hbits : ∀ v, Bitmap.get_bit front v = bool_decide (v ∈ Queue.window q)).
  { intros v. unfold front.
    destruct (QueueToBitmap_bits q (Bitmap.reset bm) v) as [_ ->].
    - rewrite length_reset. eapply Forall_impl; [exact Hws|].
      intros u Hu. simpl in Hu. lia.
    - by rewrite get_bit_reset. }
  destruct (members_spec g front) as [Hsorted Hmem].
  assert (Hsame : ∀ v, v ∈ BFS.members g front ↔ v ∈ Queue.window q).
  { intros v. rewrite Hmem, Hbits, bool_decide_eq_true.
    split; [by intros [_ ?]|]. intros Hv. split; [|done].
    rewrite Forall_forall in Hws. by apply Hws. }
  assert (Hlen : (length (BFS.members g front) ≤ Queue.size q)%nat).
  { assert (Hw : (length (Queue.window q) ≤ Queue.size q)%nat).
    { unfold Queue.window. rewrite length_take. lia. }
    etrans; [|exact Hw]. apply submseteq_length, NoDup_submseteq.
    - by apply sorted_NoDup.
    - intros v. by rewrite Hsame. }
  destruct (BitmapToQueue_alone g front own (Queue.slide_window q) log
              fresh_queue Hmax Hfresh) as (log' & Hrun).
  { simpl. lia. }
  eexists _, log'. split; [exact Hrun|].
  assert (Hwin : Queue.window
                   (Queue.slide_window
                      (Queue.appended (Queue.slide_window q)
                         (BFS.members g front)))
                 = BFS.members g front).
  { unfold Queue.window, Queue.size. simpl.
    replace (Queue.shared_in q + length (BFS.members g front)
             - Queue.shared_in q)%nat
      with (length (BFS.members g front)) by lia.
    rewrite drop_app_length' by (rewrite length_take; lia).
    by rewrite take_app_length. }
  rewrite Hwin. done.
Qed.

Lemma frontier_round_trip_witness :
  ∃ q' log',
    BFS.BitmapToQueue Scenario.path6
      (BFS.QueueToBitmap
         (Queue.mkSlidingQueue [4; 1; 4; 0; 0; 0] 3 0 3) (Bitmap.reset [5]))
      (BFS.solo [0; 0; 1; 2; 3; 4]
         (Queue.slide_window (Queue.mkSlidingQueue [4; 1; 4; 0; 0; 0] 3 0 3))
         [])
      0 1 (replicate (Z.to_nat BFS.kQueueBufferSize) 0)
    = Some (BFS.solo [0; 0; 1; 2; 3; 4] q' log')
    ∧ StronglySorted Z.lt (Queue.window q')
    ∧ ∀ v, v ∈ Queue.window q'
           ↔ v ∈ Queue.window (Queue.mkSlidingQueue [4; 1; 4; 0; 0; 0] 3 0 3).
Proof.
  apply (frontier_round_trip Scenario.path6 [5]
           (Queue.mkSlidingQueue [4; 1; 4; 0; 0; 0] 3 0 3)).
  - vm_compute. discriminate.
  - vm_compute. discriminate.
  - by rewrite length_replicate, Z2Nat.id.
  - change (Queue.window (Queue.mkSlidingQueue [4; 1; 4; 0; 0; 0] 3 0 3))
      with [4; 1; 4].
    change (Graph.num_nodes Scenario.path6) with 6.
    repeat (constructor; [lia|]). constructor.
  - unfold Queue.size. simpl. lia.
Defined.

(** ** The top-down step on one rank *)

Lemma td_edge_cases u (s : list BFS.NodeID * list BFS.NodeID * Z) v :
  (∃ curr_val, lookupZ s.1.1 v = Some curr_val ∧ curr_val < 0
     ∧ BFS.td_edge u s v
       = (<[Z.to_nat v := u]> s.1.1, s.1.2 ++ [v],
          CInt.wrap (s.2 + - curr_val)))
  ∨ ((∀ curr_val, lookupZ s.1.1 v = Some curr_val → 0 ≤ curr_val)
     ∧ BFS.td_edge u s v = s).
Proof.
  destruct s as [[parent pushed] scout]. simpl. unfold BFS.td_edge.
  destruct (lookupZ parent v) as [c|]; [|right; split; [by intros|done]].
  case_decide; [left; by exists c|right].
  split; [|done]. intros ? [= <-]. lia.
Qed.

Lemma td_edge_length u (s : list BFS.NodeID * list BFS.NodeID * Z) v :
  length (BFS.td_edge u s v).1.1 = length s.1.1.
Proof.
  destruct (td_edge_cases u s v) as [(c & _ & _ & ->)|[_ ->]]; [|done].
  simpl. by rewrite length_insert.
Qed.

Lemma td_edge_grows u (s : list BFS.NodeID * list BFS.NodeID * Z) v :
  (length s.1.2 ≤ length (BFS.td_edge u s v).1.2)%nat.
Proof.
  destruct (td_edge_cases u s v) as [(c & _ & _ & ->)|[_ ->]]; [|done].
  simpl. rewrite length_app. lia.
Qed.

Lemma td_edges_length u (s : list BFS.NodeID * list BFS.NodeID * Z) vs :
  length (foldl (BFS.td_edge u) s vs).1.1 = length s.1.1.
Proof.
  revert s. induction vs as [|v vs IH]; intros s; [done|].
  simpl. by rewrite IH, td_edge_length.
Qed.

Lemma td_edges_grow u (s : list BFS.NodeID * list BFS.NodeID * Z) vs :
  (length s.1.2 ≤ length (foldl (BFS.td_edge u) s vs).1.2)%nat.
Proof.
  revert s. induction vs as [|v vs IH]; intros s; [done|].
  simpl. etrans; [apply (td_edge_grows u s v)|apply IH].
Qed.

Section TopDown.

Variable g : BFS.Graph.

Let n := Graph.num_nodes g.

Hypothesis Hwf : BFS.well_formed g.
Hypothesis Hmax : n ≤ CInt.int_max.

Implicit Types (s : list BFS.NodeID * list BFS.NodeID * Z).
Implicit Types (q : Queue.SlidingQueue BFS.NodeID) (st : BFS.td_state).

(** The state of the step stands for [s]: the parent array, the
    vertices queued (flushed or staged) and the scout count. *)
Let repr q s st : Prop :=
  ∃ flushed log,
    BFS.td_world st = BFS.solo s.1.1 (Queue.appended q flushed) log
    ∧ Queue.alone (BFS.td_lqueue st)
    ∧ flushed ++ Queue.staged (BFS.td_lqueue st) = s.1.2
    ∧ BFS.td_local_scout st = s.2.

Lemma td_sweep_length us s :
  length (BFS.td_sweep g us s).1.1 = length s.1.1.
Proof.
  revert s. induction us as [|u us IH]; intros s; [done|].
  unfold BFS.td_sweep in *. simpl. by rewrite IH, td_edges_length.
Qed.

Lemma td_sweep_grows us s :
  (length s.1.2 ≤ length (BFS.td_sweep g us s).1.2)%nat.
Proof.
  revert s. induction us as [|u us IH]; intros s; [done|].
  unfold BFS.td_sweep in *. simpl.
  etrans; [apply (td_edges_grow u s)|apply IH].
Qed.

Lemma td_sweep_app us1 us2 s :
  BFS.td_sweep g (us1 ++ us2) s = BFS.td_sweep g us2 (BFS.td_sweep g us1 s).
Proof. unfold BFS.td_sweep. apply foldl_app. Qed.

(** The body of the inner loop. *)
Lemma TDStep_visit_alone q po u s st v :
  repr q s st → Z.of_nat (length s.1.1) = n → 0 ≤ v < n →
  (Queue.shared_in q + length (BFS.td_edge u s v).1.2
   ≤ length (Queue.shared q))%nat →
  ∃ st', BFS.TDStep_visit 0 1 0 n po u st v = Some st'
         ∧ repr q (BFS.td_edge u s v) st'.
Proof using Hwf Hmax.
  intros (flushed & log & Hw & Hb & Hpushed & Hscout) Hlen Hv Hroom.
  destruct st as [w b scout]. simpl in Hw, Hb, Hpushed, Hscout. subst w scout.
  unfold repr, BFS.TDStep_visit, BFS.solo. rewrite decide_True by lia.
  cbn [BFS.td_world BFS.td_lqueue BFS.td_local_scout BFS.parent].
  rewrite Z.sub_0_r, lookupZ_singleton. cbn [mbind option_bind].
  destruct (td_edge_cases u s v) as [(c & Hc & Hneg & Hedge)|[Hpos Hedge]];
    unfold BFS.NodeID in *.
  - rewrite Hc. cbn [mbind option_bind]. rewrite decide_True by done.
    unfold BFS.shmem_int_atomic_compare_swap. cbn [BFS.parent].
    unfold BFS.NodeID in *.
    rewrite lookupZ_singleton. cbn [mbind option_bind].
    rewrite Hc. cbn [mbind option_bind]. rewrite decide_True by done.
    assert (Hst : storeZ s.1.1 v u = Some (<[Z.to_nat v := u]> s.1.1))
      by (apply storeZ_Some; nlia).
    rewrite Hst. cbn [mbind option_bind].
    unfold BFS.with_parent. cbn [BFS.parent BFS.frontier BFS.PLOCKS].
    unfold BFS.NodeID in *. rewrite storeZ_singleton.
    cbn [mbind option_bind]. rewrite decide_True by lia.
    rewrite Hedge in Hroom. simpl in Hroom. rewrite length_app in Hroom.
    simpl in Hroom.
    assert (Hlp : (length flushed + Queue.in_ b = length s.1.2)%nat).
    { rewrite <- Hpushed, length_app, length_staged by done. done. }
    destruct (buffer_push_alone b (Queue.appended q flushed) log v Hb)
      as (b' & more & log' & Hpush & Hb' & Hrepr).
    { unfold Queue.appended. cbn [Queue.shared Queue.shared_in].
      rewrite length_stored by lia. lia. }
    assert (Hlens : (length more + Queue.in_ b' = Queue.in_ b + 1)%nat).
    { apply (f_equal length) in Hrepr. rewrite !length_app in Hrepr.
      rewrite !length_staged in Hrepr by done. simpl in Hrepr. lia. }
    unfold BFS.on_frontier. cbn [BFS.parent BFS.frontier BFS.PLOCKS].
    unfold BFS.NodeID in *. rewrite Hpush. cbn [mbind option_bind].
    eexists. split; [done|]. rewrite Hedge.
    exists (flushed ++ more), log'. simpl. split.
    { do 3 f_equal. rewrite appended_appended by lia. done. }
    split; [done|]. split; [|done].
    by rewrite <- app_assoc, Hrepr, app_assoc, Hpushed.
  - destruct (lookupZ_is_Some s.1.1 v ltac:(nlia)) as [c Hc].
    rewrite Hc. cbn [mbind option_bind].
    rewrite decide_False by (specialize (Hpos c Hc); lia).
    eexists. split; [done|]. rewrite Hedge.
    by exists flushed, log.
Qed.

(** The inner loop. *)
Lemma TDStep_edges_alone q po u vs s st :
  repr q s st → Z.of_nat (length s.1.1) = n →
  Forall (λ v, 0 ≤ v < n) vs →
  (Queue.shared_in q + length (foldl (BFS.td_edge u) s vs).1.2
   ≤ length (Queue.shared q))%nat →
  ∃ st', foldM (BFS.TDStep_visit 0 1 0 n po u) st vs = Some st'
         ∧ repr q (foldl (BFS.td_edge u) s vs) st'.
Proof using Hwf Hmax.
  revert s st. induction vs as [|v vs IH]; intros s st Hr Hlen Hvs Hroom.
  - by exists st.
  - apply Forall_cons in Hvs as [Hv Hvs]. simpl in Hroom.
    destruct (TDStep_visit_alone q po u s st v Hr Hlen Hv) as (st1 & Hrun1 & Hr1).
    { pose proof (td_edges_grow u (BFS.td_edge u s v) vs). lia. }
    cbn [foldM]. rewrite Hrun1. cbn [mbind option_bind].
    apply IH; try done. by rewrite td_edge_length.
Qed.

Lemma window_lookup q (i : nat) :
  (Queue.shared_out_start q ≤ Queue.shared_out_end q)%nat →
  (i < Queue.size q)%nat →
  Queue.window q !! i = Queue.shared q !! (Queue.shared_out_start q + i)%nat.
Proof.
  intros Hse Hi. unfold Queue.window.
  rewrite lookup_take_lt by done. by rewrite lookup_drop.
Qed.

Lemma appended_lookup q items (k : nat) :
  (k < Queue.shared_in q)%nat →
  (Queue.shared_in q ≤ length (Queue.shared q))%nat →
  Queue.shared (Queue.appended q items) !! k = Queue.shared q !! k.
Proof.
  intros Hk Hin. unfold Queue.appended. simpl.
  rewrite lookup_app_l by (rewrite length_take; lia).
  by rewrite lookup_take_lt.
Qed.

(** The step as a function of the window it is given. *)
Lemma SHMEM_TDStep_alone (own : list BFS.NodeID) q
    (log : list (Queue.event BFS.NodeID)) (fresh_queue : list BFS.NodeID)
    (scout0 : Z) :
  Z.of_nat (length own) = n →
  Z.of_nat (length fresh_queue) = BFS.kQueueBufferSize →
  (Queue.shared_out_start q ≤ Queue.shared_out_end q)%nat →
  (Queue.shared_out_end q ≤ Queue.shared_in q)%nat →
  Z.of_nat (length (Queue.shared q)) ≤ CInt.int_max →
  (Queue.shared_in q
   + length (BFS.td_sweep g (Queue.window q) (own, [], scout0)).1.2
   ≤ length (Queue.shared q))%nat →
  ∃ log',
    BFS.SHMEM_TDStep g (BFS.solo own q log) 0 1 fresh_queue [scout0]
    = Some (CInt.wrap
              ((BFS.td_sweep g (Queue.window q) (own, [], scout0)).2 + 0),
            BFS.solo (BFS.td_sweep g (Queue.window q) (own, [], scout0)).1.1
              (Queue.appended q
                 (BFS.td_sweep g (Queue.window q) (own, [], scout0)).1.2)
              log').
Proof using Hwf Hmax.
  intros Hown Hfresh Hse Hei Hcap Hroom.
  assert (Hn0 : 0 ≤ n) by (unfold n, Graph.num_nodes; lia).
  set (final := BFS.td_sweep g (Queue.window q) (own, [], scout0)) in *.
  assert (Hsize : (Queue.size q ≤ length (Queue.shared q))%nat).
  { pose proof (td_sweep_grows (Queue.window q) (own, [], scout0)).
    unfold Queue.size. lia. }
  assert (Hwlen : length (Queue.window q) = Queue.size q).
  { unfold Queue.window. rewrite length_take, length_drop.
    unfold Queue.size in *. lia. }
  unfold BFS.SHMEM_TDStep. unfold BFS.NodeID in *.
  rewrite lookupZ_singleton. cbn [mbind option_bind].
  unfold alloc. rewrite decide_True by done. cbn [mbind option_bind].
  unfold BFS.solo. cbn [BFS.frontier Queue.queues].
  rewrite lookupZ_singleton. cbn [mbind option_bind].
  rewrite div_Some by lia. cbn [fmap option_fmap option_map mbind option_bind].
  fold n. rewrite offset_Some by lia. cbn [mbind option_bind].
  unfold Bounds.lower_bound, Bounds.upper_bound.
  rewrite !Z.mul_0_r. rewrite !decide_True by done.
  rewrite (wrap_small 0) by done.
  rewrite (wrap_small n) by (unfold CInt.int_min; lia).
  rewrite (wrap_small (Z.of_nat (Queue.size q)))
    by (unfold CInt.int_min; lia).
  rewrite Z.sub_0_r.
  (* the loop over the window *)
  destruct (foldM_seqZ
    (λ st i,
       queue ← lookupZ (Queue.queues (BFS.frontier (BFS.td_world st))) 0;
       u ← lookupZ (Queue.shared queue)
             (Z.of_nat (Queue.shared_out_start queue) + i);
       foldM (BFS.TDStep_visit 0 1 0 n (n `div` 1) u) st
         (Graph.out_neigh g u))
    (λ i st,
       repr q (BFS.td_sweep g (take (Z.to_nat i) (Queue.window q))
                 (own, [], scout0)) st)
    0 (Z.of_nat (Queue.size q))
    (BFS.mkTd (BFS.solo own q log)
       (Queue.new_buffer fresh_queue (Z.to_nat 0) (Z.to_nat 1)) scout0))
    as (st & Hrun & Hrepr).
  - lia.
  - simpl. exists [], log. simpl.
    split; [by rewrite appended_nil by lia|].
    split; [|done]. unfold Queue.alone. simpl.
    unfold BFS.kQueueBufferSize in Hfresh. repeat split; try done; lia.
  - intros i st Hi Hr.
    set (s := BFS.td_sweep g (take (Z.to_nat i) (Queue.window q))
                (own, [], scout0)) in *.
    pose proof Hr as (flushed & log1 & Hw & Hb & Hpushed & Hscout).
    destruct (lookup_lt_is_Some_2 (Queue.window q) (Z.to_nat i)) as [u Hu];
      [lia|].
    assert (Hlook : lookupZ (Queue.shared (Queue.appended q flushed))
                      (Z.of_nat (Queue.shared_out_start
                                   (Queue.appended q flushed)) + i)
                    = Some u).
    { apply lookupZ_Some. split; [lia|].
      replace (Z.to_nat (Z.of_nat (Queue.shared_out_start
                                     (Queue.appended q flushed)) + i))
        with (Queue.shared_out_start q + Z.to_nat i)%nat by (simpl; lia).
      rewrite appended_lookup by (unfold Queue.size in *; nlia).
      rewrite <- window_lookup by (done || nlia). done. }
    assert (Hstep : BFS.td_sweep g (take (Z.to_nat (i + 1)) (Queue.window q))
                      (own, [], scout0)
                    = foldl (BFS.td_edge u) s (Graph.out_neigh g u)).
    { replace (Z.to_nat (i + 1)) with (S (Z.to_nat i)) by lia.
      rewrite (take_S_r _ _ u) by done. by rewrite td_sweep_app. }
    destruct (TDStep_edges_alone q (n `div` 1) u (Graph.out_neigh g u) s st)
      as (st' & Hrun' & Hr'); try done.
    { unfold s. rewrite td_sweep_length. done. }
    { apply Forall_forall. intros v Hv. by apply (out_neigh_range g u v). }
    { rewrite <- Hstep.
      assert (Hfin : final
                     = BFS.td_sweep g (drop (Z.to_nat (i + 1)) (Queue.window q))
                         (BFS.td_sweep g
                            (take (Z.to_nat (i + 1)) (Queue.window q))
                            (own, [], scout0))).
      { unfold final. rewrite <- td_sweep_app. by rewrite take_drop. }
      pose proof (td_sweep_grows (drop (Z.to_nat (i + 1)) (Queue.window q))
                    (BFS.td_sweep g (take (Z.to_nat (i + 1)) (Queue.window q))
                       (own, [], scout0))) as Hg.
      rewrite <- Hfin in Hg. nlia. }
    exists st'. split; [|by rewrite Hstep].
    rewrite Hw. unfold BFS.solo. cbn [BFS.frontier Queue.queues].
    unfold BFS.NodeID in *. rewrite lookupZ_singleton.
    cbn [mbind option_bind]. rewrite Hlook. done.
  - replace (0 + Z.of_nat (Queue.size q)) with (Z.of_nat (Queue.size q))
      in Hrepr by lia.
    rewrite Nat2Z.id, <- Hwlen, firstn_all in Hrepr. fold final in Hrepr.
    destruct Hrepr as (flushed & log1 & Hw & Hb & Hpushed & Hscout).
    change (flushed ++ Queue.staged (BFS.td_lqueue st) = final.1.2) in Hpushed.
    change (BFS.td_local_scout st = final.2) in Hscout.
    change (BFS.td_world st
            = BFS.solo final.1.1 (Queue.appended q flushed) log1) in Hw.
    destruct (flush_alone (BFS.td_lqueue st) (Queue.appended q flushed) log1 Hb)
      as (log' & Hflush).
    { unfold Queue.appended. cbn [Queue.shared Queue.shared_in].
      rewrite length_stored.
      - assert (length flushed + Queue.in_ (BFS.td_lqueue st)
                = length final.1.2)%nat.
        { rewrite <- Hpushed, length_app, length_staged by done. done. }
        nlia.
      - assert (length flushed ≤ length final.1.2)%nat.
        { rewrite <- Hpushed, length_app. lia. }
        nlia. }
    exists log'. unfold BFS.solo in Hrun. unfold BFS.NodeID in *.
    rewrite Hrun. cbn [mbind option_bind].
    unfold BFS.on_frontier. rewrite Hw.
    unfold BFS.solo. cbn [BFS.frontier BFS.parent BFS.PLOCKS].
    unfold BFS.NodeID in *. rewrite Hflush. cbn [mbind option_bind].
    rewrite storeZ_singleton.
    cbn [mbind option_bind foldr]. rewrite Hscout.
    do 5 f_equal.
    rewrite appended_appended.
    + by rewrite Hpushed.
    + assert (length flushed + length (Queue.staged (BFS.td_lqueue st))
              = length final.1.2)%nat.
      { by rewrite <- Hpushed, length_app. }
      nlia.
Qed.

End TopDown.

(** ** What the top-down step visits *)

Lemma wrap_wrap_add a b : CInt.wrap (CInt.wrap a + b) = CInt.wrap (a + b).
Proof.
  unfold CInt.wrap. f_equal.
  replace ((a + 2 ^ 31) `mod` 2 ^ 32 - 2 ^ 31 + b + 2 ^ 31)
    with ((a + 2 ^ 31) `mod` 2 ^ 32 + b) by lia.
  rewrite Z.add_mod_idemp_l by lia. f_equal. lia.
Qed.

Lemma out_neigh_source (g : BFS.Graph) u v :
  v ∈ Graph.out_neigh g u → 0 ≤ u < Graph.num_nodes g.
Proof.
  unfold Graph.out_neigh, Graph.num_nodes. intros Hv.
  destruct (lookupZ (Graph.out_neighbors g) u) as [range|] eqn:Hu.
  - by apply lookupZ_lt in Hu.
  - simpl in Hv. by apply elem_of_nil in Hv.
Qed.

Lemma elem_of_edges_from (g : BFS.Graph) us u v :
  (u, v) ∈ BFS.edges_from g us ↔ u ∈ us ∧ v ∈ Graph.out_neigh g u.
Proof.
  unfold BFS.edges_from. rewrite list_elem_of_bind. split.
  - intros (u' & Hv & Hu). apply list_elem_of_fmap in Hv as (v' & [= -> ->] & Hv).
    done.
  - intros [Hu Hv]. exists u. split; [|done].
    apply list_elem_of_fmap. by exists v.
Qed.

Lemma td_sweep_edges (g : BFS.Graph) us s :
  BFS.td_sweep g us s
  = foldl (λ s e, BFS.td_edge e.1 s e.2) s (BFS.edges_from g us).
Proof.
  unfold BFS.td_sweep, BFS.edges_from. revert s.
  induction us as [|u us IH]; intros s; [done|].
  csimpl. rewrite foldl_app, <- IH. f_equal.
  generalize (Graph.out_neigh g u). intros vs. revert s.
  induction vs as [|v vs IHv]; intros s; [done|]. csimpl. by rewrite IHv.
Qed.

Lemma unvisited_insert (p : list Z) v c u :
  lookupZ p v = Some c → c < 0 → 0 ≤ u →
  (length (filter (λ c : Z, (c < 0)%Z) (<[Z.to_nat v := u]> p)) + 1
   = length (filter (λ c : Z, (c < 0)%Z) p))%nat.
Proof.
  intros Hc Hneg Hu. apply lookupZ_Some in Hc as [Hv Hc].
  rewrite insert_take_drop by (by eapply lookup_lt_Some).
  rewrite <- (take_drop_middle p (Z.to_nat v) c) at 3 by done.
  rewrite !filter_app, !length_app.
  rewrite (filter_cons_False _ u) by lia.
  rewrite (filter_cons_True _ c) by done. simpl. lia.
Qed.

Lemma wrap_add_l a a' b :
  CInt.wrap a = CInt.wrap a' → CInt.wrap (a + b) = CInt.wrap (a' + b).
Proof. intros H. by rewrite <- wrap_wrap_add, H, wrap_wrap_add. Qed.

Lemma wrap_idem a : CInt.wrap (CInt.wrap a) = CInt.wrap a.
Proof.
  transitivity (CInt.wrap (CInt.wrap a + 0)); [by rewrite Z.add_0_r|].
  rewrite wrap_wrap_add. by rewrite Z.add_0_r.
Qed.

Section Sweep.

Variable own : list Z.
Variable scout0 : Z.

Implicit Types (s : list Z * list Z * Z) (es : list (Z * Z)).

(** The sum of [-curr_val] over the vertices queued. *)
Let debt (pushed : list Z) : Z :=
  foldr Z.add 0 ((λ v, - default 0 (lookupZ own v)) <$> pushed).

(** The state after the step has met the edges [es]. *)
Let swept es s : Prop :=
  length s.1.1 = length own
  ∧ NoDup s.1.2
  ∧ (length (filter (λ c : Z, (c < 0)%Z) s.1.1) + length s.1.2
     = length (filter (λ c : Z, (c < 0)%Z) own))%nat
  ∧ (∀ v, v ∈ s.1.2
          ↔ (∃ c, lookupZ own v = Some c ∧ c < 0) ∧ ∃ u, (u, v) ∈ es)
  ∧ (∀ v, v ∈ s.1.2 → ∃ u, lookupZ s.1.1 v = Some u ∧ 0 ≤ u ∧ (u, v) ∈ es)
  ∧ (∀ v, v ∉ s.1.2 → lookupZ s.1.1 v = lookupZ own v)
  ∧ CInt.wrap s.2 = CInt.wrap (scout0 + debt s.1.2).

Lemma swept_start : swept [] (own, [], scout0).
Proof.
  unfold swept. simpl. split; [done|]. split; [constructor|].
  split; [lia|]. split.
  { intros v. split; [by intros ?%elem_of_nil|].
    by intros [_ [u ?%elem_of_nil]]. }
  split; [by intros v ?%elem_of_nil|]. split; [done|].
  unfold debt. simpl. f_equal. lia.
Qed.

Lemma debt_snoc pushed v c :
  lookupZ own v = Some c → debt (pushed ++ [v]) = debt pushed + - c.
Proof.
  intros Hc. unfold debt. rewrite fmap_app, foldr_app. simpl. rewrite Hc.
  simpl. generalize ((λ v0, - default 0 (lookupZ own v0)) <$> pushed).
  intros l. induction l as [|x l IH]; simpl; lia.
Qed.

Lemma swept_step es s u v :
  swept es s → 0 ≤ u → swept (es ++ [(u, v)]) (BFS.td_edge u s v).
Proof.
  intros (Hlen & Hnd & Hcount & Hin & Hpar & Hout & Hscout) Hu.
  assert (Hfresh : ∀ c, lookupZ s.1.1 v = Some c → c < 0 → v ∉ s.1.2).
  { intros c Hc Hneg Hv. destruct (Hpar v Hv) as (u' & Hu' & Hpos & He).
    rewrite Hc in Hu'. injection Hu' as ->. lia. }
  destruct (td_edge_cases u s v) as [(c & Hc & Hneg & ->)|[Hpos ->]].
  - pose proof (Hfresh c Hc Hneg) as Hv.
    assert (Hown : lookupZ own v = Some c) by (by rewrite <- Hout).
    assert (Hst : storeZ s.1.1 v u = Some (<[Z.to_nat v := u]> s.1.1)).
    { apply storeZ_Some. by eapply lookupZ_lt. }
    unfold swept. cbn [fst snd].
    split; [by rewrite length_insert|].
    split.
    { apply NoDup_app. split; [done|]. split; [|apply NoDup_singleton].
      intros x Hx ->%list_elem_of_singleton. done. }
    split.
    { rewrite length_app. simpl.
      pose proof (unvisited_insert s.1.1 v c u Hc Hneg Hu). nlia. }
    split.
    { intros x. rewrite elem_of_app, list_elem_of_singleton, Hin. split.
      - intros [[Hx [u' He]]| ->].
        + split; [done|]. exists u'. apply elem_of_app. by left.
        + split; [by exists c|]. exists u. apply elem_of_app. right.
          by apply list_elem_of_singleton.
      - intros [Hx [u' [He|He%list_elem_of_singleton]%elem_of_app]].
        + left. split; [done|]. by exists u'.
        + right. by injection He. }
    split.
    { intros x [Hx| ->%list_elem_of_singleton]%elem_of_app.
      - destruct (Hpar x Hx) as (u' & Hu' & Hpos & He).
        exists u'. split.
        + rewrite (lookupZ_storeZ_ne _ _ _ _ _ Hst); [done|].
          intros ->. done.
        + split; [done|]. apply elem_of_app. by left.
      - exists u. split; [by apply (lookupZ_storeZ_eq _ _ _ _ Hst)|].
        split; [done|]. apply elem_of_app. right.
        by apply list_elem_of_singleton. }
    split.
    { intros x Hx. rewrite elem_of_app, list_elem_of_singleton in Hx.
      rewrite (lookupZ_storeZ_ne _ _ _ _ _ Hst) by (intros ->; tauto).
      apply Hout. tauto. }
    rewrite wrap_idem, (debt_snoc _ _ c) by done.
    rewrite Z.add_assoc. by apply wrap_add_l.
  - unfold swept. split; [done|]. split; [done|]. split; [done|].
    split.
    { intros x. rewrite Hin. split.
      - intros [Hx [u' He]]. split; [done|]. exists u'.
        apply elem_of_app. by left.
      - intros [Hx [u' [He|He%list_elem_of_singleton]%elem_of_app]].
        + split; [done|]. by exists u'.
        + injection He as -> ->. split; [done|].
          destruct Hx as (c & Hc & Hneg).
          destruct (decide (v ∈ s.1.2)) as [Hv|Hv].
          * apply Hin in Hv as [_ Hv]. done.
          * rewrite <- (Hout v Hv) in Hc. specialize (Hpos c Hc). lia. }
    split.
    { intros x Hx. destruct (Hpar x Hx) as (u' & Hu' & Hp & He).
      exists u'. split; [done|]. split; [done|]. apply elem_of_app. by left. }
    done.
Qed.

Lemma swept_edges es0 es s :
  swept es0 s → Forall (λ e, 0 ≤ e.1) es →
  swept (es0 ++ es) (foldl (λ s e, BFS.td_edge e.1 s e.2) s es).
Proof.
  revert es0 s. induction es as [|[u v] es IH]; intros es0 s Hs Hes.
  - by rewrite app_nil_r.
  - apply Forall_cons in Hes as [Hu Hes]. simpl.
    replace (es0 ++ (u, v) :: es) with ((es0 ++ [(u, v)]) ++ es)
      by (by rewrite <- app_assoc).
    apply IH; [|done]. by apply swept_step.
Qed.

(** The step on the window [us]. *)
Lemma td_sweep_spec (g : BFS.Graph) us :
  let final := BFS.td_sweep g us (own, [], scout0) in
  length final.1.1 = length own
  ∧ NoDup final.1.2
  ∧ (length (filter (λ c : Z, (c < 0)%Z) final.1.1) + length final.1.2
     = length (filter (λ c : Z, (c < 0)%Z) own))%nat
  ∧ (∀ v, v ∈ final.1.2
          ↔ (∃ c, lookupZ own v = Some c ∧ c < 0)
            ∧ ∃ u, u ∈ us ∧ v ∈ Graph.out_neigh g u)
  ∧ (∀ v, v ∈ final.1.2 →
          ∃ u, lookupZ final.1.1 v = Some u ∧ u ∈ us
               ∧ v ∈ Graph.out_neigh g u)
  ∧ (∀ v, v ∉ final.1.2 → lookupZ final.1.1 v = lookupZ own v)
  ∧ CInt.wrap final.2 = CInt.wrap (scout0 + debt final.1.2).
Proof.
  intros final.
  destruct (swept_edges [] (BFS.edges_from g us) (own, [], scout0))
    as (Hlen & Hnd & Hcount & Hin & Hpar & Hout & Hscout).
  { apply swept_start. }
  { apply Forall_forall. intros [u v] [_ Hv]%elem_of_edges_from.
    simpl. by apply out_neigh_source in Hv as [? _]. }
  rewrite <- td_sweep_edges in *. unfold final. clear final.
  simpl in Hin, Hpar.
  split; [done|]. split; [done|]. split; [done|]. split.
  { intros v. rewrite Hin. split.
    - intros [Hc [u Hu%elem_of_edges_from]]. split; [done|]. by exists u.
    - intros [Hc [u Hu]]. split; [done|]. exists u.
      by apply elem_of_edges_from. }
  split; [|done].
  intros v Hv. destruct (Hpar v Hv) as (u & Hu & _ & He).
  apply elem_of_edges_from in He. by exists u.
Qed.

End Sweep.

(** X11. On a job of one rank, [SHMEM_TDStep] visits the neighbours
    of the frontier: a vertex without a parent (negative entry) that an
    edge from a vertex of the window reaches gets such a vertex as its
    parent and is queued, behind the old [shared_in] and exactly once;
    every other vertex keeps its entry and is not queued. The queue
    needs room for the vertices without a parent, which the code does
    not check. The count returned is, in the arithmetic of [int], the
    sum of [-curr_val] over the vertices queued, added to what the
    cell that [shmem_malloc] returned for [local_scout] held: the step
    does not initialise it. *)
Theorem SHMEM_TDStep_visits_neighbours (g : BFS.Graph)
    (own : list BFS.NodeID) (q : Queue.SlidingQueue BFS.NodeID)
    (log : list (Queue.event BFS.NodeID)) (fresh_queue : list BFS.NodeID)
    (scout0 : Z) :
  BFS.well_formed g →
  Graph.num_nodes g ≤ CInt.int_max →
  Z.of_nat (length own) = Graph.num_nodes g →
  Z.of_nat (length fresh_queue) = BFS.kQueueBufferSize →
  (Queue.shared_out_start q ≤ Queue.shared_out_end q)%nat →
  (Queue.shared_out_end q ≤ Queue.shared_in q)%nat →
  Z.of_nat (length (Queue.shared q)) ≤ CInt.int_max →
  (Queue.shared_in q + length (filter (λ c : Z, (c < 0)%Z) own)
   ≤ length (Queue.shared q))%nat →
  ∃ scout own' pushed log',
    BFS.SHMEM_TDStep g (BFS.solo own q log) 0 1 fresh_queue [scout0]
    = Some (scout, BFS.solo own' (Queue.appended q pushed) log')
    ∧ length own' = length own
    ∧ NoDup pushed
    ∧ (length (filter (λ c : Z, (c < 0)%Z) own') + length pushed
       = length (filter (λ c : Z, (c < 0)%Z) own))%nat
    ∧ (∀ v c,
         lookupZ own v = Some c →
         (c < 0 →
          (∃ u, u ∈ Queue.window q ∧ v ∈ Graph.out_neigh g u) →
          v ∈ pushed
          ∧ ∃ u, lookupZ own' v = Some u ∧ u ∈ Queue.window q
                 ∧ v ∈ Graph.out_neigh g u)
         ∧ (¬ (c < 0 ∧ ∃ u, u ∈ Queue.window q ∧ v ∈ Graph.out_neigh g u) →
            lookupZ own' v = Some c ∧ v ∉ pushed))
    ∧ scout = CInt.wrap
                (scout0
                 + foldr Z.add 0
                     ((λ v, - default 0 (lookupZ own v)) <$> pushed)).
Proof.
  intros Hwf Hmax Hown Hfresh Hse Hei Hcap Hroom.
  destruct (td_sweep_spec own scout0 g (Queue.window q))
    as (Hlen & Hnd & Hcount & Hin & Hpar & Hout & Hscout).
  destruct (SHMEM_TDStep_alone g Hwf Hmax own q log fresh_queue scout0)
    as (log' & Hrun); try done.
  { unfold BFS.NodeID in *. lia. }
  eexists _, _, _, log'. split; [exact Hrun|].
  split; [done|]. split; [done|]. split; [done|]. split.
  - intros v c Hc. split.
    + intros Hneg Hedge.
      assert (Hv : v ∈ (BFS.td_sweep g (Queue.window q) (own, [], scout0)).1.2).
      { apply Hin. split; [by exists c|done]. }
      split; [done|]. by apply Hpar.
    + intros Hno.
      assert (Hv : v ∉ (BFS.td_sweep g (Queue.window q) (own, [], scout0)).1.2).
      { intros Hv. apply Hin in Hv as [(c' & Hc' & Hneg) Hedge].
        apply Hno. split; [|done]. unfold BFS.NodeID in *. congruence. }
      split; [by rewrite Hout|done].
  - rewrite Z.add_0_r. done.
Qed.

Lemma SHMEM_TDStep_visits_neighbours_witness :
  ∃ scout own' pushed log',
    BFS.SHMEM_TDStep Scenario.path6
      (BFS.solo [-1; 1; -2; -2; -2; -1]
         (Queue.mkSlidingQueue [1; 0; 0; 0; 0; 0] 1 0 1) [])
      0 1 (replicate (Z.to_nat BFS.kQueueBufferSize) 0) [7]
    = Some (scout,
            BFS.solo own'
              (Queue.appended (Queue.mkSlidingQueue [1; 0; 0; 0; 0; 0] 1 0 1)
                 pushed) log')
    ∧ length own' = length [-1; 1; -2; -2; -2; -1]
    ∧ NoDup pushed
    ∧ (length (filter (λ c : Z, (c < 0)%Z) own') + length pushed
       = length (filter (λ c : Z, (c < 0)%Z) [-1; 1; -2; -2; -2; -1]%Z))%nat
    ∧ (∀ v c,
         lookupZ [-1; 1; -2; -2; -2; -1] v = Some c →
         (c < 0 →
          (∃ u, u ∈ Queue.window
                      (Queue.mkSlidingQueue [1; 0; 0; 0; 0; 0] 1 0 1)
                ∧ v ∈ Graph.out_neigh Scenario.path6 u) →
          v ∈ pushed
          ∧ ∃ u, lookupZ own' v = Some u
                 ∧ u ∈ Queue.window
                         (Queue.mkSlidingQueue [1; 0; 0; 0; 0; 0] 1 0 1)
                 ∧ v ∈ Graph.out_neigh Scenario.path6 u)
         ∧ (¬ (c < 0
               ∧ ∃ u, u ∈ Queue.window
                            (Queue.mkSlidingQueue [1; 0; 0; 0; 0; 0] 1 0 1)
                      ∧ v ∈ Graph.out_neigh Scenario.path6 u) →
            lookupZ own' v = Some c ∧ v ∉ pushed))
    ∧ scout = CInt.wrap
                (7 + foldr Z.add 0
                       ((λ v, - default 0
                                  (lookupZ [-1; 1; -2; -2; -2; -1] v))
                          <$> pushed)).
Proof.
  apply (SHMEM_TDStep_visits_neighbours Scenario.path6
           [-1; 1; -2; -2; -2; -1]
           (Queue.mkSlidingQueue [1; 0; 0; 0; 0; 0] 1 0 1) []
           (replicate (Z.to_nat BFS.kQueueBufferSize) 0) 7).
  - split; [reflexivity|].
    change (Graph.num_nodes Scenario.path6) with 6.
    split; repeat (constructor; [repeat (constructor; [lia|]); constructor|]);
      constructor.
  - vm_compute. discriminate.
  - reflexivity.
  - by rewrite length_replicate, Z2Nat.id.
  - simpl. lia.
  - simpl. lia.
  - vm_compute. discriminate.
  - simpl. lia.
Defined.

(** ** Counting the vertices without a parent *)

Lemma count_visited_from (W : Z → Prop) `{!∀ x, Decision (W x)} ofs
    (l l' : list Z) :
  length l' = length l →
  (∀ (k : nat) c, l !! k = Some c →
     if decide (W (ofs + Z.of_nat k))
     then c < 0 ∧ ∃ c', l' !! k = Some c' ∧ 0 ≤ c'
     else l' !! k = Some c) →
  (length (filter (λ c : Z, (c < 0)%Z) l')
   + length (filter W (seqZ ofs (Z.of_nat (length l))))
   = length (filter (λ c : Z, (c < 0)%Z) l))%nat.
Proof.
  revert ofs l'. induction l as [|x l IH]; intros ofs l' Hlen Hrel.
  - destruct l'; [done|discriminate].
  - destruct l' as [|x' l']; [discriminate|].
    injection Hlen as Hlen.
    assert (Hseq : seqZ ofs (Z.of_nat (length (x :: l)))
                   = ofs :: seqZ (ofs + 1) (Z.of_nat (length l))).
    { rewrite seqZ_cons by (simpl; lia). f_equal. f_equal; simpl; lia. }
    rewrite Hseq. clear Hseq.
    assert (Htail : (length (filter (λ c : Z, (c < 0)%Z) l')
                     + length (filter W (seqZ (ofs + 1)
                                           (Z.of_nat (length l))))
                     = length (filter (λ c : Z, (c < 0)%Z) l))%nat).
    { apply IH; [done|]. intros k c Hk.
      specialize (Hrel (S k) c Hk).
      replace (ofs + 1 + Z.of_nat k) with (ofs + Z.of_nat (S k)) by lia.
      done. }
    specialize (Hrel 0%nat x eq_refl). rewrite Z.add_0_r in Hrel.
    rewrite !filter_cons.
    destruct (decide (W ofs)) as [Hw|Hw].
    + destruct Hrel as (Hx & c' & [= <-] & Hc').
      rewrite decide_False by lia. rewrite decide_True by done. simpl. lia.
    + injection Hrel as ->.
      destruct (decide (x < 0)); simpl; lia.
Qed.

Lemma count_visited (W : Z → Prop) `{!∀ x, Decision (W x)} (l l' : list Z) :
  length l' = length l →
  (∀ i c, lookupZ l i = Some c →
     if decide (W i)
     then c < 0 ∧ ∃ c', lookupZ l' i = Some c' ∧ 0 ≤ c'
     else lookupZ l' i = Some c) →
  (length (filter (λ c : Z, (c < 0)%Z) l')
   + length (filter W (seqZ 0 (Z.of_nat (length l))))
   = length (filter (λ c : Z, (c < 0)%Z) l))%nat.
Proof.
  intros Hlen Hrel. apply count_visited_from; [done|].
  intros k c Hk. rewrite Z.add_0_l.
  specialize (Hrel (Z.of_nat k) c). rewrite !lookupZ_of_nat in Hrel.
  by apply Hrel.
Qed.

(** An array with an entry that is not negative has fewer negative
    entries than slots. *)
Lemma unvisited_lt (l : list Z) i c :
  lookupZ l i = Some c → 0 ≤ c →
  (length (filter (λ c : Z, (c < 0)%Z) l) < length l)%nat.
Proof.
  intros [_ Hc]%lookupZ_Some Hpos.
  rewrite <- (take_drop_middle l (Z.to_nat i) c) by done.
  rewrite filter_app, !length_app, filter_cons_False by lia. simpl.
  pose proof (length_filter (λ c : Z, (c < 0)%Z) (take (Z.to_nat i) l)).
  pose proof (length_filter (λ c : Z, (c < 0)%Z) (drop (S (Z.to_nat i)) l)).
  lia.
Qed.

(** ** The levels of the search *)

Section Levels.

Variable g : BFS.Graph.
Variable source : BFS.NodeID.

Let n := Graph.num_nodes g.

Hypothesis Hwf : BFS.well_formed g.
Hypothesis Hsrc : 0 ≤ source < n.

Lemma reach_range k v : BFS.reach g source k v → 0 ≤ v < n.
Proof using Hwf Hsrc.
  intros H. destruct H; [done|]. by eapply out_neigh_range.
Qed.

Lemma within_mono d d' v :
  BFS.within g source d v → (d ≤ d')%nat → BFS.within g source d' v.
Proof. intros (k & Hk & Hr) Hd. exists k. split; [lia|done]. Qed.

Lemma within_edge d u v :
  BFS.within g source d u → v ∈ Graph.out_neigh g u →
  BFS.within g source (S d) v.
Proof.
  intros (k & Hk & Hr) Hv. exists (S k). split; [lia|].
  by apply (BFS.reach_S g source k u v).
Qed.

Lemma at_level_within d v :
  BFS.at_level g source d v → BFS.within g source d v.
Proof. intros [Hr _]. by exists d. Qed.

Lemma at_level_zero v : BFS.at_level g source 0 v ↔ v = source.
Proof.
  split.
  - intros [Hr _]. by inversion Hr.
  - intros ->. split; [constructor|]. intros k Hk. lia.
Qed.

Lemma at_level_fresh d v :
  BFS.at_level g source (S d) v → ¬ BFS.within g source d v.
Proof. intros [_ Hmin] (k & Hk & Hr). apply (Hmin k); [lia|done]. Qed.

(** An edge that leaves the visited part starts on its last level. *)
Lemma frontier_edge d u v :
  BFS.within g source d u → v ∈ Graph.out_neigh g u →
  ¬ BFS.within g source d v →
  BFS.at_level g source d u ∧ BFS.at_level g source (S d) v.
Proof.
  intros (k & Hk & Hr) Hv Hnot.
  assert (Hlow : ∀ j, (j < d)%nat → ¬ BFS.reach g source j u).
  { intros j Hj Hru. apply Hnot. exists (S j). split; [lia|].
    by apply (BFS.reach_S g source j u v). }
  assert (k = d) as ->.
  { destruct (decide (k = d)) as [|Hne]; [done|].
    exfalso. apply (Hlow k); [lia|done]. }
  split; [done|]. split; [by apply (BFS.reach_S g source d u v)|].
  intros j Hj Hrv. apply Hnot. exists j. split; [lia|done].
Qed.

Lemma level_pred d v :
  BFS.at_level g source (S d) v →
  ∃ u, BFS.at_level g source d u ∧ v ∈ Graph.out_neigh g u.
Proof.
  intros [Hr Hmin]. inversion Hr as [|k u v' Hu Hv]; subst.
  exists u. split; [|done]. split; [done|].
  intros j Hj Hru. apply (Hmin (S j)); [lia|].
  by apply (BFS.reach_S g source j u v).
Qed.

(** A vertex on the level behind the visited part is reached by an
    edge from the last level. *)
Lemma next_level d v :
  BFS.within g source (S d) v → ¬ BFS.within g source d v →
  ∃ u, BFS.at_level g source d u ∧ v ∈ Graph.out_neigh g u.
Proof.
  intros (k & Hk & Hr) Hnot.
  destruct k as [|k]; [exfalso; apply Hnot; exists 0%nat; split; [lia|done]|].
  assert (k = d) as ->.
  { destruct (decide (k = d)) as [|Hne]; [done|].
    exfalso. apply Hnot. exists (S k). split; [lia|done]. }
  apply level_pred. split; [done|].
  intros j Hj Hrv. apply Hnot. exists j. split; [lia|done].
Qed.

Implicit Types (own : list BFS.NodeID).

(** *** A top-down step moves the search one level on *)

Lemma td_level d own us scout0 :
  BFS.visited_to g source d own →
  (∀ v, v ∈ us ↔ BFS.at_level g source d v) →
  BFS.visited_to g source (S d) (BFS.td_sweep g us (own, [], scout0)).1.1
  ∧ ∀ v, v ∈ (BFS.td_sweep g us (own, [], scout0)).1.2
         ↔ BFS.at_level g source (S d) v.
Proof using Hwf Hsrc.
  intros (Hlen & Hsource & Hvis) Hus.
  pose proof (td_sweep_spec own scout0 g us) as Hspec. cbv zeta in Hspec.
  destruct (BFS.td_sweep g us (own, [], scout0)) as [[own' pushed] sc]
    eqn:Hfinal.
  unfold BFS.NodeID in *. rewrite Hfinal in Hspec. cbn [fst snd] in *.
  destruct Hspec as (Hlen' & Hnd & Hcount & Hin & Hpar & Hout & _).
  assert (Hneg : ∀ v c, lookupZ own v = Some c → c < 0 →
                        ¬ BFS.within g source d v).
  { intros v c Hc Hneg. destruct (Hvis v c Hc) as [[_ ?]|[? _]]; [done|lia]. }
  assert (Hnew : ∀ v, v ∈ pushed →
            ∃ u, lookupZ own' v = Some u ∧ 0 ≤ u
                 ∧ v ∈ Graph.out_neigh g u
                 ∧ BFS.at_level g source d u
                 ∧ BFS.at_level g source (S d) v).
  { intros v Hv. destruct (Hpar v Hv) as (u & Hu & Huin & Hedge).
    apply Hin in Hv as [(c & Hc & Hcneg) _].
    exists u. split; [done|].
    split; [by destruct (out_neigh_source _ _ _ Hedge)|].
    split; [done|]. apply Hus in Huin.
    apply frontier_edge; [by apply at_level_within|done|by eapply Hneg]. }
  split; [split; [|split]|].
  - unfold BFS.NodeID in *. lia.
  - rewrite Hout; [done|]. intros [(c & Hc & Hcneg) _]%Hin.
    unfold BFS.NodeID in *. rewrite Hsource in Hc. injection Hc as <-. lia.
  - intros v p Hp. destruct (decide (v ∈ pushed)) as [Hv|Hv].
    + destruct (Hnew v Hv) as (u & Hu & Hpos & Hedge & Hlu & Hlv).
      unfold BFS.NodeID in *. rewrite Hp in Hu. injection Hu as ->.
      right. split; [done|]. split; [by apply at_level_within|].
      intros _. by exists d.
    + rewrite Hout in Hp by done.
      destruct (Hvis v p Hp) as [[Hpneg Hnot]|(Hpos & Hw & Htree)].
      * left. split; [done|]. intros Hw.
        destruct (next_level d v Hw Hnot) as (u & Hu & Hedge).
        apply Hv, Hin. split; [by exists p|]. exists u.
        split; [by apply Hus|done].
      * right. split; [done|]. split; [|done].
        apply (within_mono d); [done|lia].
  - intros v. split.
    + intros Hv. by destruct (Hnew v Hv) as (u & _ & _ & _ & _ & ?).
    + intros Hv. apply Hin.
      destruct (level_pred d v Hv) as (u & Hu & Hedge).
      split; [|exists u; split; [by apply Hus|done]].
      destruct Hv as [Hr Hmin]. pose proof (reach_range _ _ Hr) as Hrange.
      destruct (lookupZ_is_Some own v) as [c Hc];
        [unfold n in *; unfold BFS.NodeID in *; lia|].
      exists c. split; [done|].
      destruct (Hvis v c Hc) as [[? _]|(_ & (k & Hk & Hrk) & _)]; [done|].
      exfalso. apply (Hmin k); [lia|done].
Qed.

(** *** A bottom-up step moves the search one level on *)

Lemma wakes_level d own front u :
  BFS.transposed g →
  BFS.visited_to g source d own →
  (∀ v, BFS.at_level g source d v → Bitmap.get_bit front v = true) →
  (∀ v, Bitmap.get_bit front v = true → BFS.within g source d v) →
  match BFS.wakes g own front u with
  | Some v => lookupZ own u ≠ None ∧ 0 ≤ v ∧ u ∈ Graph.out_neigh g v
              ∧ BFS.at_level g source d v
              ∧ BFS.at_level g source (S d) u
  | None => ¬ BFS.at_level g source (S d) u
  end.
Proof using Hwf Hsrc.
  intros Htr (Hlen & Hsource & Hvis) Hfull Hsound.
  unfold BFS.wakes.
  destruct (lookupZ own u) as [pu|] eqn:Hpu.
  - destruct (Hvis u pu Hpu) as [[Hneg Hnot]|(Hpos & Hw & _)].
    + rewrite decide_True by done.
      pose proof (first_in_front_spec front (Graph.in_neigh g u)) as Hfirst.
      destruct (BFS.first_in_front front (Graph.in_neigh g u)) as [v|].
      * destruct Hfirst as [Hv Hbit].
        pose proof (in_neigh_range g u v Hwf Hv) as Hrange.
        apply Htr in Hv.
        destruct (frontier_edge d v u) as [Hlv Hlu];
          [by apply Hsound|done|done|].
        split; [done|]. split; [lia|]. done.
      * intros Hlu. destruct (level_pred d u Hlu) as (v & Hlv & Hedge).
        apply Htr in Hedge. specialize (Hfirst v Hedge).
        rewrite (Hfull v Hlv) in Hfirst. done.
    + rewrite decide_False by lia. by intros Hlu%at_level_fresh.
  - intros [Hr _]. apply reach_range in Hr.
    destruct (lookupZ_is_Some own u) as [c Hc];
      [unfold n in *; unfold BFS.NodeID in *; lia|].
    unfold BFS.NodeID in *. congruence.
Qed.

Lemma bu_level d own front next :
  BFS.transposed g →
  BFS.visited_to g source d own →
  (∀ v, BFS.at_level g source d v → Bitmap.get_bit front v = true) →
  (∀ v, Bitmap.get_bit front v = true → BFS.within g source d v) →
  n ≤ 64 * Z.of_nat (length next) →
  ∃ own' next',
    BFS.BUStep g own front next
    = Some (Z.of_nat (length (BFS.members g next')), own', next')
    ∧ BFS.visited_to g source (S d) own'
    ∧ length next' = length next
    ∧ (∀ v, Bitmap.get_bit next' v = true ↔ BFS.at_level g source (S d) v)
    ∧ (length (filter (λ c : Z, (c < 0)%Z) own')
       + length (BFS.members g next')
       = length (filter (λ c : Z, (c < 0)%Z) own))%nat.
Proof using Hwf Hsrc.
  intros Htr Hvisited Hfull Hsound Hnext.
  pose proof Hvisited as (Hlen & Hsource & Hvis).
  destruct (BUStep_wakes g own front next Hlen Hnext)
    as (own' & next' & Hrun & Hlen' & Hlnext & Hpar & Hbits).
  pose proof (λ u, wakes_level d own front u Htr Hvisited Hfull Hsound)
    as Hwake.
  assert (Hset : ∀ v, Bitmap.get_bit next' v = true
                      ↔ BFS.at_level g source (S d) v).
  { intros v. rewrite Hbits, bool_decide_eq_true. specialize (Hwake v).
    split.
    - intros [_ [w Hw]]. rewrite Hw in Hwake. tauto.
    - intros Hlv. pose proof Hlv as [Hr _]. apply reach_range in Hr.
      split; [done|].
      destruct (BFS.wakes g own front v); [done|]. done. }
  assert (Hmembers : length (filter (λ u, is_Some (BFS.wakes g own front u))
                               (seqZ 0 (Graph.num_nodes g)))
                     = length (BFS.members g next')).
  { unfold BFS.members. f_equal. apply filter_ext_Forall.
    apply Forall_forall. intros u Hu%elem_of_seqZ.
    rewrite Hbits, bool_decide_eq_true. tauto. }
  exists own', next'. split; [by rewrite Hrun, Hmembers|].
  assert (Hown' : ∀ v p, lookupZ own' v = Some p →
            match BFS.wakes g own front v with
            | Some w => p = w
            | None => lookupZ own v = Some p
            end).
  { intros v p Hp. pose proof (lookupZ_lt _ _ _ Hp) as Hv.
    rewrite Hpar in Hp by (unfold n in *; unfold BFS.NodeID in *; lia).
    destruct (BFS.wakes g own front v); [by injection Hp|done]. }
  split; [split; [|split]|].
  - unfold BFS.NodeID in *. lia.
  - rewrite Hpar by done. specialize (Hwake source).
    destruct (BFS.wakes g own front source) as [w|]; [|done].
    destruct Hwake as (_ & _ & _ & _ & Hl%at_level_fresh).
    exfalso. apply Hl. exists 0%nat. split; [lia|constructor].
  - intros v p Hp. specialize (Hown' v p Hp). specialize (Hwake v).
    destruct (BFS.wakes g own front v) as [w|].
    + subst p. destruct Hwake as (_ & Hpos & Hedge & Hlw & Hlv).
      right. split; [done|]. split; [by apply at_level_within|].
      intros _. by exists d.
    + destruct (Hvis v p Hown') as [[Hneg Hnot]|(Hpos & Hw & Htree)].
      * left. split; [done|]. intros Hw. apply Hwake.
        destruct (next_level d v Hw Hnot) as (u & Hu & Hedge).
        by destruct (frontier_edge d u v); [apply at_level_within|..].
      * right. split; [done|]. split; [|done].
        apply (within_mono d); [done|lia].
  - split; [done|]. split; [done|].
    rewrite <- Hmembers. unfold n.
    rewrite <- Hlen. apply count_visited; [done|].
    intros i c Hc. pose proof (lookupZ_lt _ _ _ Hc) as Hi.
    specialize (Hwake i).
    specialize (Hpar i ltac:(unfold n in *; unfold BFS.NodeID in *; lia)).
    case_decide as Hw.
    + destruct Hw as [w Hw]. rewrite Hw in Hwake, Hpar.
      destruct Hwake as (_ & Hpos & _ & _ & Hl%at_level_fresh).
      split; [|by exists w].
      destruct (Hvis i c Hc) as [[? _]|(_ & ? & _)]; [done|done].
    + destruct (BFS.wakes g own front i) as [w|] eqn:Hw';
        [|by etrans; [exact Hpar|exact Hc]].
      exfalso. apply Hw. by exists w.
Qed.

End Levels.

(** ** The search on one rank *)

Lemma window_slide_appended {T} (q : Queue.SlidingQueue T) xs :
  Queue.shared_out_end q = Queue.shared_in q →
  (Queue.shared_in q + length xs ≤ length (Queue.shared q))%nat →
  Queue.window (Queue.slide_window (Queue.appended q xs)) = xs.
Proof.
  intros Hend Hfit. unfold Queue.window, Queue.size. simpl. rewrite Hend.
  replace (Queue.shared_in q + length xs - Queue.shared_in q)%nat
    with (length xs) by lia.
  rewrite drop_app_length' by (rewrite length_take; lia).
  by rewrite take_app_length.
Qed.

Lemma length_appended {T} (q : Queue.SlidingQueue T) xs :
  (Queue.shared_in q + length xs ≤ length (Queue.shared q))%nat →
  length (Queue.shared (Queue.appended q xs)) = length (Queue.shared q).
Proof.
  intros Hfit. unfold Queue.appended. simpl.
  rewrite !length_app, length_take, length_drop. lia.
Qed.

Lemma length_window {T} (q : Queue.SlidingQueue T) :
  (Queue.shared_out_end q ≤ length (Queue.shared q))%nat →
  length (Queue.window q) = Queue.size q.
Proof.
  intros Hend. unfold Queue.window, Queue.size.
  rewrite length_take, length_drop. lia.
Qed.

Lemma slide_frontier_alone own q log :
  BFS.slide_frontier (BFS.solo own q log) 0
  = Some (BFS.solo own (Queue.slide_window q) log).
Proof. reflexivity. Qed.

Section Alone.

Variable g : BFS.Graph.
Variable source : BFS.NodeID.
Variables alpha beta : Z.

Let n := Graph.num_nodes g.

Hypothesis Hwf : BFS.well_formed g.
Hypothesis Htr : BFS.transposed g.
Hypothesis Hmax : n ≤ CInt.int_max.
Hypothesis Hsrc : 0 ≤ source < n.
Hypothesis Halpha : alpha ≠ 0.
Hypothesis Hbeta : 0 < beta.

Implicit Types (own : list BFS.NodeID) (front curr : Bitmap.Bitmap).
Implicit Types (q : Queue.SlidingQueue BFS.NodeID) (st : BFS.dobfs_state).

Let covers (bm : Bitmap.Bitmap) : Prop := n ≤ 64 * Z.of_nat (length bm).

Let unvisited own : nat := length (filter (λ c : Z, (c < 0)%Z) own).

(** The [do ... while] loop ends, some levels further on. *)
Lemma bottom_up_alone fuel d own front curr old :
  BFS.visited_to g source d own →
  (∀ v, BFS.at_level g source d v → Bitmap.get_bit front v = true) →
  (∀ v, Bitmap.get_bit front v = true → BFS.within g source d v) →
  covers front → covers curr → 1 ≤ old →
  (unvisited own < fuel)%nat →
  ∃ d' own' front' curr' awake,
    BFS.bottom_up fuel g beta (own, front, curr, old)
    = Some (own', front', curr', awake)
    ∧ (d < d')%nat
    ∧ BFS.visited_to g source d' own'
    ∧ (∀ v, Bitmap.get_bit front' v = true ↔ BFS.at_level g source d' v)
    ∧ covers front' ∧ covers curr'
    ∧ (unvisited own' + length (BFS.members g front') ≤ unvisited own)%nat.
Proof using Hwf Htr Hsrc Hbeta.
  revert d own front curr old.
  induction fuel as [|fuel IH];
    intros d own front curr old Hvis Hfull Hsound Hfront Hcurr Hold Hfuel;
    [lia|].
  destruct (bu_level g source Hwf Hsrc d own front curr Htr Hvis Hfull Hsound
              Hcurr) as (own1 & next1 & Hrun & Hvis1 & Hlen1 & Hbits1 & Hcount).
  cbn [BFS.bottom_up]. unfold BFS.bottom_up_pass. cbn [snd].
  unfold BFS.NodeID in *. rewrite Hrun. cbn [mbind option_bind snd].
  rewrite div_Some by lia. cbn [mbind option_bind].
  assert (Hcov1 : covers next1) by (unfold covers; rewrite Hlen1; done).
  case_decide as Hgo.
  - assert (Hawake : (1 ≤ length (BFS.members g next1))%nat).
    { assert (Hq : 0 ≤ n `quot` beta).
      { apply Z.quot_pos; [|lia]. unfold n, Graph.num_nodes. lia. }
      revert Hgo Hq. unfold n. unfold BFS.NodeID in *.
      generalize (Graph.num_nodes g `quot` beta). intros b Hgo Hq. lia. }
    destruct (IH (S d) own1 next1 front
                (Z.of_nat (length (BFS.members g next1))))
      as (d' & own' & front' & curr' & awake & Hloop & Hd & Hvis' & Hbits'
          & Hf' & Hc' & Hcount'); try done.
    + intros v. apply Hbits1.
    + intros v Hv%Hbits1. by apply at_level_within.
    + lia.
    + unfold unvisited in *. nlia.
    + exists d', own', front', curr', awake.
      unfold BFS.NodeID in *. rewrite Hloop.
      split; [done|]. split; [lia|]. split; [done|]. split; [done|].
      split; [done|]. split; [done|]. unfold unvisited in *. nlia.
  - eexists (S d), own1, next1, front, _. split; [done|].
    split; [lia|]. split; [done|]. split; [done|]. split; [done|].
    split; [done|]. unfold unvisited. nlia.
Qed.

(** The state at the head of the outer loop when the search has visited
    the levels up to [d]: the window of the queue holds level [d]. *)
Let head (d : nat) own q st : Prop :=
  (∃ log, BFS.st_world st = BFS.solo own q log)
  ∧ BFS.visited_to g source d own
  ∧ (∀ v, v ∈ Queue.window q ↔ BFS.at_level g source d v)
  ∧ (Queue.shared_out_start q ≤ Queue.shared_out_end q)%nat
  ∧ Queue.shared_out_end q = Queue.shared_in q
  ∧ Z.of_nat (length (Queue.shared q)) = n
  ∧ (Queue.shared_in q + unvisited own ≤ length (Queue.shared q))%nat
  ∧ covers (BFS.st_front st) ∧ covers (BFS.st_curr st)
  ∧ (∀ v, Bitmap.get_bit (BFS.st_front st) v = true →
          BFS.within g source d v).

Lemma top_down_phase_alone d own q st fq fs :
  head d own q st →
  Z.of_nat (length fq) = BFS.kQueueBufferSize → length fs = 1%nat →
  ∃ own' q' st',
    BFS.top_down_phase g 0 1 fq fs st = Some st'
    ∧ head (S d) own' q' st'
    ∧ (unvisited own' + Queue.size q' ≤ unvisited own)%nat.
Proof using Hwf Hmax Hsrc.
  intros ([log Hw] & Hvis & Hwin & Hse & Hend & Hlen & Hroom & Hfront & Hcurr
          & Hsound) Hfq Hfs.
  destruct fs as [|scout0 [|? ?]]; try discriminate.
  pose proof Hvis as (Hown & _ & _).
  pose proof (td_sweep_spec own scout0 g (Queue.window q)) as Hspec.
  cbv zeta in Hspec.
  destruct (td_level g source Hwf Hsrc d own (Queue.window q) scout0 Hvis Hwin)
    as [Hvis' Hwin'].
  destruct (SHMEM_TDStep_alone g Hwf Hmax own q log fq scout0)
    as (log' & Hrun); try done.
  { lia. }
  { unfold n in *. unfold BFS.NodeID in *. lia. }
  { destruct Hspec as (_ & _ & Hcount & _). unfold unvisited in *.
    unfold BFS.NodeID in *. lia. }
  unfold BFS.top_down_phase. rewrite Hw. unfold BFS.NodeID in *.
  rewrite Hrun. cbn [mbind option_bind]. rewrite slide_frontier_alone.
  cbn [mbind option_bind].
  match goal with
  | |- context [BFS.td_sweep ?a ?b ?c] =>
      set (final := BFS.td_sweep a b c) in *
  end.
  clearbody final. destruct final as [[own' pushed] sc]. cbn [fst snd] in *.
  destruct Hspec as (Hlen' & Hnd & Hcount & _).
  assert (Hfit : (Queue.shared_in q + length pushed
                  ≤ length (Queue.shared q))%nat)
    by (unfold unvisited in *; nlia).
  eexists own', (Queue.slide_window (Queue.appended q pushed)), _.
  split; [done|]. split.
  - split; [by eexists|]. split; [done|].
    split; [by rewrite window_slide_appended|].
    cbn [Queue.slide_window Queue.appended Queue.shared_out_start
         Queue.shared_out_end Queue.shared_in Queue.shared
         BFS.st_front BFS.st_curr].
    split; [nlia|]. split; [done|].
    change (take (Queue.shared_in q) (Queue.shared q) ++ pushed
            ++ drop (Queue.shared_in q + length pushed) (Queue.shared q))
      with (Queue.shared (Queue.appended q pushed)).
    rewrite length_appended by done.
    split; [done|]. split; [unfold unvisited in *; nlia|].
    split; [done|]. split; [done|].
    intros v Hv. apply (within_mono g source d); [by apply Hsound|lia].
  - unfold Queue.size, unvisited in *. simpl. nlia.
Qed.

Lemma bottom_up_phase_alone fuel d own q st fq :
  head d own q st → Queue.empty q = false →
  Z.of_nat (length fq) = BFS.kQueueBufferSize →
  (unvisited own < fuel)%nat →
  ∃ d' own' q' st',
    BFS.bottom_up_phase fuel g 0 1 beta fq st = Some st'
    ∧ (d < d')%nat
    ∧ head d' own' q' st'
    ∧ (unvisited own' + Queue.size q' ≤ unvisited own)%nat.
Proof using Hwf Htr Hmax Hsrc Hbeta.
  intros ([log Hw] & Hvis & Hwin & Hse & Hend & Hlen & Hroom & Hfront & Hcurr
          & Hsound) Hne Hfq Hfuel.
  assert (Hsize : (1 ≤ Queue.size q)%nat).
  { unfold Queue.empty in Hne. apply bool_decide_eq_false in Hne.
    unfold Queue.size. lia. }
  assert (Hbits : ∀ v, Bitmap.get_bit (BFS.QueueToBitmap q (BFS.st_front st)) v
                       = Bitmap.get_bit (BFS.st_front st) v
                         || bool_decide (v ∈ Queue.window q)).
  { intros v. apply QueueToBitmap_bits. apply Forall_forall.
    intros u [Hr _]%Hwin. apply (reach_range g source Hwf Hsrc) in Hr.
    unfold covers, n in *. unfold BFS.NodeID in *. lia. }
  assert (Hlenf : length (BFS.QueueToBitmap q (BFS.st_front st))
                  = length (BFS.st_front st)).
  { apply (QueueToBitmap_bits q (BFS.st_front st) 0). apply Forall_forall.
    intros u [Hr _]%Hwin. apply (reach_range g source Hwf Hsrc) in Hr.
    unfold covers, n in *. unfold BFS.NodeID in *. lia. }
  destruct (bottom_up_alone fuel d own
              (BFS.QueueToBitmap q (BFS.st_front st)) (BFS.st_curr st)
              (Z.of_nat (Queue.size q)))
    as (d' & own' & front' & curr' & awake & Hloop & Hd & Hvis' & Hbits'
        & Hf' & Hc' & Hcount); try done.
  { intros v Hv. rewrite Hbits. apply orb_true_iff. right.
    apply bool_decide_eq_true. by apply Hwin. }
  { intros v. rewrite Hbits. intros [Hv|Hv%bool_decide_eq_true]%orb_true_iff.
    - by apply Hsound.
    - by apply (at_level_within g source), Hwin. }
  { unfold covers. by rewrite Hlenf. }
  { lia. }
  destruct (BitmapToQueue_alone g front' own' (Queue.slide_window q) log fq)
    as (log' & Hconv); try done.
  { simpl. unfold unvisited in *. unfold BFS.NodeID in *. lia. }
  unfold BFS.bottom_up_phase. rewrite Hw.
  unfold BFS.slide_frontier, BFS.with_parent, BFS.solo in *.
  cbn [BFS.frontier Queue.queues BFS.parent BFS.PLOCKS Queue.QLOCK Queue.log].
  unfold BFS.NodeID in *.
  rewrite lookupZ_singleton. cbn [mbind option_bind].
  rewrite storeZ_singleton. cbn [mbind option_bind BFS.parent].
  rewrite lookupZ_singleton. cbn [mbind option_bind].
  rewrite Hloop. cbn [mbind option_bind BFS.parent BFS.frontier BFS.PLOCKS].
  rewrite storeZ_singleton. cbn [mbind option_bind].
  rewrite Hconv. cbn [mbind option_bind].
  assert (Hfit : (Queue.shared_in (Queue.slide_window q)
                  + length (BFS.members g front')
                  ≤ length (Queue.shared (Queue.slide_window q)))%nat).
  { simpl. unfold unvisited in *. nlia. }
  destruct (members_spec g front') as [_ Hmem].
  eexists d', own',
    (Queue.slide_window
       (Queue.appended (Queue.slide_window q) (BFS.members g front'))), _.
  split; [done|]. split; [done|]. split.
  - split; [by eexists|]. split; [done|]. split.
    { intros v. rewrite window_slide_appended by done.
      rewrite Hmem, Hbits'. split; [by intros [_ ?]|].
      intros Hv. split; [|done]. destruct Hv as [Hr _].
      by apply (reach_range g source Hwf Hsrc) in Hr. }
    cbn [Queue.slide_window Queue.appended Queue.shared_out_start
         Queue.shared_out_end Queue.shared_in Queue.shared
         BFS.st_front BFS.st_curr].
    split; [nlia|]. split; [done|].
    change (take (Queue.shared_in q) (Queue.shared q)
            ++ BFS.members g front'
            ++ drop (Queue.shared_in q + length (BFS.members g front'))
                 (Queue.shared q))
      with (Queue.shared (Queue.appended (Queue.slide_window q)
                            (BFS.members g front'))).
    rewrite length_appended by done.
    split; [done|]. split; [simpl in *; unfold unvisited in *; nlia|].
    split; [done|]. split; [done|].
    intros v Hv%Hbits'. by apply at_level_within.
  - unfold Queue.size, unvisited in *. simpl. nlia.
Qed.

(** The body of the outer loop, whichever direction it takes. *)
Lemma DOBFS_iteration_alone fuel d own q st fq fs :
  head d own q st → Queue.empty q = false →
  Z.of_nat (length fq) = BFS.kQueueBufferSize → length fs = 1%nat →
  (unvisited own < fuel)%nat →
  ∃ d' own' q' st',
    BFS.DOBFS_iteration fuel g 0 1 alpha beta fq fs st = Some st'
    ∧ head d' own' q' st'
    ∧ (unvisited own' + Queue.size q' ≤ unvisited own)%nat.
Proof using Hwf Htr Hmax Hsrc Halpha Hbeta.
  intros Hhead Hne Hfq Hfs Hfuel. unfold BFS.DOBFS_iteration.
  rewrite div_Some by done. cbn [mbind option_bind]. case_decide.
  - destruct (bottom_up_phase_alone fuel d own q st fq)
      as (d' & own' & q' & st' & Hrun & _ & Hhead' & Hcount); try done.
    by exists d', own', q', st'.
  - destruct (top_down_phase_alone d own q st fq fs)
      as (own' & q' & st' & Hrun & Hhead' & Hcount); try done.
    by exists (S d), own', q', st'.
Qed.

(** The outer loop ends with an empty window. *)
Lemma DOBFS_loop_alone (a : BFS.allocations) inner fuel :
  (∀ k, Z.of_nat (length (BFS.fresh_queue a k)) = BFS.kQueueBufferSize) →
  (∀ k, length (BFS.fresh_scout a k) = 1%nat) →
  (Z.to_nat n ≤ inner)%nat →
  ∀ k d own q st,
    head d own q st →
    (unvisited own + (if Queue.empty q then 0 else 1) < fuel)%nat →
    ∃ d' own' q' st',
      BFS.DOBFS_loop fuel inner g 0 1 alpha beta a k st = Some st'
      ∧ head d' own' q' st'
      ∧ Queue.empty q' = true.
Proof using Hwf Htr Hmax Hsrc Halpha Hbeta.
  intros Hfq Hfs Hinner.
  induction fuel as [|fuel IH]; intros k d own q st Hhead Hfuel; [lia|].
  pose proof Hhead as ([log Hw] & Hvis & _).
  assert (Hq : lookupZ (Queue.queues (BFS.frontier (BFS.st_world st))) 0
               = Some q) by (by rewrite Hw).
  cbn [BFS.DOBFS_loop]. unfold BFS.NodeID in *. rewrite Hq.
  cbn [mbind option_bind].
  destruct (Queue.empty q) eqn:Hempty.
  - by exists d, own, q, st.
  - assert (Hless : (unvisited own < inner)%nat).
    { destruct Hvis as (Hlen & Hsource & _).
      pose proof (unvisited_lt own source source Hsource ltac:(lia)).
      unfold unvisited, n in *. unfold BFS.NodeID in *. lia. }
    destruct (DOBFS_iteration_alone inner d own q st
                (BFS.fresh_queue a k) (BFS.fresh_scout a k))
      as (d' & own' & q' & st' & Hrun & Hhead' & Hcount); try done.
    rewrite Hrun. cbn [mbind option_bind].
    apply (IH (S k) d' own' q' st' Hhead').
    assert ((if Queue.empty q' then 0 else 1) ≤ Queue.size q')%nat.
    { destruct (Queue.empty q') eqn:He; [lia|].
      unfold Queue.empty in He. apply bool_decide_eq_false in He.
      destruct Hhead' as (_ & _ & _ & Hse & _). unfold Queue.size. nlia. }
    nlia.
Qed.

(** The state that the job enters the loop with. *)
Lemma DOBFS_init_alone (a : BFS.allocations) :
  Z.of_nat (length (BFS.fresh_parent a 0)) = n →
  ∃ own q st,
    BFS.DOBFS_init g source 1 a = Some st
    ∧ head 0 own q st
    ∧ Queue.empty q = false.
Proof using Hwf Hmax Hsrc.
  intros Hfp.
  destruct (InitParent_spec g source 0 1 (BFS.fresh_parent a 0))
    as [Hnone Hsome]; try (unfold n in *; unfold BFS.NodeID in *; lia).
  cbv zeta in Hnone, Hsome.
  destruct (BFS.InitParent g source 0 1 (BFS.fresh_parent a 0))
    as [own|] eqn:Hinit;
    [|exfalso; destruct Hnone as [Hnone _]; specialize (Hnone eq_refl); lia].
  clear Hnone. destruct (Hsome own eq_refl) as [Hlen Hslots]. clear Hsome.
  assert (Hslot : ∀ v, 0 ≤ v < n →
            lookupZ own v
            = Some (if decide (v = source) then source
                    else if decide (Graph.out_degree g v ≠ 0)
                         then - Graph.out_degree g v else -1)).
  { intros v Hv. specialize (Hslots v).
    rewrite decide_True in Hslots by done.
    rewrite Z.mul_0_l, Z.sub_0_r in Hslots. apply Hslots.
    unfold n in *. lia. }
  assert (Hsource : lookupZ own source = Some source).
  { rewrite Hslot by done. by rewrite decide_True. }
  assert (Hroom : (0 < Z.to_nat n)%nat) by lia.
  unfold BFS.DOBFS_init. change (seqZ 0 1) with [0]. cbn [mapM].
  change (Z.to_nat 0) with 0%nat. unfold BFS.NodeID in *.
  rewrite Hinit. cbn [mbind option_bind fmap option_fmap option_map].
  fold n. unfold Queue.push_back, Queue.new.
  cbn [Queue.shared_in Queue.shared Queue.shared_out_start
       Queue.shared_out_end].
  rewrite length_replicate, decide_True by done.
  cbn [mbind option_bind]. change (Z.to_nat 1) with 1%nat.
  cbn [replicate Queue.slide_window Queue.shared_in Queue.shared
       Queue.shared_out_start Queue.shared_out_end].
  set (queue := Queue.mkSlidingQueue
                  (<[0%nat := source]> (replicate (Z.to_nat n) 0)) 1 0 1).
  assert (Hwindow : Queue.window queue = [source]).
  { unfold Queue.window, Queue.size, queue. simpl.
    destruct (Z.to_nat n); [lia|done]. }
  eexists own, queue, _. split; [done|]. split; [|done].
  split; [by exists []|]. split.
  { split; [unfold n in *; unfold BFS.NodeID in *; lia|]. split; [done|].
    intros v p Hp. pose proof (lookupZ_lt _ _ _ Hp) as Hv.
    rewrite Hslot in Hp by (unfold n in *; unfold BFS.NodeID in *; lia).
    injection Hp as <-. destruct (decide (v = source)) as [->|Hvs].
    - right. split; [lia|]. split; [|done].
      exists 0%nat. split; [lia|constructor].
    - left. assert (0 ≤ Graph.out_degree g v)
        by (unfold Graph.out_degree; lia).
      split.
      { match goal with
        | |- context [decide ?P] => destruct (decide P)
        end; unfold BFS.NodeID in *; lia. }
      intros (k & Hk & Hr). assert (k = 0%nat) as -> by lia.
      by inversion Hr. }
  split.
  { intros v. rewrite Hwindow, list_elem_of_singleton.
    symmetry. apply at_level_zero. }
  cbn [Queue.shared_out_start Queue.shared_out_end Queue.shared_in
       Queue.shared queue BFS.st_front BFS.st_curr].
  unfold queue. cbn [Queue.shared_out_start Queue.shared_out_end
                     Queue.shared_in Queue.shared].
  rewrite length_insert, length_replicate.
  split; [lia|]. split; [done|]. split; [lia|]. split.
  { pose proof (unvisited_lt own source source Hsource ltac:(lia)).
    unfold unvisited, n in *. unfold BFS.NodeID in *. lia. }
  rewrite create_reset.
  split; [apply create_covers; lia|]. split; [apply create_covers; lia|].
  intros v. by rewrite get_bit_create.
Qed.

(** The kernel on one rank returns a breadth-first tree. *)
Lemma DOBFS_alone (a : BFS.allocations) fuel :
  Z.of_nat (length (BFS.fresh_parent a 0)) = n →
  (∀ k, Z.of_nat (length (BFS.fresh_queue a k)) = BFS.kQueueBufferSize) →
  (∀ k, length (BFS.fresh_scout a k) = 1%nat) →
  (Z.to_nat n < fuel)%nat →
  ∃ parent,
    BFS.DOBFS fuel g source 0 1 alpha beta a = Some parent
    ∧ BFS.bfs_tree g source parent.
Proof using Hwf Htr Hmax Hsrc Halpha Hbeta.
  intros Hfp Hfq Hfs Hfuel.
  destruct (DOBFS_init_alone a Hfp) as (own0 & q0 & st0 & Hinit & Hhead0 & Hne).
  destruct (DOBFS_loop_alone a fuel fuel Hfq Hfs ltac:(lia) 0%nat 0%nat
              own0 q0 st0 Hhead0)
    as (d & own & q & st & Hloop & Hhead & Hempty).
  { rewrite Hne. destruct Hhead0 as (_ & (Hlen & Hsource & _) & _).
    pose proof (unvisited_lt own0 source source Hsource ltac:(lia)).
    unfold unvisited, n in *. unfold BFS.NodeID in *. lia. }
  destruct Hhead as ([log Hw] & (Hlen & Hsource & Hvis) & Hwin & Hse & Hend
                     & Hshared & _).
  assert (Hnone : ∀ v, ¬ BFS.at_level g source d v).
  { intros v Hv%Hwin. unfold Queue.empty in Hempty.
    apply bool_decide_eq_true in Hempty. unfold Queue.window, Queue.size in Hv.
    rewrite Hempty, Nat.sub_diag in Hv. simpl in Hv.
    by apply elem_of_nil in Hv. }
  assert (Hclosed : ∀ k v, BFS.reach g source k v → BFS.within g source d v).
  { intros k v Hr. induction Hr as [|k u v Hu IH Hedge].
    - exists 0%nat. split; [lia|constructor].
    - pose proof (out_neigh_range g u v Hwf Hedge) as Hv.
      destruct (lookupZ_is_Some own v) as [p Hp];
        [unfold n in *; unfold BFS.NodeID in *; lia|].
      destruct (Hvis v p Hp) as [[_ Hnot]|(_ & Hin & _)]; [|done].
      exfalso. apply (Hnone u).
      by destruct (frontier_edge g source d u v). }
  destruct (reset_unvisited_full g own Hlen)
    as (parent & Hreset & Hlen' & Hval).
  exists parent. split.
  { unfold BFS.DOBFS. rewrite Hinit. cbn [mbind option_bind].
    rewrite Hloop. cbn [mbind option_bind]. rewrite Hw.
    unfold BFS.solo. cbn [BFS.parent]. unfold BFS.NodeID in *.
    by rewrite lookupZ_singleton. }
  split; [unfold BFS.NodeID in *; lia|]. split.
  { rewrite (Hval source source Hsource). by rewrite decide_False by lia. }
  intros v Hv Hvs.
  destruct (lookupZ_is_Some own v) as [p Hp];
    [unfold n in *; unfold BFS.NodeID in *; lia|].
  rewrite (Hval v p Hp).
  destruct (Hvis v p Hp) as [[Hneg Hnot]|(Hpos & Hin & Htree)].
  - left. split.
    + f_equal. case_decide; lia.
    + intros k Hr. by apply Hnot, (Hclosed k).
  - right. destruct (Htree Hvs) as (k & Hedge & Hlp & Hlv).
    exists p, k. rewrite decide_False by lia. done.
Qed.

End Alone.

(** X12. On a job of one rank, [DOBFS] ends and returns a
    breadth-first tree, whatever [alpha ≠ 0] and [beta > 0] and whatever
    the allocations held: the source is its own parent, a vertex that no
    walk from the source reaches has [-1], and any other vertex has a
    parent from which an edge leads to it and which is one edge closer
    to the source. This needs the incoming half of the graph to be the
    transpose of the outgoing half, which the bottom-up steps rely
    on. Neither the outer loop nor the [do ... while] loop reaches a
    bound on its rounds that is above [num_nodes]. The direction taken
    in a round does not matter, so neither does the scout count that a
    top-down step adds to an uninitialised cell. *)
Theorem DOBFS_returns_bfs_tree (g : BFS.Graph) (source : BFS.NodeID)
    (alpha beta : Z) (a : BFS.allocations) (fuel : nat) :
  BFS.well_formed g → BFS.transposed g →
  Graph.num_nodes g ≤ CInt.int_max →
  0 ≤ source < Graph.num_nodes g →
  alpha ≠ 0 → 0 < beta →
  Z.of_nat (length (BFS.fresh_parent a 0)) = Graph.num_nodes g →
  (∀ k, Z.of_nat (length (BFS.fresh_queue a k)) = BFS.kQueueBufferSize) →
  (∀ k, length (BFS.fresh_scout a k) = 1%nat) →
  (Z.to_nat (Graph.num_nodes g) < fuel)%nat →
  ∃ parent,
    BFS.DOBFS fuel g source 0 1 alpha beta a = Some parent
    ∧ BFS.bfs_tree g source parent.
Proof.
  intros Hwf Htr Hmax Hsrc Halpha Hbeta Hfp Hfq Hfs Hfuel.
  by apply DOBFS_alone.
Qed.

Lemma DOBFS_returns_bfs_tree_witness :
  ∃ parent,
    BFS.DOBFS 3 BottomUpRun.one_edge 0 0 1 15 18
      (BFS.mkAllocations (λ _, [7; 7])
         (λ _, replicate (Z.to_nat BFS.kQueueBufferSize) 7) (λ _, [7]))
    = Some parent
    ∧ BFS.bfs_tree BottomUpRun.one_edge 0 parent.
Proof.
  apply (DOBFS_returns_bfs_tree BottomUpRun.one_edge 0 15 18
           (BFS.mkAllocations (λ _, [7; 7])
              (λ _, replicate (Z.to_nat BFS.kQueueBufferSize) 7)
              (λ _, [7])) 3).
  - split; [reflexivity|].
    change (Graph.num_nodes BottomUpRun.one_edge) with 2.
    split; repeat (constructor; [repeat (constructor; [lia|]); constructor|]);
      constructor.
  - intros u v. unfold Graph.in_neigh, Graph.out_neigh.
    assert (Hu : u = 0 ∨ u = 1 ∨ ¬ 0 ≤ u < 2) by lia.
    assert (Hv : v = 0 ∨ v = 1 ∨ ¬ 0 ≤ v < 2) by lia.
    destruct Hu as [->|[->|Hu]]; destruct Hv as [->|[->|Hv]];
      try rewrite (lookupZ_None _ u) by done;
      try rewrite (lookupZ_None _ v) by done;
      simpl; rewrite ?elem_of_nil, ?list_elem_of_singleton; try done; lia.
  - vm_compute. discriminate.
  - vm_compute. split; [discriminate|reflexivity].
  - lia.
  - lia.
  - reflexivity.
  - intros k. cbn [BFS.fresh_queue].
    by rewrite length_replicate, Z2Nat.id.
  - intros k. reflexivity.
  - vm_compute. lia.
Defined.

(** ** The verifier of the search *)

Lemma level_le (g : BFS.Graph) source d k x :
  BFS.at_level g source d x → BFS.reach g source k x → (d ≤ k)%nat.
Proof.
  intros [_ Hmin] Hr. destruct (decide (d ≤ k)%nat) as [|Hlt]; [done|].
  exfalso. apply (Hmin k); [lia|done].
Qed.

Lemma level_unique (g : BFS.Graph) source d d' x :
  BFS.at_level g source d x → BFS.at_level g source d' x → d = d'.
Proof.
  intros Hd Hd'.
  pose proof (level_le g source d d' x Hd (proj1 Hd')).
  pose proof (level_le g source d' d x Hd' (proj1 Hd)). lia.
Qed.

Lemma visit_neighbors_cons depth to_visit u v vs :
  BFS.visit_neighbors depth to_visit u (v :: vs)
  = '(depth', to_visit') ← BFS.visit_neighbors depth to_visit u [v];
    BFS.visit_neighbors depth' to_visit' u vs.
Proof.
  unfold BFS.visit_neighbors. cbn [foldM].
  destruct (lookupZ depth v) as [dv|]; [|done]. cbn [mbind option_bind].
  case_decide; [|done].
  destruct (lookupZ depth u) as [du|]; [|done]. cbn [mbind option_bind].
  destruct (storeZ depth v (CInt.wrap (du + 1))) as [depth'|]; done.
Qed.

Section Serial.

Variable g : BFS.Graph.
Variable source : BFS.NodeID.

Let n := Graph.num_nodes g.

Hypothesis Hwf : BFS.well_formed g.
Hypothesis Hmax : n ≤ CInt.int_max.
Hypothesis Hsrc : 0 ≤ source < n.

Implicit Types (depth : list Z) (to_visit : list BFS.NodeID) (it : nat).

(** The state of the serial traversal when the iterator is at position
    [it]: a vertex has a depth exactly when it is queued, the depth is
    its level, the queue is sorted by depth and holds no depth above
    the one behind that of the iterator, and the neighbours of the
    vertices that the iterator has passed are queued. *)
Let sem depth to_visit it : Prop :=
  BFS.traversal_inv g depth to_visit
  ∧ lookupZ depth source = Some 0
  ∧ (∀ v d, lookupZ depth v = Some d → d ≠ -1 →
       0 ≤ d ∧ v ∈ to_visit ∧ BFS.at_level g source (Z.to_nat d) v)
  ∧ (∀ (i j : nat) x y dx dy, (i ≤ j)%nat →
       to_visit !! i = Some x → to_visit !! j = Some y →
       lookupZ depth x = Some dx → lookupZ depth y = Some dy → dx ≤ dy)
  ∧ (∀ u du (j : nat) y dy,
       to_visit !! it = Some u → lookupZ depth u = Some du →
       to_visit !! j = Some y → lookupZ depth y = Some dy → dy ≤ du + 1)
  ∧ (∀ (i : nat) x v, (i < it)%nat → to_visit !! i = Some x →
       v ∈ Graph.out_neigh g x →
       ∃ d, lookupZ depth v = Some d ∧ d ≠ -1).

(** What a walk no longer than the depth of the vertex at the iterator
    reaches is queued. *)
Lemma reach_visited depth to_visit it u du :
  sem depth to_visit it →
  to_visit !! it = Some u → lookupZ depth u = Some du →
  ∀ k w, BFS.reach g source k w → Z.of_nat k ≤ du →
         ∃ d, lookupZ depth w = Some d ∧ d ≠ -1.
Proof.
  intros (Htrav & Hsource & Hvis & Hsorted & Hnear & Hdone) Hit Hdu k w Hr.
  induction Hr as [|k x w Hx IH Hedge]; intros Hk.
  - by exists 0.
  - destruct IH as (dx & Hdx & Hne); [lia|].
    destruct (Hvis x dx Hdx Hne) as (Hpos & Hin & Hlevel).
    pose proof (level_le g source _ _ _ Hlevel Hx) as Hle.
    apply list_elem_of_lookup in Hin as [i Hi].
    destruct (decide (i < it)%nat) as [Hlt|Hge].
    + by apply (Hdone i x w).
    + pose proof (Hsorted it i u x du dx ltac:(lia) Hit Hi Hdu Hdx). lia.
Qed.

(** The body of the loop over the neighbours of the vertex at the
    iterator. *)
Lemma visit_one depth to_visit it u v :
  sem depth to_visit it → to_visit !! it = Some u →
  v ∈ Graph.out_neigh g u →
  ∃ depth' ext,
    BFS.visit_neighbors depth to_visit u [v] = Some (depth', to_visit ++ ext)
    ∧ sem depth' (to_visit ++ ext) it
    ∧ (∀ w d, lookupZ depth w = Some d → d ≠ -1 → lookupZ depth' w = Some d)
    ∧ ∃ d, lookupZ depth' v = Some d ∧ d ≠ -1.
Proof using Hwf Hmax Hsrc.
  intros Hsem Hit Hedge.
  pose proof Hsem as (Htrav & Hsource & Hvis & Hsorted & Hnear & Hdone).
  pose proof (out_neigh_range g u v Hwf Hedge) as Hv.
  destruct (visit_neighbors_total g Hmax [v] depth to_visit it u Htrav Hit)
    as (depth' & ext & Hrun & Htrav').
  { by apply Forall_singleton. }
  exists depth', ext. split; [done|].
  pose proof Htrav as (Hlen & Hnd & Hq).
  destruct (Hq it u Hit) as (du & Hdu & Hrange).
  destruct (lookupZ_is_Some depth v) as [dv Hdv];
    [unfold n in *; unfold BFS.NodeID in *; lia|].
  unfold BFS.visit_neighbors in Hrun. cbn [foldM] in Hrun.
  unfold BFS.NodeID in *. rewrite Hdv in Hrun. cbn [mbind option_bind] in Hrun.
  destruct (decide (dv = -1)) as [->|Hne].
  - rewrite Hdu in Hrun. cbn [mbind option_bind] in Hrun.
    pose proof (traversal_queue_length _ _ _ Htrav) as Hbound.
    pose proof (lookup_lt_Some _ _ _ Hit) as Hlt.
    rewrite wrap_small in Hrun
      by (unfold CInt.int_min, n in *; unfold BFS.NodeID in *; lia).
    assert (Hstore : storeZ depth v (du + 1)
                     = Some (<[Z.to_nat v := du + 1]> depth))
      by (apply storeZ_Some; unfold n in *; unfold BFS.NodeID in *; lia).
    rewrite Hstore in Hrun. cbn [mbind option_bind] in Hrun.
    injection Hrun as <- Hext. apply app_inv_head in Hext. subst ext.
    assert (Hfresh : v ∉ to_visit).
    { intros [i Hi]%list_elem_of_lookup.
      destruct (Hq i v Hi) as (d & Hd & ?). rewrite Hdv in Hd.
      injection Hd as <-. lia. }
    assert (Hold : ∀ w, w ∈ to_visit →
              lookupZ (<[Z.to_nat v := du + 1]> depth) w = lookupZ depth w).
    { intros w Hw. apply (lookupZ_storeZ_ne _ _ _ _ _ Hstore).
      intros ->. done. }
    assert (Hkeep : ∀ w d, lookupZ depth w = Some d → d ≠ -1 →
              lookupZ (<[Z.to_nat v := du + 1]> depth) w = Some d).
    { intros w d Hd Hdne.
      rewrite (lookupZ_storeZ_ne _ _ _ _ _ Hstore); [done|].
      intros ->. rewrite Hdv in Hd. by injection Hd as <-. }
    assert (Hnew : lookupZ (<[Z.to_nat v := du + 1]> depth) v
                   = Some (du + 1))
      by (by apply (lookupZ_storeZ_eq _ _ _ _ Hstore)).
    assert (Hlu : BFS.at_level g source (Z.to_nat du) u).
    { apply (Hvis u du Hdu). lia. }
    assert (Hlv : BFS.at_level g source (Z.to_nat (du + 1)) v).
    { replace (Z.to_nat (du + 1)) with (S (Z.to_nat du)) by lia.
      split; [by apply (BFS.reach_S g source _ u v); [apply Hlu|]|].
      intros k Hk Hr.
      destruct (reach_visited depth to_visit it u du Hsem Hit Hdu k v Hr)
        as (d & Hd & Hdne); [lia|].
      rewrite Hdv in Hd. by injection Hd as <-. }
    split; [|split; [done|by exists (du + 1); split; [|lia]]].
    split; [done|]. split; [by apply Hkeep|]. split.
    { intros w d Hd Hdne. destruct (decide (w = v)) as [->|Hwv].
      - rewrite Hnew in Hd. injection Hd as <-.
        split; [lia|]. split; [|done]. apply elem_of_app. right.
        by apply list_elem_of_singleton.
      - rewrite (lookupZ_storeZ_ne _ _ _ _ _ Hstore) in Hd by done.
        destruct (Hvis w d Hd Hdne) as (? & ? & ?).
        split; [done|]. split; [|done]. apply elem_of_app. by left. }
    assert (Hat : ∀ (j : nat) y dy,
              (to_visit ++ [v]) !! j = Some y →
              lookupZ (<[Z.to_nat v := du + 1]> depth) y = Some dy →
              (to_visit !! j = Some y ∧ lookupZ depth y = Some dy)
              ∨ (j = length to_visit ∧ y = v ∧ dy = du + 1)).
    { intros j y dy Hj Hdy.
      apply lookup_app_Some in Hj as [Hj|[Hge Hj]].
      - left. split; [done|]. rewrite <- Hdy. symmetry. apply Hold.
        by eapply list_elem_of_lookup_2.
      - right. apply list_lookup_singleton_Some in Hj as [Hj <-].
        rewrite Hnew in Hdy. injection Hdy as <-. split; [lia|done]. }
    assert (Hcur : ∀ y dy, to_visit !! it = Some y →
              lookupZ depth y = Some dy → dy = du).
    { intros y dy Hy Hdy. rewrite Hit in Hy. injection Hy as <-.
      rewrite Hdu in Hdy. by injection Hdy. }
    split.
    { intros i j x y dx dy Hij Hi Hj Hdx Hdy.
      destruct (Hat i x dx Hi Hdx) as [[Hi' Hdx']|(-> & -> & ->)];
        destruct (Hat j y dy Hj Hdy) as [[Hj' Hdy']|(-> & -> & ->)].
      - by apply (Hsorted i j x y).
      - by apply (Hnear u du i x dx).
      - apply lookup_lt_Some in Hj'. lia.
      - lia. }
    split.
    { intros u' du' j y dy Hu' Hdu' Hj Hdy.
      rewrite lookup_app_l in Hu' by lia.
      rewrite Hu' in Hit. injection Hit as ->.
      rewrite Hold in Hdu' by (by eapply list_elem_of_lookup_2).
      rewrite Hdu in Hdu'. injection Hdu' as <-.
      destruct (Hat j y dy Hj Hdy) as [[Hj' Hdy']|(-> & -> & ->)]; [|lia].
      by apply (Hnear u du j y dy). }
    intros i x w Hi Hx Hw.
    rewrite lookup_app_l in Hx by lia.
    destruct (Hdone i x w Hi Hx Hw) as (d & Hd & Hdne).
    exists d. split; [by apply Hkeep|done].
  - injection Hrun as <- Hext.
    assert (ext = []) as ->.
    { apply (app_inv_head to_visit). by rewrite app_nil_r. }
    rewrite app_nil_r. split; [done|]. split; [done|]. by exists dv.
Qed.

(** The loop over the neighbours of the vertex at the iterator. *)
Lemma visit_neighbors_sem vs : ∀ depth to_visit it u,
  sem depth to_visit it → to_visit !! it = Some u →
  (∀ v, v ∈ vs → v ∈ Graph.out_neigh g u) →
  ∃ depth' ext,
    BFS.visit_neighbors depth to_visit u vs = Some (depth', to_visit ++ ext)
    ∧ sem depth' (to_visit ++ ext) it
    ∧ (∀ w d, lookupZ depth w = Some d → d ≠ -1 → lookupZ depth' w = Some d)
    ∧ ∀ v, v ∈ vs → ∃ d, lookupZ depth' v = Some d ∧ d ≠ -1.
Proof using Hwf Hmax Hsrc.
  induction vs as [|v vs IH]; intros depth to_visit it u Hsem Hit Hvs.
  - exists depth, []. rewrite app_nil_r. split; [done|]. split; [done|].
    split; [done|]. by intros v ?%elem_of_nil.
  - destruct (visit_one depth to_visit it u v Hsem Hit)
      as (depth1 & ext1 & Hrun1 & Hsem1 & Hkeep1 & Hv1);
      [apply Hvs; left|].
    destruct (IH depth1 (to_visit ++ ext1) it u Hsem1)
      as (depth2 & ext2 & Hrun2 & Hsem2 & Hkeep2 & Hvs2).
    { by apply lookup_app_l_Some. }
    { intros w Hw. apply Hvs. by right. }
    exists depth2, (ext1 ++ ext2). rewrite app_assoc.
    split; [by rewrite visit_neighbors_cons, Hrun1|].
    split; [done|]. split.
    + intros w d Hd Hne. apply Hkeep2; [|done]. by apply Hkeep1.
    + intros w [->|Hw]%elem_of_cons; [|by apply Hvs2].
      destruct Hv1 as (d & Hd & Hne). exists d. split; [|done].
      apply Hkeep2; done.
Qed.

(** The depths that the traversal ends with are the levels. *)
Lemma serial_bfs_sem fuel : ∀ depth to_visit it,
  sem depth to_visit it →
  (Z.to_nat n - it < fuel)%nat →
  ∃ depth',
    BFS.serial_bfs fuel g depth to_visit it = Some depth'
    ∧ Z.of_nat (length depth') = n
    ∧ ∀ v d, lookupZ depth' v = Some d →
        (d = -1 ∧ ∀ k, ¬ BFS.reach g source k v)
        ∨ (0 ≤ d ∧ BFS.at_level g source (Z.to_nat d) v).
Proof using Hwf Hmax Hsrc.
  induction fuel as [|fuel IH]; intros depth to_visit it Hsem Hfuel; [lia|].
  pose proof Hsem as (Htrav & Hsource & Hvis & Hsorted & Hnear & Hdone).
  cbn [BFS.serial_bfs]. destruct (to_visit !! it) as [u|] eqn:Hit.
  - destruct (visit_neighbors_sem (Graph.out_neigh g u) depth to_visit it u
                Hsem Hit)
      as (depth' & ext & Hrun & Hsem' & Hkeep & Hall); [done|].
    rewrite Hrun. cbn [mbind option_bind].
    pose proof Hsem' as (Htrav' & Hsource' & Hvis' & Hsorted' & Hnear' & Hdone').
    apply IH.
    + split; [done|]. split; [done|]. split; [done|]. split; [done|]. split.
      * intros u' du' j y dy Hu' Hdu' Hj Hdy.
        assert (Hu : (to_visit ++ ext) !! it = Some u)
          by (by apply lookup_app_l_Some).
        destruct Htrav' as (_ & _ & Hq').
        destruct (Hq' it u Hu) as (du & Hdu & _).
        pose proof (Hnear' u du j y dy Hu Hdu Hj Hdy).
        pose proof (Hsorted' it (S it) u u' du du' ltac:(lia) Hu Hu' Hdu Hdu').
        lia.
      * intros i x v Hi Hx Hv.
        destruct (decide (i < it)%nat) as [Hlt|Hge].
        { by apply (Hdone' i x v). }
        assert (i = it) as -> by lia.
        rewrite lookup_app_l in Hx by (by eapply lookup_lt_Some).
        unfold BFS.NodeID in *. assert (x = u) as -> by congruence.
        by apply Hall.
    + pose proof (lookup_lt_Some _ _ _ Hit).
      pose proof (traversal_queue_length _ _ _ Htrav).
      unfold n in *. unfold BFS.NodeID in *. lia.
  - exists depth. split; [done|]. split; [apply Htrav|].
    apply lookup_ge_None in Hit.
    assert (Hclosed : ∀ k w, BFS.reach g source k w →
              ∃ d, lookupZ depth w = Some d ∧ d ≠ -1).
    { intros k w Hr. induction Hr as [|k x w Hx IHx Hedge].
      - by exists 0.
      - destruct IHx as (dx & Hdx & Hne).
        destruct (Hvis x dx Hdx Hne) as (_ & [i Hi]%list_elem_of_lookup & _).
        apply (Hdone i x w); [|done|done].
        apply lookup_lt_Some in Hi. lia. }
    intros v d Hd. destruct (decide (d = -1)) as [->|Hne].
    + left. split; [done|]. intros k Hr.
      destruct (Hclosed k v Hr) as (d' & Hd' & Hne').
      rewrite Hd in Hd'. by injection Hd' as <-.
    + right. destruct (Hvis v d Hd Hne) as (? & _ & ?). done.
Qed.

Lemma reference_depths_levels fuel :
  (Z.to_nat n < fuel)%nat →
  ∃ depth,
    BFS.reference_depths fuel g source = Some depth
    ∧ Z.of_nat (length depth) = n
    ∧ ∀ v d, lookupZ depth v = Some d →
        (d = -1 ∧ ∀ k, ¬ BFS.reach g source k v)
        ∨ (0 ≤ d ∧ BFS.at_level g source (Z.to_nat d) v).
Proof using Hwf Hmax Hsrc.
  intros Hfuel. unfold BFS.reference_depths. fold n.
  set (depth0 := replicate (Z.to_nat n) (-1)).
  assert (Hlen : Z.of_nat (length depth0) = n).
  { unfold depth0. rewrite length_replicate. lia. }
  assert (Hstore : storeZ depth0 source 0
                   = Some (<[Z.to_nat source := 0]> depth0))
    by (apply storeZ_Some; lia).
  rewrite Hstore. cbn [mbind option_bind].
  assert (Hzero : lookupZ (<[Z.to_nat source := 0]> depth0) source = Some 0)
    by (by apply (lookupZ_storeZ_eq _ _ _ _ Hstore)).
  assert (Hrest : ∀ v d, lookupZ (<[Z.to_nat source := 0]> depth0) v = Some d →
            d ≠ -1 → v = source ∧ d = 0).
  { intros v d Hd Hne. destruct (decide (v = source)) as [->|Hvs].
    - rewrite Hzero in Hd. by injection Hd as <-.
    - rewrite (lookupZ_storeZ_ne _ _ _ _ _ Hstore) in Hd by done.
      apply lookupZ_Some in Hd as [_ Hd]. unfold depth0 in Hd.
      apply lookup_replicate in Hd as [-> _]. done. }
  apply serial_bfs_sem; [|lia].
  assert (Hone : ∀ (i : nat) x, [source] !! i = Some x → i = 0%nat ∧ x = source).
  { intros i x Hi. by apply list_lookup_singleton_Some in Hi as [-> ->]. }
  split.
  { split; [by rewrite length_insert|]. split; [apply NoDup_singleton|].
    intros i u [-> ->]%Hone. exists 0. split; [done|lia]. }
  split; [done|]. split.
  { intros v d Hd Hne. destruct (Hrest v d Hd Hne) as [-> ->].
    split; [lia|]. split; [by apply list_elem_of_singleton|].
    by apply at_level_zero. }
  split.
  { intros i j x y dx dy _ [-> ->]%Hone [-> ->]%Hone Hdx Hdy.
    rewrite Hdx in Hdy. injection Hdy as <-. lia. }
  split.
  { intros u du j y dy [_ ->]%Hone Hdu [-> ->]%Hone Hdy.
    rewrite Hdu in Hdy. injection Hdy as <-. lia. }
  intros i x v Hi. lia.
Qed.

(** The array agrees with the depths of the traversal exactly when it
    is a breadth-first tree. *)
Lemma agrees_bfs_tree depth parent :
  BFS.transposed g →
  Z.of_nat (length depth) = n → Z.of_nat (length parent) = n →
  (∀ v d, lookupZ depth v = Some d →
     (d = -1 ∧ ∀ k, ¬ BFS.reach g source k v)
     ∨ (0 ≤ d ∧ BFS.at_level g source (Z.to_nat d) v)) →
  BFS.agrees g source depth parent ↔ BFS.bfs_tree g source parent.
Proof using Hwf Hsrc.
  intros Htr Hdepth Hparent Hlevels.
  assert (Hzero : lookupZ depth source = Some 0).
  { destruct (lookupZ_is_Some depth source) as [d Hd]; [lia|].
    destruct (Hlevels source d Hd) as [[_ Hno]|[Hpos Hl]].
    - exfalso. apply (Hno 0%nat). constructor.
    - pose proof (level_unique g source _ 0%nat source Hl
                    (proj2 (at_level_zero g source source) eq_refl)).
      rewrite Hd. f_equal. lia. }
  split.
  - intros Hagrees. split; [done|]. split.
    { destruct (lookupZ_is_Some parent source) as [p Hp]; [lia|].
      destruct (Hagrees source 0 p Hzero Hp) as (_ & Hs & _).
      rewrite Hp. f_equal. by apply Hs. }
    intros v Hv Hvs.
    destruct (lookupZ_is_Some depth v) as [d Hd];
      [unfold n in *; unfold BFS.NodeID in *; lia|].
    destruct (lookupZ_is_Some parent v) as [p Hp];
      [unfold n in *; unfold BFS.NodeID in *; lia|].
    destruct (Hagrees v d p Hd Hp) as (Hiff & _ & Hpar).
    destruct (Hlevels v d Hd) as [[-> Hno]|[Hpos Hl]].
    + left. split; [|done]. rewrite Hp. f_equal. by apply Hiff.
    + right. destruct (Hpar ltac:(lia) Hvs) as [Hin Hdp].
      pose proof (in_neigh_range g v p Hwf Hin) as Hprange.
      destruct (Hlevels p (d - 1) Hdp) as [[Hd1 _]|[Hpos' Hlp]].
      * exfalso. assert (d = 0) as -> by lia.
        by apply at_level_zero in Hl.
      * exists p, (Z.to_nat (d - 1)). split; [done|]. split; [lia|].
        split; [by apply Htr|]. split; [done|].
        by replace (S (Z.to_nat (d - 1))) with (Z.to_nat d) by lia.
  - intros (_ & Hsource & Htree) u du pu Hdu Hpu.
    pose proof (lookupZ_lt _ _ _ Hdu) as Hu.
    destruct (decide (u = source)) as [->|Hus].
    + rewrite Hzero in Hdu. injection Hdu as <-.
      rewrite Hsource in Hpu. injection Hpu as <-.
      split; [split; lia|]. split; [done|]. done.
    + destruct (Htree u ltac:(unfold n in *; unfold BFS.NodeID in *; lia) Hus)
        as [[Hp Hno]|(p & d & Hp & Hpos & Hedge & Hlp & Hlu)].
      * rewrite Hpu in Hp. injection Hp as ->.
        destruct (Hlevels u du Hdu) as [[-> _]|[_ [Hr _]]];
          [|by apply Hno in Hr].
        split; [done|]. split; [done|]. done.
      * rewrite Hpu in Hp. injection Hp as <-.
        destruct (Hlevels u du Hdu) as [[_ Hno]|[Hpos' Hl]];
          [by destruct Hlu as [Hr%Hno _]|].
        pose proof (level_unique g source _ _ u Hl Hlu) as Hd.
        split; [split; lia|]. split; [done|]. intros _ _.
        split; [by apply Htr|].
        pose proof (out_neigh_source g pu u Hedge) as Hprange.
        destruct (lookupZ_is_Some depth pu) as [dp Hdp];
          [unfold n in *; unfold BFS.NodeID in *; lia|].
        rewrite Hdp. f_equal.
        destruct (Hlevels pu dp Hdp) as [[_ Hno]|[Hposp Hlp']];
          [by destruct Hlp as [Hr%Hno _]|].
        pose proof (level_unique g source _ _ pu Hlp' Hlp). lia.
Qed.

(** The verdict of the verifier. *)
Lemma BFSVerifier_spec fuel parent :
  BFS.transposed g → Z.of_nat (length parent) = n →
  (Z.to_nat n < fuel)%nat →
  ∃ verdict warnings,
    BFS.BFSVerifier fuel g source parent = Some (verdict, warnings)
    ∧ (verdict = true ↔ BFS.bfs_tree g source parent)
    ∧ (verdict = true → warnings = [])
    ∧ (verdict = false → ∃ w, warnings = [w]).
Proof using Hwf Hmax Hsrc.
  intros Htr Hparent Hfuel.
  destruct (reference_depths_levels fuel Hfuel)
    as (depth & Href & Hdepth & Hlevels).
  destruct (check_vertices_spec g source depth parent Hwf Hdepth Hparent
              (seqZ 0 (Graph.num_nodes g)))
    as (verdict & warnings & Hrun & Hiff & Hrest).
  { apply Forall_forall. intros u Hu%elem_of_seqZ. lia. }
  exists verdict, warnings. unfold BFS.BFSVerifier. rewrite Href.
  split; [done|]. split; [|done].
  rewrite Hiff, <- (agrees_vertices g source depth parent Hdepth).
  by apply agrees_bfs_tree.
Qed.

End Serial.

(** X13. [BFSVerifier] accepts the breadth-first trees and nothing
    else. The depths of its serial traversal are the levels of the
    search: [-1] for a vertex that no walk from the source reaches, and
    otherwise the length of the shortest walk to the vertex. On a graph
    whose incoming half is the transpose of its outgoing half, the
    verdict for an array with a slot for every vertex is [true] exactly
    when the source is its own parent, the unreached vertices have [-1]
    and every other vertex has a parent on the level before its own
    with an edge to it. *)
Theorem BFSVerifier_accepts_bfs_trees (fuel : nat) (g : BFS.Graph)
    (source : BFS.NodeID) (parent : list BFS.NodeID) :
  BFS.well_formed g → BFS.transposed g →
  Graph.num_nodes g ≤ CInt.int_max →
  0 ≤ source < Graph.num_nodes g →
  Z.of_nat (length parent) = Graph.num_nodes g →
  (Z.to_nat (Graph.num_nodes g) < fuel)%nat →
  ∃ depth verdict warnings,
    BFS.reference_depths fuel g source = Some depth
    ∧ (∀ v d, lookupZ depth v = Some d →
         (d = -1 ∧ ∀ k, ¬ BFS.reach g source k v)
         ∨ (0 ≤ d ∧ BFS.at_level g source (Z.to_nat d) v))
    ∧ BFS.BFSVerifier fuel g source parent = Some (verdict, warnings)
    ∧ (verdict = true ↔ BFS.bfs_tree g source parent).
Proof.
  intros Hwf Htr Hmax Hsrc Hparent Hfuel.
  destruct (reference_depths_levels g source Hwf Hmax Hsrc fuel Hfuel)
    as (depth & Href & _ & Hlevels).
  destruct (BFSVerifier_spec g source Hwf Hmax Hsrc fuel parent Htr Hparent
              Hfuel) as (verdict & warnings & Hrun & Hiff & _).
  by exists depth, verdict, warnings.
Qed.

Lemma BFSVerifier_accepts_bfs_trees_witness :
  ∃ depth verdict warnings,
    BFS.reference_depths 3 BottomUpRun.one_edge 0 = Some depth
    ∧ (∀ v d, lookupZ depth v = Some d →
         (d = -1 ∧ ∀ k, ¬ BFS.reach BottomUpRun.one_edge 0 k v)
         ∨ (0 ≤ d ∧ BFS.at_level BottomUpRun.one_edge 0 (Z.to_nat d) v))
    ∧ BFS.BFSVerifier 3 BottomUpRun.one_edge 0 [0; 0]
      = Some (verdict, warnings)
    ∧ (verdict = true ↔ BFS.bfs_tree BottomUpRun.one_edge 0 [0; 0]).
Proof.
  apply (BFSVerifier_accepts_bfs_trees 3 BottomUpRun.one_edge 0 [0; 0]).
  - split; [reflexivity|].
    change (Graph.num_nodes BottomUpRun.one_edge) with 2.
    split; repeat (constructor; [repeat (constructor; [lia|]); constructor|]);
      constructor.
  - intros u v. unfold Graph.in_neigh, Graph.out_neigh.
    assert (Hu : u = 0 ∨ u = 1 ∨ ¬ 0 ≤ u < 2) by lia.
    assert (Hv : v = 0 ∨ v = 1 ∨ ¬ 0 ≤ v < 2) by lia.
    destruct Hu as [->|[->|Hu]]; destruct Hv as [->|[->|Hv]];
      try rewrite (lookupZ_None _ u) by done;
      try rewrite (lookupZ_None _ v) by done;
      simpl; rewrite ?elem_of_nil, ?list_elem_of_singleton; try done; lia.
  - vm_compute. discriminate.
  - vm_compute. split; [discriminate|reflexivity].
  - reflexivity.
  - vm_compute. lia.
Defined.

(** X14. On a job of one rank, what [DOBFS] returns passes
    [BFSVerifier]: the kernel ends with a parent array, and the
    verifier returns [true] for it and prints no warning. *)
Theorem DOBFS_passes_BFSVerifier (g : BFS.Graph) (source : BFS.NodeID)
    (alpha beta : Z) (a : BFS.allocations) (fuel : nat) :
  BFS.well_formed g → BFS.transposed g →
  Graph.num_nodes g ≤ CInt.int_max →
  0 ≤ source < Graph.num_nodes g →
  alpha ≠ 0 → 0 < beta →
  Z.of_nat (length (BFS.fresh_parent a 0)) = Graph.num_nodes g →
  (∀ k, Z.of_nat (length (BFS.fresh_queue a k)) = BFS.kQueueBufferSize) →
  (∀ k, length (BFS.fresh_scout a k) = 1%nat) →
  (Z.to_nat (Graph.num_nodes g) < fuel)%nat →
  ∃ parent,
    BFS.DOBFS fuel g source 0 1 alpha beta a = Some parent
    ∧ BFS.BFSVerifier fuel g source parent = Some (true, []).
Proof.
  intros Hwf Htr Hmax Hsrc Halpha Hbeta Hfp Hfq Hfs Hfuel.
  destruct (DOBFS_alone g source alpha beta Hwf Htr Hmax Hsrc Halpha Hbeta
              a fuel Hfp Hfq Hfs Hfuel) as (parent & Hrun & Htree).
  exists parent. split; [done|].
  destruct (BFSVerifier_spec g source Hwf Hmax Hsrc fuel parent Htr
              (proj1 Htree) Hfuel)
    as (verdict & warnings & Hcheck & Hiff & Hquiet & _).
  apply Hiff in Htree. subst verdict. by rewrite Hquiet in Hcheck.
Qed.

Lemma DOBFS_passes_BFSVerifier_witness :
  ∃ parent,
    BFS.DOBFS 3 BottomUpRun.one_edge 0 0 1 15 18
      (BFS.mkAllocations (λ _, [7; 7])
         (λ _, replicate (Z.to_nat BFS.kQueueBufferSize) 7) (λ _, [7]))
    = Some parent
    ∧ BFS.BFSVerifier 3 BottomUpRun.one_edge 0 parent = Some (true, []).
Proof.
  apply (DOBFS_passes_BFSVerifier BottomUpRun.one_edge 0 15 18
           (BFS.mkAllocations (λ _, [7; 7])
              (λ _, replicate (Z.to_nat BFS.kQueueBufferSize) 7)
              (λ _, [7])) 3).
  - split; [reflexivity|].
    change (Graph.num_nodes BottomUpRun.one_edge) with 2.
    split; repeat (constructor; [repeat (constructor; [lia|]); constructor|]);
      constructor.
  - intros u v. unfold Graph.in_neigh, Graph.out_neigh.
    assert (Hu : u = 0 ∨ u = 1 ∨ ¬ 0 ≤ u < 2) by lia.
    assert (Hv : v = 0 ∨ v = 1 ∨ ¬ 0 ≤ v < 2) by lia.
    destruct Hu as [->|[->|Hu]]; destruct Hv as [->|[->|Hv]];
      try rewrite (lookupZ_None _ u) by done;
      try rewrite (lookupZ_None _ v) by done;
      simpl; rewrite ?elem_of_nil, ?list_elem_of_singleton; try done; lia.
  - vm_compute. discriminate.
  - vm_compute. split; [discriminate|reflexivity].
  - lia.
  - lia.
  - reflexivity.
  - intros k. cbn [BFS.fresh_queue].
    by rewrite length_replicate, Z2Nat.id.
  - intros k. reflexivity.
  - vm_compute. lia.
Defined.
(* ================================================================== *)
(** * The rest of delta-stepping (sssp.cc) *)
(* ================================================================== *)

(** ** Shortest walks *)

Section Shortest.

Variables (g : SSSP.WGraph) (source : SSSP.NodeID) (delta : Z).
Hypothesis Hwf : SSSP.well_formed g.
Hypothesis Hdelta : 0 < delta.
Hypothesis Hnodes : Graph.num_nodes g ≤ CInt.int_max.

(** Distances that are relaxed along every edge are below the weight
    of every walk from the source. *)
Lemma relaxed_shortest d :
  SSSP.dist_ok g source d → SSSP.relaxed g d →
  ∀ v w, SSSP.path g source v w → ∃ dv, lookupZ d v = Some dv ∧ dv ≤ w.
Proof using Hwf.
  intros Hd Hrel v w Hpath.
  induction Hpath as [|v t w d0 Hpath IH Hedge].
  - exists 0. split; [apply Hd|lia].
  - destruct IH as (dv & Hdv & Hle).
    destruct (out_neigh_weighted g Hwf v t w Hedge) as [Ht Hw].
    destruct (decide (dv < SSSP.kDistInf)) as [Hfin|Hinf].
    + destruct (Hrel v dv Hdv Hfin t w Hedge) as (dt & Hdt & Hle').
      exists dt. split; [done|lia].
    + destruct Hd as (Hlen & Hrange & _).
      destruct (lookupZ_is_Some d t) as [dt Hdt];
        [unfold SSSP.NodeID in *; lia|].
      exists dt. split; [done|].
      apply lookupZ_Some in Hdt as [_ Hdt].
      eapply Forall_lookup_1 in Hrange; [|exact Hdt]. simpl in Hrange. lia.
Qed.

(** The kernel on one rank. *)
Lemma Shmem_DeltaStep_alone fuel fresh_frontier m :
  0 ≤ source < Graph.num_nodes g →
  Z.of_nat (length (fresh_frontier 0)) = Graph.num_edges_directed g →
  (Graph.num_nodes g - 1) * SSSP.kDistInf + 1 < Z.of_nat fuel →
  (Graph.num_edges_directed g = 0 →
   SSSP.Shmem_DeltaStep fuel g source delta 0 1 fresh_frontier [m]
   = SSSP.Fault SSSP.Frontier_write)
  ∧ match SSSP.Shmem_DeltaStep fuel g source delta 0 1 fresh_frontier [m] with
    | SSSP.Done dist => SSSP.dist_ok g source dist ∧ SSSP.relaxed g dist
    | SSSP.Fault what => what = SSSP.Frontier_write
    | SSSP.OutOfFuel => False
    end.
Proof using Hwf Hdelta Hnodes.
  intros Hsource Hfresh Hfuel. unfold SSSP.Shmem_DeltaStep.
  rewrite (DeltaStep_init_single g source Hnodes) by done.
  case_decide as Hedges; [|split; [done|done]].
  split; [lia|].
  cbn [mbind SSSP.result_bind]. rewrite make_single.
  cbn [SSSP.lift mbind SSSP.result_bind].
  destruct (initial_head_inv g source delta Hdelta (fresh_frontier 0)
              Hsource Hfresh Hedges) as [Hhead Hpot].
  assert (Hpre : SSSP.potential
                   (<[Z.to_nat source := 0]>
                      (replicate (Z.to_nat (Graph.num_nodes g))
                         SSSP.kDistInf)) [] + 1 < Z.of_nat fuel)
    by (rewrite Hpot; lia).
  match goal with
  | |- context [SSSP.DeltaStep_loop fuel g delta _ 0 ?r] =>
      change r with
        (SSSP.alone
           (<[Z.to_nat source := 0]>
              (replicate (Z.to_nat (Graph.num_nodes g)) SSSP.kDistInf))
           (<[0%nat := source]> (fresh_frontier 0)) [1; 0] m 0
           [0; SSSP.kMaxBin] []);
      pose proof (DeltaStep_loop_single g source delta Hwf Hdelta Hnodes
                    fuel _ _ _ m _ _ _
                    (or_introl (ex_intro _ 0 (ex_intro _ 1
                       (conj Hhead Hpre))))) as Hloop;
      destruct (SSSP.DeltaStep_loop fuel g delta
                  (SSSP.single (Graph.num_nodes g)) 0
                  (SSSP.alone
                     (<[Z.to_nat source := 0]>
                        (replicate (Z.to_nat (Graph.num_nodes g))
                           SSSP.kDistInf))
                     (<[0%nat := source]> (fresh_frontier 0)) [1; 0] m 0
                     [0; SSSP.kMaxBin] [])) as [r'|what|]
  end; cbn [mbind SSSP.result_bind]; [|done|done].
  destruct Hloop as (d' & Hdist & Hd' & Hrel). rewrite Hdist.
  rewrite lookupZ_singleton. cbn [SSSP.lift]. done.
Qed.

End Shortest.

(** X15. On a job of one rank, [Shmem_DeltaStep] with [delta > 0]
    ends, under any bound above [(num_nodes - 1) * kDistInf + 1] on the
    rounds of its loops, and what it returns are the distances of
    shortest walks:
    every entry lies between 0 and [kDistInf], the source is at 0, an
    entry below [kDistInf] is the weight of a walk from the source to
    the vertex, and no walk from the source to the vertex weighs less
    than its entry. The only way in which the kernel fails is a write
    past the end of the frontier, which has [num_edges_directed] slots:
    it does so at once on a graph without edges, where writing the
    source into [frontier[0]] already leaves the array. *)
Theorem Shmem_DeltaStep_shortest_walks (fuel : nat) (g : SSSP.WGraph)
    (source : SSSP.NodeID) (delta : Z) (fresh_frontier : Z → list SSSP.NodeID)
    (m : Z) :
  SSSP.well_formed g → 0 < delta →
  Graph.num_nodes g ≤ CInt.int_max →
  0 ≤ source < Graph.num_nodes g →
  Z.of_nat (length (fresh_frontier 0)) = Graph.num_edges_directed g →
  (Graph.num_nodes g - 1) * SSSP.kDistInf + 1 < Z.of_nat fuel →
  (Graph.num_edges_directed g = 0 →
   SSSP.Shmem_DeltaStep fuel g source delta 0 1 fresh_frontier [m]
   = SSSP.Fault SSSP.Frontier_write)
  ∧ match SSSP.Shmem_DeltaStep fuel g source delta 0 1 fresh_frontier [m] with
    | SSSP.Done dist =>
        Z.of_nat (length dist) = Graph.num_nodes g
        ∧ lookupZ dist source = Some 0
        ∧ ∀ v dv, lookupZ dist v = Some dv →
            0 ≤ dv ≤ SSSP.kDistInf
            ∧ (dv < SSSP.kDistInf → SSSP.path g source v dv)
            ∧ ∀ w, SSSP.path g source v w → dv ≤ w
    | SSSP.Fault what => what = SSSP.Frontier_write
    | SSSP.OutOfFuel => False
    end.
Proof.
  intros Hwf Hdelta Hnodes Hsource Hfresh Hfuel.
  destruct (Shmem_DeltaStep_alone g source delta Hwf Hdelta Hnodes fuel
              fresh_frontier m Hsource Hfresh Hfuel) as [Hnone Hrun].
  split; [done|].
  destruct (SSSP.Shmem_DeltaStep fuel g source delta 0 1 fresh_frontier [m])
    as [dist|what|]; [|done|done].
  destruct Hrun as [Hd Hrel].
  pose proof Hd as (Hlen & Hrange & Hzero & Hwit).
  split; [done|]. split; [done|]. intros v dv Hdv.
  split; [by apply (dist_range g source dist v)|].
  split; [by apply Hwit|]. intros w Hpath.
  destruct (relaxed_shortest g source Hwf dist Hd Hrel v w Hpath)
    as (dv' & Hdv' & Hle).
  rewrite Hdv in Hdv'. injection Hdv' as <-. done.
Qed.

Lemma Shmem_DeltaStep_shortest_walks_witness :
  (Graph.num_edges_directed Scenario.unit_path6 = 0 →
   SSSP.Shmem_DeltaStep (Z.to_nat (2 ^ 33)) Scenario.unit_path6 0 1 0 1
     (λ _, replicate 10 0) [0]
   = SSSP.Fault SSSP.Frontier_write)
  ∧ match SSSP.Shmem_DeltaStep (Z.to_nat (2 ^ 33)) Scenario.unit_path6 0 1 0 1
            (λ _, replicate 10 0) [0] with
    | SSSP.Done dist =>
        Z.of_nat (length dist) = Graph.num_nodes Scenario.unit_path6
        ∧ lookupZ dist 0 = Some 0
        ∧ ∀ v dv, lookupZ dist v = Some dv →
            0 ≤ dv ≤ SSSP.kDistInf
            ∧ (dv < SSSP.kDistInf → SSSP.path Scenario.unit_path6 0 v dv)
            ∧ ∀ w, SSSP.path Scenario.unit_path6 0 v w → dv ≤ w
    | SSSP.Fault what => what = SSSP.Frontier_write
    | SSSP.OutOfFuel => False
    end.
Proof.
  apply (Shmem_DeltaStep_shortest_walks (Z.to_nat (2 ^ 33))
           Scenario.unit_path6 0 1 (λ _, replicate 10 0) 0).
  - apply (bool_decide_unpack _). vm_compute. exact I.
  - lia.
  - vm_compute. discriminate.
  - vm_compute. split; [discriminate|reflexivity].
  - reflexivity.
  - rewrite Z2Nat.id by lia.
    change (Graph.num_nodes Scenario.unit_path6) with 6.
    rewrite kDistInf_eq. lia.
Defined.

(** ** The output of the verifier *)

Lemma mapM_seqZ_fmap {A} (f : Z → option A) (h : Z → A) lo len :
  (∀ x, lo ≤ x < lo + len → f x = Some (h x)) →
  mapM f (seqZ lo len) = Some (h <$> seqZ lo len).
Proof.
  intros Hf. apply mapM_Some. apply Forall2_fmap_r, Forall_Forall2_diag.
  apply Forall_forall. intros x Hx%elem_of_seqZ. by apply Hf.
Qed.

Lemma fmap_same {A B} (y : B) (l : list A) :
  (λ _, y) <$> l = replicate (length l) y.
Proof. induction l as [|x l IH]; [done|]. csimpl. by rewrite IH. Qed.

(** The slices of the ranks, one after the other, are the vertices in
    ascending order. *)
Lemma slices_tile n npes :
  1 ≤ npes → npes ≤ n →
  (seqZ 0 npes
     ≫= λ pe, seqZ (pe * (n `div` npes))
                (if decide (pe < npes - 1) then n `div` npes
                 else n - (npes - 1) * (n `div` npes)))
  = seqZ 0 n.
Proof.
  intros Hp Hn. set (pw := n `div` npes).
  assert (Hpw : 1 ≤ pw) by (apply Z.div_le_lower_bound; lia).
  assert (Hnp : pw * npes ≤ n).
  { unfold pw. rewrite Z.mul_comm. apply Z.mul_div_le. lia. }
  assert (Hfront : ∀ k : nat, Z.of_nat k ≤ npes - 1 →
            (seqZ 0 (Z.of_nat k)
               ≫= λ pe, seqZ (pe * pw)
                          (if decide (pe < npes - 1) then pw
                           else n - (npes - 1) * pw))
            = seqZ 0 (Z.of_nat k * pw)).
  { induction k as [|k IH]; intros Hk; [done|].
    rewrite Nat2Z.inj_succ, <- Z.add_1_r.
    rewrite (seqZ_app 0 (Z.of_nat k) 1) by lia.
    rewrite bind_app, IH by lia. rewrite Z.add_0_l, seqZ_one. csimpl.
    rewrite app_nil_r, decide_True by lia.
    replace ((Z.of_nat k + 1) * pw) with (Z.of_nat k * pw + pw) by lia.
    rewrite (seqZ_app 0 (Z.of_nat k * pw) pw) by nia. done. }
  replace npes with (Z.of_nat (Z.to_nat (npes - 1)) + 1) at 1 by lia.
  rewrite (seqZ_app 0 (Z.of_nat (Z.to_nat (npes - 1))) 1) by lia.
  rewrite bind_app, Hfront by lia. rewrite Z.add_0_l, seqZ_one. csimpl.
  rewrite app_nil_r, decide_False by lia.
  rewrite Z2Nat.id by lia.
  transitivity (seqZ 0 ((npes - 1) * pw + (n - (npes - 1) * pw)));
    [|f_equal; lia].
  by rewrite (seqZ_app 0 ((npes - 1) * pw) (n - (npes - 1) * pw)) by nia.
Qed.

Section VerifierLines.

Variables (g : SSSP.WGraph) (source : Z) (npes : Z).

Let n := Graph.num_nodes g.
Let pw := n `div` npes.

Hypothesis Hp : 1 ≤ npes.
Hypothesis Hn : npes ≤ n.

Variable dist : list (list Z).

Hypothesis Hranks : Z.of_nat (length dist) = npes.
Hypothesis Hwidth :
  Forall (λ d, n - (npes - 1) * pw ≤ Z.of_nat (length d)) dist.

(** The distance of vertex [x], in the cell of its owner. *)
Let cell (x : Z) : Z :=
  default 0 (d ← lookupZ dist (Builder.owner n npes x);
             lookupZ d (x - Builder.owner n npes x * pw)).

Lemma cell_held x :
  0 ≤ x < n →
  ∃ d, lookupZ dist (Builder.owner n npes x) = Some d
       ∧ lookupZ d (x - Builder.owner n npes x * pw) = Some (cell x).
Proof using Hp Hn Hranks Hwidth.
  intros Hx.
  destruct (owner_range n npes Hp Hn x Hx) as (Hown & Hpos & _).
  destruct (lookupZ_is_Some dist (Builder.owner n npes x)) as [d Hd]; [lia|].
  exists d. split; [done|].
  assert (Hlen : n - (npes - 1) * pw ≤ Z.of_nat (length d)).
  { apply lookupZ_Some in Hd as [_ Hd].
    by eapply Forall_lookup_1 in Hwidth. }
  destruct (lookupZ_is_Some d (x - Builder.owner n npes x * pw)) as [v Hv];
    [unfold pw in *; lia|].
  unfold cell. fold pw. rewrite Hd. simpl. by rewrite Hv.
Qed.

Lemma SSSPVerifier_slice pe d :
  0 ≤ pe < npes → lookupZ dist pe = Some d →
  SSSP.SSSPVerifier g source d pe npes
  = Some (true,
          cell <$> seqZ (pe * pw)
                     (if decide (pe < npes - 1) then pw
                      else n - (npes - 1) * pw)).
Proof using Hp Hn Hranks Hwidth.
  intros Hpe Hd. unfold SSSP.SSSPVerifier. fold n.
  destruct (partition_make n pe npes Hp Hn Hpe)
    as (vp & Hvp & _ & _ & Hpw & Hstart & Hse & Hen & _ & _ & Hmid & Hlast).
  rewrite Hvp. cbn [mbind option_bind].
  assert (Hlen : Partition.end_ vp - Partition.start vp
                 = if decide (pe < npes - 1) then pw
                   else n - (npes - 1) * pw).
  { fold pw in Hpw. case_decide as Hc.
    - rewrite (Hmid Hc). lia.
    - rewrite Hlast by lia. rewrite Hstart, Hpw.
      replace pe with (npes - 1) by lia. done. }
  rewrite Hlen. fold pw in Hpw. rewrite Hstart, Hpw.
  rewrite (mapM_seqZ_fmap _ cell); [done|].
  intros x Hx.
  assert (Hslice : Partition.start vp ≤ x < Partition.end_ vp) by lia.
  destruct (partition_local_pos n pe npes vp x Hp Hn Hpe Hvp Hslice)
    as [_ Hlp].
  destruct (owner_slice n npes Hp Hn pe vp x Hpe Hvp Hslice) as [Hown _].
  rewrite Hlp. cbn [mbind option_bind].
  destruct (cell_held x ltac:(lia)) as (d' & Hd' & Hcell).
  rewrite Hown in Hd', Hcell. rewrite Hd in Hd'. injection Hd' as <-.
  rewrite Hstart, Hpw. done.
Qed.

Lemma SSSPVerifier_job_lines :
  SSSP.SSSPVerifier_job g source dist npes
  = Some (replicate (Z.to_nat npes) true, cell <$> seqZ 0 n).
Proof using Hp Hn Hranks Hwidth.
  unfold SSSP.SSSPVerifier_job.
  rewrite (mapM_seqZ_fmap _
             (λ pe, (true,
                     cell <$> seqZ (pe * pw)
                                (if decide (pe < npes - 1) then pw
                                 else n - (npes - 1) * pw)))).
  - cbn [mbind option_bind]. f_equal. f_equal.
    + rewrite <- list_fmap_compose.
      transitivity ((λ _ : Z, true) <$> seqZ 0 npes); [done|].
      by rewrite fmap_same, length_seqZ.
    + rewrite <- list_fmap_compose.
      rewrite <- (slices_tile n npes Hp Hn). fold pw.
      generalize (seqZ 0 npes). intros l.
      induction l as [|pe l IH]; [done|]. csimpl.
      by rewrite fmap_app, IH.
  - intros pe Hpe.
    destruct (lookupZ_is_Some dist pe) as [d Hd]; [lia|].
    rewrite Hd. cbn [mbind option_bind]. apply SSSPVerifier_slice; [lia|done].
Qed.

End VerifierLines.

(** X16. On a job of [npes] ranks, [SSSPVerifier] appends the
    distances to [sssp_output.txt] in the order of the vertices: the
    ranks write one after the other, each the cells of its own slice, so
    that line [x] of the file holds the distance of vertex [x], read
    from the array of the rank that owns [x] at the local position of
    [x]. Every rank returns [true], whatever the distances. *)
Theorem SSSPVerifier_job_vertex_order (g : SSSP.WGraph) (source npes : Z)
    (dist : list (list Z)) :
  1 ≤ npes → npes ≤ Graph.num_nodes g →
  Z.of_nat (length dist) = npes →
  Forall (λ d, Graph.num_nodes g
               - (npes - 1) * (Graph.num_nodes g `div` npes)
               ≤ Z.of_nat (length d)) dist →
  ∃ lines,
    SSSP.SSSPVerifier_job g source dist npes
    = Some (replicate (Z.to_nat npes) true, lines)
    ∧ Z.of_nat (length lines) = Graph.num_nodes g
    ∧ ∀ x, 0 ≤ x < Graph.num_nodes g →
        ∃ d v,
          lookupZ dist (Builder.owner (Graph.num_nodes g) npes x) = Some d
          ∧ lookupZ d (x - Builder.owner (Graph.num_nodes g) npes x
                           * (Graph.num_nodes g `div` npes)) = Some v
          ∧ lookupZ lines x = Some v.
Proof.
  intros Hp Hn Hranks Hwidth.
  eexists. split; [by apply SSSPVerifier_job_lines|].
  split; [rewrite length_fmap, length_seqZ; lia|].
  intros x Hx.
  destruct (cell_held g npes Hp Hn dist Hranks Hwidth x Hx) as (d & Hd & Hv).
  eexists d, _. split; [done|]. split; [exact Hv|].
  apply lookupZ_Some. split; [lia|].
  rewrite list_lookup_fmap, lookup_seqZ_lt by lia.
  replace (0 + Z.of_nat (Z.to_nat x)) with x by lia. done.
Qed.

Lemma SSSPVerifier_job_vertex_order_witness :
  ∃ lines,
    SSSP.SSSPVerifier_job Scenario.unit_path6 0 [[0; 1; 2; 9]; [3; 4; 5; 9]] 2
    = Some (replicate (Z.to_nat 2) true, lines)
    ∧ Z.of_nat (length lines) = Graph.num_nodes Scenario.unit_path6
    ∧ ∀ x, 0 ≤ x < Graph.num_nodes Scenario.unit_path6 →
        ∃ d v,
          lookupZ [[0; 1; 2; 9]; [3; 4; 5; 9]]
            (Builder.owner (Graph.num_nodes Scenario.unit_path6) 2 x)
          = Some d
          ∧ lookupZ d (x - Builder.owner
                             (Graph.num_nodes Scenario.unit_path6) 2 x
                           * (Graph.num_nodes Scenario.unit_path6 `div` 2))
            = Some v
          ∧ lookupZ lines x = Some v.
Proof.
  apply (SSSPVerifier_job_vertex_order Scenario.unit_path6 0 2
           [[0; 1; 2; 9]; [3; 4; 5; 9]]).
  - lia.
  - vm_compute. discriminate.
  - reflexivity.
  - repeat constructor; vm_compute; discriminate.
Defined.
